(** * Block-sparse tensors of pyblock3 ([src/pyblock3/tensor.py])

    A shallow embedding of [SubTensor] and [SparseTensor] and the proofs
    of the properties stated about them.

    Conventions of the model.
    - Quantum labels ([SZ]) and the dense arrays of numpy are external to
      the file.  They are interfaces here: [QuantumLabel] and
      [DenseArray], whose numpy operations are total functions.  The
      exceptions of the file itself ([IndexError] of tuple indexing,
      [assert], [RuntimeError]) are modelled by the [result] monad.
    - For [truncate_singular_values] a float is the rational number it
      denotes; for [left_canonicalize], where the layout of the arrays
      matters, an array is its shape and its entries in row-major order,
      with the [ValueError] and [TypeError] of [reshape] and
      [concatenate], and [np.linalg.qr] is a parameter.
    - A Python [dict] is an association list in insertion order.
    - A method that assigns to [self] returns the updated object.
    - [SZ], [StateInfo], [itertools.groupby] and [itertools.accumulate],
      which the file uses without importing them, have the meaning of
      their libraries.
    - The conditional at lines 192-193 of the source lacks its colon;
      it is read as [if fermion(...): mat *= -1]. *)

From Stdlib Require Import List ZArith Bool Arith Lia.
From Stdlib Require Import QArith Qreals Reals Lra Permutation Sorted.
Import ListNotations.

Close Scope Q_scope.
Close Scope R_scope.
Open Scope nat_scope.

Set Implicit Arguments.

(** ** Python exceptions *)

Inductive pyerr : Type :=
| IndexError
| KeyError
| ValueError
| TypeError
| AssertionError
| RuntimeError.

Inductive result (T : Type) : Type :=
| Ok (x : T)
| Raise (e : pyerr).

Arguments Ok {T} x.
Arguments Raise {T} e.

Definition bind {T U : Type} (c : result T) (k : T -> result U) : result U :=
  match c with
  | Ok x => k x
  | Raise e => Raise e
  end.

Declare Scope py_scope.
Delimit Scope py_scope with py.
Notation "x <- c ;; k" := (bind c (fun x => k))
  (at level 61, c at next level, right associativity) : py_scope.
Open Scope py_scope.

(** [[f(x) for x in xs]] where [f] may raise: evaluated left to right. *)
Fixpoint mapM {T U : Type} (f : T -> result U) (xs : list T) : result (list U) :=
  match xs with
  | [] => Ok []
  | x :: xs' => y <- f x ;; ys <- mapM f xs' ;; Ok (y :: ys)
  end.

(** A [for] loop over [xs] that threads the loop state [s]. *)
Fixpoint foldM {T St : Type} (body : St -> T -> result St) (xs : list T) (s : St)
  : result St :=
  match xs with
  | [] => Ok s
  | x :: xs' => s' <- body s x ;; foldM body xs' s'
  end.

(** [t[i]] on a tuple or list: negative positions count from the end. *)
Definition py_index {T : Type} (t : list T) (i : Z) : result T :=
  let n := Z.of_nat (length t) in
  let j := if (0 <=? i)%Z then i else (n + i)%Z in
  if (0 <=? j)%Z then
    match nth_error t (Z.to_nat j) with
    | Some x => Ok x
    | None => Raise IndexError
    end
  else Raise IndexError.

(** [range(0, n)] *)
Definition range (n : nat) : list Z := map Z.of_nat (seq 0 n).

(** ** The external interfaces *)

(** Quantum labels: equality, [+] and the [is_fermion] property; [q_zero]
    is the label built by [SZ()]. *)
Class QuantumLabel (L : Type) : Type := {
  q_eqb : L -> L -> bool;
  q_add : L -> L -> L;
  is_fermion : L -> bool;
  q_zero : L;
  q_eqb_spec : forall a b : L, reflect (a = b) (q_eqb a b)
}.

(** The numpy operations the file calls, on arrays [A] with items [S]. *)
Class DenseArray (S A : Type) : Type := {
  ndim : A -> nat;                                 (* len(a.shape) *)
  tensordot : A -> A -> list Z -> list Z -> A;     (* np.tensordot(a, b, axes=(ia, ib)) *)
  iadd : A -> A -> A;                              (* a += b *)
  aneg : A -> A;                                   (* -a, and a *= -1 *)
  smul : S -> A -> A;                              (* s * a *)
  zeros : list nat -> A;                           (* np.zeros(shape) *)
  item : A -> S;                                   (* a.item() *)
  szero : S;                                       (* 0.0 *)
  ndim_aneg : forall a, ndim (aneg a) = ndim a;
  ndim_smul : forall s a, ndim (smul s a) = ndim a;
  ndim_zeros : forall sh, ndim (zeros sh) = length sh
}.

(** ** [FusingTypes] *)

Inductive FusingTypes : Type :=
| Scalar
| ThreeIndexMPSTensor
| UnfusedThreeIndexMPSTensor
| LeftFusedMPSTensor
| RightFusedMPSTensor
| TwoSiteMPSTensor
| FourIndexMPOTensor
| UnfusedFourIndexMPOTensor
| TwoSiteMPOTensor.

Definition ftype_eqb (a b : FusingTypes) : bool :=
  match a, b with
  | Scalar, Scalar
  | ThreeIndexMPSTensor, ThreeIndexMPSTensor
  | UnfusedThreeIndexMPSTensor, UnfusedThreeIndexMPSTensor
  | LeftFusedMPSTensor, LeftFusedMPSTensor
  | RightFusedMPSTensor, RightFusedMPSTensor
  | TwoSiteMPSTensor, TwoSiteMPSTensor
  | FourIndexMPOTensor, FourIndexMPOTensor
  | UnfusedFourIndexMPOTensor, UnfusedFourIndexMPOTensor
  | TwoSiteMPOTensor, TwoSiteMPOTensor => true
  | _, _ => false
  end.

(** ** Dictionaries in insertion order *)

Section Dict.
Variables K V : Type.
Variable keq : K -> K -> bool.

Definition dict : Type := list (K * V).

Fixpoint dict_get (d : dict) (k : K) : option V :=
  match d with
  | [] => None
  | (k', v) :: d' => if keq k' k then Some v else dict_get d' k
  end.

Definition dict_mem (d : dict) (k : K) : bool :=
  match dict_get d k with Some _ => true | None => false end.

(** [d[k] = v]: an existing key keeps its position, a new one goes last. *)
Fixpoint dict_set (d : dict) (k : K) (v : V) : dict :=
  match d with
  | [] => [(k, v)]
  | (k', v') :: d' =>
      if keq k' k then (k', v) :: d' else (k', v') :: dict_set d' k v
  end.

Definition dict_values (d : dict) : list V := map snd d.
Definition dict_keys (d : dict) : list K := map fst d.
End Dict.

(** Equality of tuples of labels. *)
Fixpoint list_eqb {T : Type} (eqb : T -> T -> bool) (x y : list T) : bool :=
  match x, y with
  | [], [] => true
  | a :: x', b :: y' => eqb a b && list_eqb eqb x' y'
  | _, _ => false
  end.

(** ** [SubTensor] and [SparseTensor] *)

Section Tensor.
Context {L S A : Type} `{QL : QuantumLabel L} `{DA : DenseArray S A}.

Record SubTensor : Type := mkSubTensor {
  q_labels : list L;
  reduced : A
}.

(** [SubTensor.rank] is set to [len(q_labels)] by the constructor and never
    assigned again. *)
Definition st_rank (b : SubTensor) : nat := length (q_labels b).

(** [SubTensor.__init__] with both arguments given. *)
Definition SubTensor_init (ql : list L) (red : A) : result SubTensor :=
  if negb (length ql =? 0) && negb (ndim red =? length ql)
  then Raise AssertionError
  else Ok (mkSubTensor ql red).

(** [SubTensor.__mul__] *)
Definition SubTensor_mul (b : SubTensor) (other : S) : result SubTensor :=
  SubTensor_init (q_labels b) (smul other (reduced b)).

(** [SubTensor.__neg__] *)
Definition SubTensor_neg (b : SubTensor) : result SubTensor :=
  SubTensor_init (q_labels b) (aneg (reduced b)).

Record SparseTensor : Type := mkSparseTensor {
  blocks : list SubTensor;
  ftype : FusingTypes;
  delta_quantum : option L
}.

(** [SparseTensor.rank], as a function of the block list. *)
Definition blocks_rank (bs : list SubTensor) : nat :=
  match bs with
  | [] => 0
  | b :: _ => st_rank b
  end.

Definition rank (t : SparseTensor) : nat := blocks_rank (blocks t).

Definition n_blocks (t : SparseTensor) : nat := length (blocks t).

(** [SparseTensor.__init__]; [None] is the default of each argument. *)
Definition SparseTensor_init (bs : option (list SubTensor))
    (ft : option FusingTypes) (dq : option L) : result SparseTensor :=
  let bs' := match bs with Some l => l | None => [] end in
  match ft with
  | None =>
      if blocks_rank bs' =? 3 then Ok (mkSparseTensor bs' ThreeIndexMPSTensor dq)
      else if blocks_rank bs' =? 4 then Ok (mkSparseTensor bs' FourIndexMPOTensor dq)
      else Raise RuntimeError
  | Some f => Ok (mkSparseTensor bs' f dq)
  end.

(** [SparseTensor.__mul__] *)
Definition SparseTensor_mul (t : SparseTensor) (other : S) : result SparseTensor :=
  bs <- mapM (fun b => SubTensor_mul b other) (blocks t) ;;
  SparseTensor_init (Some bs) (Some (ftype t)) None.

(** [SparseTensor.__neg__] *)
Definition SparseTensor_neg (t : SparseTensor) : result SparseTensor :=
  bs <- mapM SubTensor_neg (blocks t) ;;
  SparseTensor_init (Some bs) None None.


(** *** [init_from_state_info] *)

(** The leg-shape map [StateInfo] is not part of the file; only its
    [quanta] attribute, a [Counter] from label to dimension, is used. *)
Record StateInfo : Type := mkStateInfo {
  quanta : dict L nat
}.

(** Modelled from the spec: [StateInfo.__getitem__] is missing from the
    source; the spec gives the leg-shape map a label-keyed dimension
    lookup. *)
Definition StateInfo_getitem (r : StateInfo) (k : L) : result nat :=
  match dict_get q_eqb (quanta r) k with
  | Some d => Ok d
  | None => Raise KeyError
  end.

(** The Python objects that can stand on the left of [in]. *)
Inductive pyobj : Type :=
| PyLabel (q : L)
| PyInt (n : nat)
| PyPair (x y : pyobj).

(** [x in d.items()]: the members of an items view are the
    [(key, value)] pairs of [d]; an object that is not a pair of a key
    and its value is not a member. *)
Definition items_contains (d : dict L nat) (x : pyobj) : bool :=
  match x with
  | PyPair (PyLabel k) (PyInt v) =>
      match dict_get q_eqb d k with
      | Some v' => v' =? v
      | None => false
      end
  | _ => false
  end.

(** The body of the inner loop, over the items of [m]. *)
Definition init_inner (r : StateInfo) (kl : L) (vl : nat)
    (blocks : list SubTensor) (im : L * nat) : result (list SubTensor) :=
  let (km, vm) := im in
  let kr := q_add kl km in
  if items_contains (quanta r) (PyLabel kr) then
    d <- StateInfo_getitem r kr ;;
    b <- SubTensor_init [kl; km; kr] (zeros [vl; vm; d]) ;;
    Ok (blocks ++ [b])
  else Ok blocks.

(** The body of the outer loop, over the items of [l]. *)
Definition init_outer (m r : StateInfo) (blocks : list SubTensor) (il : L * nat)
  : result (list SubTensor) :=
  let (kl, vl) := il in
  foldM (init_inner r kl vl) (quanta m) blocks.

Definition init_from_state_info (l m r : StateInfo) : result SparseTensor :=
  bs <- foldM (init_outer m r) (quanta l) [] ;;
  SparseTensor_init (Some bs) (Some ThreeIndexMPSTensor) (Some q_zero).

(** *** [contract] *)

Definition labels_eqb : list L -> list L -> bool := list_eqb q_eqb.

(** [[x if x >= 0 else rank + x for x in idx]] *)
Definition normalize_idx (rk : nat) (idx : list Z) : list Z :=
  map (fun x => if (0 <=? x)%Z then x else (Z.of_nat rk + x)%Z) idx.

Definition zmem (x : Z) (l : list Z) : bool := existsb (Z.eqb x) l.

(** [list(set(range(0, rank)) - set(idx))]; a set of small non-negative
    integers is iterated in ascending order. *)
Definition out_idx (rk : nat) (idx : list Z) : list Z :=
  filter (fun i => negb (zmem i idx)) (range rk).

(** [tuple(block.q_labels[id] for id in idx)] *)
Definition sub_labels (b : SubTensor) (idx : list Z) : result (list L) :=
  mapM (py_index (q_labels b)) idx.

(** The first loop: [map_idx_b]. *)
Definition index_blocks (bs : list SubTensor) (idxb : list Z)
  : result (dict (list L) (list SubTensor)) :=
  foldM (fun d block =>
    subg <- sub_labels block idxb ;;
    let l := match dict_get labels_eqb d subg with
             | Some l => l
             | None => []
             end in
    Ok (dict_set labels_eqb d subg (l ++ [block]))) bs [].

(** The default phase rule. *)
Definition fermion_default (qa qb : list L) : result bool := Ok false.

(** [(qa[1] + qa[2]).is_fermion and qb[0].is_fermion] *)
Definition fermion_op_mps (qa qb : list L) : result bool :=
  a1 <- py_index qa 1 ;;
  a2 <- py_index qa 2 ;;
  if is_fermion (q_add a1 a2)
  then b0 <- py_index qb 0 ;; Ok (is_fermion b0)
  else Ok false.

(** The choice of [fermion] and [out_ftype]; the index lists are the
    normalised ones. *)
Definition select_rule (fa fb : FusingTypes) (idxa idxb : list Z)
  : (list L -> list L -> result bool) * option FusingTypes :=
  if ftype_eqb fa FourIndexMPOTensor && ftype_eqb fb ThreeIndexMPSTensor then
    if list_eqb Z.eqb idxa [2%Z] && list_eqb Z.eqb idxb [1%Z]
    then (fermion_op_mps, Some ThreeIndexMPSTensor)
    else (fermion_default, None)
  else (fermion_default, None).

(** [mat] after the phase factor, for one pair of blocks. *)
Definition signed_mat (fermion : list L -> list L -> result bool)
    (idxa idxb : list Z) (block_a block_b : SubTensor) : result A :=
  let mat := tensordot (reduced block_a) (reduced block_b) idxa idxb in
  f <- fermion (q_labels block_a) (q_labels block_b) ;;
  Ok (if f then aneg mat else mat).

(** The last four lines of the inner loop: store or accumulate. *)
Definition accumulate_block (m : dict (list L) SubTensor) (outg : list L) (mat : A)
  : result (dict (list L) SubTensor) :=
  match dict_get labels_eqb m outg with
  | None =>
      blk <- SubTensor_init outg mat ;;
      Ok (dict_set labels_eqb m outg blk)
  | Some blk =>
      Ok (dict_set labels_eqb m outg
            (mkSubTensor (q_labels blk) (iadd (reduced blk) mat)))
  end.

(** The body of the inner loop over [map_idx_b[subg]]. *)
Definition contract_pair (fermion : list L -> list L -> result bool)
    (idxa idxb out_idx_b : list Z) (block_a : SubTensor) (outga : list L)
    (m : dict (list L) SubTensor) (block_b : SubTensor)
  : result (dict (list L) SubTensor) :=
  outgb <- sub_labels block_b out_idx_b ;;
  let outg := outga ++ outgb in
  mat <- signed_mat fermion idxa idxb block_a block_b ;;
  accumulate_block m outg mat.

(** The body of the outer loop over the blocks of [spta]. *)
Definition contract_block_a (fermion : list L -> list L -> result bool)
    (idxa idxb out_idx_a out_idx_b : list Z)
    (map_idx_b : dict (list L) (list SubTensor))
    (m : dict (list L) SubTensor) (block_a : SubTensor)
  : result (dict (list L) SubTensor) :=
  subg <- sub_labels block_a idxa ;;
  match dict_get labels_eqb map_idx_b subg with
  | Some bs =>
      outga <- sub_labels block_a out_idx_a ;;
      foldM (contract_pair fermion idxa idxb out_idx_b block_a outga) bs m
  | None => Ok m
  end.

(** The second loop: [map_idx_out]. *)
Definition contract_blocks (fermion : list L -> list L -> result bool)
    (idxa idxb out_idx_a out_idx_b : list Z)
    (map_idx_b : dict (list L) (list SubTensor)) (blocks_a : list SubTensor)
  : result (dict (list L) SubTensor) :=
  foldM (contract_block_a fermion idxa idxb out_idx_a out_idx_b map_idx_b)
    blocks_a [].

(** [map_idx_out] as a function of the arguments of [contract]. *)
Definition contract_map (spta sptb : SparseTensor) (idxa0 idxb0 : list Z)
  : result (dict (list L) SubTensor) :=
  let idxa := normalize_idx (rank spta) idxa0 in
  let idxb := normalize_idx (rank sptb) idxb0 in
  let out_idx_a := out_idx (rank spta) idxa in
  let out_idx_b := out_idx (rank sptb) idxb in
  map_idx_b <- index_blocks (blocks sptb) idxb ;;
  contract_blocks (fst (select_rule (ftype spta) (ftype sptb) idxa idxb))
    idxa idxb out_idx_a out_idx_b map_idx_b (blocks spta).

(** What [contract] returns: a Python float or a [SparseTensor]. *)
Inductive contracted : Type :=
| CScalar (s : S)
| CTensor (t : SparseTensor).

Definition contract (spta sptb : SparseTensor) (idxa0 idxb0 : list Z)
  : result contracted :=
  if negb (length idxa0 =? length idxb0) then Raise AssertionError else
  let idxa := normalize_idx (rank spta) idxa0 in
  let idxb := normalize_idx (rank sptb) idxb0 in
  let out_idx_a := out_idx (rank spta) idxa in
  let out_idx_b := out_idx (rank sptb) idxb in
  map_idx_out <- contract_map spta sptb idxa0 idxb0 ;;
  if length out_idx_a + length out_idx_b =? 0 then
    if length map_idx_out =? 0 then Ok (CScalar szero)
    else
      match dict_get labels_eqb map_idx_out [] with
      | Some blk => Ok (CScalar (item (reduced blk)))
      | None => Raise KeyError
      end
  else
    t <- SparseTensor_init (Some (dict_values map_idx_out))
           (snd (select_rule (ftype spta) (ftype sptb) idxa idxb)) None ;;
    Ok (CTensor t).

(** *** [left_multiply] and [right_multiply] *)

Definition with_blocks (t : SparseTensor) (bs : list SubTensor) : SparseTensor :=
  mkSparseTensor bs (ftype t) (delta_quantum t).

(** The body of the loop of [left_multiply]. *)
Definition left_multiply_step (mats : dict L A) (blocks : list SubTensor)
    (block : SubTensor) : result (list SubTensor) :=
  q_label_r <- py_index (q_labels block) 0 ;;
  match dict_get q_eqb mats q_label_r with
  | Some m =>
      let mat := tensordot m (reduced block) [1%Z] [0%Z] in
      b <- SubTensor_init (q_labels block) mat ;;
      Ok (blocks ++ [b])
  | None => Ok blocks
  end.

Definition left_multiply (self : SparseTensor) (mats : dict L A)
  : result SparseTensor :=
  bs <- foldM (left_multiply_step mats) (blocks self) [] ;;
  Ok (with_blocks self bs).

(** The body of the loop of [right_multiply]. *)
Definition right_multiply_step (mats : dict L A) (blocks : list SubTensor)
    (block : SubTensor) : result (list SubTensor) :=
  q_label_l <- py_index (q_labels block) (-1) ;;
  match dict_get q_eqb mats q_label_l with
  | Some m =>
      let mat := tensordot (reduced block) m
                   [(Z.of_nat (st_rank block) - 1)%Z] [0%Z] in
      b <- SubTensor_init (q_labels block) mat ;;
      Ok (blocks ++ [b])
  | None => Ok blocks
  end.

Definition right_multiply (self : SparseTensor) (mats : dict L A)
  : result SparseTensor :=
  bs <- foldM (right_multiply_step mats) (blocks self) [] ;;
  Ok (with_blocks self bs).

(** *** Vocabulary of the statements *)

(** The invariant that [SubTensor.__init__] asserts. *)
Definition block_ok (b : SubTensor) : Prop :=
  st_rank b = 0 \/ ndim (reduced b) = st_rank b.

Definition scaled (s : S) (b : SubTensor) : SubTensor :=
  mkSubTensor (q_labels b) (smul s (reduced b)).

Definition negated (b : SubTensor) : SubTensor :=
  mkSubTensor (q_labels b) (aneg (reduced b)).

(** What [left_multiply] makes of one block: its product with the carry
    matrix of its first label, or nothing when the label is no key. *)
Definition left_image (mats : dict L A) (b : SubTensor) : list SubTensor :=
  match hd_error (q_labels b) with
  | Some q =>
      match dict_get q_eqb mats q with
      | Some m => [mkSubTensor (q_labels b) (tensordot m (reduced b) [1%Z] [0%Z])]
      | None => []
      end
  | None => []
  end.

(** The same for [right_multiply], on the last label and the last leg. *)
Definition right_image (mats : dict L A) (b : SubTensor) : list SubTensor :=
  match hd_error (rev (q_labels b)) with
  | Some q =>
      match dict_get q_eqb mats q with
      | Some m =>
          [mkSubTensor (q_labels b)
             (tensordot (reduced b) m [(Z.of_nat (length (q_labels b)) - 1)%Z] [0%Z])]
      | None => []
      end
  | None => []
  end.

(** The sign rule in the words of the specification: the parities of the
    fused label of legs 1 and 2 of the A block and of leg 0 of the B block
    disagree. *)
Definition spec_sign_rule (a1 a2 b0 : L) : bool :=
  xorb (is_fermion (q_add a1 a2)) (is_fermion b0).

(** What one pair of an A block and a B block adds to [map_idx_out]:
    nothing when their labels on the contracted legs differ, else the
    output labels and the dense contraction with its phase factor. *)
Definition pair_entry (fermion : list L -> list L -> result bool)
    (idxa idxb out_idx_a out_idx_b : list Z) (block_a block_b : SubTensor)
  : result (option (list L * A)) :=
  ga <- sub_labels block_a idxa ;;
  gb <- sub_labels block_b idxb ;;
  if labels_eqb ga gb then
    outga <- sub_labels block_a out_idx_a ;;
    outgb <- sub_labels block_b out_idx_b ;;
    mat <- signed_mat fermion idxa idxb block_a block_b ;;
    Ok (Some (outga ++ outgb, mat))
  else Ok None.

Definition pair_entries (fermion : list L -> list L -> result bool)
    (idxa idxb out_idx_a out_idx_b : list Z) (block_a block_b : SubTensor)
  : list (list L * A) :=
  match pair_entry fermion idxa idxb out_idx_a out_idx_b block_a block_b with
  | Ok (Some e) => [e]
  | _ => []
  end.

(** The contributions of all pairs, A blocks in order and, for each, B
    blocks in order. *)
Definition all_entries (fermion : list L -> list L -> result bool)
    (idxa idxb out_idx_a out_idx_b : list Z) (blocks_a blocks_b : list SubTensor)
  : list (list L * A) :=
  flat_map (fun block_a =>
    flat_map (pair_entries fermion idxa idxb out_idx_a out_idx_b block_a) blocks_b)
    blocks_a.

Definition contract_entries (spta sptb : SparseTensor) (idxa0 idxb0 : list Z)
  : list (list L * A) :=
  let idxa := normalize_idx (rank spta) idxa0 in
  let idxb := normalize_idx (rank sptb) idxb0 in
  all_entries (fst (select_rule (ftype spta) (ftype sptb) idxa idxb))
    idxa idxb (out_idx (rank spta) idxa) (out_idx (rank sptb) idxb)
    (blocks spta) (blocks sptb).

(** The dense contributions of the pairs whose output label tuple is
    [outd]. *)
Definition entries_at (es : list (list L * A)) (outd : list L) : list A :=
  map snd (filter (fun e => labels_eqb (fst e) outd) es).

Definition contributions (spta sptb : SparseTensor) (idxa0 idxb0 : list Z)
    (outd : list L) : list A :=
  entries_at (contract_entries spta sptb idxa0 idxb0) outd.

(** The sum of a non-empty list of arrays, accumulated from the first. *)
Definition array_sum (cs : list A) : option A :=
  match cs with
  | [] => None
  | c :: cs' => Some (fold_left iadd cs' c)
  end.

(** The blocks of [bs] whose labels at [idx] are the tuple [g]. *)
Definition has_sub_labels (idx : list Z) (g : list L) (b : SubTensor) : bool :=
  match sub_labels b idx with
  | Ok g' => labels_eqb g' g
  | Raise _ => false
  end.

(** The entry of a dictionary of lists: absent when the list is empty. *)
Definition group_entry {T : Type} (l : list T) : option (list T) :=
  match l with
  | [] => None
  | _ :: _ => Some l
  end.

End Tensor.

Arguments SubTensor L A : clear implicits.
Arguments SparseTensor L A : clear implicits.
Arguments StateInfo L : clear implicits.
Arguments contracted L S A : clear implicits.

(** ** [truncate_singular_values]

    A singular value is the rational number its float denotes, so that
    the comparisons are those of the code; the accumulation of the error is
    exact, and the final [np.sqrt] is the square root of the reals. *)

(** [list.sort(key=key)]: a stable sort that compares keys with [<] only.
    The first element is inserted last and goes before every element
    whose key is not smaller. *)
Section Sorting.
Variables T K : Type.
Variable key : T -> K.
Variable ltb : K -> K -> bool.

Fixpoint insert_by (x : T) (l : list T) : list T :=
  match l with
  | [] => [x]
  | y :: l' => if ltb (key y) (key x) then y :: insert_by x l' else x :: l
  end.

Definition sort_by (l : list T) : list T := fold_right insert_by [] l.

(** [itertools.groupby(l, key=key)] with keys compared by [eqb]: maximal runs
    of consecutive elements of equal key. *)
Variable eqb : K -> K -> bool.

Fixpoint groupby (l : list T) : list (K * list T) :=
  match l with
  | [] => []
  | x :: l' =>
      match groupby l' with
      | (k, g) :: rest =>
          if eqb (key x) k then (k, x :: g) :: rest
          else (key x, [x]) :: (k, g) :: rest
      | [] => [(key x, [x])]
      end
  end.
End Sorting.

(** [enumerate(l)] *)
Definition enumerate {T : Type} (l : list T) : list (nat * T) :=
  combine (seq 0 (length l)) l.

(** [l[:k]] *)
Definition py_prefix {T : Type} (l : list T) (k : Z) : list T :=
  if (0 <=? k)%Z then firstn (Z.to_nat k) l
  else firstn (length l - Z.to_nat (- k)) l.

(** [l[i] = v], for [i] within the list. *)
Fixpoint list_set {T : Type} (l : list T) (i : nat) (v : T) : list T :=
  match l, i with
  | [], _ => []
  | _ :: l', O => v :: l'
  | x :: l', Datatypes.S i' => x :: list_set l' i' v
  end.

(** A sequence of assignments [l[i] = v]. *)
Definition set_all {T : Type} (l : list T) (G : list (nat * T)) : list T :=
  fold_left (fun st rb => list_set st (fst rb) (snd rb)) G l.

(** [a[idx]] for an array of indices. *)
Definition take (a : list Q) (idx : list nat) : list Q :=
  map (fun j => nth j a 0%Q) idx.

(** [(a ** 2).sum()] *)
Definition sum_sq (a : list Q) : Q :=
  fold_left (fun acc v => (acc + v * v)%Q) a 0%Q.

(** An element of [ss]: group, index in the group, value. *)
Definition triple : Type := nat * nat * Q.

Definition t_group (x : triple) : nat := fst (fst x).
Definition t_index (x : triple) : nat := snd (fst x).
Definition t_value (x : triple) : Q := snd x.

(** [a < b] on floats and on pairs of integers. *)
Definition Qltb (a b : Q) : bool := negb (Qle_bool b a).

Definition pair_ltb (a b : nat * nat) : bool :=
  (fst a <? fst b) || ((fst a =? fst b) && (snd a <? snd b)).

(** [ss] before it is sorted. *)
Definition all_triples (svd_s : list (list Q)) : list triple :=
  flat_map (fun ip : nat * list Q =>
              map (fun jv : nat * Q => (fst ip, fst jv, snd jv))
                  (enumerate (snd ip)))
           (enumerate svd_s).

(** [ss] after [ss.sort(key=lambda x: -x[2])]. *)
Definition sorted_triples (svd_s : list (list Q)) : list triple :=
  sort_by (fun x => (- t_value x)%Q) Qltb (all_triples svd_s).

(** [ss_trunc] after the cutoff and the slice. *)
Definition ss_trunc (svd_s : list (list Q)) (k : Z) (cutoff : Q) : list triple :=
  let above := filter (fun x => Qle_bool cutoff (t_value x)) (sorted_triples svd_s) in
  if negb (k =? -1)%Z then py_prefix above k else above.

(** [ss_trunc] after [ss_trunc.sort(key=lambda x: (x[0], x[1]))]. *)
Definition ss_trunc_sorted (svd_s : list (list Q)) (k : Z) (cutoff : Q)
  : list triple :=
  sort_by (fun x => (t_group x, t_index x)) pair_ltb (ss_trunc svd_s k cutoff).

(** The variables [svd_r], [gls] and [error] of the two loops. *)
Record trunc_state : Type := mkTruncState {
  ts_svd_r : list (option (list Q));
  ts_gls : list (option (list nat));
  ts_error : Q
}.

(** The body of the loop over the groups of [ss_trunc]. *)
Definition trunc_group (svd_s : list (list Q)) (st : trunc_state)
    (grp : nat * list triple) : trunc_state :=
  let (ik, g) := grp in
  let gl := map t_index g in
  let ps := nth ik svd_s [] in
  let gl_inv := filter (fun j => negb (existsb (Nat.eqb j) gl)) (seq 0 (length ps)) in
  mkTruncState (list_set (ts_svd_r st) ik (Some (take ps gl)))
               (list_set (ts_gls st) ik (Some gl))
               (ts_error st + sum_sq (take ps gl_inv))%Q.

(** The body of the loop over the groups without a kept value. *)
Definition trunc_dropped (svd_s : list (list Q)) (gls : list (option (list nat)))
    (error : Q) (ik : nat) : Q :=
  match nth ik gls None with
  | None => (error + sum_sq (nth ik svd_s []))%Q
  | Some _ => error
  end.

(** The state before [return]. *)
Definition truncate_loops (svd_s : list (list Q)) (k : Z) (cutoff : Q)
  : trunc_state :=
  let n := length svd_s in
  let st := fold_left (trunc_group svd_s)
              (groupby t_group Nat.eqb (ss_trunc_sorted svd_s k cutoff))
              (mkTruncState (repeat None n) (repeat None n) 0%Q) in
  mkTruncState (ts_svd_r st) (ts_gls st)
    (fold_left (trunc_dropped svd_s (ts_gls st)) (seq 0 n) (ts_error st)).

Definition truncate_singular_values (svd_s : list (list Q)) (k : Z) (cutoff : Q)
  : list (option (list Q)) * list (option (list nat)) * R :=
  let st := truncate_loops svd_s k cutoff in
  (ts_svd_r st, ts_gls st, sqrt (Q2R (ts_error st))).

(** *** Vocabulary of the statements about truncation *)

(** The singular value of index [j] in group [i]. *)
Definition value_at (svd_s : list (list Q)) (i j : nat) : Q :=
  nth j (nth i svd_s []) 0%Q.

(** The triples of group [i], in the order of the indices. *)
Definition group_triples (svd_s : list (list Q)) (i : nat) : list triple :=
  map (fun j => (i, j, value_at svd_s i j)) (seq 0 (length (nth i svd_s []))).

(** Index [j] of group [i] is among the kept indices [gls]. *)
Definition kept_at (gls : list (option (list nat))) (i j : nat) : bool :=
  match nth i gls None with
  | Some gl => existsb (Nat.eqb j) gl
  | None => false
  end.

Definition is_kept (gls : list (option (list nat))) (e : triple) : bool :=
  kept_at gls (t_group e) (t_index e).

(** The entries that the result drops. *)
Definition discarded (svd_s : list (list Q)) (gls : list (option (list nat)))
  : list triple :=
  filter (fun e => negb (is_kept gls e)) (all_triples svd_s).

Definition Rsum (l : list R) : R := fold_right Rplus 0%R l.

(** The sum of the squares of the values of a list of entries. *)
Definition sum_squares (l : list triple) : R :=
  Rsum (map (fun e => (Q2R (t_value e) * Q2R (t_value e))%R) l).

(** What the loop over the groups stores for one group: the kept indices,
    the kept values, and the squares of the values it drops. *)
Definition group_gl (grp : nat * list triple) : option (list nat) :=
  Some (map t_index (snd grp)).

Definition group_svd_r (svd_s : list (list Q)) (grp : nat * list triple)
  : option (list Q) :=
  Some (take (nth (fst grp) svd_s []) (map t_index (snd grp))).

Definition group_error (svd_s : list (list Q)) (grp : nat * list triple) : Q :=
  sum_sq (take (nth (fst grp) svd_s [])
            (filter (fun j => negb (existsb (Nat.eqb j) (map t_index (snd grp))))
                    (seq 0 (length (nth (fst grp) svd_s []))))).

(** [top] holds the [k] largest entries of [all], or all of them when [k]
    is -1 or there are fewer than [k]: no entry outside [top] has a larger
    value than an entry of [top]. *)
Definition top_k (k : Z) (all top : list triple) : Prop :=
  incl top all /\ NoDup top /\
  (k = (-1)%Z -> incl all top) /\
  ((0 <= k)%Z -> length top = Nat.min (Z.to_nat k) (length all)) /\
  (forall x y, In x top -> In y all -> ~ In y top ->
               (t_value y <= t_value x)%Q).

(** The first [k] entries of the sorted [ss], all of them for [k = -1]. *)
Definition top_of (svd_s : list (list Q)) (k : Z) : list triple :=
  if (k =? -1)%Z then sorted_triples svd_s
  else firstn (Z.to_nat k) (sorted_triples svd_s).

(** The number of kept indices, over all groups. *)
Definition kept_count (gls : list (option (list nat))) : nat :=
  list_sum (map (fun o => match o with Some gl => length gl | None => 0 end) gls).

(** The number of singular values that are at least [cutoff]. *)
Definition count_above (svd_s : list (list Q)) (cutoff : Q) : nat :=
  length (filter (fun v => Qle_bool cutoff v) (concat svd_s)).

(** [(a ** 2).sum()] as a real number. *)
Definition norm_sq (a : list Q) : R := Q2R (sum_sq a).

(** The squares of all the singular values, and of those of [svd_r]. *)
Definition total_sq (svd_s : list (list Q)) : R := Rsum (map norm_sq svd_s).

Definition kept_sq (svd_r : list (option (list Q))) : R :=
  Rsum (map (fun o => match o with Some a => norm_sq a | None => 0%R end) svd_r).

(** ** [left_canonicalize]

    Here the layout of the arrays matters: an array is its shape and its
    entries in row-major order.  [np.linalg.qr] stays a parameter.  The
    blocks of [self.blocks] are objects that the groups of
    [collected_rows] share with it; a group holds the positions of its
    blocks in the list, and an assignment to [b.reduced] updates the block
    at its position. *)

Section NdArray.
Variable S : Type.

Record ndarray : Type := mkArray {
  shape : list nat;
  data : list S
}.

(** [np.prod(shape)] *)
Definition size_of (sh : list nat) : nat := fold_right Nat.mul 1 sh.

(** [a.reshape(new_shape)] *)
Definition reshape (a : ndarray) (new_shape : list nat) : result ndarray :=
  if size_of new_shape =? length (data a)
  then Ok (mkArray new_shape (data a))
  else Raise ValueError.

(** [a.reshape((sh, -1))] *)
Definition reshape_rows (a : ndarray) (sh : nat) : result ndarray :=
  if (sh =? 0) || negb (length (data a) mod sh =? 0)
  then Raise ValueError
  else Ok (mkArray [sh; length (data a) / sh] (data a)).

(** [a.reshape((sh, -1))] for [sh = np.prod(a.shape[:-1])]: the product of
    the empty shape is the float [1.0], which [reshape] refuses. *)
Definition reshape_leading (a : ndarray) (sh : nat) : result ndarray :=
  match removelast (shape a) with
  | [] => Raise TypeError
  | _ :: _ => reshape_rows a sh
  end.

(** One step of [np.concatenate(..., axis=0)] on matrices. *)
Definition append_rows (acc m : ndarray) : result ndarray :=
  match shape acc, shape m with
  | [r; c], [r'; c'] =>
      if c' =? c then Ok (mkArray [r + r'; c] (data acc ++ data m))
      else Raise ValueError
  | _, _ => Raise ValueError
  end.

(** [np.concatenate(ms, axis=0)] for a list of matrices. *)
Definition concatenate_rows (ms : list ndarray) : result ndarray :=
  match ms with
  | [] => Raise ValueError
  | m :: ms' =>
      match shape m with
      | [_; _] => foldM append_rows ms' m
      | _ => Raise ValueError
      end
  end.

(** [q[a:b]] along axis 0; [None] stands for an omitted bound. *)
Definition row_slice (q : ndarray) (a : nat) (b : option nat) : ndarray :=
  let rows := hd 0 (shape q) in
  let width := size_of (tl (shape q)) in
  let start := Nat.min a rows in
  let stop := match b with Some b' => Nat.min b' rows | None => rows end in
  mkArray ((stop - start) :: tl (shape q))
          (firstn ((stop - start) * width) (skipn (start * width) (data q))).

(** [np.split(q, indices, axis=0)]: the slices between consecutive
    indices, from [start]. *)
Fixpoint split_from (q : ndarray) (start : nat) (indices : list nat) : list ndarray :=
  match indices with
  | [] => [row_slice q start None]
  | i :: indices' => row_slice q start (Some i) :: split_from q i indices'
  end.

Definition split_rows (q : ndarray) (indices : list nat) : result (list ndarray) :=
  match shape q with
  | [] => Raise ValueError
  | _ :: _ => Ok (split_from q 0 indices)
  end.

(** [itertools.accumulate(l)]: the running sums. *)
Fixpoint accumulate_from (acc : nat) (l : list nat) : list nat :=
  match l with
  | [] => []
  | x :: l' => (acc + x) :: accumulate_from (acc + x) l'
  end.

Definition accumulate (l : list nat) : list nat := accumulate_from 0 l.

End NdArray.

Arguments mkArray {S} shape data.
Arguments shape {S} n.
Arguments data {S} n.
Arguments append_rows {S} acc m.

Section Canonicalize.
Context {L : Type} `{QL : QuantumLabel L}.
Variable S : Type.

(** [np.linalg.qr(mat, mode)] for the [mode] of the call. *)
Variable qr : ndarray S -> ndarray S * ndarray S.

(** The body of the first loop, for the block [snd ib] at the position
    [fst ib]. *)
Definition collect_step (d : dict L (list nat)) (ib : nat * SubTensor L (ndarray S))
  : result (dict L (list nat)) :=
  q_label_r <- py_index (q_labels (snd ib)) (-1) ;;
  let l := match dict_get q_eqb d q_label_r with
           | Some l => l
           | None => []
           end in
  Ok (dict_set q_eqb d q_label_r (l ++ [fst ib])).

(** The first loop: the positions of the blocks of each last label. *)
Definition collect_rows (bs : list (SubTensor L (ndarray S)))
  : result (dict L (list nat)) :=
  foldM collect_step (enumerate bs) [].

(** The block at a position of the list. *)
Definition deref (store : list (SubTensor L (ndarray S))) (ref : nat)
  : result (SubTensor L (ndarray S)) :=
  match nth_error store ref with
  | Some b => Ok b
  | None => Raise IndexError
  end.

(** [b.reduced = q.reshape(b.reduced.shape[:-1] + (r.shape[0], ))] for the
    block [b] at position [fst (snd qb)]. *)
Definition store_q (r : ndarray S) (store : list (SubTensor L (ndarray S)))
    (qb : ndarray S * (nat * SubTensor L (ndarray S)))
  : result (list (SubTensor L (ndarray S))) :=
  let b := snd (snd qb) in
  r0 <- py_index (shape r) 0 ;;
  a <- reshape (fst qb) (removelast (shape (reduced b)) ++ [r0]) ;;
  Ok (list_set store (fst (snd qb)) (mkSubTensor (q_labels b) a)).

(** The body of the loop over [collected_rows.items()]. *)
Definition canonicalize_group
    (st : list (SubTensor L (ndarray S)) * dict L (ndarray S))
    (grp : L * list nat)
  : result (list (SubTensor L (ndarray S)) * dict L (ndarray S)) :=
  let store := fst st in
  blocks <- mapM (deref store) (snd grp) ;;
  let l_shapes := map (fun b => size_of (removelast (shape (reduced b)))) blocks in
  mats <- mapM (fun shb => reshape_leading (reduced (snd shb)) (fst shb))
               (combine l_shapes blocks) ;;
  mat <- concatenate_rows mats ;;
  let (q, r) := qr mat in
  let r_blocks_map := dict_set q_eqb (snd st) (fst grp) r in
  qs <- split_rows q (accumulate (removelast l_shapes)) ;;
  if negb (length qs =? length blocks) then Raise AssertionError else
  store' <- foldM (store_q r) (combine qs (combine (snd grp) blocks)) store ;;
  Ok (store', r_blocks_map).

Definition left_canonicalize (self : SparseTensor L (ndarray S))
  : result (SparseTensor L (ndarray S) * dict L (ndarray S)) :=
  collected_rows <- collect_rows (blocks self) ;;
  st <- foldM canonicalize_group collected_rows (blocks self, []) ;;
  Ok (with_blocks self (fst st), snd st).

(** *** Vocabulary of the statements about canonicalization *)

(** The last label of [b] is [g]. *)
Definition has_last_label (g : L) (b : SubTensor L (ndarray S)) : bool :=
  match py_index (q_labels b) (-1) with
  | Ok q => q_eqb q g
  | Raise _ => false
  end.

(** The blocks of the group of the boundary label [g], in order. *)
Definition group_of (g : L) (bs : list (SubTensor L (ndarray S)))
  : list (SubTensor L (ndarray S)) :=
  filter (has_last_label g) bs.

(** A block flattened over its leading legs. *)
Definition flatten_leading (b : SubTensor L (ndarray S)) : result (ndarray S) :=
  reshape_leading (reduced b) (size_of (removelast (shape (reduced b)))).

(** The flattened blocks of a group, stacked row-wise. *)
Definition stacked (bs : list (SubTensor L (ndarray S))) : result (ndarray S) :=
  ms <- mapM flatten_leading bs ;;
  concatenate_rows ms.

(** The positions, counted from [a], of the blocks of the group of [g]. *)
Fixpoint refs_from (g : L) (a : nat) (bs : list (SubTensor L (ndarray S)))
  : list nat :=
  match bs with
  | [] => []
  | b :: bs' =>
      if has_last_label g b then a :: refs_from g (Datatypes.S a) bs'
      else refs_from g (Datatypes.S a) bs'
  end.

(** The row slices of the entries [d] of a matrix of width [w]: from row
    [a], slices of [r1], [r2], ... rows. *)
Fixpoint pieces (w : nat) (d : list S) (a : nat) (rs : list nat) : list (ndarray S) :=
  match rs with
  | [] => []
  | r :: rs' =>
      mkArray [r; w] (firstn (r * w) (skipn (a * w) d))
      :: pieces w d (a + r) rs'
  end.

(** The leading size of a block: the rows it takes in the stacked
    matrix. *)
Definition leading_size (b : SubTensor L (ndarray S)) : nat :=
  size_of (removelast (shape (reduced b))).

(** A block after the assignment of its slice of [Q]. *)
Definition with_slice (c : nat) (pb : ndarray S * SubTensor L (ndarray S))
  : SubTensor L (ndarray S) :=
  mkSubTensor (q_labels (snd pb))
    (mkArray (removelast (shape (reduced (snd pb))) ++ [c]) (data (fst pb))).

(** The blocks of a group after the loop, for the factor [q] of width
    [c]. *)
Definition canon_blocks (q : ndarray S) (c : nat)
    (bs : list (SubTensor L (ndarray S))) : list (SubTensor L (ndarray S)) :=
  map (with_slice c) (combine (pieces c (data q) 0 (map leading_size bs)) bs).

(** The entries of an array are as many as its shape says. *)
Definition wf_array (a : ndarray S) : Prop :=
  length (data a) = size_of (shape a).

(** Matrices over scalars with a sum, a product and a notion of being
    equal up to the tolerance. *)
Variables (add mul : S -> S -> S) (zero one : S).
Variable close : S -> S -> Prop.

Definition entry (m : ndarray S) (i j : nat) : S :=
  nth (i * hd 0 (tl (shape m)) + j) (data m) zero.

Definition sum_over (n : nat) (f : nat -> S) : S :=
  fold_right (fun k acc => add (f k) acc) zero (seq 0 n).

(** [Q^T Q] is the identity, up to the tolerance. *)
Definition col_orthonormal (q : ndarray S) : Prop :=
  exists n c, shape q = [n; c] /\
    forall i j, i < c -> j < c ->
      close (sum_over n (fun k => mul (entry q k i) (entry q k j)))
            (if i =? j then one else zero).

(** [Q R] is [M], up to the tolerance. *)
Definition product_is (q r m : ndarray S) : Prop :=
  exists n c p, shape q = [n; c] /\ shape r = [c; p] /\ shape m = [n; p] /\
    forall i j, i < n -> j < p ->
      close (sum_over c (fun k => mul (entry q i k) (entry r k j))) (entry m i j).

(** What [np.linalg.qr] promises of its result for the matrix [m]. *)
Definition qr_contract (m : ndarray S) : Prop :=
  let (q, r) := qr m in
  wf_array q /\ col_orthonormal q /\ product_is q r m.

End Canonicalize.

Arguments collect_step {L QL S} d ib.
Arguments deref {L S} store ref.
Arguments store_q {L S} r store qb.
Arguments canonicalize_group {L QL S} qr st grp.
Arguments has_last_label {L QL S} g b.
Arguments flatten_leading {L S} b.
Arguments leading_size {L S} b.
Arguments with_slice {L S} c pb.

(** ** [equal_shape] and [get_state_info]

    Both read the shape of the arrays. *)

Section LegShapes.
Context {L : Type} `{QL : QuantumLabel L}.
Variable S : Type.

(** [SubTensor.equal_shape] *)
Definition equal_shape (self other : SubTensor L (ndarray S)) : bool :=
  labels_eqb (q_labels self) (q_labels other)
  && list_eqb Nat.eqb (shape (reduced self)) (shape (reduced other)).

(** The body of the loop of [get_state_info]; [quanta] is the [Counter]. *)
Definition state_info_step (idx : Z) (quanta : dict L nat)
    (block : SubTensor L (ndarray S)) : result (dict L nat) :=
  q <- py_index (q_labels block) idx ;;
  match dict_get q_eqb quanta q with
  | Some d =>
      n <- py_index (shape (reduced block)) idx ;;
      if n =? d then Ok quanta else Raise AssertionError
  | None =>
      n <- py_index (shape (reduced block)) idx ;;
      Ok (dict_set q_eqb quanta q n)
  end.

(** [SparseTensor.get_state_info]; [StateInfo(quanta)] is the leg-shape
    map whose [quanta] is the counter. *)
Definition get_state_info (self : SparseTensor L (ndarray S)) (idx : Z)
  : result (StateInfo L) :=
  quanta <- foldM (state_info_step idx) (blocks self) [] ;;
  Ok (mkStateInfo quanta).

(** Leg [idx] of a block: its label and its extent. *)
Definition leg (idx : Z) (b : SubTensor L (ndarray S)) : result (L * nat) :=
  q <- py_index (q_labels b) idx ;;
  n <- py_index (shape (reduced b)) idx ;;
  Ok (q, n).

End LegShapes.

Arguments equal_shape {L QL S} self other.
Arguments state_info_step {L QL S} idx quanta block.
Arguments get_state_info {L QL S} self idx.
Arguments leg {L S} idx b.

(** ** [left_compress]

    The singular values are rationals, as for [truncate_singular_values],
    and so are the entries of the arrays.  [np.linalg.svd] stays a
    parameter; of a matrix it returns two matrices and a vector, and the
    matrices are kept as arrays with two axes. *)

(** An array with two axes. *)
Record matrix : Type := mkMatrix {
  nrows : nat;
  ncols : nat;
  entries : list Q
}.

Definition as_array (m : matrix) : ndarray Q :=
  mkArray [nrows m; ncols m] (entries m).

(** Row [i] of a matrix. *)
Definition mrow (m : matrix) (i : nat) : list Q :=
  map (fun j => nth (i * ncols m + j) (entries m) 0%Q) (seq 0 (ncols m)).

(** The columns [gl] and the rows [gl] of a matrix. *)
Definition cols (m : matrix) (gl : list nat) : matrix :=
  mkMatrix (nrows m) (length gl)
    (flat_map (fun i => map (fun j => nth (i * ncols m + j) (entries m) 0%Q) gl)
              (seq 0 (nrows m))).

Definition rows (m : matrix) (gl : list nat) : matrix :=
  mkMatrix (length gl) (ncols m) (flat_map (mrow m) gl).

(** [m[:, gl]] and [m[gl, :]] for an array of indices [gl]. *)
Definition take_cols (m : matrix) (gl : list nat) : result matrix :=
  if forallb (fun j => j <? ncols m) gl then Ok (cols m gl) else Raise IndexError.

Definition take_rows (m : matrix) (gl : list nat) : result matrix :=
  if forallb (fun i => i <? nrows m) gl then Ok (rows m gl) else Raise IndexError.

(** [s[:, None] * m]: the column [s] broadcast against the matrix [m]. *)
Definition scale_rows (s : list Q) (m : matrix) : result matrix :=
  let kl := length s in
  if nrows m =? kl then
    Ok (mkMatrix kl (ncols m)
          (flat_map (fun i => map (Qmult (nth i s 0%Q)) (mrow m i)) (seq 0 kl)))
  else if kl =? 1 then
    Ok (mkMatrix (nrows m) (ncols m)
          (flat_map (fun i => map (Qmult (nth 0 s 0%Q)) (mrow m i)) (seq 0 (nrows m))))
  else if nrows m =? 1 then
    Ok (mkMatrix kl (ncols m)
          (flat_map (fun i => map (Qmult (nth i s 0%Q)) (mrow m 0)) (seq 0 kl)))
  else Raise ValueError.

(** What [scale_rows] returns for a column with one entry for each row. *)
Definition scaled_rows (s : list Q) (m : matrix) : matrix :=
  mkMatrix (length s) (ncols m)
    (flat_map (fun i => map (Qmult (nth i s 0%Q)) (mrow m i)) (seq 0 (length s))).

(** The left and the right factor of group number [ik] after the third
    loop: the kept columns and rows when the group loses singular values,
    else the factor as it is. *)
Definition kept_cols (svd_s : list (list Q)) (ik : nat) (ogl : option (list nat))
    (u : matrix) : matrix :=
  match ogl with
  | Some gl => if length gl =? length (nth ik svd_s []) then u else cols u gl
  | None => u
  end.

Definition kept_rows (svd_s : list (list Q)) (ik : nat) (ogl : option (list nat))
    (vh : matrix) : matrix :=
  match ogl with
  | Some gl => if length gl =? length (nth ik svd_s []) then vh else rows vh gl
  | None => vh
  end.

(** The kept indices of a group are indices of the columns of its left
    factor and of the rows of its right factor. *)
Definition selectable (x : option (list nat) * (matrix * matrix)) : Prop :=
  match fst x with
  | Some gl =>
      Forall (fun j => j < ncols (fst (snd x))) gl /\
      Forall (fun j => j < nrows (snd (snd x))) gl
  | None => True
  end.

(** [l[i]] on a list, for an index that is not negative. *)
Definition list_get {T : Type} (l : list T) (i : nat) : result T :=
  match nth_error l i with
  | Some x => Ok x
  | None => Raise IndexError
  end.

Section Compress.
Context {L : Type} `{QL : QuantumLabel L}.

(** [np.linalg.svd(mat, full_matrices=False)] *)
Variable svd : ndarray Q -> matrix * list Q * matrix.

(** [SubTensor.__init__] for an array with its shape. *)
Definition SubTensor_of (ql : list L) (red : ndarray Q)
  : result (SubTensor L (ndarray Q)) :=
  if negb (length ql =? 0) && negb (length (shape red) =? length ql)
  then Raise AssertionError
  else Ok (mkSubTensor ql red).

(** The body of the first loop: the blocks of each last label. *)
Definition collect_block (d : dict L (list (SubTensor L (ndarray Q))))
    (block : SubTensor L (ndarray Q))
  : result (dict L (list (SubTensor L (ndarray Q)))) :=
  q_label_r <- py_index (q_labels block) (-1) ;;
  let l := match dict_get q_eqb d q_label_r with
           | Some l => l
           | None => []
           end in
  Ok (dict_set q_eqb d q_label_r (l ++ [block])).

(** The body of the second loop: the factors of the matrix of a group. *)
Definition svd_group (st : list (list Q) * list matrix * list matrix)
    (grp : L * list (SubTensor L (ndarray Q)))
  : result (list (list Q) * list matrix * list matrix) :=
  let blocks := snd grp in
  let l_shapes := map (fun b => size_of (removelast (shape (reduced b)))) blocks in
  mats <- mapM (fun shb => reshape_leading (reduced (snd shb)) (fst shb))
               (combine l_shapes blocks) ;;
  mat <- concatenate_rows mats ;;
  let '(u, s, vh) := svd mat in
  Ok (fst (fst st) ++ [s], snd (fst st) ++ [u], snd st ++ [vh]).

(** The body of the third loop: the kept columns of [u] and rows of [vh]
    of a group that loses singular values. *)
Definition select_step (svd_s : list (list Q)) (st : list matrix * list matrix)
    (igl : nat * option (list nat)) : result (list matrix * list matrix) :=
  match snd igl with
  | Some gl =>
      if negb (length gl =? length (nth (fst igl) svd_s [])) then
        u <- list_get (fst st) (fst igl) ;;
        u' <- take_cols u gl ;;
        let blocks_l := list_set (fst st) (fst igl) u' in
        vh <- list_get (snd st) (fst igl) ;;
        vh' <- take_rows vh gl ;;
        Ok (blocks_l, list_set (snd st) (fst igl) vh')
      else Ok st
  | None => Ok st
  end.

(** The body of the loop over [zip(qs, blocks)]. *)
Definition compressed_block (c : nat) (l_blocks : list (SubTensor L (ndarray Q)))
    (qb : ndarray Q * SubTensor L (ndarray Q))
  : result (list (SubTensor L (ndarray Q))) :=
  mat <- reshape (fst qb) (removelast (shape (reduced (snd qb))) ++ [c]) ;;
  b <- SubTensor_of (q_labels (snd qb)) mat ;;
  Ok (l_blocks ++ [b]).

(** The body of the fourth loop: the blocks and the carry matrix of a
    group that keeps singular values. *)
Definition assemble_group (svd_r : list (option (list Q)))
    (blocks_l blocks_r : list matrix)
    (st : list (SubTensor L (ndarray Q)) * dict L (ndarray Q))
    (ig : nat * (L * list (SubTensor L (ndarray Q))))
  : result (list (SubTensor L (ndarray Q)) * dict L (ndarray Q)) :=
  let ik := fst ig in
  let q_label_r := fst (snd ig) in
  let blocks := snd (snd ig) in
  s <- list_get svd_r ik ;;
  match s with
  | Some s_kept =>
      let l_shapes := map (fun b => size_of (removelast (shape (reduced b)))) blocks in
      u <- list_get blocks_l ik ;;
      qs <- split_rows (as_array u) (accumulate (removelast l_shapes)) ;;
      l_blocks <- foldM (compressed_block (ncols u)) (combine qs blocks) (fst st) ;;
      vh <- list_get blocks_r ik ;;
      r <- scale_rows s_kept vh ;;
      Ok (l_blocks, dict_set q_eqb (snd st) q_label_r (as_array r))
  | None => Ok st
  end.

Definition left_compress (self : SparseTensor L (ndarray Q)) (k : Z) (cutoff : Q)
  : result (SparseTensor L (ndarray Q) * dict L (ndarray Q) * R) :=
  collected_rows <- foldM collect_block (blocks self) [] ;;
  st <- foldM svd_group collected_rows ([], [], []) ;;
  let svd_s := fst (fst st) in
  let res := truncate_singular_values svd_s k cutoff in
  let svd_r := fst (fst res) in
  let gls := snd (fst res) in
  let error := snd res in
  lr <- foldM (select_step svd_s) (enumerate gls) (snd (fst st), snd st) ;;
  out <- foldM (assemble_group svd_r (fst lr) (snd lr)) (enumerate collected_rows)
           ([], []) ;;
  t <- SparseTensor_init (Some (fst out)) (Some (ftype self)) None ;;
  Ok (t, snd out, error).

(** *** Vocabulary of the statements about compression *)

(** The last labels of the blocks, each once, in the order in which they
    first appear. *)
Definition last_labels (bs : list (SubTensor L (ndarray Q))) : list L :=
  fold_left (fun acc b =>
               match py_index (q_labels b) (-1) with
               | Ok q => if existsb (q_eqb q) acc then acc else acc ++ [q]
               | Raise _ => acc
               end) bs [].

(** The stacked matrix of the group of the label [g], and its factors. *)
Definition group_mat (bs : list (SubTensor L (ndarray Q))) (g : L) : ndarray Q :=
  match stacked (group_of g bs) with
  | Ok mat => mat
  | Raise _ => mkArray [] []
  end.

Definition group_u (bs : list (SubTensor L (ndarray Q))) (g : L) : matrix :=
  fst (fst (svd (group_mat bs g))).

Definition group_s (bs : list (SubTensor L (ndarray Q))) (g : L) : list Q :=
  snd (fst (svd (group_mat bs g))).

Definition group_vh (bs : list (SubTensor L (ndarray Q))) (g : L) : matrix :=
  snd (svd (group_mat bs g)).

(** The shapes that [np.linalg.svd] gives its results for the matrix
    [mat]. *)
Definition svd_shapes (mat : ndarray Q) : Prop :=
  let '(u, s, vh) := svd mat in
  exists n p, shape mat = [n; p] /\
    nrows u = n /\ ncols u = length s /\ length (entries u) = n * length s /\
    nrows vh = length s /\ ncols vh = p /\ length (entries vh) = length s * p.

(** What the fourth loop appends for the group [snd ig] of number
    [fst ig]: its blocks with the slices of the left factor, and the carry
    matrix of its label. *)
Definition group_blocks (svd_r : list (option (list Q))) (blocks_l : list matrix)
    (ig : nat * (L * list (SubTensor L (ndarray Q))))
  : list (SubTensor L (ndarray Q)) :=
  match nth (fst ig) svd_r None with
  | Some _ =>
      let u := nth (fst ig) blocks_l (mkMatrix 0 0 []) in
      canon_blocks (as_array u) (ncols u) (snd (snd ig))
  | None => []
  end.

Definition group_carry (svd_r : list (option (list Q))) (blocks_r : list matrix)
    (rmap : dict L (ndarray Q)) (ig : nat * (L * list (SubTensor L (ndarray Q))))
  : dict L (ndarray Q) :=
  match nth (fst ig) svd_r None with
  | Some s_kept =>
      dict_set q_eqb rmap (fst (snd ig))
        (as_array (scaled_rows s_kept (nth (fst ig) blocks_r (mkMatrix 0 0 []))))
  | None => rmap
  end.

End Compress.

Arguments SubTensor_of {L} ql red.
Arguments collect_block {L QL} d block.
Arguments svd_group {L} svd st grp.
Arguments compressed_block {L} c l_blocks qb.
Arguments assemble_group {L QL} svd_r blocks_l blocks_r st ig.
Arguments group_blocks {L} svd_r blocks_l ig.
Arguments group_carry {L QL} svd_r blocks_r rmap ig.

(** ** [right_canonicalize]

    The mirror of [left_canonicalize] on the first label, with the
    flattened blocks transposed before they are stacked. *)

Section Transpose.
Variable S : Type.

(** The entries of [a.T] for the entries [d] of an array [a] of shape
    [sh], both in row-major order: entry [(j, i)] of the transpose, for a
    position [j] in the transpose of the sub-arrays [a[i]], is entry [j] of
    the transpose of [a[i]]. *)
Fixpoint transpose_data (sh : list nat) (d : list S) : list S :=
  match sh with
  | [] => d
  | n :: sh' =>
      let p := size_of sh' in
      let subs := map (fun i => transpose_data sh' (firstn p (skipn (i * p) d)))
                      (seq 0 n) in
      flat_map (fun j =>
                  flat_map (fun sub => match nth_error sub j with
                                       | Some x => [x]
                                       | None => []
                                       end) subs)
               (seq 0 p)
  end.

(** [a.T] *)
Definition transpose (a : ndarray S) : ndarray S :=
  mkArray (rev (shape a)) (transpose_data (shape a) (data a)).

(** [a.reshape((-1, sh))] *)
Definition reshape_cols (a : ndarray S) (sh : nat) : result (ndarray S) :=
  if (sh =? 0) || negb (length (data a) mod sh =? 0)
  then Raise ValueError
  else Ok (mkArray [length (data a) / sh; sh] (data a)).

(** [a.reshape((-1, sh))] for [sh = np.prod(a.shape[1:])]: the product of
    the empty shape is the float [1.0], which [reshape] refuses. *)
Definition reshape_trailing (a : ndarray S) (sh : nat) : result (ndarray S) :=
  match tl (shape a) with
  | [] => Raise TypeError
  | _ :: _ => reshape_cols a sh
  end.

End Transpose.

Section RightCanonicalize.
Context {L : Type} `{QL : QuantumLabel L}.
Variable S : Type.

(** [np.linalg.qr(mat, mode)] for the [mode] of the call. *)
Variable qr : ndarray S -> ndarray S * ndarray S.

(** The body of the first loop, for the block [snd ib] at the position
    [fst ib]. *)
Definition collect_col_step (d : dict L (list nat)) (ib : nat * SubTensor L (ndarray S))
  : result (dict L (list nat)) :=
  q_label_l <- py_index (q_labels (snd ib)) 0 ;;
  let l := match dict_get q_eqb d q_label_l with
           | Some l => l
           | None => []
           end in
  Ok (dict_set q_eqb d q_label_l (l ++ [fst ib])).

(** The first loop: the positions of the blocks of each first label. *)
Definition collect_cols (bs : list (SubTensor L (ndarray S)))
  : result (dict L (list nat)) :=
  foldM collect_col_step (enumerate bs) [].

(** [b.reduced = q.T.reshape((r.shape[0], ) + b.reduced.shape[1:])] for the
    block [b] at position [fst (snd qb)]. *)
Definition store_qT (r : ndarray S) (store : list (SubTensor L (ndarray S)))
    (qb : ndarray S * (nat * SubTensor L (ndarray S)))
  : result (list (SubTensor L (ndarray S))) :=
  let b := snd (snd qb) in
  r0 <- py_index (shape r) 0 ;;
  a <- reshape (transpose (fst qb)) (r0 :: tl (shape (reduced b))) ;;
  Ok (list_set store (fst (snd qb)) (mkSubTensor (q_labels b) a)).

(** The body of the loop over [collected_cols.items()]. *)
Definition right_canonicalize_group
    (st : list (SubTensor L (ndarray S)) * dict L (ndarray S))
    (grp : L * list nat)
  : result (list (SubTensor L (ndarray S)) * dict L (ndarray S)) :=
  let store := fst st in
  blocks <- mapM (deref store) (snd grp) ;;
  let r_shapes := map (fun b => size_of (tl (shape (reduced b)))) blocks in
  mats <- mapM (fun shb => m <- reshape_trailing (reduced (snd shb)) (fst shb) ;;
                           Ok (transpose m))
               (combine r_shapes blocks) ;;
  mat <- concatenate_rows mats ;;
  let (q, r) := qr mat in
  let l_blocks_map := dict_set q_eqb (snd st) (fst grp) (transpose r) in
  qs <- split_rows q (accumulate (removelast r_shapes)) ;;
  if negb (length qs =? length blocks) then Raise AssertionError else
  store' <- foldM (store_qT r) (combine qs (combine (snd grp) blocks)) store ;;
  Ok (store', l_blocks_map).

Definition right_canonicalize (self : SparseTensor L (ndarray S))
  : result (SparseTensor L (ndarray S) * dict L (ndarray S)) :=
  collected_cols <- collect_cols (blocks self) ;;
  st <- foldM right_canonicalize_group collected_cols (blocks self, []) ;;
  Ok (with_blocks self (fst st), snd st).

(** *** Vocabulary of the statements about right canonicalization *)

(** The first label of [b] is [g]. *)
Definition has_first_label (g : L) (b : SubTensor L (ndarray S)) : bool :=
  match py_index (q_labels b) 0 with
  | Ok q => q_eqb q g
  | Raise _ => false
  end.

(** The blocks of the group of the boundary label [g], in order. *)
Definition first_group_of (g : L) (bs : list (SubTensor L (ndarray S)))
  : list (SubTensor L (ndarray S)) :=
  filter (has_first_label g) bs.

(** A block flattened over its trailing legs, transposed. *)
Definition flatten_trailing (b : SubTensor L (ndarray S)) : result (ndarray S) :=
  m <- reshape_trailing (reduced b) (size_of (tl (shape (reduced b)))) ;;
  Ok (transpose m).

(** The transposed flattened blocks of a group, stacked row-wise. *)
Definition stacked_trailing (bs : list (SubTensor L (ndarray S)))
  : result (ndarray S) :=
  ms <- mapM flatten_trailing bs ;;
  concatenate_rows ms.

(** The positions, counted from [a], of the blocks of the group of [g]. *)
Fixpoint first_refs_from (g : L) (a : nat) (bs : list (SubTensor L (ndarray S)))
  : list nat :=
  match bs with
  | [] => []
  | b :: bs' =>
      if has_first_label g b then a :: first_refs_from g (Datatypes.S a) bs'
      else first_refs_from g (Datatypes.S a) bs'
  end.

(** The trailing size of a block: the rows it takes in the stacked
    matrix. *)
Definition trailing_size (b : SubTensor L (ndarray S)) : nat :=
  size_of (tl (shape (reduced b))).

(** A block after the assignment of the transpose of its slice of [Q]. *)
Definition with_slice_T (c : nat) (pb : ndarray S * SubTensor L (ndarray S))
  : SubTensor L (ndarray S) :=
  mkSubTensor (q_labels (snd pb))
    (mkArray (c :: tl (shape (reduced (snd pb)))) (data (transpose (fst pb)))).

(** The blocks of a group after the loop, for the factor [q] of width
    [c]. *)
Definition right_canon_blocks (q : ndarray S) (c : nat)
    (bs : list (SubTensor L (ndarray S))) : list (SubTensor L (ndarray S)) :=
  map (with_slice_T c) (combine (pieces c (data q) 0 (map trailing_size bs)) bs).

End RightCanonicalize.

Arguments transpose {S} a.
Arguments collect_col_step {L QL S} d ib.
Arguments store_qT {L S} r store qb.
Arguments right_canonicalize_group {L QL S} qr st grp.
Arguments has_first_label {L QL S} g b.
Arguments flatten_trailing {L S} b.
Arguments trailing_size {L S} b.
Arguments with_slice_T {L S} c pb.

(** ** [right_compress]

    The mirror of [left_compress] on the first label: the blocks of a
    group are flattened over their trailing legs and put side by side. *)

Section ColumnOps.
Variable S : Type.

(** One step of [np.concatenate(..., axis=1)] on matrices. *)
Definition append_cols (acc m : ndarray S) : result (ndarray S) :=
  match shape acc, shape m with
  | [r; c], [r'; c'] =>
      if r' =? r then
        Ok (mkArray [r; c + c']
              (flat_map (fun i => firstn c (skipn (i * c) (data acc))
                                  ++ firstn c' (skipn (i * c') (data m)))
                        (seq 0 r)))
      else Raise ValueError
  | _, _ => Raise ValueError
  end.

(** [np.concatenate(ms, axis=1)] for a list of matrices. *)
Definition concatenate_cols (ms : list (ndarray S)) : result (ndarray S) :=
  match ms with
  | [] => Raise ValueError
  | m :: ms' =>
      match shape m with
      | [_; _] => foldM append_cols ms' m
      | _ => Raise ValueError
      end
  end.

End ColumnOps.

Arguments append_cols {S} acc m.
Arguments concatenate_cols {S} ms.

Section RowOrthonormal.
Variable S : Type.
Variables (add mul : S -> S -> S) (zero one : S).
Variable close : S -> S -> Prop.

(** [V V^T] is the identity, up to the tolerance. *)
Definition row_orthonormal (v : ndarray S) : Prop :=
  exists c n, shape v = [c; n] /\
    forall i j, i < c -> j < c ->
      close (sum_over add zero n (fun k => mul (entry zero v i k) (entry zero v j k)))
            (if i =? j then one else zero).

End RowOrthonormal.

(** The columns [a], ..., [a + w - 1] of a matrix. *)
Definition col_block (m : matrix) (a w : nat) : matrix :=
  mkMatrix (nrows m) w
    (flat_map (fun i => firstn w (skipn (i * ncols m + a) (entries m)))
              (seq 0 (nrows m))).

(** [m[:, a:b]]; [None] stands for an omitted bound. *)
Definition col_slice (m : matrix) (a : nat) (b : option nat) : matrix :=
  let start := Nat.min a (ncols m) in
  let stop := match b with Some b' => Nat.min b' (ncols m) | None => ncols m end in
  col_block m start (stop - start).

(** [np.split(m, indices, axis=1)]: the slices between consecutive
    indices, from [start]. *)
Fixpoint split_cols_from (m : matrix) (start : nat) (indices : list nat) : list matrix :=
  match indices with
  | [] => [col_slice m start None]
  | i :: indices' => col_slice m start (Some i) :: split_cols_from m i indices'
  end.

Definition split_cols (m : matrix) (indices : list nat) : list matrix :=
  split_cols_from m 0 indices.

(** [s[None, :] * m]: the row [s] broadcast against the matrix [m]. *)
Definition scale_cols (s : list Q) (m : matrix) : result matrix :=
  let kl := length s in
  if ncols m =? kl then
    Ok (mkMatrix (nrows m) kl
          (flat_map (fun i => map (fun j => Qmult (nth j s 0%Q)
                                              (nth (i * ncols m + j) (entries m) 0%Q))
                                  (seq 0 kl))
                    (seq 0 (nrows m))))
  else if kl =? 1 then
    Ok (mkMatrix (nrows m) (ncols m)
          (flat_map (fun i => map (Qmult (nth 0 s 0%Q)) (mrow m i)) (seq 0 (nrows m))))
  else if ncols m =? 1 then
    Ok (mkMatrix (nrows m) kl
          (flat_map (fun i => map (fun j => Qmult (nth j s 0%Q)
                                              (nth (i * ncols m) (entries m) 0%Q))
                                  (seq 0 kl))
                    (seq 0 (nrows m))))
  else Raise ValueError.

(** What [scale_cols] returns for a row with one entry for each column. *)
Definition scaled_cols (s : list Q) (m : matrix) : matrix :=
  mkMatrix (nrows m) (length s)
    (flat_map (fun i => map (fun j => Qmult (nth j s 0%Q)
                                        (nth (i * ncols m + j) (entries m) 0%Q))
                            (seq 0 (length s)))
              (seq 0 (nrows m))).

Section RightCompress.
Context {L : Type} `{QL : QuantumLabel L}.

(** [np.linalg.svd(mat, full_matrices=False)] *)
Variable svd : ndarray Q -> matrix * list Q * matrix.

(** The body of the first loop: the blocks of each first label. *)
Definition collect_col_block (d : dict L (list (SubTensor L (ndarray Q))))
    (block : SubTensor L (ndarray Q))
  : result (dict L (list (SubTensor L (ndarray Q)))) :=
  q_label_l <- py_index (q_labels block) 0 ;;
  let l := match dict_get q_eqb d q_label_l with
           | Some l => l
           | None => []
           end in
  Ok (dict_set q_eqb d q_label_l (l ++ [block])).

(** The body of the second loop: the factors of the matrix of a group. *)
Definition svd_col_group (st : list (list Q) * list matrix * list matrix)
    (grp : L * list (SubTensor L (ndarray Q)))
  : result (list (list Q) * list matrix * list matrix) :=
  let blocks := snd grp in
  let r_shapes := map (fun b => size_of (tl (shape (reduced b)))) blocks in
  mats <- mapM (fun shb => reshape_trailing (reduced (snd shb)) (fst shb))
               (combine r_shapes blocks) ;;
  mat <- concatenate_cols mats ;;
  let '(u, s, vh) := svd mat in
  Ok (fst (fst st) ++ [s], snd (fst st) ++ [u], snd st ++ [vh]).

(** The body of the loop over [zip(qs, blocks)]. *)
Definition compressed_col_block (c : nat) (r_blocks : list (SubTensor L (ndarray Q)))
    (qb : matrix * SubTensor L (ndarray Q))
  : result (list (SubTensor L (ndarray Q))) :=
  mat <- reshape (as_array (fst qb)) (c :: tl (shape (reduced (snd qb)))) ;;
  b <- SubTensor_of (q_labels (snd qb)) mat ;;
  Ok (r_blocks ++ [b]).

(** The body of the fourth loop: the blocks and the carry matrix of a
    group that keeps singular values. *)
Definition assemble_col_group (svd_r : list (option (list Q)))
    (blocks_l blocks_r : list matrix)
    (st : list (SubTensor L (ndarray Q)) * dict L (ndarray Q))
    (ig : nat * (L * list (SubTensor L (ndarray Q))))
  : result (list (SubTensor L (ndarray Q)) * dict L (ndarray Q)) :=
  let ik := fst ig in
  let q_label_l := fst (snd ig) in
  let blocks := snd (snd ig) in
  s <- list_get svd_r ik ;;
  match s with
  | Some s_kept =>
      let r_shapes := map (fun b => size_of (tl (shape (reduced b)))) blocks in
      vh <- list_get blocks_r ik ;;
      let qs := split_cols vh (accumulate (removelast r_shapes)) in
      if negb (length qs =? length blocks) then Raise AssertionError else
      r_blocks <- foldM (compressed_col_block (nrows vh)) (combine qs blocks) (fst st) ;;
      u <- list_get blocks_l ik ;;
      l <- scale_cols s_kept u ;;
      Ok (r_blocks, dict_set q_eqb (snd st) q_label_l (as_array l))
  | None => Ok st
  end.

Definition right_compress (self : SparseTensor L (ndarray Q)) (k : Z) (cutoff : Q)
  : result (SparseTensor L (ndarray Q) * dict L (ndarray Q) * R) :=
  collected_cols <- foldM collect_col_block (blocks self) [] ;;
  st <- foldM svd_col_group collected_cols ([], [], []) ;;
  let svd_s := fst (fst st) in
  let res := truncate_singular_values svd_s k cutoff in
  let svd_r := fst (fst res) in
  let gls := snd (fst res) in
  let error := snd res in
  lr <- foldM (select_step svd_s) (enumerate gls) (snd (fst st), snd st) ;;
  out <- foldM (assemble_col_group svd_r (fst lr) (snd lr)) (enumerate collected_cols)
           ([], []) ;;
  t <- SparseTensor_init (Some (fst out)) (Some (ftype self)) None ;;
  Ok (t, snd out, error).

(** *** Vocabulary of the statements about right compression *)

(** The first labels of the blocks, each once, in the order in which they
    first appear. *)
Definition first_labels (bs : list (SubTensor L (ndarray Q))) : list L :=
  fold_left (fun acc b =>
               match py_index (q_labels b) 0 with
               | Ok q => if existsb (q_eqb q) acc then acc else acc ++ [q]
               | Raise _ => acc
               end) bs [].

(** A block flattened over its trailing legs. *)
Definition flatten_cols (b : SubTensor L (ndarray Q)) : result (ndarray Q) :=
  reshape_trailing (reduced b) (size_of (tl (shape (reduced b)))).

(** The flattened blocks of a group, side by side. *)
Definition hstacked (bs : list (SubTensor L (ndarray Q))) : result (ndarray Q) :=
  ms <- mapM flatten_cols bs ;;
  concatenate_cols ms.

(** The matrix of the group of the first label [g], and its factors. *)
Definition col_group_mat (bs : list (SubTensor L (ndarray Q))) (g : L) : ndarray Q :=
  match hstacked (first_group_of g bs) with
  | Ok mat => mat
  | Raise _ => mkArray [] []
  end.

Definition col_group_u (bs : list (SubTensor L (ndarray Q))) (g : L) : matrix :=
  fst (fst (svd (col_group_mat bs g))).

Definition col_group_s (bs : list (SubTensor L (ndarray Q))) (g : L) : list Q :=
  snd (fst (svd (col_group_mat bs g))).

Definition col_group_vh (bs : list (SubTensor L (ndarray Q))) (g : L) : matrix :=
  snd (svd (col_group_mat bs g)).

(** The column slices of a matrix: from column [a], slices of [w1],
    [w2], ... columns. *)
Fixpoint col_pieces (m : matrix) (a : nat) (ws : list nat) : list matrix :=
  match ws with
  | [] => []
  | w :: ws' => col_block m a w :: col_pieces m (a + w) ws'
  end.

(** A block with its slice of the right factor. *)
Definition with_col_slice (c : nat) (pb : matrix * SubTensor L (ndarray Q))
  : SubTensor L (ndarray Q) :=
  mkSubTensor (q_labels (snd pb))
    (mkArray (c :: tl (shape (reduced (snd pb)))) (entries (fst pb))).

(** The blocks of a group with the slices of the matrix [vh]. *)
Definition compress_col_blocks (vh : matrix) (bs : list (SubTensor L (ndarray Q)))
  : list (SubTensor L (ndarray Q)) :=
  map (with_col_slice (nrows vh)) (combine (col_pieces vh 0 (map trailing_size bs)) bs).

(** What the fourth loop appends for the group [snd ig] of number
    [fst ig]: its blocks with the slices of the right factor, and the carry
    matrix of its label. *)
Definition col_group_blocks (svd_r : list (option (list Q))) (blocks_r : list matrix)
    (ig : nat * (L * list (SubTensor L (ndarray Q))))
  : list (SubTensor L (ndarray Q)) :=
  match nth (fst ig) svd_r None with
  | Some _ => compress_col_blocks (nth (fst ig) blocks_r (mkMatrix 0 0 [])) (snd (snd ig))
  | None => []
  end.

Definition col_group_carry (svd_r : list (option (list Q))) (blocks_l : list matrix)
    (lmap : dict L (ndarray Q)) (ig : nat * (L * list (SubTensor L (ndarray Q))))
  : dict L (ndarray Q) :=
  match nth (fst ig) svd_r None with
  | Some s_kept =>
      dict_set q_eqb lmap (fst (snd ig))
        (as_array (scaled_cols s_kept (nth (fst ig) blocks_l (mkMatrix 0 0 []))))
  | None => lmap
  end.

End RightCompress.

Arguments collect_col_block {L QL} d block.
Arguments svd_col_group {L} svd st grp.
Arguments compressed_col_block {L} c r_blocks qb.
Arguments assemble_col_group {L QL} svd_r blocks_l blocks_r st ig.
Arguments flatten_cols {L} b.
Arguments with_col_slice {L} c pb.
Arguments compress_col_blocks {L} vh bs.
Arguments col_group_blocks {L} svd_r blocks_r ig.
Arguments col_group_carry {L QL} svd_r blocks_l lmap ig.

(** ** Two instances of the interfaces, used by the examples *)

(** Particle-number labels: addition of integers, fermionic when odd. *)
#[export] Instance ZLabel : QuantumLabel Z := {|
  q_eqb := Z.eqb;
  q_add := Z.add;
  is_fermion := Z.odd;
  q_zero := 0%Z;
  q_eqb_spec := Z.eqb_spec
|}.

(** Arrays all of whose legs have dimension one: the number of legs and the
    single entry.  [tensordot] of two such arrays multiplies the entries. *)
Record unit_array : Type := mkUnitArray {
  ua_ndim : nat;
  ua_entry : Z
}.

#[export] Instance UnitArray : DenseArray Z unit_array := {|
  ndim := ua_ndim;
  tensordot := fun a b ia ib =>
    mkUnitArray (ua_ndim a + ua_ndim b - 2 * length ia) (ua_entry a * ua_entry b);
  iadd := fun a b => mkUnitArray (ua_ndim a) (ua_entry a + ua_entry b);
  aneg := fun a => mkUnitArray (ua_ndim a) (- ua_entry a);
  smul := fun s a => mkUnitArray (ua_ndim a) (s * ua_entry a);
  zeros := fun sh => mkUnitArray (length sh) 0;
  item := ua_entry;
  szero := 0%Z;
  ndim_aneg := fun a => eq_refl;
  ndim_smul := fun s a => eq_refl;
  ndim_zeros := fun sh => eq_refl
|}.

(** A factorization for the example: the matrix itself and the identity
    of its width, which is what [np.linalg.qr] returns, up to signs, for a
    matrix that is column-orthonormal already. *)
Definition identity_data (c : nat) : list Z :=
  flat_map (fun i => map (fun j => if i =? j then 1%Z else 0%Z) (seq 0 c)) (seq 0 c).

Definition qr_of_isometry (m : ndarray Z) : ndarray Z * ndarray Z :=
  let c := hd 0 (tl (shape m)) in
  (m, mkArray [c; c] (identity_data c)).

(** Three blocks in two groups: the boundary label 5 with two blocks whose
    rows are the unit vectors, and the boundary label 7 with one block. *)
Definition isometry_example : SparseTensor Z (ndarray Z) :=
  mkSparseTensor
    [mkSubTensor [0; 0; 5]%Z (mkArray [1; 1; 2] [1; 0]%Z);
     mkSubTensor [0; 1; 7]%Z (mkArray [1; 1; 1] [1]%Z);
     mkSubTensor [1; 0; 5]%Z (mkArray [1; 1; 2] [0; 1]%Z)]
    ThreeIndexMPSTensor None.

(** Two blocks with the last label 5 and the last extents 2 and 3. *)
Definition ragged_example : SparseTensor Z (ndarray Z) :=
  mkSparseTensor
    [mkSubTensor [0; 0; 5]%Z (mkArray [1; 1; 2] [1; 0]%Z);
     mkSubTensor [1; 0; 5]%Z (mkArray [1; 1; 3] [0; 1; 0]%Z)]
    ThreeIndexMPSTensor None.

(** A factorization for the example: for a matrix whose entries off the
    diagonal are zero and whose diagonal is not negative and descends,
    what [np.linalg.svd] returns, up to signs: the diagonal between two
    factors with ones on the diagonal. *)
Definition eye (n c : nat) : matrix :=
  mkMatrix n c
    (flat_map (fun i => map (fun j => if i =? j then 1%Q else 0%Q) (seq 0 c)) (seq 0 n)).

Definition svd_of_diagonal (m : ndarray Q) : matrix * list Q * matrix :=
  let n := hd 0 (shape m) in
  let p := hd 0 (tl (shape m)) in
  let c := Nat.min n p in
  (eye n c, map (fun i => nth (i * p + i) (data m) 0%Q) (seq 0 c), eye c p).

(** Three blocks in two groups: the boundary label 5 with two blocks that
    stack to the diagonal matrix of 3 and 1/2, and the boundary label 7
    with one block. *)
Definition compress_example : SparseTensor Z (ndarray Q) :=
  mkSparseTensor
    [mkSubTensor [0; 0; 5]%Z (mkArray [1; 1; 2] [3; 0]%Q);
     mkSubTensor [0; 1; 7]%Z (mkArray [1; 1; 1] [2]%Q);
     mkSubTensor [1; 0; 5]%Z (mkArray [1; 1; 2] [0; 1 # 2]%Q)]
    ThreeIndexMPSTensor None.

(** Three blocks in two groups by first label: one block of label 5 with
    the first extent 1 and the trailing extents 2 and 1, and two blocks of
    label 7; flattened over the trailing legs, transposed and stacked, each
    group is the first unit vector as a column. *)
Definition right_isometry_example : SparseTensor Z (ndarray Z) :=
  mkSparseTensor
    [mkSubTensor [5; 0; 0]%Z (mkArray [1; 2; 1] [1; 0]%Z);
     mkSubTensor [7; 0; 0]%Z (mkArray [1; 1; 1] [1]%Z);
     mkSubTensor [7; 0; 1]%Z (mkArray [1; 1; 1] [0]%Z)]
    ThreeIndexMPSTensor None.

(** Three blocks in two groups by first label: the label 5 with two blocks
    that side by side are the diagonal matrix of 3 and 1/2, and the label
    7 with one block. *)
Definition right_compress_example : SparseTensor Z (ndarray Q) :=
  mkSparseTensor
    [mkSubTensor [5; 0; 0]%Z (mkArray [2; 1; 1] [3; 0]%Q);
     mkSubTensor [7; 1; 0]%Z (mkArray [1; 1; 1] [2]%Q);
     mkSubTensor [5; 0; 1]%Z (mkArray [2; 1; 1] [0; 1 # 2]%Q)]
    ThreeIndexMPSTensor None.

(** * Properties *)

Unset Implicit Arguments.

Lemma ftype_eqb_eq (a b : FusingTypes) : ftype_eqb a b = true <-> a = b.
Proof. destruct a, b; simpl; split; intro E; congruence. Qed.

(** ** The monad and the loops *)

Lemma bind_Ok {T U : Type} (c : result T) (k : T -> result U) (u : U) :
  bind c k = Ok u -> exists x, c = Ok x /\ k x = Ok u.
Proof. destruct c as [x|e]; simpl; intro E; [exists x; auto | discriminate]. Qed.

Ltac bind_inv H :=
  let x := fresh "x" in
  let Hx := fresh "Hx" in
  apply bind_Ok in H; destruct H as (x & Hx & H).

Lemma foldM_app {T St : Type} (body : St -> T -> result St) (xs ys : list T) (s : St) :
  foldM body (xs ++ ys) s = (s' <- foldM body xs s ;; foldM body ys s').
Proof.
  revert s; induction xs as [|x xs IH]; intro s; simpl; [reflexivity|].
  destruct (body s x); simpl; auto.
Qed.

Lemma mapM_Ok_map {T U : Type} (f : T -> result U) (g : T -> U) (xs : list T) :
  Forall (fun x => f x = Ok (g x)) xs -> mapM f xs = Ok (map g xs).
Proof.
  induction 1 as [|x xs Hx _ IH]; simpl; [reflexivity|].
  rewrite Hx; simpl. rewrite IH; reflexivity.
Qed.

Lemma mapM_length {T U : Type} (f : T -> result U) (xs : list T) (ys : list U) :
  mapM f xs = Ok ys -> length ys = length xs.
Proof.
  revert ys; induction xs as [|x xs IH]; simpl; intros ys E.
  - inversion E; reflexivity.
  - bind_inv E. bind_inv E. inversion E; subst; simpl. f_equal; eauto.
Qed.

Lemma py_index_0 {T : Type} (t : list T) : 
  py_index t 0 = match t with x :: _ => Ok x | [] => Raise IndexError end.
Proof. destruct t; reflexivity. Qed.

Lemma py_index_nat {T : Type} (t : list T) (n : nat) (x : T) :
  nth_error t n = Some x -> py_index t (Z.of_nat n) = Ok x.
Proof.
  intro E. unfold py_index.
  destruct (0 <=? Z.of_nat n)%Z eqn:Hn; [|apply Z.leb_gt in Hn; lia].
  rewrite Hn, Nat2Z.id, E. reflexivity.
Qed.

Lemma py_index_last {T : Type} (t : list T) (x : T) :
  py_index (t ++ [x]) (-1) = Ok x.
Proof.
  unfold py_index. rewrite length_app; simpl.
  replace (Z.of_nat (length t + 1) + -1)%Z with (Z.of_nat (length t)) by lia.
  destruct (0 <=? Z.of_nat (length t))%Z eqn:Hn; [|apply Z.leb_gt in Hn; lia].
  rewrite Nat2Z.id, nth_error_app2, Nat.sub_diag by lia. reflexivity.
Qed.

Lemma py_index_last_nil {T : Type} : py_index (@nil T) (-1) = Raise IndexError.
Proof. reflexivity. Qed.

(** ** Construction and the shape tag *)

Section TagProperties.
Context {L S A : Type} `{QL : QuantumLabel L} `{DA : DenseArray S A}.

#[local] Abbreviation SubTensor := (SubTensor L A).
#[local] Abbreviation SparseTensor := (SparseTensor L A).

Lemma SubTensor_init_ok (ql : list L) (red : A) :
  length ql = 0 \/ ndim red = length ql ->
  SubTensor_init ql red = Ok (mkSubTensor ql red).
Proof.
  unfold SubTensor_init. intros [E|E]; rewrite E.
  - reflexivity.
  - rewrite Nat.eqb_refl, andb_false_r. reflexivity.
Qed.

Lemma SubTensor_init_inv (ql : list L) (red : A) (b : SubTensor) :
  SubTensor_init ql red = Ok b -> b = mkSubTensor ql red.
Proof.
  unfold SubTensor_init.
  destruct (negb (length ql =? 0) && negb (ndim red =? length ql));
    intro E; inversion E; reflexivity.
Qed.

Lemma blocks_rank_common (bs : list SubTensor) (r : nat) :
  bs <> [] -> Forall (fun b => st_rank b = r) bs -> blocks_rank bs = r.
Proof.
  destruct bs as [|b bs]; [congruence|].
  intros _ H. inversion H; subst. reflexivity.
Qed.

Lemma blocks_rank_map (f : SubTensor -> SubTensor) (bs : list SubTensor) :
  (forall b, q_labels (f b) = q_labels b) ->
  blocks_rank (map f bs) = blocks_rank bs.
Proof.
  intro Hf. destruct bs as [|b bs]; simpl; [reflexivity|].
  unfold st_rank. rewrite Hf. reflexivity.
Qed.

(** C9. Built without a shape tag, a collection whose blocks have the
    common rank 3 gets the three-index state-tensor tag, one whose blocks
    have the common rank 4 gets the four-index operator-tensor tag, and
    for every other rank the constructor raises [RuntimeError]; so it
    does for a collection without blocks, given as an empty list or left
    to the default. *)
Theorem SparseTensor_init_untagged (bs : list SubTensor) (dq : option L) (r : nat) :
  Forall (fun b => st_rank b = r) bs ->
  (bs <> [] -> r = 3 ->
     SparseTensor_init (Some bs) None dq = Ok (mkSparseTensor bs ThreeIndexMPSTensor dq)) /\
  (bs <> [] -> r = 4 ->
     SparseTensor_init (Some bs) None dq = Ok (mkSparseTensor bs FourIndexMPOTensor dq)) /\
  (bs <> [] -> r <> 3 -> r <> 4 ->
     SparseTensor_init (Some bs) None dq = Raise RuntimeError) /\
  SparseTensor_init (Some (@nil SubTensor)) None dq = Raise RuntimeError /\
  SparseTensor_init (@None (list SubTensor)) None dq = Raise RuntimeError.
Proof.
  intro Hr. unfold SparseTensor_init.
  repeat split; try reflexivity; intro Hne;
    rewrite (blocks_rank_common _ _ Hne Hr).
  - intros ->. reflexivity.
  - intros ->. reflexivity.
  - intros H3 H4.
    destruct (r =? 3) eqn:E3; [apply Nat.eqb_eq in E3; contradiction|].
    destruct (r =? 4) eqn:E4; [apply Nat.eqb_eq in E4; contradiction|].
    reflexivity.
Qed.

(** With an explicit tag the constructor always succeeds. *)
Lemma SparseTensor_init_tagged (bs : list SubTensor) (f : FusingTypes) (dq : option L) :
  SparseTensor_init (Some bs) (Some f) dq = Ok (mkSparseTensor bs f dq).
Proof. reflexivity. Qed.

Lemma mapM_SubTensor_mul (s : S) (bs : list SubTensor) :
  Forall block_ok bs ->
  mapM (fun b => SubTensor_mul b s) bs = Ok (map (scaled s) bs).
Proof.
  intro H. apply mapM_Ok_map.
  apply Forall_impl with (2 := H). intros b Hb.
  unfold SubTensor_mul. apply SubTensor_init_ok.
  rewrite ndim_smul. exact Hb.
Qed.

Lemma mapM_SubTensor_neg (bs : list SubTensor) :
  Forall block_ok bs -> mapM SubTensor_neg bs = Ok (map negated bs).
Proof.
  intro H. apply mapM_Ok_map.
  apply Forall_impl with (2 := H). intros b Hb.
  unfold SubTensor_neg. apply SubTensor_init_ok.
  rewrite ndim_aneg. exact Hb.
Qed.

(** C10. Scalar multiplication keeps the shape tag.  Negation builds its
    result without a tag: on a collection whose rank is neither 3 nor 4
    (a collection without blocks has rank 0) it raises [RuntimeError]
    whatever the tag of the collection was, and on a collection of rank
    3 or 4 the result carries the default tag of that rank, not the tag
    of the collection. *)
Theorem neg_drops_shape_tag (t : SparseTensor) (s : S) :
  Forall block_ok (blocks t) ->
  SparseTensor_mul t s
    = Ok (mkSparseTensor (map (scaled s) (blocks t)) (ftype t) None) /\
  (rank t <> 3 -> rank t <> 4 -> SparseTensor_neg t = Raise RuntimeError) /\
  (blocks t = [] -> rank t = 0 /\ SparseTensor_neg t = Raise RuntimeError) /\
  (rank t = 3 ->
     SparseTensor_neg t
       = Ok (mkSparseTensor (map negated (blocks t)) ThreeIndexMPSTensor None)) /\
  (rank t = 4 ->
     SparseTensor_neg t
       = Ok (mkSparseTensor (map negated (blocks t)) FourIndexMPOTensor None)).
Proof.
  intro Hok.
  assert (Hrk : blocks_rank (map negated (blocks t)) = rank t)
    by (apply blocks_rank_map; reflexivity).
  unfold SparseTensor_mul, SparseTensor_neg.
  rewrite (mapM_SubTensor_mul s _ Hok), (mapM_SubTensor_neg _ Hok). simpl.
  rewrite Hrk.
  split; [reflexivity|].
  split; [|split; [|split]].
  - intros H3 H4.
    destruct (rank t =? 3) eqn:E3; [apply Nat.eqb_eq in E3; contradiction|].
    destruct (rank t =? 4) eqn:E4; [apply Nat.eqb_eq in E4; contradiction|].
    reflexivity.
  - intro E. unfold rank. rewrite E. simpl. split; reflexivity.
  - intros ->. reflexivity.
  - intros ->. reflexivity.
Qed.

End TagProperties.

(** ** Carry application *)

Section Multiply.
Context {L S A : Type} `{QL : QuantumLabel L} `{DA : DenseArray S A}.

#[local] Abbreviation SubTensor := (SubTensor L A).
#[local] Abbreviation SparseTensor := (SparseTensor L A).

Lemma hd_error_rev_last {T : Type} (t : list T) :
  match hd_error (rev t) with
  | Some x => py_index t (-1) = Ok x
  | None => t = []
  end.
Proof.
  destruct t as [|y t] using rev_ind; [reflexivity|].
  rewrite rev_app_distr. simpl. apply py_index_last.
Qed.

Lemma left_multiply_loop (mats : dict L A) (bs acc : list SubTensor) :
  Forall (fun b => q_labels b <> []) bs ->
  Forall block_ok (flat_map (left_image mats) bs) ->
  foldM (left_multiply_step mats) bs acc
  = Ok (acc ++ flat_map (left_image mats) bs).
Proof.
  revert acc. induction bs as [|b bs IH]; intros acc Hne Hok; simpl.
  - rewrite app_nil_r. reflexivity.
  - inversion Hne as [|? ? Hb Hne']; subst.
    simpl in Hok. apply Forall_app in Hok. destruct Hok as [Hb' Hok].
    unfold left_multiply_step at 1. rewrite py_index_0. unfold left_image in *.
    destruct (q_labels b) as [|q ql] eqn:Eq; [congruence|]. simpl in *.
    destruct (dict_get q_eqb mats q) as [m|]; simpl.
    + inversion Hb' as [|? ? Hm _]; subst.
      rewrite SubTensor_init_ok by exact Hm. simpl.
      rewrite IH by assumption. rewrite <- app_assoc. reflexivity.
    + apply IH; assumption.
Qed.

Lemma right_multiply_loop (mats : dict L A) (bs acc : list SubTensor) :
  Forall (fun b => q_labels b <> []) bs ->
  Forall block_ok (flat_map (right_image mats) bs) ->
  foldM (right_multiply_step mats) bs acc
  = Ok (acc ++ flat_map (right_image mats) bs).
Proof.
  revert acc. induction bs as [|b bs IH]; intros acc Hne Hok; simpl.
  - rewrite app_nil_r. reflexivity.
  - inversion Hne as [|? ? Hb Hne']; subst.
    simpl in Hok. apply Forall_app in Hok. destruct Hok as [Hb' Hok].
    unfold right_multiply_step at 1. unfold right_image in *. unfold st_rank.
    pose proof (hd_error_rev_last (q_labels b)) as Hl.
    destruct (hd_error (rev (q_labels b))) as [q|]; [|contradiction].
    rewrite Hl. simpl.
    destruct (dict_get q_eqb mats q) as [m|]; simpl.
    + inversion Hb' as [|? ? Hm _]; subst.
      rewrite SubTensor_init_ok by exact Hm. simpl.
      rewrite IH by assumption. rewrite <- app_assoc. reflexivity.
    + apply IH; assumption.
Qed.

(** C7. On a collection whose blocks have at least one leg, and when the
    products have the rank of their blocks, [left_multiply] replaces each
    block whose first label is a key of the carry map by the block with
    the same labels and the product of the carry matrix (axis 1) with the
    block (axis 0), and drops every block whose first label is no key;
    [right_multiply] does the same with the last label, contracting the
    last axis of the block with axis 0 of the carry matrix.  Tag and
    [delta_quantum] are unchanged. *)
Theorem multiply_replaces_or_drops (self : SparseTensor) (mats : dict L A) :
  Forall (fun b => q_labels b <> []) (blocks self) ->
  (Forall block_ok (flat_map (left_image mats) (blocks self)) ->
   left_multiply self mats
   = Ok (with_blocks self (flat_map (left_image mats) (blocks self)))) /\
  (Forall block_ok (flat_map (right_image mats) (blocks self)) ->
   right_multiply self mats
   = Ok (with_blocks self (flat_map (right_image mats) (blocks self)))) /\
  (forall b, In b (blocks self) ->
     forall q ql, q_labels b = q :: ql ->
       match dict_get q_eqb mats q with
       | Some m =>
           left_image mats b
           = [mkSubTensor (q_labels b) (tensordot m (reduced b) [1%Z] [0%Z])]
       | None => left_image mats b = []
       end) /\
  (forall b, In b (blocks self) ->
     forall q ql, q_labels b = ql ++ [q] ->
       match dict_get q_eqb mats q with
       | Some m =>
           right_image mats b
           = [mkSubTensor (q_labels b)
                (tensordot (reduced b) m [(Z.of_nat (st_rank b) - 1)%Z] [0%Z])]
       | None => right_image mats b = []
       end).
Proof.
  intros Hne. split; [|split; [|split]].
  - intro Hl. unfold left_multiply.
    rewrite (left_multiply_loop mats _ [] Hne Hl). reflexivity.
  - intro Hr. unfold right_multiply.
    rewrite (right_multiply_loop mats _ [] Hne Hr). reflexivity.
  - intros b _ q ql E. unfold left_image. rewrite E. simpl.
    destruct (dict_get q_eqb mats q); reflexivity.
  - intros b _ q ql E. unfold right_image, st_rank. rewrite E.
    rewrite rev_app_distr. simpl.
    destruct (dict_get q_eqb mats q); reflexivity.
Qed.

End Multiply.

(** ** Allocation from leg-shape maps *)

Section Allocation.
Context {L S A : Type} `{QL : QuantumLabel L} `{DA : DenseArray S A}.

Lemma items_contains_label (d : dict L nat) (k : L) :
  items_contains d (PyLabel k) = false.
Proof. reflexivity. Qed.

(** The membership test of [init_from_state_info] asks whether a label is
    one of the (label, dimension) pairs of the right map, which it never
    is: no block is created, whatever the three maps. *)
Lemma init_inner_skips (r : StateInfo L) (kl : L) (vl : nat)
    (qm : dict L nat) (bs : list (SubTensor L A)) :
  foldM (init_inner r kl vl) qm bs = Ok bs.
Proof.
  induction qm as [|[km vm] qm IH]; simpl; [reflexivity|exact IH].
Qed.

Lemma init_from_state_info_no_blocks (l m r : StateInfo L) :
  init_from_state_info (A := A) l m r
  = Ok (mkSparseTensor [] ThreeIndexMPSTensor (Some q_zero)).
Proof.
  unfold init_from_state_info.
  assert (Hout : forall ql bs,
             foldM (init_outer (A := A) m r) ql bs = Ok bs).
  { induction ql as [|[kl vl] ql IH]; intro bs; simpl; [reflexivity|].
    rewrite init_inner_skips. simpl. apply IH. }
  rewrite Hout. reflexivity.
Qed.

End Allocation.

(** C8. The maps [left = mid = right = {0: 1}] of particle-number labels:
    the pair [(0, 0)] fuses to [0], a key of the right map with dimension
    1, and yet the collection that [init_from_state_info] returns has no
    block. *)
Theorem init_from_state_info_misses_block :
  let si := mkStateInfo [(0%Z, 1)] in
  dict_get q_eqb (quanta si) (q_add 0%Z 0%Z) = Some 1 /\
  init_from_state_info (A := unit_array) si si si
  = Ok (mkSparseTensor [] ThreeIndexMPSTensor (Some 0%Z)).
Proof. split; reflexivity. Qed.

(** ** Dictionaries *)

Section DictFacts.
Variables K V : Type.
Variable keq : K -> K -> bool.
Hypothesis keq_spec : forall a b, reflect (a = b) (keq a b).

Lemma dict_get_set (d : dict K V) (k k' : K) (v : V) :
  dict_get keq (dict_set keq d k v) k'
  = if keq k k' then Some v else dict_get keq d k'.
Proof.
  induction d as [|[k0 v0] d IH]; simpl.
  - reflexivity.
  - destruct (keq_spec k0 k) as [->|Hne]; simpl.
    + destruct (keq k k'); reflexivity.
    + rewrite IH.
      destruct (keq_spec k0 k') as [->|Hne'].
      * destruct (keq_spec k k') as [->|_]; [congruence|reflexivity].
      * reflexivity.
Qed.

Lemma dict_set_not_nil (d : dict K V) (k : K) (v : V) : dict_set keq d k v <> [].
Proof.
  destruct d as [|[k0 v0] d]; simpl; [discriminate|].
  destruct (keq k0 k); discriminate.
Qed.

Lemma dict_keys_set (d : dict K V) (k : K) (v : V) :
  dict_keys (dict_set keq d k v)
  = if dict_mem keq d k then dict_keys d else dict_keys d ++ [k].
Proof.
  unfold dict_mem. induction d as [|[k0 v0] d IH]; simpl; [reflexivity|].
  destruct (keq_spec k0 k) as [->|Hne]; simpl; [reflexivity|].
  rewrite IH. destruct (dict_get keq d k); reflexivity.
Qed.

Lemma dict_get_None (d : dict K V) (k : K) :
  dict_get keq d k = None -> ~ In k (dict_keys d).
Proof.
  induction d as [|[k0 v0] d IH]; simpl; [tauto|].
  destruct (keq_spec k0 k) as [->|Hne]; [discriminate|].
  intros E [H|H]; [congruence|exact (IH E H)].
Qed.

Lemma dict_set_NoDup (d : dict K V) (k : K) (v : V) :
  NoDup (dict_keys d) -> NoDup (dict_keys (dict_set keq d k v)).
Proof.
  intro Hd. rewrite dict_keys_set. unfold dict_mem.
  destruct (dict_get keq d k) eqn:E; [exact Hd|].
  apply NoDup_app; [exact Hd|repeat constructor; simpl; tauto|].
  intros x Hx [<-|[]]. exact (dict_get_None _ _ E Hx).
Qed.

Lemma dict_get_In (d : dict K V) (k : K) (v : V) :
  dict_get keq d k = Some v -> In (k, v) d.
Proof.
  induction d as [|[k0 v0] d IH]; simpl; [discriminate|].
  destruct (keq_spec k0 k) as [->|Hne].
  - intro E; inversion E; auto.
  - auto.
Qed.

Lemma dict_In_get (d : dict K V) (k : K) (v : V) :
  NoDup (dict_keys d) -> In (k, v) d -> dict_get keq d k = Some v.
Proof.
  induction d as [|[k0 v0] d IH]; simpl; [tauto|].
  intros Hd [E|Hin].
  - inversion E; subst. destruct (keq_spec k k); congruence.
  - inversion Hd as [|? ? Hk0 Hd']; subst.
    destruct (keq_spec k0 k) as [->|Hne]; [|auto].
    exfalso. apply Hk0. change k with (fst (k, v)). apply in_map. exact Hin.
Qed.

End DictFacts.

Lemma list_eqb_spec {T : Type} (eqb : T -> T -> bool) :
  (forall a b, reflect (a = b) (eqb a b)) ->
  forall x y : list T, reflect (x = y) (list_eqb eqb x y).
Proof.
  intros Hspec x. induction x as [|a x IH]; intros [|b y]; simpl;
    try (constructor; congruence).
  destruct (Hspec a b) as [->|Hne]; simpl.
  - destruct (IH y) as [->|Hne]; constructor; congruence.
  - constructor; congruence.
Qed.

(** ** Contraction *)

Section Contraction.
Context {L S A : Type} `{QL : QuantumLabel L} `{DA : DenseArray S A}.

#[local] Abbreviation SubTensor := (SubTensor L A).
#[local] Abbreviation SparseTensor := (SparseTensor L A).

Lemma labels_eqb_spec (x y : list L) : reflect (x = y) (labels_eqb x y).
Proof. apply list_eqb_spec, q_eqb_spec. Qed.

Lemma labels_eqb_refl (x : list L) : labels_eqb x x = true.
Proof. destruct (labels_eqb_spec x x); congruence. Qed.

Lemma group_entry_app {T : Type} (l : list T) (x : T) :
  group_entry (l ++ [x])
  = Some (match group_entry l with Some l0 => l0 | None => [] end ++ [x]).
Proof. destruct l; reflexivity. Qed.

(** The index over the B blocks is a hash join: the entry of a label tuple
    lists, in order, the blocks that carry it on the contracted legs. *)
Lemma index_blocks_get (idxb : list Z) (bs : list SubTensor)
    (d : dict (list L) (list SubTensor)) :
  index_blocks bs idxb = Ok d ->
  forall g, dict_get labels_eqb d g
            = group_entry (filter (has_sub_labels idxb g) bs).
Proof.
  unfold index_blocks. revert d.
  induction bs as [|b bs IH] using rev_ind; intros d E g.
  - inversion E; reflexivity.
  - rewrite foldM_app in E. bind_inv E. simpl in E. bind_inv E.
    inversion E; subst; clear E. bind_inv Hx0.
    inversion Hx0; subst; clear Hx0.
    rewrite (dict_get_set _ _ _ labels_eqb_spec).
    rewrite filter_app. simpl. unfold has_sub_labels at 2. rewrite Hx1.
    rewrite (IH _ Hx x0), (IH _ Hx g).
    destruct (labels_eqb_spec x0 g) as [->|Hne].
    + rewrite group_entry_app. reflexivity.
    + rewrite app_nil_r. reflexivity.
Qed.

Lemma array_sum_snoc (cs : list A) (c : A) :
  array_sum (cs ++ [c])
  = Some (match array_sum cs with Some x => iadd x c | None => c end).
Proof.
  destruct cs as [|c0 cs]; simpl; [reflexivity|].
  rewrite fold_left_app. reflexivity.
Qed.

Lemma entries_at_app (es1 es2 : list (list L * A)) (k : list L) :
  entries_at (es1 ++ es2) k = entries_at es1 k ++ entries_at es2 k.
Proof. unfold entries_at. rewrite filter_app, map_app. reflexivity. Qed.

(** Storing the contributions one after the other leaves, at each label
    tuple, the block with these labels and the sum of the contributions
    made at this tuple. *)
Lemma accumulate_get (es : list (list L * A)) (m : dict (list L) SubTensor) :
  foldM (fun m0 e => accumulate_block m0 (fst e) (snd e)) es [] = Ok m ->
  forall k, dict_get labels_eqb m k
            = option_map (mkSubTensor k) (array_sum (entries_at es k)).
Proof.
  revert m. induction es as [|[g mat] es IH] using rev_ind; intros m E k.
  - inversion E; reflexivity.
  - rewrite foldM_app in E. bind_inv E. simpl in E. bind_inv E.
    inversion E; subst; clear E.
    rewrite entries_at_app. unfold entries_at at 2. simpl.
    unfold accumulate_block in Hx0. rewrite (IH _ Hx g) in Hx0.
    destruct (array_sum (entries_at es g)) as [sg|] eqn:Esg; simpl in Hx0.
    + inversion Hx0; subst; clear Hx0. simpl.
      rewrite (dict_get_set _ _ _ labels_eqb_spec), (IH _ Hx k).
      destruct (labels_eqb_spec g k) as [->|Hne]; simpl.
      * rewrite array_sum_snoc, Esg. reflexivity.
      * rewrite app_nil_r. reflexivity.
    + bind_inv Hx0. inversion Hx0; subst; clear Hx0.
      apply SubTensor_init_inv in Hx1. subst x0.
      rewrite (dict_get_set _ _ _ labels_eqb_spec), (IH _ Hx k).
      destruct (labels_eqb_spec g k) as [->|Hne]; simpl.
      * rewrite array_sum_snoc, Esg. reflexivity.
      * rewrite app_nil_r. reflexivity.
Qed.

Lemma accumulate_nil_iff (es : list (list L * A)) (m : dict (list L) SubTensor) :
  foldM (fun m0 e => accumulate_block m0 (fst e) (snd e)) es [] = Ok m ->
  (m = [] <-> es = []).
Proof.
  destruct es as [|e es] using rev_ind; intro E.
  - inversion E; tauto.
  - rewrite foldM_app in E. bind_inv E. simpl in E. bind_inv E.
    inversion E; subst; clear E.
    split; intro H; exfalso.
    + unfold accumulate_block in Hx0.
      destruct (dict_get labels_eqb x (fst e)).
      * inversion Hx0 as [H0]. rewrite H in H0.
        exact (dict_set_not_nil _ _ _ _ _ _ H0).
      * bind_inv Hx0. inversion Hx0 as [H0]. rewrite H in H0.
        exact (dict_set_not_nil _ _ _ _ _ _ H0).
    + destruct es; discriminate.
Qed.

Section Join.
Variable fermion : list L -> list L -> result bool.
Variables idxa idxb oa ob : list Z.

Lemma pair_entries_nomatch (a b : SubTensor) (g : list L) :
  sub_labels a idxa = Ok g ->
  has_sub_labels idxb g b = false ->
  pair_entries fermion idxa idxb oa ob a b = [].
Proof.
  intros Ha Hb. unfold pair_entries, pair_entry. rewrite Ha. simpl.
  unfold has_sub_labels in Hb.
  destruct (sub_labels b idxb) as [g'|e]; simpl; [|reflexivity].
  destruct (labels_eqb_spec g g') as [E|Hne]; [|reflexivity].
  subst. rewrite labels_eqb_refl in Hb. discriminate.
Qed.

Lemma pair_entries_match (a b : SubTensor) (g outga : list L)
    (m0 m1 : dict (list L) SubTensor) :
  sub_labels a idxa = Ok g ->
  sub_labels a oa = Ok outga ->
  has_sub_labels idxb g b = true ->
  contract_pair fermion idxa idxb ob a outga m0 b = Ok m1 ->
  exists e, pair_entries fermion idxa idxb oa ob a b = [e] /\
            accumulate_block m0 (fst e) (snd e) = Ok m1.
Proof.
  intros Ha Hoa Hb E. unfold contract_pair in E.
  bind_inv E. bind_inv E.
  exists (outga ++ x, x0). split; [|exact E].
  unfold pair_entries, pair_entry. rewrite Ha. simpl.
  unfold has_sub_labels in Hb.
  destruct (sub_labels b idxb) as [g'|e]; [|discriminate]. simpl.
  destruct (labels_eqb_spec g' g) as [E'|Hne]; [|discriminate].
  subst. rewrite labels_eqb_refl, Hoa. simpl. rewrite Hx. simpl. rewrite Hx0.
  reflexivity.
Qed.

Lemma contract_pairs_entries (a : SubTensor) (g outga : list L)
    (bs : list SubTensor) (m0 m : dict (list L) SubTensor) :
  sub_labels a idxa = Ok g ->
  sub_labels a oa = Ok outga ->
  foldM (contract_pair fermion idxa idxb ob a outga)
        (filter (has_sub_labels idxb g) bs) m0 = Ok m ->
  foldM (fun m0 e => accumulate_block m0 (fst e) (snd e))
        (flat_map (pair_entries fermion idxa idxb oa ob a) bs) m0 = Ok m.
Proof.
  intros Ha Hoa. revert m0.
  induction bs as [|b bs IH]; intros m0 E; simpl in *; [exact E|].
  destruct (has_sub_labels idxb g b) eqn:Hb.
  - simpl in E. bind_inv E.
    destruct (pair_entries_match _ _ _ _ _ _ Ha Hoa Hb Hx) as (e & -> & He).
    simpl. rewrite He. simpl. apply IH. exact E.
  - rewrite (pair_entries_nomatch _ _ _ Ha Hb). simpl. apply IH. exact E.
Qed.

Lemma flat_map_pair_entries_nil (a : SubTensor) (g : list L) (bs : list SubTensor) :
  sub_labels a idxa = Ok g ->
  filter (has_sub_labels idxb g) bs = [] ->
  flat_map (pair_entries fermion idxa idxb oa ob a) bs = [].
Proof.
  intros Ha. induction bs as [|b bs IH]; simpl; [reflexivity|].
  destruct (has_sub_labels idxb g b) eqn:Hb; [discriminate|].
  intro E. rewrite (pair_entries_nomatch _ _ _ Ha Hb). simpl. auto.
Qed.

(** The two nested loops visit exactly the matching pairs: they store what
    [all_entries] lists. *)
Lemma contract_blocks_entries (map_idx_b : dict (list L) (list SubTensor))
    (blocks_a blocks_b : list SubTensor) (m0 m : dict (list L) SubTensor) :
  (forall g, dict_get labels_eqb map_idx_b g
             = group_entry (filter (has_sub_labels idxb g) blocks_b)) ->
  foldM (contract_block_a fermion idxa idxb oa ob map_idx_b) blocks_a m0 = Ok m ->
  foldM (fun m0 e => accumulate_block m0 (fst e) (snd e))
        (all_entries fermion idxa idxb oa ob blocks_a blocks_b) m0 = Ok m.
Proof.
  intro Hidx. revert m0.
  induction blocks_a as [|a As IH]; intros m0 E; simpl in *; [exact E|].
  bind_inv E. unfold contract_block_a in Hx. bind_inv Hx.
  rewrite foldM_app. rewrite Hidx in Hx.
  destruct (filter (has_sub_labels idxb x0) blocks_b) as [|b1 bs1] eqn:Ef;
    unfold group_entry in Hx.
  - inversion Hx; subst; clear Hx.
    rewrite (flat_map_pair_entries_nil _ _ _ Hx0 Ef). simpl. apply IH. exact E.
  - bind_inv Hx. rewrite <- Ef in Hx.
    rewrite (contract_pairs_entries _ _ _ _ _ _ Hx0 Hx1 Hx). simpl.
    apply IH. exact E.
Qed.

End Join.

Lemma contract_map_entries (spta sptb : SparseTensor) (idxa0 idxb0 : list Z)
    (m : dict (list L) SubTensor) :
  contract_map spta sptb idxa0 idxb0 = Ok m ->
  foldM (fun m0 e => accumulate_block m0 (fst e) (snd e))
        (contract_entries spta sptb idxa0 idxb0) [] = Ok m.
Proof.
  unfold contract_map, contract_entries, contract_blocks. intro E.
  bind_inv E.
  apply contract_blocks_entries with (map_idx_b := x); [|exact E].
  apply index_blocks_get. exact Hx.
Qed.

Lemma accumulate_NoDup (es : list (list L * A)) (m0 m : dict (list L) SubTensor) :
  NoDup (dict_keys m0) ->
  foldM (fun m0 e => accumulate_block m0 (fst e) (snd e)) es m0 = Ok m ->
  NoDup (dict_keys m).
Proof.
  revert m0. induction es as [|e es IH]; intros m0 H0 E; simpl in E.
  - inversion E; subst; exact H0.
  - bind_inv E. apply (IH x); [|exact E].
    unfold accumulate_block in Hx.
    destruct (dict_get labels_eqb m0 (fst e)).
    + inversion Hx; subst. apply dict_set_NoDup; [apply labels_eqb_spec|exact H0].
    + bind_inv Hx. inversion Hx; subst.
      apply dict_set_NoDup; [apply labels_eqb_spec|exact H0].
Qed.

Lemma sub_labels_nil (b : SubTensor) : sub_labels b [] = Ok [].
Proof. reflexivity. Qed.

(** When no output leg remains every contribution is made at the empty
    label tuple. *)
Lemma all_entries_full (fermion : list L -> list L -> result bool)
    (idxa idxb : list Z) (blocks_a blocks_b : list SubTensor) :
  Forall (fun e => fst e = [])
         (all_entries fermion idxa idxb [] [] blocks_a blocks_b).
Proof.
  unfold all_entries. apply Forall_flat_map, Forall_forall. intros a _.
  apply Forall_flat_map, Forall_forall. intros b _.
  unfold pair_entries, pair_entry.
  destruct (sub_labels a idxa) as [ga|]; simpl; [|constructor].
  destruct (sub_labels b idxb) as [gb|]; simpl; [|constructor].
  destruct (labels_eqb ga gb); simpl; [|constructor].
  destruct (signed_mat fermion idxa idxb a b); simpl; repeat constructor.
Qed.

Lemma entries_at_full (es : list (list L * A)) :
  Forall (fun e => fst e = []) es -> entries_at es [] = map snd es.
Proof.
  unfold entries_at. induction 1 as [|e es He _ IH]; simpl; [reflexivity|].
  rewrite He. simpl. f_equal. exact IH.
Qed.

(** C2. The phase factor of one pair of blocks.  When the left operand is
    tagged as a four-index operator tensor, the right one as a three-index
    state tensor, and the contracted legs are position 2 and position 1,
    the dense contraction of the pair is multiplied by -1 exactly when the
    fused label of legs 1 and 2 of the A block is fermionic and the label
    of leg 0 of the B block is fermionic too; for every other combination
    of tags and legs it is left as it is. *)
Theorem contract_sign_rule (spta sptb : SparseTensor) (idxa0 idxb0 : list Z)
    (block_a block_b : SubTensor) :
  let idxa := normalize_idx (rank spta) idxa0 in
  let idxb := normalize_idx (rank sptb) idxb0 in
  let fermion := fst (select_rule (ftype spta) (ftype sptb) idxa idxb) in
  let mat := tensordot (reduced block_a) (reduced block_b) idxa idxb in
  (ftype spta = FourIndexMPOTensor -> ftype sptb = ThreeIndexMPSTensor ->
   idxa = [2%Z] -> idxb = [1%Z] ->
   forall a1 a2 b0,
     nth_error (q_labels block_a) 1 = Some a1 ->
     nth_error (q_labels block_a) 2 = Some a2 ->
     nth_error (q_labels block_b) 0 = Some b0 ->
     signed_mat fermion idxa idxb block_a block_b
     = Ok (if is_fermion (q_add a1 a2) && is_fermion b0 then aneg mat else mat)) /\
  (~ (ftype spta = FourIndexMPOTensor /\ ftype sptb = ThreeIndexMPSTensor /\
      idxa = [2%Z] /\ idxb = [1%Z]) ->
   signed_mat fermion idxa idxb block_a block_b = Ok mat).
Proof.
  intros idxa idxb fermion mat. subst fermion. split.
  - intros Ha Hb Ea Eb a1 a2 b0 H1 H2 H0.
    rewrite Ha, Hb, Ea, Eb. simpl.
    pose proof (py_index_nat _ 1 _ H1 : py_index (q_labels block_a) 1 = Ok a1) as P1.
    pose proof (py_index_nat _ 2 _ H2 : py_index (q_labels block_a) 2 = Ok a2) as P2.
    pose proof (py_index_nat _ 0 _ H0 : py_index (q_labels block_b) 0 = Ok b0) as P0.
    unfold signed_mat, fermion_op_mps.
    rewrite P1, P2. simpl.
    destruct (is_fermion (q_add a1 a2)); simpl; [|subst mat; rewrite Ea, Eb; reflexivity].
    rewrite P0. simpl.
    subst mat. rewrite Ea, Eb. reflexivity.
  - intro Hn.
    assert (E : fst (select_rule (ftype spta) (ftype sptb) idxa idxb)
                = fermion_default).
    { unfold select_rule.
      destruct (ftype_eqb (ftype spta) FourIndexMPOTensor) eqn:Fa; [|reflexivity].
      destruct (ftype_eqb (ftype sptb) ThreeIndexMPSTensor) eqn:Fb; [|reflexivity].
      simpl.
      destruct (list_eqb_spec Z.eqb Z.eqb_spec idxa [2%Z]) as [Ea|]; [|reflexivity].
      destruct (list_eqb_spec Z.eqb Z.eqb_spec idxb [1%Z]) as [Eb|]; [|reflexivity].
      exfalso. apply Hn. apply ftype_eqb_eq in Fa, Fb. auto. }
    rewrite E. reflexivity.
Qed.

(** The entries of [map_idx_out] and the blocks of the result. *)
Lemma contract_map_get (spta sptb : SparseTensor) (idxa0 idxb0 : list Z)
    (t : SparseTensor) :
  contract spta sptb idxa0 idxb0 = Ok (CTensor t) ->
  exists map_idx_out,
    contract_map spta sptb idxa0 idxb0 = Ok map_idx_out /\
    blocks t = dict_values map_idx_out /\
    NoDup (dict_keys map_idx_out) /\
    forall outd,
      dict_get labels_eqb map_idx_out outd
      = option_map (mkSubTensor outd)
          (array_sum (contributions spta sptb idxa0 idxb0 outd)).
Proof.
  unfold contract. intro E.
  destruct (negb (length idxa0 =? length idxb0)); [discriminate|].
  bind_inv E. rename x into m.
  pose proof (contract_map_entries _ _ _ _ _ Hx) as Hacc.
  pose proof (accumulate_get _ _ Hacc) as Hget.
  pose proof (accumulate_NoDup _ [] _ (NoDup_nil _) Hacc) as Hnd.
  match type of E with
  | (if ?c then _ else _) = _ => destruct c
  end.
  { destruct (length m =? 0); [discriminate|].
    destruct (dict_get labels_eqb m []); discriminate. }
  bind_inv E. inversion E; subst; clear E.
  exists m. split; [exact Hx|]. split; [|split; [exact Hnd|exact Hget]].
  unfold SparseTensor_init in Hx0.
  destruct (snd _) in Hx0.
  - inversion Hx0; reflexivity.
  - destruct (_ =? 3) in Hx0; [inversion Hx0; reflexivity|].
    destruct (_ =? 4) in Hx0; [inversion Hx0; reflexivity|discriminate].
Qed.

(** C3. Where one or more matching pairs of blocks produce the output
    label tuple [outd], with the dense contributions [c], [cs] in the
    order of the pairs, the collection that [contract] returns has exactly
    one block with the labels [outd], and this block holds the sum of all
    the contributions, not the last of them. *)
Theorem contract_sums_contributions (spta sptb : SparseTensor)
    (idxa0 idxb0 : list Z) (t : SparseTensor)
    (outd : list L) (c : A) (cs : list A) :
  contract spta sptb idxa0 idxb0 = Ok (CTensor t) ->
  contributions spta sptb idxa0 idxb0 outd = c :: cs ->
  exists blk,
    In blk (blocks t) /\ q_labels blk = outd /\
    reduced blk = fold_left iadd cs c /\
    forall blk', In blk' (blocks t) -> q_labels blk' = outd -> blk' = blk.
Proof.
  intros E Hc.
  destruct (contract_map_get _ _ _ _ _ E) as (m & _ & Hb & Hnd & Hget).
  pose proof (Hget outd) as Ho. rewrite Hc in Ho. simpl in Ho.
  exists (mkSubTensor outd (fold_left iadd cs c)).
  rewrite Hb. split; [|split; [reflexivity|split; [reflexivity|]]].
  - apply dict_get_In with (keq := labels_eqb) in Ho; [|apply labels_eqb_spec].
    unfold dict_values.
    change (mkSubTensor outd (fold_left iadd cs c))
      with (snd (outd, mkSubTensor outd (fold_left iadd cs c))).
    apply in_map. exact Ho.
  - intros blk' Hin Hl. unfold dict_values in Hin.
    apply in_map_iff in Hin. destruct Hin as ((k & v) & Hv & Hin).
    simpl in Hv. subst v.
    apply (dict_In_get _ _ _ labels_eqb_spec) in Hin; [|exact Hnd].
    rewrite Hget in Hin.
    destruct (array_sum (contributions spta sptb idxa0 idxb0 k))
      as [x|] eqn:Ex; [|discriminate].
    simpl in Hin. inversion Hin; subst blk'; clear Hin. simpl in Hl. subst k.
    rewrite Hc in Ex. simpl in Ex. inversion Ex; reflexivity.
Qed.

(** What a contraction of all legs returns, when it returns. *)
Lemma contract_full_value (spta sptb : SparseTensor)
    (idxa0 idxb0 : list Z) (r : contracted L S A) :
  out_idx (rank spta) (normalize_idx (rank spta) idxa0) = [] ->
  out_idx (rank sptb) (normalize_idx (rank sptb) idxb0) = [] ->
  contract spta sptb idxa0 idxb0 = Ok r ->
  r = CScalar
        (match map snd (contract_entries spta sptb idxa0 idxb0) with
         | [] => szero
         | c :: cs => item (fold_left iadd cs c)
         end).
Proof.
  intros Ha Hb. unfold contract. intro E.
  destruct (negb (length idxa0 =? length idxb0)); [discriminate|].
  bind_inv E. rename x into m.
  pose proof (contract_map_entries _ _ _ _ _ Hx) as Hacc.
  pose proof (accumulate_get _ _ Hacc []) as Hget.
  pose proof (accumulate_nil_iff _ _ Hacc) as Hnil.
  assert (Hfull : entries_at (contract_entries spta sptb idxa0 idxb0) []
                  = map snd (contract_entries spta sptb idxa0 idxb0)).
  { apply entries_at_full. unfold contract_entries. rewrite Ha, Hb.
    apply all_entries_full. }
  rewrite Hfull in Hget. rewrite Ha, Hb in E. simpl in E.
  destruct m as [|kv m]; simpl in E.
  - inversion E; subst.
    rewrite (proj1 Hnil eq_refl). reflexivity.
  - destruct (contract_entries spta sptb idxa0 idxb0) as [|e es] eqn:Ees.
    + destruct Hnil as [_ Hnil]. discriminate (Hnil eq_refl).
    + simpl in Hget. simpl in E.
      destruct kv as [k v]. simpl in Hget.
      destruct (labels_eqb k []); inversion Hget; subst; clear Hget.
      * inversion E; subst. reflexivity.
      * rewrite H0 in E. inversion E; subst. reflexivity.
Qed.

(** A contraction of all legs returns when the index lists have the same
    length and every contracted position is a position of every block. *)
Lemma py_index_nonneg {T : Type} (t : list T) (i : Z) :
  (0 <= i)%Z ->
  py_index t i = match nth_error t (Z.to_nat i) with
                 | Some x => Ok x
                 | None => Raise IndexError
                 end.
Proof.
  intro Hi. apply Z.leb_le in Hi. unfold py_index. cbv zeta.
  rewrite Hi. cbv iota. rewrite Hi. reflexivity.
Qed.

Lemma py_index_below {T : Type} (t : list T) (i j : Z) (x : T) :
  (0 <= j <= i)%Z -> py_index t i = Ok x -> exists y, py_index t j = Ok y.
Proof.
  intros Hj. rewrite !py_index_nonneg by lia.
  destruct (nth_error t (Z.to_nat i)) as [x'|] eqn:Ei;
    [|intro H; discriminate H].
  intros _.
  assert (Hlt : Z.to_nat j < length t).
  { assert (Z.to_nat i < length t) by (apply nth_error_Some; congruence). lia. }
  destruct (nth_error t (Z.to_nat j)) as [y|] eqn:Ej; [eauto|].
  apply nth_error_None in Ej. lia.
Qed.

Lemma fermion_total (fa fb : FusingTypes) (idxa idxb : list Z) (qa qb : list L) :
  (exists ga, mapM (py_index qa) idxa = Ok ga) ->
  (exists gb, mapM (py_index qb) idxb = Ok gb) ->
  exists f, fst (select_rule fa fb idxa idxb) qa qb = Ok f.
Proof.
  intros [ga Ha] [gb Hb]. unfold select_rule.
  destruct (ftype_eqb fa FourIndexMPOTensor && ftype_eqb fb ThreeIndexMPSTensor);
    [|exists false; reflexivity].
  destruct (list_eqb_spec Z.eqb Z.eqb_spec idxa [2%Z]) as [Ea|];
    [|exists false; reflexivity].
  destruct (list_eqb_spec Z.eqb Z.eqb_spec idxb [1%Z]) as [Eb|];
    [|exists false; reflexivity].
  subst idxa idxb. simpl in *. unfold fermion_op_mps.
  bind_inv Ha. bind_inv Hb.
  destruct (py_index_below qa 2 1 x ltac:(lia) Hx) as [a1 H1].
  destruct (py_index_below qb 1 0 x0 ltac:(lia) Hx0) as [b0 H0].
  rewrite H1, Hx. simpl.
  destruct (is_fermion (q_add a1 x)); [|eauto].
  rewrite H0. simpl. eauto.
Qed.

Lemma accumulate_block_nil_total (m : dict (list L) SubTensor) (mat : A) :
  exists m', accumulate_block m [] mat = Ok m'.
Proof.
  unfold accumulate_block.
  destruct (dict_get labels_eqb m []); simpl; eauto.
Qed.

Lemma index_blocks_total (bs : list SubTensor) (idxb : list Z) :
  Forall (fun b => exists g, sub_labels b idxb = Ok g) bs ->
  exists d, index_blocks bs idxb = Ok d.
Proof.
  unfold index_blocks. generalize (@nil (list L * list SubTensor)) as d0.
  induction bs as [|b bs IH]; intros d0 H; simpl; [eauto|].
  inversion H as [|? ? [g Hg] H']; subst.
  rewrite Hg. simpl. apply IH. exact H'.
Qed.

Lemma contract_pairs_total (fermion : list L -> list L -> result bool)
    (idxa idxb : list Z) (a : SubTensor) (bs : list SubTensor)
    (m : dict (list L) SubTensor) :
  Forall (fun b => exists f, fermion (q_labels a) (q_labels b) = Ok f) bs ->
  exists m', foldM (contract_pair fermion idxa idxb [] a []) bs m = Ok m'.
Proof.
  revert m. induction bs as [|b bs IH]; intros m H; simpl; [eauto|].
  inversion H as [|? ? [f Hf] H']; subst.
  unfold contract_pair at 1, signed_mat. simpl. rewrite Hf. simpl.
  destruct (accumulate_block_nil_total m
              (if f then aneg (tensordot (reduced a) (reduced b) idxa idxb)
               else tensordot (reduced a) (reduced b) idxa idxb)) as [m1 Hm1].
  rewrite Hm1. simpl. apply IH. exact H'.
Qed.

Lemma contract_blocks_total (fa fb : FusingTypes) (idxa idxb : list Z)
    (map_idx_b : dict (list L) (list SubTensor))
    (blocks_a blocks_b : list SubTensor) (m0 : dict (list L) SubTensor) :
  (forall g, dict_get labels_eqb map_idx_b g
             = group_entry (filter (has_sub_labels idxb g) blocks_b)) ->
  Forall (fun a => exists g, sub_labels a idxa = Ok g) blocks_a ->
  exists m,
    foldM (contract_block_a (fst (select_rule fa fb idxa idxb)) idxa idxb [] []
             map_idx_b) blocks_a m0 = Ok m.
Proof.
  intros Hidx. revert m0.
  induction blocks_a as [|a As IH]; intros m0 Ha; simpl; [eauto|].
  inversion Ha as [|? ? [g Hg] Ha']; subst.
  unfold contract_block_a at 1. rewrite Hg. simpl. rewrite Hidx.
  destruct (filter (has_sub_labels idxb g) blocks_b) as [|b1 bs1] eqn:Ef.
  - simpl. apply IH. exact Ha'.
  - unfold group_entry.
    assert (Hf : Forall (fun b => exists f,
                   fst (select_rule fa fb idxa idxb) (q_labels a) (q_labels b) = Ok f)
                   (b1 :: bs1)).
    { rewrite <- Ef. apply Forall_forall. intros b Hb.
      apply filter_In in Hb. destruct Hb as [_ Hb].
      unfold has_sub_labels in Hb.
      destruct (sub_labels b idxb) as [gb|] eqn:Egb; [|discriminate].
      apply fermion_total; [exists g; exact Hg|exists gb; exact Egb]. }
    simpl.
    destruct (contract_pairs_total _ idxa idxb a (b1 :: bs1) m0 Hf) as [m1 Hm1].
    simpl in Hm1. rewrite Hm1. simpl. apply IH. exact Ha'.
Qed.

(** C5. When the index lists have the same length, every contracted
    position is a position of every block, and the contracted legs are all
    the legs of both operands, [contract] returns a plain scalar and no
    collection: [0.0] when no pair of blocks matched on the contracted
    labels, else the item of the sum of the contributions of the matching
    pairs. *)
Theorem contract_full_is_scalar (spta sptb : SparseTensor) (idxa0 idxb0 : list Z) :
  length idxa0 = length idxb0 ->
  Forall (fun a => exists g, sub_labels a (normalize_idx (rank spta) idxa0) = Ok g)
         (blocks spta) ->
  Forall (fun b => exists g, sub_labels b (normalize_idx (rank sptb) idxb0) = Ok g)
         (blocks sptb) ->
  out_idx (rank spta) (normalize_idx (rank spta) idxa0) = [] ->
  out_idx (rank sptb) (normalize_idx (rank sptb) idxb0) = [] ->
  contract spta sptb idxa0 idxb0
  = Ok (CScalar
          (match map snd (contract_entries spta sptb idxa0 idxb0) with
           | [] => szero
           | c :: cs => item (fold_left iadd cs c)
           end)).
Proof.
  intros Hlen HA HB Ha Hb.
  assert (Hret : exists r, contract spta sptb idxa0 idxb0 = Ok r).
  { destruct (index_blocks_total _ _ HB) as [d Hd].
    destruct (contract_blocks_total (ftype spta) (ftype sptb) _ _ d
                (blocks spta) (blocks sptb) [] (index_blocks_get _ _ _ Hd) HA)
      as [m Hm].
    assert (Hmap : contract_map spta sptb idxa0 idxb0 = Ok m).
    { unfold contract_map, contract_blocks. rewrite Hd. simpl.
      rewrite Ha, Hb. exact Hm. }
    pose proof (contract_map_entries _ _ _ _ _ Hmap) as Hacc.
    pose proof (accumulate_get _ _ Hacc []) as Hget.
    pose proof (accumulate_nil_iff _ _ Hacc) as Hnil.
    unfold contract. rewrite Hlen, Nat.eqb_refl. simpl.
    rewrite Hmap. simpl. rewrite Ha, Hb. simpl.
    destruct m as [|kv m]; [simpl; eauto|].
    cbn [length Nat.eqb].
    rewrite Hget.
    destruct (contract_entries spta sptb idxa0 idxb0) as [|e es] eqn:Ees.
    - assert (Hm0 : kv :: m = []) by (apply Hnil; reflexivity).
      discriminate Hm0.
    - rewrite entries_at_full.
      + simpl. eauto.
      + rewrite <- Ees. unfold contract_entries. rewrite Ha, Hb.
        apply all_entries_full. }
  destruct Hret as [r Hr]. rewrite Hr. f_equal.
  apply (contract_full_value spta sptb idxa0 idxb0 r Ha Hb Hr).
Qed.

End Contraction.

(** ** Examples on particle-number labels and unit-extent arrays *)

Section Examples.
Open Scope Z_scope.

Let blk (ql : list Z) (v : Z) : SubTensor Z unit_array :=
  mkSubTensor ql (mkUnitArray (length ql) v).

(** An operator block whose fused up and down label is odd, applied to a
    state block whose left label is even: the parities disagree, and the
    product 2 * 3 = 6 is stored without a sign. *)
Example contract_op_mps_odd_even :
  contract (mkSparseTensor [blk [0; 1; 0; 1] 2] FourIndexMPOTensor None)
           (mkSparseTensor [blk [0; 0; 0] 3] ThreeIndexMPSTensor None) [2] [1]
  = Ok (CTensor (mkSparseTensor [blk [0; 1; 1; 0; 0] 6] ThreeIndexMPSTensor None)).
Proof. reflexivity. Qed.

(** Both odd: the product is stored with the sign. *)
Example contract_op_mps_odd_odd :
  contract (mkSparseTensor [blk [0; 1; 0; 1] 2] FourIndexMPOTensor None)
           (mkSparseTensor [blk [1; 0; 1] 3] ThreeIndexMPSTensor None) [2] [1]
  = Ok (CTensor (mkSparseTensor [blk [0; 1; 1; 1; 1] (-6)] ThreeIndexMPSTensor None)).
Proof. reflexivity. Qed.

(** The rule in the words of the specification fails on the code: for the
    pair of the first example the parities disagree, and the contribution
    is the unsigned product. *)
Lemma sign_rule_not_parity_mismatch :
  ~ (forall (block_a block_b : SubTensor Z unit_array) (a1 a2 b0 : Z),
       nth_error (q_labels block_a) 1 = Some a1 ->
       nth_error (q_labels block_a) 2 = Some a2 ->
       nth_error (q_labels block_b) 0 = Some b0 ->
       let mat := tensordot (reduced block_a) (reduced block_b) [2] [1] in
       signed_mat
         (fst (select_rule FourIndexMPOTensor ThreeIndexMPSTensor [2] [1]))
         [2] [1] block_a block_b
       = Ok (if spec_sign_rule a1 a2 b0 then aneg mat else mat)).
Proof.
  intro H.
  specialize (H (blk [0; 1; 0; 1] 2) (blk [0; 0; 0] 3) 1 0 0
                eq_refl eq_refl eq_refl).
  vm_compute in H. discriminate H.
Qed.

Lemma contract_sign_rule_witness :
  signed_mat
    (fst (select_rule FourIndexMPOTensor ThreeIndexMPSTensor [2] [1]))
    [2] [1] (blk [0; 1; 0; 1] 2) (blk [1; 0; 1] 3)
  = Ok (mkUnitArray 5 (-6)) /\
  signed_mat
    (fst (select_rule ThreeIndexMPSTensor ThreeIndexMPSTensor [2] [0]))
    [2] [0] (blk [0; 1; 1] 2) (blk [1; 0; 1] 3)
  = Ok (mkUnitArray 4 6).
Proof.
  split.
  - exact (proj1 (contract_sign_rule
                    (mkSparseTensor [blk [0; 1; 0; 1] 2] FourIndexMPOTensor None)
                    (mkSparseTensor [blk [1; 0; 1] 3] ThreeIndexMPSTensor None)
                    [2] [1] (blk [0; 1; 0; 1] 2) (blk [1; 0; 1] 3))
             eq_refl eq_refl eq_refl eq_refl 1 0 1 eq_refl eq_refl eq_refl).
  - refine (proj2 (contract_sign_rule
                     (mkSparseTensor [blk [0; 1; 1] 2] ThreeIndexMPSTensor None)
                     (mkSparseTensor [blk [1; 0; 1] 3] ThreeIndexMPSTensor None)
                     [2] [0] (blk [0; 1; 1] 2) (blk [1; 0; 1] 3)) _).
    intros (H & _). discriminate H.
Defined.

(** Two internal labels, 0 and 1, lead to the same external labels: the
    contributions 2 * 5 and 3 * 7 meet in one block. *)
Lemma contract_sums_contributions_witness :
  exists b,
    In b [blk [0; 0; 0; 1] 31] /\ q_labels b = [0; 0; 0; 1] /\
    reduced b = mkUnitArray 4 31 /\
    forall b', In b' [blk [0; 0; 0; 1] 31] -> q_labels b' = [0; 0; 0; 1] -> b' = b.
Proof.
  exact (contract_sums_contributions
           (mkSparseTensor [blk [0; 0; 0] 2; blk [0; 0; 1] 3] ThreeIndexMPSTensor None)
           (mkSparseTensor [blk [0; 0; 1] 5; blk [1; 0; 1] 7] ThreeIndexMPSTensor None)
           [2] [0]
           (mkSparseTensor [blk [0; 0; 0; 1] 31] FourIndexMPOTensor None)
           [0; 0; 0; 1] (mkUnitArray 4 10) [mkUnitArray 4 21]
           eq_refl eq_refl).
Defined.

(** A single block with one leg, contracted with itself on this leg: the
    scalar 3 * 3. *)
Lemma contract_full_is_scalar_witness :
  contract (mkSparseTensor [blk [0] 3] LeftFusedMPSTensor None)
           (mkSparseTensor [blk [0] 3] LeftFusedMPSTensor None) [0] [0]
  = Ok (CScalar 9).
Proof.
  refine (contract_full_is_scalar
            (mkSparseTensor [blk [0] 3] LeftFusedMPSTensor None)
            (mkSparseTensor [blk [0] 3] LeftFusedMPSTensor None) [0] [0]
            eq_refl _ _ eq_refl eq_refl).
  - repeat constructor. exists [0]. reflexivity.
  - repeat constructor. exists [0]. reflexivity.
Defined.

(** Without a matching pair the full contraction is [0.0]. *)
Example contract_full_no_match :
  contract (mkSparseTensor [blk [0] 3] LeftFusedMPSTensor None)
           (mkSparseTensor [blk [1] 3] LeftFusedMPSTensor None) [0] [0]
  = Ok (CScalar 0).
Proof. reflexivity. Qed.

(** Carry matrices for the label 0 only: the block whose first label is 1
    is dropped by [left_multiply]; both blocks end in 0 and are kept by
    [right_multiply]. *)
Lemma multiply_replaces_or_drops_witness :
  let self := mkSparseTensor [blk [0; 0; 0] 2; blk [1; 1; 0] 3]
                ThreeIndexMPSTensor None in
  let mats := [(0, mkUnitArray 2 5)] in
  left_multiply self mats
  = Ok (mkSparseTensor [blk [0; 0; 0] 10] ThreeIndexMPSTensor None) /\
  right_multiply self mats
  = Ok (mkSparseTensor [blk [0; 0; 0] 10; blk [1; 1; 0] 15]
          ThreeIndexMPSTensor None).
Proof.
  intros self mats.
  assert (Hne : Forall (fun b : SubTensor Z unit_array => q_labels b <> [])
                  (blocks self))
    by (repeat constructor; discriminate).
  assert (Hl : Forall block_ok (flat_map (left_image mats) (blocks self)))
    by (repeat constructor; right; reflexivity).
  assert (Hr : Forall block_ok (flat_map (right_image mats) (blocks self)))
    by (repeat constructor; right; reflexivity).
  destruct (multiply_replaces_or_drops self mats Hne) as (El & Er & _).
  split; [exact (El Hl)|exact (Er Hr)].
Defined.

Lemma SparseTensor_init_untagged_witness :
  SparseTensor_init (Some [blk [0; 0; 0] 1]) None None
  = Ok (mkSparseTensor [blk [0; 0; 0] 1] ThreeIndexMPSTensor None) /\
  SparseTensor_init (Some [blk [0; 0; 0; 0] 1]) None None
  = Ok (mkSparseTensor [blk [0; 0; 0; 0] 1] FourIndexMPOTensor None) /\
  SparseTensor_init (Some [blk [0; 0] 1]) None None = Raise RuntimeError.
Proof.
  split; [|split].
  - refine (proj1 (SparseTensor_init_untagged [blk [0; 0; 0] 1] None 3 _) _ eq_refl).
    + repeat constructor.
    + discriminate.
  - refine (proj1 (proj2 (SparseTensor_init_untagged [blk [0; 0; 0; 0] 1] None 4 _))
              _ eq_refl).
    + repeat constructor.
    + discriminate.
  - refine (proj1 (proj2 (proj2 (SparseTensor_init_untagged [blk [0; 0] 1] None 2 _)))
              _ _ _).
    + repeat constructor.
    + discriminate.
    + discriminate.
    + discriminate.
Defined.

(** A two-site state tensor: scaling keeps its tag, negation raises; a
    left-fused tensor of rank 3 comes back from negation as a three-index
    state tensor. *)
Lemma neg_drops_shape_tag_witness :
  let two := mkSparseTensor [blk [0; 0; 0; 0; 0] 2] UnfusedThreeIndexMPSTensor None in
  let fused := mkSparseTensor [blk [0; 0; 0] 2] LeftFusedMPSTensor None in
  SparseTensor_mul two 3
  = Ok (mkSparseTensor [blk [0; 0; 0; 0; 0] 6] UnfusedThreeIndexMPSTensor None) /\
  SparseTensor_neg two = Raise RuntimeError /\
  SparseTensor_neg fused
  = Ok (mkSparseTensor [blk [0; 0; 0] (-2)] ThreeIndexMPSTensor None).
Proof.
  intros two fused.
  assert (H2 : Forall block_ok (blocks two))
    by (repeat constructor; right; reflexivity).
  assert (Hf : Forall block_ok (blocks fused))
    by (repeat constructor; right; reflexivity).
  destruct (neg_drops_shape_tag two 3 H2) as (Em & En & _).
  destruct (neg_drops_shape_tag fused 3 Hf) as (_ & _ & _ & E3 & _).
  split; [exact Em|split].
  - apply En; discriminate.
  - apply E3. reflexivity.
Defined.

End Examples.

(** ** Sorting and grouping *)

Section SortingFacts.
Variables T K : Type.
Variable key : T -> K.
Variable ltb : K -> K -> bool.

(** [x] may stand before [y]: the key of [y] is not smaller. *)
Let ordered (x y : T) : Prop := ltb (key y) (key x) = false.

Hypothesis ltb_asym : forall a b, ltb a b = true -> ltb b a = false.
Hypothesis ltb_trans :
  forall a b c, ltb b a = false -> ltb c b = false -> ltb c a = false.

Lemma insert_by_perm (x : T) (l : list T) :
  Permutation (insert_by key ltb x l) (x :: l).
Proof.
  induction l as [|y l IH]; simpl; [reflexivity|].
  destruct (ltb (key y) (key x)); [|reflexivity].
  rewrite IH. apply perm_swap.
Qed.

Lemma sort_by_perm (l : list T) : Permutation (sort_by key ltb l) l.
Proof.
  induction l as [|x l IH]; simpl; [reflexivity|].
  rewrite insert_by_perm. apply perm_skip, IH.
Qed.

Lemma insert_by_sorted (x : T) (l : list T) :
  StronglySorted ordered l -> StronglySorted ordered (insert_by key ltb x l).
Proof.
  induction 1 as [|y l Hl IH Hy]; simpl.
  - repeat constructor.
  - destruct (ltb (key y) (key x)) eqn:E.
    + constructor; [exact IH|].
      apply (Permutation_Forall (Permutation_sym (insert_by_perm x l))).
      constructor; [apply ltb_asym; exact E|exact Hy].
    + constructor; [constructor; assumption|].
      constructor; [exact E|].
      apply Forall_impl with (2 := Hy). intros z Hz.
      unfold ordered in *. eapply ltb_trans; eassumption.
Qed.

Lemma sort_by_sorted (l : list T) : StronglySorted ordered (sort_by key ltb l).
Proof.
  induction l as [|x l IH]; simpl; [constructor|].
  apply insert_by_sorted, IH.
Qed.

End SortingFacts.

Section PrefixFacts.
Variable T : Type.
Variable R : T -> T -> Prop.
Variable p : T -> bool.
Hypothesis p_upward : forall x y, R x y -> p y = true -> p x = true.

(** On a sorted list a filter that is closed towards the front keeps a
    prefix. *)
Lemma filter_sorted_prefix (l : list T) :
  StronglySorted R l -> filter p l = firstn (length (filter p l)) l.
Proof.
  induction 1 as [|x l Hl IH Hx]; simpl; [reflexivity|].
  destruct (p x) eqn:E; simpl.
  - f_equal. exact IH.
  - assert (Hnil : filter p l = []).
    { clear IH Hl. induction l as [|y l IHl]; simpl; [reflexivity|].
      inversion Hx as [|? ? Hy Hx']; subst.
      destruct (p y) eqn:Ey.
      - rewrite (p_upward _ _ Hy Ey) in E. discriminate.
      - auto. }
    rewrite Hnil. reflexivity.
Qed.

End PrefixFacts.

Lemma StronglySorted_app_order {T : Type} (R : T -> T -> Prop) (l1 l2 : list T) :
  StronglySorted R (l1 ++ l2) ->
  forall x y, In x l1 -> In y l2 -> R x y.
Proof.
  induction l1 as [|a l1 IH]; simpl; intros H x y Hx Hy; [tauto|].
  inversion H as [|? ? Hs Ha]; subst.
  destruct Hx as [<-|Hx].
  - rewrite Forall_forall in Ha. apply Ha, in_or_app. auto.
  - eapply IH; eassumption.
Qed.

Lemma In_firstn_min {T : Type} (l : list T) (a b : nat) (x : T) :
  In x (firstn a l) -> In x (firstn b l) -> In x (firstn (Nat.min a b) l).
Proof.
  intros Ha Hb. destruct (Nat.min_dec a b) as [->| ->]; assumption.
Qed.

Lemma In_firstn {T : Type} (l : list T) (a : nat) (x : T) :
  In x (firstn a l) -> In x l.
Proof. intro H. rewrite <- (firstn_skipn a l). apply in_or_app. auto. Qed.

Lemma In_firstn_le {T : Type} (l : list T) (a b : nat) (x : T) :
  a <= b -> In x (firstn a l) -> In x (firstn b l).
Proof.
  intros Hab Hx. apply In_firstn with (a := a).
  rewrite firstn_firstn, Nat.min_l by exact Hab. exact Hx.
Qed.

Section GroupbyFacts.
Variable T : Type.
Variable key : T -> nat.

Lemma groupby_concat (l : list T) :
  concat (map snd (groupby key Nat.eqb l)) = l.
Proof.
  induction l as [|x l IH]; simpl; [reflexivity|].
  destruct (groupby key Nat.eqb l) as [|[k g] rest]; simpl in *.
  - subst. reflexivity.
  - destruct (key x =? k); simpl; rewrite IH; reflexivity.
Qed.

Lemma groupby_groups (l : list T) :
  Forall (fun kg => snd kg <> [] /\ Forall (fun x => key x = fst kg) (snd kg))
         (groupby key Nat.eqb l).
Proof.
  induction l as [|x l IH]; simpl; [constructor|].
  destruct (groupby key Nat.eqb l) as [|[k g] rest].
  - repeat constructor. discriminate.
  - inversion IH as [|? ? [Hne Hg] Hrest]; subst. simpl in *.
    destruct (Nat.eqb_spec (key x) k) as [E|E].
    + constructor; [|exact Hrest]. simpl. split; [discriminate|].
      constructor; assumption.
    + constructor; [|exact IH]. simpl. split; [discriminate|].
      repeat constructor.
Qed.

Lemma groupby_sorted_keys (l : list T) :
  StronglySorted (fun x y => key x <= key y) l ->
  StronglySorted lt (map fst (groupby key Nat.eqb l)).
Proof.
  induction 1 as [|x l Hl IH Hx]; simpl; [constructor|].
  pose proof (groupby_concat l) as Hc.
  pose proof (groupby_groups l) as Hg.
  destruct (groupby key Nat.eqb l) as [|[k g] rest]; simpl in *.
  - repeat constructor.
  - apply Forall_inv in Hg. destruct Hg as [Hne Hk]. simpl in *.
    assert (Hxk : key x <= k).
    { destruct g as [|y g]; [congruence|].
      apply Forall_inv in Hk. rewrite <- Hk.
      rewrite Forall_forall in Hx. apply Hx. rewrite <- Hc. simpl. auto. }
    destruct (Nat.eqb_spec (key x) k) as [E|E]; simpl; [exact IH|].
    constructor; [exact IH|].
    inversion IH as [|? ? _ Hrest]; subst.
    constructor; [lia|].
    apply Forall_impl with (2 := Hrest). intros; lia.
Qed.

Lemma filter_key_all (g : list T) (i : nat) :
  Forall (fun x => key x = i) g -> filter (fun x => key x =? i) g = g.
Proof.
  induction 1 as [|y g Hy _ IH]; simpl; [reflexivity|].
  rewrite Hy, Nat.eqb_refl. f_equal. exact IH.
Qed.

Lemma filter_key_none (g : list T) (k i : nat) :
  k <> i -> Forall (fun x => key x = k) g -> filter (fun x => key x =? i) g = [].
Proof.
  intro Hki. induction 1 as [|y g Hy _ IH]; simpl; [reflexivity|].
  rewrite Hy. destruct (Nat.eqb_spec k i); [contradiction|exact IH].
Qed.

Lemma groups_filter_absent (G : list (nat * list T)) (i : nat) :
  ~ In i (map fst G) ->
  Forall (fun kg => snd kg <> [] /\ Forall (fun x => key x = fst kg) (snd kg)) G ->
  filter (fun x => key x =? i) (concat (map snd G)) = [].
Proof.
  induction G as [|[k g] G IH]; simpl; intros Hi HG; [reflexivity|].
  inversion HG as [|? ? [_ Hg] HG']; subst. simpl in *.
  rewrite filter_app, IH by tauto.
  rewrite app_nil_r. apply filter_key_none with (k := k); [tauto|exact Hg].
Qed.

(** With distinct keys, the group of a key is what a filter by this key
    finds in the list. *)
Lemma groups_filter (G : list (nat * list T)) (i : nat) :
  NoDup (map fst G) ->
  Forall (fun kg => snd kg <> [] /\ Forall (fun x => key x = fst kg) (snd kg)) G ->
  dict_get Nat.eqb G i
  = group_entry (filter (fun x => key x =? i) (concat (map snd G))).
Proof.
  induction G as [|[k g] G IH]; simpl; intros Hnd HG; [reflexivity|].
  inversion Hnd as [|? ? Hk Hnd']; subst.
  inversion HG as [|? ? [Hne Hg] HG']; subst. simpl in *.
  rewrite filter_app.
  destruct (Nat.eqb_spec k i) as [E|E].
  - subst k.
    rewrite (filter_key_all _ _ Hg), (groups_filter_absent _ _ Hk HG'), app_nil_r.
    destruct g; [congruence|reflexivity].
  - rewrite (filter_key_none _ _ _ E Hg). simpl. apply IH; assumption.
Qed.

End GroupbyFacts.

(** ** The orders of the two sorts *)

Lemma Qltb_false (a b : Q) : Qltb b a = false <-> (a <= b)%Q.
Proof.
  unfold Qltb. rewrite negb_false_iff. apply Qle_bool_iff.
Qed.

Lemma Qltb_asym (a b : Q) : Qltb a b = true -> Qltb b a = false.
Proof.
  intro H. apply Qltb_false. unfold Qltb in H.
  apply negb_true_iff in H.
  destruct (Qlt_le_dec a b) as [Hlt|Hle].
  - apply Qlt_le_weak. exact Hlt.
  - apply Qle_bool_iff in Hle. congruence.
Qed.

Lemma Qltb_trans (a b c : Q) :
  Qltb b a = false -> Qltb c b = false -> Qltb c a = false.
Proof.
  rewrite !Qltb_false. intros Hab Hbc.
  apply Qle_trans with (y := b); assumption.
Qed.

Lemma pair_ltb_false (a b : nat * nat) :
  pair_ltb b a = false <->
  fst a < fst b \/ (fst a = fst b /\ snd a <= snd b).
Proof.
  unfold pair_ltb.
  rewrite orb_false_iff, andb_false_iff, Nat.ltb_ge, Nat.ltb_ge, Nat.eqb_neq.
  lia.
Qed.

Lemma pair_ltb_asym (a b : nat * nat) : pair_ltb a b = true -> pair_ltb b a = false.
Proof.
  intro H. apply pair_ltb_false. unfold pair_ltb in H.
  rewrite orb_true_iff, andb_true_iff, !Nat.ltb_lt, Nat.eqb_eq in H. lia.
Qed.

Lemma pair_ltb_trans (a b c : nat * nat) :
  pair_ltb b a = false -> pair_ltb c b = false -> pair_ltb c a = false.
Proof. rewrite !pair_ltb_false. lia. Qed.

(** ** The entries of [ss] *)

Lemma enumerate_from {T : Type} (d : T) (l : list T) (a : nat) :
  combine (seq a (length l)) l
  = map (fun j => (j, nth (j - a) l d)) (seq a (length l)).
Proof.
  revert a. induction l as [|x l IH]; intro a; simpl; [reflexivity|].
  rewrite Nat.sub_diag. f_equal. rewrite IH.
  apply map_ext_in. intros j Hj. apply in_seq in Hj.
  replace (j - a) with (Datatypes.S (j - Datatypes.S a)) by lia. reflexivity.
Qed.

Lemma enumerate_nth {T : Type} (d : T) (l : list T) :
  enumerate l = map (fun j => (j, nth j l d)) (seq 0 (length l)).
Proof.
  unfold enumerate. rewrite (enumerate_from d).
  apply map_ext. intro j. rewrite Nat.sub_0_r. reflexivity.
Qed.

Lemma flat_map_map {X Y Z : Type} (f : Y -> list Z) (g : X -> Y) (l : list X) :
  flat_map f (map g l) = flat_map (fun x => f (g x)) l.
Proof.
  induction l as [|x l IH]; simpl; [reflexivity|]. rewrite IH. reflexivity.
Qed.

Lemma all_triples_groups (svd_s : list (list Q)) :
  all_triples svd_s = flat_map (group_triples svd_s) (seq 0 (length svd_s)).
Proof.
  unfold all_triples. rewrite (enumerate_nth []), flat_map_map.
  apply flat_map_ext. intro i. simpl.
  rewrite (enumerate_nth 0%Q), map_map. reflexivity.
Qed.

Lemma In_group_triples (svd_s : list (list Q)) (i : nat) (e : triple) :
  In e (group_triples svd_s i) <->
  t_group e = i /\ t_index e < length (nth i svd_s []) /\
  t_value e = value_at svd_s i (t_index e).
Proof.
  unfold group_triples. rewrite in_map_iff. split.
  - intros (j & <- & Hj). apply in_seq in Hj.
    unfold t_group, t_index, t_value. simpl. repeat split; lia || reflexivity.
  - destruct e as [[i' j] v]. unfold t_group, t_index, t_value. simpl.
    intros (E & Hj & Ev). subst i' v.
    exists j. split; [reflexivity|]. apply in_seq. lia.
Qed.

Lemma In_all_triples (svd_s : list (list Q)) (e : triple) :
  In e (all_triples svd_s) <->
  t_group e < length svd_s /\
  t_index e < length (nth (t_group e) svd_s []) /\
  t_value e = value_at svd_s (t_group e) (t_index e).
Proof.
  rewrite all_triples_groups, in_flat_map. split.
  - intros (i & Hi & He). apply in_seq in Hi.
    apply In_group_triples in He. destruct He as (E & Hj & Hv).
    rewrite E. repeat split; [lia|exact Hj|exact Hv].
  - intros (Hi & Hj & Hv). exists (t_group e). split.
    + apply in_seq. lia.
    + apply In_group_triples. auto.
Qed.

Lemma NoDup_flat_map {X Y : Type} (f : X -> list Y) (l : list X) :
  (forall x, NoDup (f x)) ->
  (forall x x' y, In y (f x) -> In y (f x') -> x = x') ->
  NoDup l -> NoDup (flat_map f l).
Proof.
  intros Hf Hdisj. induction 1 as [|x l Hx Hl IH]; simpl; [constructor|].
  apply NoDup_app; [apply Hf|exact IH|].
  intros y Hy Hin. apply in_flat_map in Hin. destruct Hin as (x' & Hx' & Hy').
  rewrite (Hdisj _ _ _ Hy Hy') in Hx. contradiction.
Qed.

Lemma NoDup_all_triples (svd_s : list (list Q)) : NoDup (all_triples svd_s).
Proof.
  rewrite all_triples_groups. apply NoDup_flat_map.
  - intro i. unfold group_triples. apply Finite.Injective_map_NoDup.
    + intros j j' E. inversion E; reflexivity.
    + apply seq_NoDup.
  - intros i i' e Hi Hi'.
    apply In_group_triples in Hi, Hi'. destruct Hi as (<- & _), Hi' as (<- & _).
    reflexivity.
  - apply seq_NoDup.
Qed.

(** Two entries of [ss] with the same group and index are the same. *)
Lemma all_triples_position (svd_s : list (list Q)) (e e' : triple) :
  In e (all_triples svd_s) -> In e' (all_triples svd_s) ->
  t_group e = t_group e' -> t_index e = t_index e' -> e = e'.
Proof.
  rewrite !In_all_triples. intros (_ & _ & Hv) (_ & _ & Hv') Hg Hi.
  destruct e as [[i j] v], e' as [[i' j'] v'].
  unfold t_group, t_index, t_value in *. simpl in *. subst. reflexivity.
Qed.

(** ** The kept entries *)

Lemma StronglySorted_weaken {T : Type} (R R' : T -> T -> Prop) (l : list T) :
  (forall x y, R x y -> R' x y) -> StronglySorted R l -> StronglySorted R' l.
Proof.
  intro HR. induction 1 as [|x l Hl IH Hx]; constructor; [exact IH|].
  apply Forall_impl with (2 := Hx). apply HR.
Qed.

Lemma sorted_triples_perm (svd_s : list (list Q)) :
  Permutation (sorted_triples svd_s) (all_triples svd_s).
Proof. apply sort_by_perm. Qed.

Lemma sorted_triples_sorted (svd_s : list (list Q)) :
  StronglySorted (fun x y => (t_value y <= t_value x)%Q) (sorted_triples svd_s).
Proof.
  unfold sorted_triples.
  eapply StronglySorted_weaken;
    [|apply sort_by_sorted; [exact Qltb_asym|exact Qltb_trans]].
  intros x y H. simpl in H. apply Qltb_false in H.
  apply Qopp_le_compat in H. rewrite !Qopp_involutive in H. exact H.
Qed.

Lemma sorted_triples_NoDup (svd_s : list (list Q)) : NoDup (sorted_triples svd_s).
Proof.
  apply (Permutation_NoDup (Permutation_sym (sorted_triples_perm svd_s))).
  apply NoDup_all_triples.
Qed.

Lemma NoDup_firstn {T : Type} (l : list T) (n : nat) : NoDup l -> NoDup (firstn n l).
Proof.
  intro H. rewrite <- (firstn_skipn n l) in H.
  apply NoDup_app_remove_r in H. exact H.
Qed.

Lemma above_cutoff_prefix (svd_s : list (list Q)) (cutoff : Q) :
  let above := filter (fun x => Qle_bool cutoff (t_value x)) (sorted_triples svd_s) in
  above = firstn (length above) (sorted_triples svd_s).
Proof.
  apply filter_sorted_prefix with (R := fun x y => (t_value y <= t_value x)%Q).
  - intros x y Hxy Hy. apply Qle_bool_iff. apply Qle_bool_iff in Hy.
    apply Qle_trans with (y := t_value y); assumption.
  - apply sorted_triples_sorted.
Qed.

(** An entry survives the cutoff and the slice when it is above the cutoff
    and among the first [k] of the sorted entries. *)
Lemma ss_trunc_In (svd_s : list (list Q)) (k : Z) (cutoff : Q) (e : triple) :
  (-1 <= k)%Z ->
  In e (ss_trunc svd_s k cutoff) <->
  In e (top_of svd_s k) /\ (cutoff <= t_value e)%Q.
Proof.
  intro Hk. unfold ss_trunc, top_of.
  destruct (Z.eqb_spec k (-1)) as [E|E]; simpl.
  - rewrite filter_In, Qle_bool_iff. tauto.
  - unfold py_prefix.
    destruct (Z.leb_spec 0 k) as [_|Hneg]; [|lia].
    pose proof (above_cutoff_prefix svd_s cutoff) as Hp. simpl in Hp.
    split.
    + intro H. split.
      * rewrite Hp, firstn_firstn in H.
        apply In_firstn_le with (a := Nat.min (Z.to_nat k)
          (length (filter (fun x => Qle_bool cutoff (t_value x))
                          (sorted_triples svd_s)))); [lia|exact H].
      * apply In_firstn in H. apply filter_In in H.
        apply Qle_bool_iff. tauto.
    + intros [Ht Hc].
      rewrite Hp, firstn_firstn. apply In_firstn_min; [exact Ht|].
      rewrite <- Hp. apply filter_In. split.
      * apply In_firstn in Ht. exact Ht.
      * apply Qle_bool_iff. exact Hc.
Qed.

Lemma top_of_top_k (svd_s : list (list Q)) (k : Z) :
  (-1 <= k)%Z -> top_k k (all_triples svd_s) (top_of svd_s k).
Proof.
  intro Hk. unfold top_k, top_of.
  pose proof (sorted_triples_perm svd_s) as Hperm.
  destruct (Z.eqb_spec k (-1)) as [E|E].
  - split; [|split; [|split; [|split]]].
    + intros x Hx. apply (Permutation_in _ Hperm Hx).
    + apply sorted_triples_NoDup.
    + intros _ x Hx. apply (Permutation_in _ (Permutation_sym Hperm) Hx).
    + intro H0. lia.
    + intros x y _ Hy Hn. exfalso. apply Hn.
      apply (Permutation_in _ (Permutation_sym Hperm) Hy).
  - split; [|split; [|split; [|split]]].
    + intros x Hx. apply In_firstn in Hx. apply (Permutation_in _ Hperm Hx).
    + apply NoDup_firstn, sorted_triples_NoDup.
    + intro H. contradiction.
    + intros _. rewrite length_firstn, (Permutation_length Hperm). reflexivity.
    + intros x y Hx Hy Hn.
      apply (Permutation_in _ (Permutation_sym Hperm)) in Hy.
      rewrite <- (firstn_skipn (Z.to_nat k) (sorted_triples svd_s)) in Hy.
      apply in_app_or in Hy. destruct Hy as [Hy|Hy]; [contradiction|].
      pose proof (sorted_triples_sorted svd_s) as Hs.
      rewrite <- (firstn_skipn (Z.to_nat k) (sorted_triples svd_s)) in Hs.
      apply (StronglySorted_app_order _ _ _ Hs x y Hx Hy).
Qed.

(** ** The two loops *)

Lemma fold_trunc_group (svd_s : list (list Q)) (G : list (nat * list triple))
    (st : trunc_state) :
  fold_left (trunc_group svd_s) G st
  = mkTruncState
      (fold_left (fun r grp => list_set r (fst grp) (group_svd_r svd_s grp)) G
                 (ts_svd_r st))
      (fold_left (fun gls grp => list_set gls (fst grp) (group_gl grp)) G (ts_gls st))
      (fold_left (fun e grp => (e + group_error svd_s grp)%Q) G (ts_error st)).
Proof.
  revert st. induction G as [|[ik g] G IH]; intro st; simpl.
  - destruct st; reflexivity.
  - rewrite IH. reflexivity.
Qed.

Lemma length_list_set {T : Type} (l : list T) (i : nat) (v : T) :
  length (list_set l i v) = length l.
Proof.
  revert i. induction l as [|x l IH]; intros [|i]; simpl; auto.
Qed.

Lemma nth_list_set {T : Type} (l : list T) (i k : nat) (v d : T) :
  k < length l ->
  nth i (list_set l k v) d = if i =? k then v else nth i l d.
Proof.
  revert i k. induction l as [|x l IH]; intros i k Hk; simpl in Hk; [lia|].
  destruct k as [|k], i as [|i]; simpl; try reflexivity.
  apply IH. lia.
Qed.

Lemma dict_get_absent {V : Type} (G : list (nat * V)) (i : nat) :
  ~ In i (map fst G) -> dict_get Nat.eqb G i = None.
Proof.
  induction G as [|[k g] G IH]; simpl; intro H; [reflexivity|].
  destruct (Nat.eqb_spec k i); [tauto|]. apply IH. tauto.
Qed.

Section FoldSet.
Variables X V : Type.
Variable f : nat * X -> V.

Lemma fold_list_set_length (G : list (nat * X)) (l0 : list V) :
  length (fold_left (fun l grp => list_set l (fst grp) (f grp)) G l0) = length l0.
Proof.
  revert l0. induction G as [|kg G IH]; intro l0; simpl; [reflexivity|].
  rewrite IH. apply length_list_set.
Qed.

(** Assignments at distinct positions: each position holds what its group
    stored, the others what they held before. *)
Lemma fold_list_set_nth (G : list (nat * X)) (l0 : list V) (i : nat) (d : V) :
  NoDup (map fst G) ->
  Forall (fun grp => fst grp < length l0) G ->
  nth i (fold_left (fun l grp => list_set l (fst grp) (f grp)) G l0) d
  = match dict_get Nat.eqb G i with
    | Some g => f (i, g)
    | None => nth i l0 d
    end.
Proof.
  revert l0. induction G as [|[k g] G IH]; intros l0 Hnd Hlen; simpl;
    [reflexivity|].
  inversion Hnd as [|? ? Hk Hnd']; subst.
  inversion Hlen as [|? ? Hk0 Hlen']; subst. simpl in Hk0.
  rewrite IH; [|exact Hnd'|].
  - destruct (Nat.eqb_spec k i) as [E|E].
    + subst k. rewrite (dict_get_absent _ _ Hk).
      rewrite nth_list_set, Nat.eqb_refl by exact Hk0. reflexivity.
    + destruct (dict_get Nat.eqb G i); [reflexivity|].
      rewrite nth_list_set by exact Hk0.
      destruct (Nat.eqb_spec i k); [congruence|reflexivity].
  - apply Forall_impl with (2 := Hlen'). intros grp Hg.
    rewrite length_list_set. exact Hg.
Qed.

End FoldSet.

Lemma StronglySorted_lt_NoDup (l : list nat) : StronglySorted lt l -> NoDup l.
Proof.
  induction 1 as [|x l Hl IH Hx]; constructor; [|exact IH].
  intro Hin. rewrite Forall_forall in Hx. specialize (Hx x Hin). lia.
Qed.

Section Groups.
Variable svd_s : list (list Q).
Variable k : Z.
Variable cutoff : Q.

Let st2 : list triple := ss_trunc_sorted svd_s k cutoff.
Let G : list (nat * list triple) := groupby t_group Nat.eqb st2.

Lemma ss_trunc_sorted_perm : Permutation st2 (ss_trunc svd_s k cutoff).
Proof. apply sort_by_perm. Qed.

Lemma ss_trunc_incl : incl (ss_trunc svd_s k cutoff) (all_triples svd_s).
Proof.
  intros e He. apply (Permutation_in _ (sorted_triples_perm svd_s)).
  unfold ss_trunc in He.
  assert (Hf : forall l, In e (filter (fun x => Qle_bool cutoff (t_value x)) l) ->
                         In e l) by (intros l H; apply filter_In in H; tauto).
  destruct (negb (k =? -1)%Z); [|apply Hf; exact He].
  unfold py_prefix in He.
  destruct (0 <=? k)%Z; apply In_firstn in He; apply Hf; exact He.
Qed.

Lemma st2_incl : incl st2 (all_triples svd_s).
Proof.
  intros e He. apply ss_trunc_incl.
  apply (Permutation_in _ ss_trunc_sorted_perm He).
Qed.

Lemma st2_sorted_groups :
  StronglySorted (fun x y => t_group x <= t_group y) st2.
Proof.
  unfold st2, ss_trunc_sorted.
  eapply StronglySorted_weaken;
    [|apply sort_by_sorted; [exact pair_ltb_asym|exact pair_ltb_trans]].
  intros x y H. simpl in H. apply pair_ltb_false in H. simpl in H. lia.
Qed.

Lemma groups_concat : concat (map snd G) = st2.
Proof. apply groupby_concat. Qed.

Lemma groups_wf :
  Forall (fun kg => snd kg <> [] /\ Forall (fun x => t_group x = fst kg) (snd kg)) G.
Proof. apply groupby_groups. Qed.

Lemma groups_NoDup : NoDup (map fst G).
Proof.
  apply StronglySorted_lt_NoDup, groupby_sorted_keys, st2_sorted_groups.
Qed.

Lemma groups_bound : Forall (fun grp => fst grp < length svd_s) G.
Proof.
  apply Forall_forall. intros [i g] Hin. simpl.
  pose proof groups_wf as Hwf. rewrite Forall_forall in Hwf.
  destruct (Hwf _ Hin) as [Hne Hg]. simpl in *.
  destruct g as [|e g]; [congruence|].
  inversion Hg as [|? ? He _]; subst.
  assert (Hst : In e st2).
  { rewrite <- groups_concat. apply in_concat. exists (e :: g). split.
    - change (e :: g) with (snd (t_group e, e :: g)). apply in_map. exact Hin.
    - left. reflexivity. }
  apply st2_incl, In_all_triples in Hst. tauto.
Qed.

Lemma groups_get (i : nat) :
  dict_get Nat.eqb G i = group_entry (filter (fun e => t_group e =? i) st2).
Proof.
  rewrite <- groups_concat.
  apply groups_filter; [exact groups_NoDup|exact groups_wf].
Qed.

(** [gls] and [svd_r] when the function returns. *)
Lemma truncate_loops_gls (i : nat) :
  i < length svd_s ->
  nth i (ts_gls (truncate_loops svd_s k cutoff)) None
  = option_map (fun g => map t_index g) (dict_get Nat.eqb G i) /\
  nth i (ts_svd_r (truncate_loops svd_s k cutoff)) None
  = option_map (fun g => take (nth i svd_s []) (map t_index g))
               (dict_get Nat.eqb G i).
Proof.
  intro Hi. unfold truncate_loops. simpl.
  fold st2. fold G. rewrite fold_trunc_group. simpl.
  assert (Hb : Forall (fun grp : nat * list triple =>
                         fst grp < length (repeat (@None (list nat)) (length svd_s))) G)
    by (rewrite repeat_length; exact groups_bound).
  assert (Hb' : Forall (fun grp : nat * list triple =>
                         fst grp < length (repeat (@None (list Q)) (length svd_s))) G)
    by (rewrite repeat_length; exact groups_bound).
  rewrite (fold_list_set_nth _ _ group_gl G _ i None groups_NoDup Hb).
  rewrite (fold_list_set_nth _ _ (group_svd_r svd_s) G _ i None groups_NoDup Hb').
  rewrite !nth_repeat.
  destruct (dict_get Nat.eqb G i); split; reflexivity.
Qed.

Lemma truncate_loops_length :
  length (ts_gls (truncate_loops svd_s k cutoff)) = length svd_s /\
  length (ts_svd_r (truncate_loops svd_s k cutoff)) = length svd_s.
Proof.
  unfold truncate_loops. simpl. rewrite fold_trunc_group. simpl.
  rewrite (fold_list_set_length _ _ group_gl).
  rewrite (fold_list_set_length _ _ (group_svd_r svd_s)).
  rewrite !repeat_length. split; reflexivity.
Qed.

(** The kept indices are those of the entries that survived. *)
Lemma is_kept_iff (e : triple) :
  In e (all_triples svd_s) ->
  is_kept (ts_gls (truncate_loops svd_s k cutoff)) e = true <->
  In e (ss_trunc svd_s k cutoff).
Proof.
  intro He. pose proof He as Hall. apply In_all_triples in Hall.
  destruct Hall as (Hi & _).
  unfold is_kept, kept_at.
  rewrite (proj1 (truncate_loops_gls _ Hi)), groups_get.
  assert (Hiff : In (t_index e)
                   (map t_index (filter (fun x => t_group x =? t_group e) st2))
                 <-> In e (ss_trunc svd_s k cutoff)).
  { rewrite in_map_iff. split.
    - intros (e' & Hidx & Hin). apply filter_In in Hin.
      destruct Hin as [Hin Hg]. apply Nat.eqb_eq in Hg.
      rewrite (all_triples_position svd_s e e' He (st2_incl _ Hin));
        [|congruence|congruence].
      apply (Permutation_in _ ss_trunc_sorted_perm Hin).
    - intro Hin. exists e. split; [reflexivity|].
      apply filter_In. split; [|apply Nat.eqb_refl].
      apply (Permutation_in _ (Permutation_sym ss_trunc_sorted_perm) Hin). }
  rewrite <- Hiff.
  destruct (filter (fun x => t_group x =? t_group e) st2) as [|e0 l]; simpl.
  - split; [discriminate|tauto].
  - rewrite orb_true_iff, Nat.eqb_eq, existsb_exists.
    split.
    + intros [E|(j & Hj & E)]; [left; congruence|].
      apply Nat.eqb_eq in E. right. congruence.
    + intros [E|Hin]; [left; congruence|].
      right. exists (t_index e). split; [exact Hin|apply Nat.eqb_refl].
Qed.

End Groups.

(** ** The truncation error *)

Lemma Rsum_app (l1 l2 : list R) : Rsum (l1 ++ l2) = (Rsum l1 + Rsum l2)%R.
Proof.
  induction l1 as [|x l1 IH]; simpl; [lra|]. rewrite IH. lra.
Qed.

Lemma Rsum_perm (l1 l2 : list R) : Permutation l1 l2 -> Rsum l1 = Rsum l2.
Proof.
  induction 1 as [|x l1 l2 _ IH|x y l|l1 l2 l3 _ IH1 _ IH2]; simpl;
    [reflexivity|rewrite IH; reflexivity|lra|congruence].
Qed.

Lemma Rsum_map_plus {X : Type} (f g : X -> R) (l : list X) :
  (Rsum (map f l) + Rsum (map g l))%R = Rsum (map (fun x => (f x + g x)%R) l).
Proof.
  induction l as [|x l IH]; simpl; [lra|]. rewrite <- IH. lra.
Qed.

Lemma Rsum_nonneg (l : list R) : Forall (fun x => (0 <= x)%R) l -> (0 <= Rsum l)%R.
Proof.
  induction 1 as [|x l Hx _ IH]; simpl; lra.
Qed.

Lemma Q2R_zero : Q2R 0 = 0%R.
Proof. unfold Q2R. simpl. lra. Qed.

Lemma Q2R_fold_sq (a : list Q) (acc : Q) :
  Q2R (fold_left (fun acc v => (acc + v * v)%Q) a acc)
  = (Q2R acc + Rsum (map (fun v => (Q2R v * Q2R v)%R) a))%R.
Proof.
  revert acc. induction a as [|v a IH]; intro acc; simpl; [lra|].
  rewrite IH, Q2R_plus, Q2R_mult. lra.
Qed.

Lemma Q2R_sum_sq (a : list Q) :
  Q2R (sum_sq a) = Rsum (map (fun v => (Q2R v * Q2R v)%R) a).
Proof. unfold sum_sq. rewrite Q2R_fold_sq, Q2R_zero. lra. Qed.

Lemma Q2R_fold_group_error (svd_s : list (list Q)) (G : list (nat * list triple))
    (e : Q) :
  Q2R (fold_left (fun e grp => (e + group_error svd_s grp)%Q) G e)
  = (Q2R e + Rsum (map (fun grp => Q2R (group_error svd_s grp)) G))%R.
Proof.
  revert e. induction G as [|grp G IH]; intro e; simpl; [lra|].
  rewrite IH, Q2R_plus. lra.
Qed.

Lemma Q2R_fold_dropped (svd_s : list (list Q)) (gls : list (option (list nat)))
    (l : list nat) (e : Q) :
  Q2R (fold_left (trunc_dropped svd_s gls) l e)
  = (Q2R e
     + Rsum (map (fun ik => match nth ik gls None with
                            | None => Q2R (sum_sq (nth ik svd_s []))
                            | Some _ => 0%R
                            end) l))%R.
Proof.
  revert e. induction l as [|ik l IH]; intro e; simpl; [lra|].
  rewrite IH. unfold trunc_dropped.
  destruct (nth ik gls None); [lra|]. rewrite Q2R_plus. lra.
Qed.

Lemma sum_squares_flat_map {X : Type} (f : triple -> bool) (g : X -> list triple)
    (l : list X) :
  sum_squares (filter f (flat_map g l))
  = Rsum (map (fun x => sum_squares (filter f (g x))) l).
Proof.
  unfold sum_squares. induction l as [|x l IH]; simpl; [reflexivity|].
  rewrite filter_app, map_app, Rsum_app, IH. reflexivity.
Qed.

Lemma filter_map_swap {X Y : Type} (f : Y -> bool) (g : X -> Y) (l : list X) :
  filter f (map g l) = map g (filter (fun x => f (g x)) l).
Proof.
  induction l as [|x l IH]; simpl; [reflexivity|].
  destruct (f (g x)); simpl; rewrite IH; reflexivity.
Qed.

Lemma take_all (a : list Q) : take a (seq 0 (length a)) = a.
Proof.
  unfold take.
  pose proof (enumerate_nth 0%Q a) as E. unfold enumerate in E.
  apply (f_equal (map snd)) in E. rewrite map_map in E. simpl in E.
  rewrite <- E. clear E.
  generalize 0 as n. induction a as [|x a IH]; intro n; simpl; [reflexivity|].
  f_equal. apply IH.
Qed.

Lemma filter_true {X : Type} (l : list X) : filter (fun _ => true) l = l.
Proof. induction l as [|x l IH]; simpl; [reflexivity|]. rewrite IH. reflexivity. Qed.

(** The squares dropped from one group. *)
Lemma group_discarded (svd_s : list (list Q)) (gls : list (option (list nat)))
    (i : nat) :
  sum_squares (filter (fun e => negb (is_kept gls e)) (group_triples svd_s i))
  = match nth i gls None with
    | Some gl =>
        Q2R (sum_sq (take (nth i svd_s [])
               (filter (fun j => negb (existsb (Nat.eqb j) gl))
                       (seq 0 (length (nth i svd_s []))))))
    | None => Q2R (sum_sq (nth i svd_s []))
    end.
Proof.
  unfold group_triples. rewrite filter_map_swap.
  unfold sum_squares. rewrite map_map.
  rewrite (filter_ext _ (fun j => negb (kept_at gls i j)))
    by (intro j; reflexivity).
  rewrite (map_ext _ (fun j => (Q2R (value_at svd_s i j) * Q2R (value_at svd_s i j))%R))
    by (intro j; reflexivity).
  unfold kept_at, value_at.
  destruct (nth i gls None) as [gl|].
  - rewrite Q2R_sum_sq. unfold take. rewrite map_map. reflexivity.
  - rewrite filter_true, Q2R_sum_sq.
    assert (E : map (fun v => (Q2R v * Q2R v)%R) (nth i svd_s [])
                = map (fun v => (Q2R v * Q2R v)%R)
                      (take (nth i svd_s []) (seq 0 (length (nth i svd_s [])))))
      by (rewrite take_all; reflexivity).
    rewrite E. unfold take. rewrite map_map. reflexivity.
Qed.

Lemma Rsum_filter_zero {X : Type} (h : X -> R) (p : X -> bool) (l : list X) :
  (forall x, p x = false -> h x = 0%R) ->
  Rsum (map h l) = Rsum (map h (filter p l)).
Proof.
  intro Hz. induction l as [|x l IH]; simpl; [reflexivity|].
  destruct (p x) eqn:E; simpl; rewrite IH; [reflexivity|].
  rewrite (Hz x E). lra.
Qed.

(** A sum over groups with distinct keys below [n] is a sum over the keys
    below [n]. *)
Lemma Rsum_groups {X : Type} (h : nat * X -> R) (G : list (nat * X)) (n : nat) :
  NoDup (map fst G) ->
  Forall (fun grp => fst grp < n) G ->
  Rsum (map h G)
  = Rsum (map (fun i => match dict_get Nat.eqb G i with
                        | Some g => h (i, g)
                        | None => 0%R
                        end) (seq 0 n)).
Proof.
  intros Hnd Hb.
  rewrite (Rsum_filter_zero _ (dict_mem Nat.eqb G)).
  2:{ intros i Hi. unfold dict_mem in Hi.
      destruct (dict_get Nat.eqb G i); [discriminate|reflexivity]. }
  assert (Hperm : Permutation (filter (dict_mem Nat.eqb G) (seq 0 n)) (map fst G)).
  { apply NoDup_Permutation; [apply NoDup_filter, seq_NoDup|exact Hnd|].
    intro i. rewrite filter_In, in_seq. unfold dict_mem. split.
    - intros [_ Hm]. destruct (dict_get Nat.eqb G i) as [g|] eqn:E; [|discriminate].
      apply (dict_get_In _ _ _ Nat.eqb_spec) in E.
      change i with (fst (i, g)). apply in_map. exact E.
    - intro Hin. apply in_map_iff in Hin. destruct Hin as ([i' g] & <- & Hin).
      rewrite Forall_forall in Hb. specialize (Hb _ Hin). simpl in *.
      split; [lia|].
      rewrite (dict_In_get _ _ _ Nat.eqb_spec _ _ _ Hnd Hin). reflexivity. }
  rewrite (Rsum_perm _ _ (Permutation_map _ Hperm)).
  rewrite map_map. f_equal. apply map_ext_in. intros [i g] Hin. simpl.
  rewrite (dict_In_get _ _ _ Nat.eqb_spec _ _ _ Hnd Hin). reflexivity.
Qed.

Lemma truncate_loops_error_eq (svd_s : list (list Q)) (k : Z) (cutoff : Q) :
  ts_error (truncate_loops svd_s k cutoff)
  = fold_left (trunc_dropped svd_s (ts_gls (truncate_loops svd_s k cutoff)))
      (seq 0 (length svd_s))
      (fold_left (fun e grp => (e + group_error svd_s grp)%Q)
         (groupby t_group Nat.eqb (ss_trunc_sorted svd_s k cutoff)) 0%Q).
Proof.
  unfold truncate_loops. simpl. rewrite fold_trunc_group. reflexivity.
Qed.

(** The accumulated error is the sum of the squares of the discarded
    entries. *)
Lemma truncate_loops_error (svd_s : list (list Q)) (k : Z) (cutoff : Q) :
  Q2R (ts_error (truncate_loops svd_s k cutoff))
  = sum_squares (discarded svd_s (ts_gls (truncate_loops svd_s k cutoff))).
Proof.
  unfold discarded.
  rewrite all_triples_groups, sum_squares_flat_map.
  rewrite truncate_loops_error_eq.
  set (G := groupby t_group Nat.eqb (ss_trunc_sorted svd_s k cutoff)).
  set (gls := ts_gls (truncate_loops svd_s k cutoff)).
  assert (Hgls : forall i, In i (seq 0 (length svd_s)) ->
            nth i gls None
            = option_map (fun g => map t_index g) (dict_get Nat.eqb G i)).
  { intros i Hi. apply in_seq in Hi.
    apply (truncate_loops_gls svd_s k cutoff i). lia. }
  rewrite Q2R_fold_dropped, Q2R_fold_group_error, Q2R_zero.
  rewrite (Rsum_groups _ G (length svd_s)
             (groups_NoDup svd_s k cutoff) (groups_bound svd_s k cutoff)).
  rewrite Rplus_0_l, Rsum_map_plus.
  f_equal. apply map_ext_in. intros i Hi.
  rewrite group_discarded, (Hgls i Hi).
  destruct (dict_get Nat.eqb G i) as [g|]; simpl.
  - unfold group_error. simpl. lra.
  - lra.
Qed.

(** ** The result of [truncate_singular_values] *)

Lemma group_entry_existsb (L : list triple) (j : nat) :
  match option_map (fun g => map t_index g) (group_entry L) with
  | Some gl => existsb (Nat.eqb j) gl
  | None => false
  end = true ->
  In j (map t_index L).
Proof.
  destruct L as [|e0 l]; [discriminate|].
  unfold group_entry, option_map. intro H.
  apply existsb_exists in H. destruct H as (j' & Hin & E).
  apply Nat.eqb_eq in E. subst j'. exact Hin.
Qed.

(** A kept index is the index of an entry of its group. *)
Lemma kept_at_entry (svd_s : list (list Q)) (k : Z) (cutoff : Q) (i j : nat) :
  kept_at (ts_gls (truncate_loops svd_s k cutoff)) i j = true ->
  In (i, j, value_at svd_s i j) (all_triples svd_s).
Proof.
  unfold kept_at. intro H.
  destruct (Nat.lt_ge_cases i (length svd_s)) as [Hi|Hi].
  - rewrite (proj1 (truncate_loops_gls svd_s k cutoff i Hi)), groups_get in H.
    apply group_entry_existsb in H.
    apply in_map_iff in H. destruct H as (e & Hidx & Hin).
    apply filter_In in Hin. destruct Hin as [Hin Hg]. apply Nat.eqb_eq in Hg.
    apply st2_incl in Hin. pose proof Hin as Hall.
    apply In_all_triples in Hall. destruct Hall as (_ & _ & Hv).
    destruct e as [[i' j'] v]. unfold t_group, t_index, t_value in *.
    simpl in *. subst. exact Hin.
  - rewrite nth_overflow in H; [discriminate|].
    rewrite (proj1 (truncate_loops_length svd_s k cutoff)). exact Hi.
Qed.

Lemma sum_squares_filter_le (f1 f2 : triple -> bool) (l : list triple) :
  (forall e, In e l -> f2 e = true -> f1 e = true) ->
  (sum_squares (filter f2 l) <= sum_squares (filter f1 l))%R.
Proof.
  unfold sum_squares. induction l as [|e l IH]; intro H; simpl; [lra|].
  assert (IH' := IH (fun e' He' => H e' (or_intror He'))).
  pose proof (H e (or_introl eq_refl)) as He.
  pose proof (Rle_0_sqr (Q2R (t_value e))) as Hsq. unfold Rsqr in Hsq.
  destruct (f2 e); [rewrite He by reflexivity; simpl; lra|].
  destruct (f1 e); simpl; lra.
Qed.

Lemma sum_squares_nonneg (l : list triple) : (0 <= sum_squares l)%R.
Proof.
  unfold sum_squares. apply Rsum_nonneg, Forall_forall.
  intros x Hx. apply in_map_iff in Hx. destruct Hx as (e & <- & _).
  pose proof (Rle_0_sqr (Q2R (t_value e))) as Hsq. exact Hsq.
Qed.

Lemma filter_none {X : Type} (f : X -> bool) (l : list X) :
  (forall x, In x l -> f x = false) -> filter f l = [].
Proof.
  induction l as [|x l IH]; intro H; simpl; [reflexivity|].
  rewrite (H x (or_introl eq_refl)). apply IH. intros y Hy. apply H. right. exact Hy.
Qed.

(** On each side of the value -1 a larger bound keeps more; and no bound
    keeps as much as [k = -1]. *)
Lemma ss_trunc_mono (svd_s : list (list Q)) (k1 k2 : Z) (cutoff : Q) (e : triple) :
  (k1 <= k2)%Z -> (0 <= k1 \/ k2 <= -1)%Z ->
  In e (ss_trunc svd_s k1 cutoff) -> In e (ss_trunc svd_s k2 cutoff).
Proof.
  intros H12 Hside. unfold ss_trunc, py_prefix.
  set (above := filter (fun x => Qle_bool cutoff (t_value x)) (sorted_triples svd_s)).
  destruct (Z.eqb_spec k2 (-1)) as [E2|N2]; simpl.
  - destruct (Z.eqb_spec k1 (-1)) as [E1|N1]; simpl; [tauto|].
    destruct (0 <=? k1)%Z; apply In_firstn.
  - destruct (Z.eqb_spec k1 (-1)) as [E1|N1]; simpl; [lia|].
    destruct (Z.leb_spec 0 k1) as [P1|Q1]; destruct (Z.leb_spec 0 k2) as [P2|Q2];
      try lia; apply In_firstn_le; lia.
Qed.

Lemma ss_trunc_unbounded (svd_s : list (list Q)) (k : Z) (cutoff : Q) (e : triple) :
  In e (ss_trunc svd_s k cutoff) -> In e (ss_trunc svd_s (-1) cutoff).
Proof.
  unfold ss_trunc, py_prefix. simpl.
  destruct (negb (k =? -1)%Z); [|tauto].
  destruct (0 <=? k)%Z; apply In_firstn.
Qed.

Lemma truncate_error_eq (svd_s : list (list Q)) (k : Z) (cutoff : Q) :
  snd (truncate_singular_values svd_s k cutoff)
  = sqrt (sum_squares (discarded svd_s (ts_gls (truncate_loops svd_s k cutoff)))).
Proof.
  unfold truncate_singular_values. cbv zeta. cbn [snd].
  rewrite truncate_loops_error. reflexivity.
Qed.

Lemma discarded_mono (svd_s : list (list Q)) (ka kb : Z) (cutoff : Q) :
  (forall e, In e (ss_trunc svd_s ka cutoff) -> In e (ss_trunc svd_s kb cutoff)) ->
  (snd (truncate_singular_values svd_s kb cutoff)
   <= snd (truncate_singular_values svd_s ka cutoff))%R.
Proof.
  intros Hincl. rewrite !truncate_error_eq.
  apply sqrt_le_1_alt. unfold discarded.
  apply sum_squares_filter_le. intros e He Hn.
  apply negb_true_iff in Hn. apply negb_true_iff.
  destruct (is_kept (ts_gls (truncate_loops svd_s ka cutoff)) e) eqn:Ek;
    [|reflexivity].
  apply (is_kept_iff svd_s ka cutoff e He) in Ek.
  apply Hincl in Ek.
  apply (is_kept_iff svd_s kb cutoff e He) in Ek. congruence.
Qed.

Example truncate_loops_example :
  truncate_loops [[5; 3; 1]; [4; 2]]%Q 3 0%Q
  = mkTruncState [Some [5; 3]; Some [4]]%Q [Some [0; 1]; Some [0]] 5%Q.
Proof. vm_compute. reflexivity. Qed.

(** C1. For a bound [k] that is -1 or not negative: the kept indices are
    those of the entries whose value is at least [cutoff] and that are
    among the [k] largest entries of all groups together (all entries for
    [k = -1]); [svd_r] holds the values at the kept indices; and the
    returned error is the square root of the sum of the squares of all the
    entries that are not kept, in every group.  For the groups [5, 3, 1]
    and [4, 2] with [k = 3] and [cutoff = 0] the values 5, 3 and 4 are kept
    and the error is the square root of 5. *)
Theorem truncate_keeps_top_k (svd_s : list (list Q)) (k : Z) (cutoff : Q)
    (svd_r : list (option (list Q))) (gls : list (option (list nat))) (error : R) :
  (-1 <= k)%Z ->
  truncate_singular_values svd_s k cutoff = (svd_r, gls, error) ->
  (exists top,
     top_k k (all_triples svd_s) top /\
     forall e, In e (all_triples svd_s) ->
       (is_kept gls e = true <-> In e top /\ (cutoff <= t_value e)%Q)) /\
  (forall i j, kept_at gls i j = true ->
     In (i, j, value_at svd_s i j) (all_triples svd_s)) /\
  (length gls = length svd_s /\ length svd_r = length svd_s /\
   forall i, i < length svd_s ->
     nth i svd_r None = option_map (take (nth i svd_s [])) (nth i gls None)) /\
  error = sqrt (sum_squares (discarded svd_s gls)) /\
  truncate_singular_values [[5; 3; 1]; [4; 2]]%Q 3 0%Q
  = ([Some [5; 3]; Some [4]]%Q, [Some [0; 1]; Some [0]], sqrt 5).
Proof.
  intros Hk E.
  assert (E1 : svd_r = ts_svd_r (truncate_loops svd_s k cutoff))
    by (symmetry; exact (f_equal (fun x => fst (fst x)) E)).
  assert (E2 : gls = ts_gls (truncate_loops svd_s k cutoff))
    by (symmetry; exact (f_equal (fun x => snd (fst x)) E)).
  assert (E3 : error = snd (truncate_singular_values svd_s k cutoff))
    by (rewrite E; reflexivity).
  clear E. subst svd_r gls error.
  split; [|split; [|split; [|split]]].
  - exists (top_of svd_s k). split; [apply top_of_top_k; exact Hk|].
    intros e He. rewrite (is_kept_iff svd_s k cutoff e He).
    apply ss_trunc_In. exact Hk.
  - apply kept_at_entry.
  - destruct (truncate_loops_length svd_s k cutoff) as [Hl1 Hl2].
    split; [exact Hl1|split; [exact Hl2|]].
    intros i Hi. destruct (truncate_loops_gls svd_s k cutoff i Hi) as [G1 G2].
    rewrite G1, G2.
    destruct (dict_get Nat.eqb _ i); reflexivity.
  - apply truncate_error_eq.
  - unfold truncate_singular_values. rewrite truncate_loops_example. simpl.
    do 2 f_equal. unfold Q2R. simpl. lra.
Qed.

(** C4. With the list of singular values and the cutoff fixed, a smaller
    bound never gives a smaller error: for [k1 <= k2] on the same side of
    the value -1, which stands for no bound, the error for [k2] is at most
    the error for [k1]; the error for [k = -1] is the smallest of all; and
    for singular values that are not negative the error for [k = -1] and
    [cutoff = 0] is 0. *)
Theorem truncation_error_monotone (svd_s : list (list Q)) (k1 k2 : Z) (cutoff : Q) :
  (k1 <= k2)%Z -> (0 <= k1 \/ k2 <= -1)%Z ->
  (snd (truncate_singular_values svd_s k2 cutoff)
   <= snd (truncate_singular_values svd_s k1 cutoff))%R /\
  (forall k, (snd (truncate_singular_values svd_s (-1) cutoff)
              <= snd (truncate_singular_values svd_s k cutoff))%R) /\
  (Forall (Forall (fun v => (0 <= v)%Q)) svd_s ->
   snd (truncate_singular_values svd_s (-1) 0%Q) = 0%R).
Proof.
  intros Hk Hside. split; [|split].
  - apply discarded_mono. intro e. apply ss_trunc_mono; assumption.
  - intro k. apply discarded_mono. intro e. apply ss_trunc_unbounded.
  - intro Hpos. rewrite truncate_error_eq.
    assert (Hnil : discarded svd_s (ts_gls (truncate_loops svd_s (-1) 0%Q)) = []).
    { unfold discarded. apply filter_none. intros e He.
      apply negb_false_iff.
      apply (is_kept_iff svd_s (-1) 0%Q e He).
      apply ss_trunc_In; [lia|]. split.
      - unfold top_of. simpl.
        apply (Permutation_in _ (Permutation_sym (sorted_triples_perm svd_s)) He).
      - apply In_all_triples in He. destruct He as (Hi & Hj & Hv).
        rewrite Hv. unfold value_at.
        rewrite Forall_forall in Hpos.
        assert (Hg : In (nth (t_group e) svd_s []) svd_s) by (apply nth_In; exact Hi).
        specialize (Hpos _ Hg). rewrite Forall_forall in Hpos.
        apply Hpos, nth_In. exact Hj. }
    rewrite Hnil. unfold sum_squares. simpl. apply sqrt_0.
Qed.

Lemma truncate_keeps_top_k_witness :
  truncate_singular_values [[5; 3; 1]; [4; 2]]%Q 3 0%Q
  = ([Some [5; 3]; Some [4]]%Q, [Some [0; 1]; Some [0]], sqrt 5) /\
  sqrt 5 = sqrt (sum_squares (discarded [[5; 3; 1]; [4; 2]]%Q [Some [0; 1]; Some [0]])) /\
  is_kept [Some [0; 1]; Some [0]] (1, 0, 4%Q) = true /\
  is_kept [Some [0; 1]; Some [0]] (1, 1, 2%Q) = false.
Proof.
  assert (E : truncate_singular_values [[5; 3; 1]; [4; 2]]%Q 3 0%Q
              = ([Some [5; 3]; Some [4]]%Q, [Some [0; 1]; Some [0]], sqrt 5)).
  { unfold truncate_singular_values. rewrite truncate_loops_example. simpl.
    do 2 f_equal. unfold Q2R. simpl. lra. }
  assert (Hk : (-1 <= 3)%Z) by lia.
  destruct (truncate_keeps_top_k _ _ _ _ _ _ Hk E)
    as (_ & _ & _ & Herr & Hex).
  split; [exact Hex|]. split; [exact Herr|]. split; reflexivity.
Defined.

Lemma truncation_error_monotone_witness :
  (snd (truncate_singular_values [[5; 3; 1]; [4; 2]]%Q 3 0%Q)
   <= snd (truncate_singular_values [[5; 3; 1]; [4; 2]]%Q 2 0%Q))%R /\
  snd (truncate_singular_values [[5; 3; 1]; [4; 2]]%Q (-1) 0%Q) = 0%R.
Proof.
  assert (Hk : (2 <= 3)%Z) by lia.
  assert (Hside : (0 <= 2 \/ 3 <= -1)%Z) by lia.
  destruct (truncation_error_monotone [[5; 3; 1]; [4; 2]]%Q 2 3 0%Q Hk Hside)
    as (Hm & _ & Hz).
  split; [exact Hm|].
  apply Hz. repeat constructor; discriminate.
Defined.

(** ** Arrays in row-major order *)

Section ArrayFacts.
Variable S : Type.

Lemma size_of_app (l1 l2 : list nat) : size_of (l1 ++ l2) = size_of l1 * size_of l2.
Proof.
  induction l1 as [|x l1 IH]; simpl; [lia|]. rewrite IH. lia.
Qed.

Lemma removelast_snoc {T : Type} (l : list T) (x : T) : removelast (l ++ [x]) = l.
Proof. apply removelast_last. Qed.

Lemma pieces_length (w : nat) (d : list S) (a : nat) (rs : list nat) :
  length (pieces w d a rs) = length rs.
Proof.
  revert a. induction rs as [|r rs IH]; intro a; simpl; [reflexivity|].
  rewrite IH. reflexivity.
Qed.

(** [np.split] at the running sums of the row counts cuts the slices of
    these row counts. *)
Lemma split_from_pieces (q : ndarray S) (n c a : nat) (rs : list nat) :
  shape q = [n; c] ->
  rs <> [] ->
  a + fold_right Nat.add 0 rs = n ->
  split_from q a (accumulate_from a (removelast rs)) = pieces c (data q) a rs.
Proof.
  intros Hq. revert a. induction rs as [|r rs IH]; intros a Hne Hsum; [congruence|].
  destruct rs as [|r2 rs].
  - simpl in *. unfold row_slice. rewrite Hq. simpl.
    rewrite Nat.mul_1_r.
    replace (n - Nat.min a n) with r by lia.
    replace (Nat.min a n) with a by lia. reflexivity.
  - change (removelast (r :: r2 :: rs)) with (r :: removelast (r2 :: rs)).
    cbn [accumulate_from split_from pieces].
    rewrite IH; [|discriminate|simpl in *; lia].
    f_equal. unfold row_slice. rewrite Hq. simpl in *.
    rewrite Nat.mul_1_r.
    replace (Nat.min (a + r) n - Nat.min a n) with r by lia.
    replace (Nat.min a n) with a by lia. reflexivity.
Qed.

Lemma skipn_skipn_add {T : Type} (l : list T) (a b : nat) :
  skipn b (skipn a l) = skipn (a + b) l.
Proof.
  revert l. induction a as [|a IH]; intro l; simpl; [reflexivity|].
  destruct l as [|x l]; [destruct b; reflexivity|]. apply IH.
Qed.

Lemma firstn_plus {T : Type} (l : list T) (p m : nat) :
  firstn (p + m) l = firstn p l ++ firstn m (skipn p l).
Proof.
  revert l. induction p as [|p IH]; intro l; simpl; [reflexivity|].
  destruct l as [|x l]; simpl; [rewrite firstn_nil; reflexivity|].
  rewrite IH. reflexivity.
Qed.

(** The slices put one after the other are the rows they were cut from. *)
Lemma pieces_concat (w : nat) (d : list S) (a : nat) (rs : list nat) :
  concat (map (@data S) (pieces w d a rs))
  = firstn (fold_right Nat.add 0 rs * w) (skipn (a * w) d).
Proof.
  revert a. induction rs as [|r rs IH]; intro a; simpl; [reflexivity|].
  rewrite IH, (Nat.mul_add_distr_r r), firstn_plus, skipn_skipn_add.
  rewrite <- Nat.mul_add_distr_r. reflexivity.
Qed.

Lemma append_rows_pieces (w : nat) (d : list S) (a : nat) (rs : list nat)
    (n0 : nat) (d0 : list S) :
  foldM append_rows (pieces w d a rs) (mkArray [n0; w] d0)
  = Ok (mkArray [n0 + fold_right Nat.add 0 rs; w]
          (d0 ++ concat (map (@data S) (pieces w d a rs)))).
Proof.
  revert a n0 d0. induction rs as [|r rs IH]; intros a n0 d0; simpl.
  - rewrite Nat.add_0_r, app_nil_r. reflexivity.
  - unfold append_rows at 1. simpl. rewrite Nat.eqb_refl. simpl.
    rewrite IH. rewrite <- app_assoc, Nat.add_assoc. reflexivity.
Qed.

(** Stacking the slices gives back the matrix. *)
Lemma concatenate_pieces (q : ndarray S) (n c : nat) (rs : list nat) :
  shape q = [n; c] ->
  length (data q) = n * c ->
  rs <> [] ->
  fold_right Nat.add 0 rs = n ->
  concatenate_rows (pieces c (data q) 0 rs) = Ok q.
Proof.
  intros Hq Hlen Hne Hsum. destruct rs as [|r rs]; [congruence|].
  simpl. rewrite append_rows_pieces.
  change (firstn (r * c) (data q) ++ concat (map (@data S) (pieces c (data q) r rs)))
    with (concat (map (@data S) (pieces c (data q) 0 (r :: rs)))).
  rewrite pieces_concat. simpl in *. rewrite Hsum.
  rewrite firstn_all2 by lia.
  destruct q as [sh d]. simpl in *. subst sh. reflexivity.
Qed.

End ArrayFacts.

(** ** One group of [left_canonicalize] *)

Section GroupStep.
Context {L : Type} `{QL : QuantumLabel L}.
Variable S : Type.
Variable qr : ndarray S -> ndarray S * ndarray S.
Variables (add mul : S -> S -> S) (zero one : S).
Variable close : S -> S -> Prop.

#[local] Abbreviation block := (SubTensor L (ndarray S)).

Lemma mapM_combine_map {X Y Z : Type} (f : X -> Y) (F : X -> Y -> result Z)
    (l : list X) :
  mapM (fun yx => F (snd yx) (fst yx)) (combine (map f l) l)
  = mapM (fun x => F x (f x)) l.
Proof.
  induction l as [|x l IH]; simpl; [reflexivity|]. rewrite IH. reflexivity.
Qed.

Lemma flatten_leading_inv (b : block) (m : ndarray S) :
  flatten_leading b = Ok m ->
  (leading_size b <> 0 /\ removelast (shape (reduced b)) <> []) /\
  hd 0 (shape m) = leading_size b.
Proof.
  unfold flatten_leading, reshape_leading, reshape_rows. fold (leading_size b).
  destruct (removelast (shape (reduced b))); [discriminate|].
  destruct (Nat.eqb_spec (leading_size b) 0) as [E|E]; simpl; [discriminate|].
  destruct (negb (length (data (reduced b)) mod leading_size b =? 0));
    [discriminate|].
  intro H. inversion H; subst; simpl. repeat split; auto. discriminate.
Qed.

Lemma mapM_flatten_leading (bs : list block) (ms : list (ndarray S)) :
  mapM flatten_leading bs = Ok ms ->
  Forall (fun b => leading_size b <> 0 /\ removelast (shape (reduced b)) <> []) bs /\
  map (fun m => hd 0 (shape m)) ms = map leading_size bs.
Proof.
  revert ms. induction bs as [|b bs IH]; intros ms E; simpl in E.
  - inversion E; subst. split; [constructor|reflexivity].
  - bind_inv E. bind_inv E. inversion E; subst; clear E.
    destruct (flatten_leading_inv _ _ Hx) as [Hne Hr].
    destruct (IH _ Hx0) as [Hf Hm].
    split; [constructor; assumption|]. simpl. rewrite Hr, Hm. reflexivity.
Qed.

Lemma append_rows_shape (ms : list (ndarray S)) (acc res : ndarray S) (n0 c : nat) :
  shape acc = [n0; c] ->
  foldM append_rows ms acc = Ok res ->
  shape res = [n0 + fold_right Nat.add 0 (map (fun m => hd 0 (shape m)) ms); c].
Proof.
  revert acc n0. induction ms as [|m ms IH]; intros acc n0 Hacc E; simpl in E.
  - inversion E; subst. simpl. rewrite Nat.add_0_r. exact Hacc.
  - bind_inv E. unfold append_rows in Hx. rewrite Hacc in Hx.
    destruct (shape m) as [|r' [|c' [|? ?]]] eqn:Hm; try discriminate.
    destruct (c' =? c); [|discriminate].
    inversion Hx; subst; clear Hx.
    rewrite (IH (mkArray [n0 + r'; c] (data acc ++ data m)) (n0 + r') eq_refl E).
    simpl. rewrite Hm, Nat.add_assoc. reflexivity.
Qed.

(** The stacked matrix has one row for each unit of leading size. *)
Lemma stacked_shape (bs : list block) (mat : ndarray S) :
  stacked bs = Ok mat ->
  bs <> [] /\
  Forall (fun b => leading_size b <> 0 /\ removelast (shape (reduced b)) <> []) bs /\
  exists c, shape mat = [fold_right Nat.add 0 (map leading_size bs); c].
Proof.
  unfold stacked. intro E. bind_inv E.
  destruct (mapM_flatten_leading _ _ Hx) as [Hne Hrows].
  destruct bs as [|b bs]; [inversion Hx; subst; discriminate|].
  split; [discriminate|]. split; [exact Hne|].
  destruct x as [|m ms]; [discriminate|]. simpl in E.
  destruct (shape m) as [|r0 [|c0 [|? ?]]] eqn:Hm; try discriminate.
  exists c0. rewrite (append_rows_shape _ _ _ r0 c0 Hm E).
  rewrite <- Hrows. simpl. rewrite Hm. reflexivity.
Qed.

Section Slices.
Variables (q r : ndarray S) (n c : nat).
Hypothesis Hlen : length (data q) = n * c.
Hypothesis Hr : hd_error (shape r) = Some c.

Lemma piece_length (a ls : nat) :
  a + ls <= n ->
  length (firstn (ls * c) (skipn (a * c) (data q))) = ls * c.
Proof.
  intro H. rewrite length_firstn, length_skipn, Hlen.
  apply Nat.min_l. nia.
Qed.

(** The loop that assigns the slices writes [with_slice] at the positions
    of the group. *)
Lemma store_slices (a : nat) (refs : list nat) (bs : list block) (store : list block) :
  a + fold_right Nat.add 0 (map leading_size bs) <= n ->
  foldM (store_q r)
        (combine (pieces c (data q) a (map leading_size bs)) (combine refs bs)) store
  = Ok (fold_left (fun st rb => list_set st (fst rb) (snd rb))
          (combine refs
             (map (with_slice c)
                  (combine (pieces c (data q) a (map leading_size bs)) bs)))
          store).
Proof.
  revert a refs store. induction bs as [|b bs IH]; intros a refs store Ha.
  - simpl. destruct refs; reflexivity.
  - destruct refs as [|ref refs]; [reflexivity|].
    simpl in *. unfold store_q at 1. simpl.
    rewrite py_index_0. destruct (shape r) as [|c0 shr]; [discriminate|].
    simpl in Hr. inversion Hr; subst c0. simpl.
    unfold reshape. simpl.
    rewrite size_of_app. simpl. fold (leading_size b).
    rewrite piece_length by lia. rewrite Nat.mul_1_r, Nat.eqb_refl. simpl.
    rewrite IH by lia. reflexivity.
Qed.

(** The blocks with their slices, flattened again, are the slices. *)
Lemma flatten_slices (a : nat) (bs : list block) :
  Forall (fun b => leading_size b <> 0 /\ removelast (shape (reduced b)) <> []) bs ->
  a + fold_right Nat.add 0 (map leading_size bs) <= n ->
  mapM flatten_leading
       (map (with_slice c) (combine (pieces c (data q) a (map leading_size bs)) bs))
  = Ok (pieces c (data q) a (map leading_size bs)).
Proof.
  revert a. induction bs as [|b bs IH]; intros a Hne Ha; simpl; [reflexivity|].
  inversion Hne as [|? ? [Hb Hlead] Hne']; subst. simpl in Ha.
  rewrite IH by (assumption || lia). simpl.
  unfold flatten_leading at 1, with_slice at 1, reshape_leading. simpl.
  rewrite removelast_snoc. fold (leading_size b).
  destruct (removelast (shape (reduced b))) as [|x0 l0]; [congruence|].
  unfold reshape_rows. simpl.
  rewrite piece_length by lia.
  destruct (Nat.eqb_spec (leading_size b) 0) as [E|_]; [contradiction|].
  rewrite (Nat.mul_comm (leading_size b) c).
  rewrite Nat.Div0.mod_mul, Nat.div_mul by exact Hb. simpl. reflexivity.
Qed.

End Slices.

(** The body of the loop over the groups: for a group whose stacked
    matrix is [mat], it stores the slices of the first factor of [qr mat]
    in the blocks of the group and the second factor in the map; and the
    blocks, stacked again, are the first factor. *)
Lemma canonicalize_group_ok (store : list block) (rmap : dict L (ndarray S))
    (g : L) (refs : list nat) (bs : list block) (mat : ndarray S) :
  mapM (deref store) refs = Ok bs ->
  stacked bs = Ok mat ->
  qr_contract qr add mul zero one close mat ->
  let q := fst (qr mat) in
  let r := snd (qr mat) in
  let c := hd 0 (shape r) in
  canonicalize_group qr (store, rmap) (g, refs)
  = Ok (fold_left (fun st rb => list_set st (fst rb) (snd rb))
          (combine refs (canon_blocks q c bs)) store,
        dict_set q_eqb rmap g r) /\
  stacked (canon_blocks q c bs) = Ok q.
Proof.
  intros Hd Hst Hqr q r c. subst q r c.
  destruct (stacked_shape _ _ Hst) as (Hne & Hls & cm & Hmat).
  unfold qr_contract in Hqr. destruct (qr mat) as [q r] eqn:Eqr.
  destruct Hqr as (Hwf & _ & (n & c & p & Hq & Hr & Hm & _)).
  simpl.
  rewrite Hmat in Hm. inversion Hm; subst n p; clear Hm.
  unfold wf_array in Hwf. rewrite Hq in Hwf. simpl in Hwf.
  rewrite Nat.mul_1_r in Hwf.
  assert (Hrc : hd_error (shape r) = Some c) by (rewrite Hr; reflexivity).
  assert (Hne' : map leading_size bs <> [])
    by (destruct bs; [congruence|discriminate]).
  rewrite Hr. simpl. split.
  - unfold canonicalize_group. cbn [fst snd]. rewrite Hd. cbn [bind].
    change (map (fun b : block => size_of (removelast (shape (reduced b)))) bs)
      with (map (@leading_size L S) bs).
    rewrite (mapM_combine_map leading_size
               (fun (b : block) sh => reshape_leading (reduced b) sh)).
    change (mapM (fun x : block => reshape_leading (reduced x) (leading_size x)) bs)
      with (mapM flatten_leading bs).
    unfold stacked in Hst.
    destruct (mapM flatten_leading bs) as [ms|e]; [|discriminate].
    cbn [bind] in *. rewrite Hst. cbn [bind]. rewrite Eqr.
    unfold split_rows. rewrite Hq. unfold accumulate.
    rewrite (split_from_pieces _ q _ c 0 _ Hq Hne' eq_refl). cbn [bind].
    rewrite pieces_length, length_map, Nat.eqb_refl. cbn [negb].
    rewrite (store_slices q r _ c Hwf Hrc 0 refs bs store (Nat.le_refl _)).
    reflexivity.
  - unfold stacked, canon_blocks.
    rewrite (flatten_slices q _ c Hwf 0 bs Hls (Nat.le_refl _)). simpl.
    apply (concatenate_pieces _ q _ c _ Hq Hwf Hne' eq_refl).
Qed.

End GroupStep.

(** ** The loops of [left_canonicalize] *)

Lemma nth_error_list_set_other {T : Type} (l : list T) (k i : nat) (v : T) :
  i <> k -> nth_error (list_set l k v) i = nth_error l i.
Proof.
  revert k i. induction l as [|x l IH]; intros k i Hik; simpl.
  - destruct k; reflexivity.
  - destruct k as [|k], i as [|i]; simpl; try reflexivity; try congruence.
    apply IH. congruence.
Qed.

Lemma nth_error_list_set_same {T : Type} (l : list T) (k : nat) (v : T) :
  k < length l -> nth_error (list_set l k v) k = Some v.
Proof.
  revert k. induction l as [|x l IH]; intros k Hk; simpl in *; [lia|].
  destruct k as [|k]; simpl; [reflexivity|]. apply IH. lia.
Qed.

Section StoreFacts.
Variable T : Type.

Lemma set_all_length (G : list (nat * T)) (l : list T) :
  length (set_all l G) = length l.
Proof.
  revert l. induction G as [|kv G IH]; intro l; simpl; [reflexivity|].
  unfold set_all in *. simpl. rewrite IH. apply length_list_set.
Qed.

Lemma set_all_other (G : list (nat * T)) (l : list T) (i : nat) :
  ~ In i (map fst G) -> nth_error (set_all l G) i = nth_error l i.
Proof.
  revert l. induction G as [|[k v] G IH]; intros l Hi; simpl in *; [reflexivity|].
  unfold set_all in *. simpl. rewrite IH by tauto.
  apply nth_error_list_set_other. intro E. apply Hi. left. congruence.
Qed.

Lemma set_all_same (refs : list nat) (vs : list T) (l : list T) :
  NoDup refs -> length refs = length vs ->
  Forall (fun k => k < length l) refs ->
  map (nth_error (set_all l (combine refs vs))) refs = map Some vs.
Proof.
  revert vs l. induction refs as [|k refs IH]; intros vs l Hnd Hlen Hb;
    destruct vs as [|v vs]; simpl in *; try discriminate; [reflexivity|].
  inversion Hnd as [|? ? Hk Hnd']; subst.
  inversion Hb as [|? ? Hk0 Hb']; subst.
  unfold set_all in *. simpl. f_equal.
  - fold (set_all (list_set l k v) (combine refs vs)).
    rewrite set_all_other.
    + apply nth_error_list_set_same. exact Hk0.
    + intro Hin. apply Hk. apply in_map_iff in Hin.
      destruct Hin as ([k' v'] & E & Hin). simpl in E. subst k'.
      apply in_combine_l in Hin. exact Hin.
  - apply IH; [exact Hnd'|lia|].
    apply Forall_impl with (2 := Hb'). intros k' Hk'.
    rewrite length_list_set. exact Hk'.
Qed.

End StoreFacts.

Section Canonicalization.
Context {L : Type} `{QL : QuantumLabel L}.
Variable S : Type.
Variable qr : ndarray S -> ndarray S * ndarray S.
Variables (add mul : S -> S -> S) (zero one : S).
Variable close : S -> S -> Prop.

#[local] Abbreviation block := (SubTensor L (ndarray S)).

Lemma last_label_exists (b : block) :
  q_labels b <> [] -> exists q, py_index (q_labels b) (-1) = Ok q.
Proof.
  intro Hne. pose proof (hd_error_rev_last (q_labels b)) as H.
  destruct (hd_error (rev (q_labels b))) as [q|]; [eauto|contradiction].
Qed.

Lemma has_last_label_unique (g g' : L) (b : block) :
  has_last_label g b = true -> has_last_label g' b = true -> g = g'.
Proof.
  unfold has_last_label.
  destruct (py_index (q_labels b) (-1)) as [q|]; [|discriminate].
  destruct (q_eqb_spec q g), (q_eqb_spec q g'); congruence.
Qed.

Lemma collect_total (items : list (nat * block)) (d0 : dict L (list nat)) :
  Forall (fun ib => q_labels (snd ib) <> []) items ->
  exists d, foldM collect_step items d0 = Ok d.
Proof.
  revert d0. induction items as [|ib items IH]; intros d0 H; simpl; [eauto|].
  inversion H as [|? ? Hb H']; subst.
  destruct (last_label_exists _ Hb) as [q Hq].
  unfold collect_step at 1. rewrite Hq. simpl. apply IH. exact H'.
Qed.

Lemma collect_get (items : list (nat * block)) (d : dict L (list nat)) :
  foldM collect_step items [] = Ok d ->
  forall g, dict_get q_eqb d g
            = group_entry (map fst (filter (fun ib => has_last_label g (snd ib)) items)).
Proof.
  revert d. induction items as [|[i b] items IH] using rev_ind; intros d E g.
  - inversion E; reflexivity.
  - rewrite foldM_app in E. bind_inv E. simpl in E. bind_inv E.
    inversion E; subst; clear E. unfold collect_step in Hx0. bind_inv Hx0.
    inversion Hx0; subst; clear Hx0. simpl in *.
    rewrite (dict_get_set _ _ _ q_eqb_spec).
    rewrite filter_app, map_app. simpl. unfold has_last_label at 2. simpl.
    rewrite Hx1. rewrite (IH _ Hx x0), (IH _ Hx g).
    destruct (q_eqb_spec x0 g) as [->|Hne]; simpl.
    + rewrite group_entry_app. reflexivity.
    + rewrite app_nil_r. reflexivity.
Qed.

Lemma collect_NoDup (items : list (nat * block)) (d0 d : dict L (list nat)) :
  NoDup (dict_keys d0) ->
  foldM collect_step items d0 = Ok d -> NoDup (dict_keys d).
Proof.
  revert d0. induction items as [|ib items IH]; intros d0 H0 E; simpl in E.
  - inversion E; subst; exact H0.
  - bind_inv E. apply (IH x); [|exact E].
    unfold collect_step in Hx. bind_inv Hx. inversion Hx; subst.
    apply dict_set_NoDup; [apply q_eqb_spec|exact H0].
Qed.

Lemma refs_from_enumerate (g : L) (a : nat) (bs : list block) :
  map fst (filter (fun ib : nat * block => has_last_label g (snd ib))
                  (combine (seq a (length bs)) bs))
  = refs_from g a bs.
Proof.
  revert a. induction bs as [|b bs IH]; intro a; simpl; [reflexivity|].
  destruct (has_last_label g b); simpl; rewrite IH; reflexivity.
Qed.

Lemma refs_from_In (g : L) (a : nat) (bs : list block) (i : nat) :
  In i (refs_from g a bs) ->
  a <= i /\ i < a + length bs /\
  exists b, nth_error bs (i - a) = Some b /\ has_last_label g b = true.
Proof.
  revert a. induction bs as [|b bs IH]; intros a Hin; simpl in *; [tauto|].
  assert (Hrec : In i (refs_from g (Datatypes.S a) bs) ->
                 a <= i /\ i < a + Datatypes.S (length bs) /\
                 exists b0, nth_error (b :: bs) (i - a) = Some b0 /\
                            has_last_label g b0 = true).
  { intro H. destruct (IH _ H) as (H1 & H2 & b0 & H3 & H4).
    split; [lia|]. split; [lia|]. exists b0. split; [|exact H4].
    replace (i - a) with (Datatypes.S (i - Datatypes.S a)) by lia. exact H3. }
  destruct (has_last_label g b) eqn:E; [|auto].
  destruct Hin as [<-|Hin]; [|auto].
  split; [lia|]. split; [lia|]. exists b. rewrite Nat.sub_diag. auto.
Qed.

Lemma refs_from_NoDup (g : L) (a : nat) (bs : list block) :
  NoDup (refs_from g a bs).
Proof.
  revert a. induction bs as [|b bs IH]; intro a; simpl; [constructor|].
  destruct (has_last_label g b); [|apply IH].
  constructor; [|apply IH].
  intro Hin. apply refs_from_In in Hin. lia.
Qed.

Lemma refs_from_deref (g : L) (pre bs : list block) :
  mapM (deref (pre ++ bs)) (refs_from g (length pre) bs)
  = Ok (filter (has_last_label g) bs).
Proof.
  revert pre. induction bs as [|b bs IH]; intro pre; simpl; [reflexivity|].
  assert (Hrec : mapM (deref (pre ++ b :: bs))
                      (refs_from g (Datatypes.S (length pre)) bs)
                 = Ok (filter (has_last_label g) bs)).
  { specialize (IH (pre ++ [b])). rewrite <- app_assoc, length_app in IH.
    simpl in IH. rewrite Nat.add_1_r in IH. exact IH. }
  destruct (has_last_label g b); [|exact Hrec].
  simpl. unfold deref at 1.
  rewrite nth_error_app2, Nat.sub_diag by lia. simpl.
  rewrite Hrec. reflexivity.
Qed.

Lemma refs_from_labels (g : L) (a : nat) (bs bs' : list block) :
  map (@q_labels L (ndarray S)) bs' = map (@q_labels L (ndarray S)) bs ->
  refs_from g a bs' = refs_from g a bs.
Proof.
  revert a bs'. induction bs as [|b bs IH]; intros a [|b' bs'] E; simpl in *;
    try discriminate; [reflexivity|].
  inversion E as [[Eb Ebs]].
  unfold has_last_label. rewrite Eb.
  rewrite (IH (Datatypes.S a) bs' Ebs). reflexivity.
Qed.

Lemma deref_ext (s s' : list block) (refs : list nat) :
  (forall i, In i refs -> nth_error s' i = nth_error s i) ->
  mapM (deref s') refs = mapM (deref s) refs.
Proof.
  induction refs as [|k refs IH]; intro H; simpl; [reflexivity|].
  unfold deref at 1 3. rewrite (H k (or_introl eq_refl)).
  rewrite IH by (intros i Hi; apply H; right; exact Hi). reflexivity.
Qed.

Lemma deref_Some (s : list block) (refs : list nat) (bs : list block) :
  map (nth_error s) refs = map Some bs -> mapM (deref s) refs = Ok bs.
Proof.
  revert bs. induction refs as [|k refs IH]; intros [|b bs] E; simpl in *;
    try discriminate; [reflexivity|].
  inversion E as [[Ek Erefs]]. unfold deref at 1. rewrite Ek. simpl.
  rewrite (IH bs Erefs). reflexivity.
Qed.

Lemma deref_inv (s : list block) (refs : list nat) (bs : list block) :
  mapM (deref s) refs = Ok bs -> map (nth_error s) refs = map Some bs.
Proof.
  revert bs. induction refs as [|k refs IH]; intros bs E; simpl in E.
  - inversion E; reflexivity.
  - bind_inv E. bind_inv E. inversion E; subst; clear E.
    unfold deref in Hx. simpl.
    destruct (nth_error s k) as [b|]; [|discriminate].
    inversion Hx; subst. f_equal. apply IH. exact Hx0.
Qed.

Lemma labels_list_set (s : list block) (k : nat) (b nb : block) :
  nth_error s k = Some b -> q_labels nb = q_labels b ->
  map (@q_labels L (ndarray S)) (list_set s k nb)
  = map (@q_labels L (ndarray S)) s.
Proof.
  intros Hk Hnb. revert k Hk. induction s as [|x s IH]; intros k Hk.
  - reflexivity.
  - destruct k as [|k]; simpl in *.
    + inversion Hk; subst. rewrite Hnb. reflexivity.
    + f_equal. apply IH. exact Hk.
Qed.

Lemma labels_set_all (s : list block) (refs : list nat) (bs nbs : list block) :
  NoDup refs ->
  map (nth_error s) refs = map Some bs ->
  map (@q_labels L (ndarray S)) nbs = map (@q_labels L (ndarray S)) bs ->
  map (@q_labels L (ndarray S)) (set_all s (combine refs nbs))
  = map (@q_labels L (ndarray S)) s.
Proof.
  revert s bs nbs. induction refs as [|k refs IH]; intros s bs nbs Hnd Hd Hl;
    [reflexivity|].
  destruct bs as [|b bs]; [discriminate|].
  destruct nbs as [|nb nbs]; [discriminate|].
  simpl in *. inversion Hd as [[Hk Hrefs]]. inversion Hl as [[Hnb Hnbs]].
  inversion Hnd as [|? ? Hkn Hnd']; subst.
  unfold set_all. simpl. fold (set_all (list_set s k nb) (combine refs nbs)).
  rewrite <- (labels_list_set s k b nb Hk Hnb).
  apply IH with (bs := bs); [exact Hnd'| |exact Hnbs].
  rewrite <- Hrefs. apply map_ext_in. intros i Hi.
  apply nth_error_list_set_other. intro E. subst. contradiction.
Qed.

Lemma map_snd_combine {X Y : Type} (l1 : list X) (l2 : list Y) :
  length l1 = length l2 -> map snd (combine l1 l2) = l2.
Proof.
  revert l2. induction l1 as [|x l1 IH]; intros [|y l2] H; simpl in *;
    try discriminate; [reflexivity|].
  f_equal. apply IH. lia.
Qed.

Lemma canon_blocks_labels (q : ndarray S) (c : nat) (bs : list block) :
  map (@q_labels L (ndarray S)) (canon_blocks q c bs)
  = map (@q_labels L (ndarray S)) bs.
Proof.
  unfold canon_blocks. rewrite map_map. simpl.
  rewrite <- (map_map snd (@q_labels L (ndarray S))).
  rewrite map_snd_combine; [reflexivity|].
  rewrite pieces_length, length_map. reflexivity.
Qed.

Lemma canon_blocks_length (q : ndarray S) (c : nat) (bs : list block) :
  length (canon_blocks q c bs) = length bs.
Proof.
  rewrite <- (length_map (@q_labels L (ndarray S))), canon_blocks_labels.
  apply length_map.
Qed.

(** What the loop finds of a group in the original blocks, and what it
    leaves of it. *)
Let good (orig : list block) (grp : L * list nat) : Prop :=
  snd grp = refs_from (fst grp) 0 orig /\
  exists mat, stacked (group_of (fst grp) orig) = Ok mat /\
              qr_contract qr add mul zero one close mat.

Let finished (orig store' : list block) (rmap' : dict L (ndarray S))
    (grp : L * list nat) : Prop :=
  exists mat,
    stacked (group_of (fst grp) orig) = Ok mat /\
    mapM (deref store') (snd grp)
    = Ok (canon_blocks (fst (qr mat)) (hd 0 (shape (snd (qr mat))))
            (group_of (fst grp) orig)) /\
    dict_get q_eqb rmap' (fst grp) = Some (snd (qr mat)).

Lemma groups_disjoint (orig : list block) (g g' : L) (i : nat) :
  g <> g' -> In i (refs_from g 0 orig) -> ~ In i (refs_from g' 0 orig).
Proof.
  intros Hne Hi Hi'.
  apply refs_from_In in Hi, Hi'.
  destruct Hi as (_ & _ & b & Hb & Hg), Hi' as (_ & _ & b' & Hb' & Hg').
  rewrite Hb in Hb'. inversion Hb'; subst b'.
  apply Hne. eapply has_last_label_unique; eassumption.
Qed.

Lemma canonicalize_groups (orig : list block) (Gs : list (L * list nat))
    (store : list block) (rmap : dict L (ndarray S)) :
  NoDup (map fst Gs) ->
  Forall (good orig) Gs ->
  length store = length orig ->
  map (@q_labels L (ndarray S)) store = map (@q_labels L (ndarray S)) orig ->
  (forall i, In i (concat (map snd Gs)) -> nth_error store i = nth_error orig i) ->
  exists store' rmap',
    foldM (canonicalize_group qr) Gs (store, rmap) = Ok (store', rmap') /\
    length store' = length orig /\
    map (@q_labels L (ndarray S)) store' = map (@q_labels L (ndarray S)) orig /\
    (forall i, ~ In i (concat (map snd Gs)) -> nth_error store' i = nth_error store i) /\
    (forall g', ~ In g' (map fst Gs) ->
                dict_get q_eqb rmap' g' = dict_get q_eqb rmap g') /\
    Forall (finished orig store' rmap') Gs.
Proof.
  revert store rmap.
  induction Gs as [|[g refs] Gs IH]; intros store rmap Hnd Hgood Hlen Hlab Hun.
  - exists store, rmap. simpl. repeat split; auto.
  - inversion Hnd as [|? ? Hg Hnd']; subst.
    inversion Hgood as [|? ? [Hrefs (mat & Hst & Hqr)] Hgood']; subst.
    simpl in Hrefs, Hst. subst refs.
    set (refs := refs_from g 0 orig) in *.
    set (bs := group_of g orig) in *.
    assert (Hd : mapM (deref store) refs = Ok bs).
    { rewrite (deref_ext orig store refs).
      - exact (refs_from_deref g [] orig).
      - intros i Hi. apply Hun. simpl. apply in_or_app. left. exact Hi. }
    destruct (canonicalize_group_ok S qr add mul zero one close
                store rmap g refs bs mat Hd Hst Hqr) as [Hstep _].
    set (q := fst (qr mat)) in *. set (r := snd (qr mat)) in *.
    set (nbs := canon_blocks q (hd 0 (shape r)) bs) in *.
    assert (Hrl : length refs = length bs)
      by (symmetry; apply (mapM_length _ _ _ Hd)).
    assert (Hnl : length refs = length nbs)
      by (unfold nbs; rewrite canon_blocks_length; exact Hrl).
    assert (Hb : Forall (fun k => k < length store) refs).
    { apply Forall_forall. intros k Hk. apply refs_from_In in Hk.
      rewrite Hlen. lia. }
    pose proof (refs_from_NoDup g 0 orig) as Hrnd. fold refs in Hrnd.
    assert (Hother : forall i, ~ In i refs ->
              nth_error (set_all store (combine refs nbs)) i = nth_error store i).
    { intros i Hi. apply set_all_other. intro Hin. apply Hi.
      apply in_map_iff in Hin. destruct Hin as ([k v] & E & Hin).
      simpl in E. subst k. apply in_combine_l in Hin. exact Hin. }
    assert (Htail : forall i, In i (concat (map snd Gs)) -> ~ In i refs).
    { intros i Hi Hir. apply in_concat in Hi. destruct Hi as (refs' & Hr' & Hi).
      apply in_map_iff in Hr'. destruct Hr' as ([g' refs''] & E & Hin).
      simpl in E. subst refs''.
      rewrite Forall_forall in Hgood'. destruct (Hgood' _ Hin) as [E' _].
      simpl in E'. subst refs'.
      apply (groups_disjoint orig g g' i); [|exact Hir|exact Hi].
      intro E. subst g'. apply Hg.
      change g with (fst (g, refs_from g 0 orig)). apply in_map. exact Hin. }
    destruct (IH (set_all store (combine refs nbs)) (dict_set q_eqb rmap g r))
      as (store' & rmap' & Hfold & Hlen' & Hlab' & Hframe & Hrm & Hfin).
    + exact Hnd'.
    + exact Hgood'.
    + rewrite set_all_length. exact Hlen.
    + rewrite (labels_set_all store refs bs nbs Hrnd (deref_inv _ _ _ Hd)).
      * exact Hlab.
      * apply canon_blocks_labels.
    + intros i Hi. rewrite (Hother i (Htail i Hi)).
      apply Hun. simpl. apply in_or_app. right. exact Hi.
    + exists store', rmap'. simpl. rewrite Hstep. simpl.
      split; [exact Hfold|]. split; [exact Hlen'|]. split; [exact Hlab'|].
      split; [|split].
      * intros i Hi. rewrite Hframe.
        -- apply Hother. intro H. apply Hi, in_or_app. left. exact H.
        -- intro H. apply Hi, in_or_app. right. exact H.
      * intros g' Hg'. rewrite Hrm by tauto.
        rewrite (dict_get_set _ _ _ q_eqb_spec).
        destruct (q_eqb_spec g g'); [tauto|reflexivity].
      * constructor; [|exact Hfin].
        exists mat. simpl. split; [exact Hst|]. split.
        -- rewrite (deref_ext (set_all store (combine refs nbs)) store' refs).
           ++ apply deref_Some. apply set_all_same; assumption.
           ++ intros i Hi. apply Hframe. intro H. exact (Htail i H Hi).
        -- rewrite Hrm by exact Hg.
           rewrite (dict_get_set _ _ _ q_eqb_spec).
           destruct (q_eqb_spec g g); [reflexivity|congruence].
Qed.

(** C6. On a collection whose blocks have at least one leg and whose
    groups stack to matrices on which [np.linalg.qr] keeps its promise,
    [left_canonicalize] returns; the labels and the tag are unchanged; and
    for every boundary label [g], with [mat] the stacked matrix of the group
    before the call: the updated blocks of the group, flattened over their
    leading legs and stacked row-wise, are exactly the first factor of
    [qr mat], which is column-orthonormal up to the tolerance, and the
    carry matrix of [g] is exactly the second factor, whose product with
    the stacked updated blocks is [mat] up to the tolerance. *)
Theorem left_canonicalize_orthonormal (self : SparseTensor L (ndarray S)) :
  Forall (fun b : block => q_labels b <> []) (blocks self) ->
  (forall g, group_of g (blocks self) <> [] ->
     exists mat, stacked (group_of g (blocks self)) = Ok mat /\
                 qr_contract qr add mul zero one close mat) ->
  exists t' r_blocks_map,
    left_canonicalize qr self = Ok (t', r_blocks_map) /\
    map (@q_labels L (ndarray S)) (blocks t')
    = map (@q_labels L (ndarray S)) (blocks self) /\
    ftype t' = ftype self /\
    forall g, group_of g (blocks self) <> [] ->
      exists mat Qm R,
        stacked (group_of g (blocks self)) = Ok mat /\
        qr mat = (Qm, R) /\
        stacked (group_of g (blocks t')) = Ok Qm /\
        dict_get q_eqb r_blocks_map g = Some R /\
        col_orthonormal add mul zero one close Qm /\
        product_is add mul zero close Qm R mat.
Proof.
  intros Hlab Hqr. set (orig := blocks self).
  assert (Hitems : Forall (fun ib : nat * block => q_labels (snd ib) <> [])
                          (enumerate orig)).
  { apply Forall_forall. intros [i b] Hin. simpl.
    apply in_combine_r in Hin. rewrite Forall_forall in Hlab. apply Hlab, Hin. }
  destruct (collect_total _ [] Hitems) as [d Hd].
  pose proof (collect_get _ _ Hd) as Hget.
  pose proof (collect_NoDup _ [] _ (NoDup_nil _) Hd) as Hnd.
  assert (Hrefs : forall g, dict_get q_eqb d g = group_entry (refs_from g 0 orig)).
  { intro g. rewrite Hget. unfold enumerate. rewrite refs_from_enumerate.
    reflexivity. }
  assert (Hderef : forall g, mapM (deref orig) (refs_from g 0 orig)
                             = Ok (group_of g orig))
    by (intro g; exact (refs_from_deref g [] orig)).
  assert (Hgood : Forall (good orig) d).
  { apply Forall_forall. intros [g refs] Hin.
    apply (dict_In_get _ _ _ q_eqb_spec _ _ _ Hnd) in Hin.
    rewrite Hrefs in Hin.
    destruct (refs_from g 0 orig) as [|k ks] eqn:Er; [discriminate|].
    inversion Hin; subst refs. split; [simpl; symmetry; exact Er|]. simpl.
    apply Hqr. intro Hnil. specialize (Hderef g).
    fold orig in Hnil. rewrite Er, Hnil in Hderef.
    apply mapM_length in Hderef. discriminate. }
  destruct (canonicalize_groups orig d orig [] Hnd Hgood eq_refl eq_refl
              (fun i _ => eq_refl))
    as (store' & rmap' & Hfold & Hlen' & Hlab' & _ & _ & Hfin).
  exists (with_blocks self store'), rmap'.
  split.
  { unfold left_canonicalize, collect_rows.
    change (blocks self) with orig. rewrite Hd. cbn [bind].
    refine (eq_trans
              (f_equal (fun x => bind x (fun st => Ok (with_blocks self (fst st), snd st)))
                       Hfold) _).
    reflexivity. }
  split; [exact Hlab'|]. split; [reflexivity|].
  intros g Hg. destruct (Hqr g Hg) as (mat & Hst & Hc).
  fold orig in Hst, Hg.
  assert (Hne : refs_from g 0 orig <> []).
  { intro Hnil. specialize (Hderef g). rewrite Hnil in Hderef.
    simpl in Hderef. inversion Hderef as [E]. symmetry in E. contradiction. }
  assert (Hin : In (g, refs_from g 0 orig) d).
  { apply (dict_get_In _ _ _ q_eqb_spec). rewrite Hrefs.
    destruct (refs_from g 0 orig); [congruence|reflexivity]. }
  rewrite Forall_forall in Hfin.
  destruct (Hfin _ Hin) as (mat' & Hst' & Hd' & Hr'). simpl in Hst', Hd', Hr'.
  rewrite Hst in Hst'. inversion Hst'; subst mat'; clear Hst'.
  destruct (canonicalize_group_ok S qr add mul zero one close
              orig [] g _ _ mat (Hderef g) Hst Hc) as [_ Hstack].
  exists mat, (fst (qr mat)), (snd (qr mat)).
  split; [exact Hst|]. split; [apply surjective_pairing|].
  split; [|split; [exact Hr'|]].
  - simpl.
    pose proof (refs_from_deref g [] store') as Hs. simpl in Hs.
    rewrite (refs_from_labels g 0 orig store' Hlab') in Hs.
    rewrite Hd' in Hs. inversion Hs as [E]. unfold group_of at 1.
    rewrite <- E. exact Hstack.
  - unfold qr_contract in Hc. destruct (qr mat) as [q r]. simpl. tauto.
Qed.

End Canonicalization.

Lemma isometry_example_contract (g : Z) :
  group_of g (blocks isometry_example) <> [] ->
  exists mat,
    stacked (group_of g (blocks isometry_example)) = Ok mat /\
    qr_contract qr_of_isometry Z.add Z.mul 0%Z 1%Z eq mat.
Proof.
  intro Hne.
  destruct (Z.eq_dec g 5) as [E5|N5]; [|destruct (Z.eq_dec g 7) as [E7|N7]].
  - subst g. exists (mkArray [2; 2] [1; 0; 0; 1]%Z). split; [reflexivity|].
    unfold qr_contract. simpl. split; [reflexivity|]. split.
    + exists 2, 2. split; [reflexivity|].
      intros [|[|i]] [|[|j]] Hi Hj; try lia; reflexivity.
    + exists 2, 2, 2. repeat split.
      intros [|[|i]] [|[|j]] Hi Hj; try lia; reflexivity.
  - subst g. exists (mkArray [1; 1] [1]%Z). split; [reflexivity|].
    unfold qr_contract. simpl. split; [reflexivity|]. split.
    + exists 1, 1. split; [reflexivity|].
      intros [|i] [|j] Hi Hj; try lia; reflexivity.
    + exists 1, 1, 1. repeat split.
      intros [|i] [|j] Hi Hj; try lia; reflexivity.
  - exfalso. apply Hne. unfold group_of. apply filter_none.
    intros b [<-|[<-|[<-|[]]]].
    + change ((5 =? g)%Z = false). apply Z.eqb_neq. congruence.
    + change ((7 =? g)%Z = false). apply Z.eqb_neq. congruence.
    + change ((5 =? g)%Z = false). apply Z.eqb_neq. congruence.
Qed.

Lemma left_canonicalize_orthonormal_witness :
  exists t' r_blocks_map Qm R,
    left_canonicalize qr_of_isometry isometry_example = Ok (t', r_blocks_map) /\
    stacked (group_of 5%Z (blocks t')) = Ok Qm /\
    dict_get q_eqb r_blocks_map 5%Z = Some R /\
    col_orthonormal Z.add Z.mul 0%Z 1%Z eq Qm /\
    product_is Z.add Z.mul 0%Z eq Qm R (mkArray [2; 2] [1; 0; 0; 1]%Z).
Proof.
  assert (Hlab : Forall (fun b : SubTensor Z (ndarray Z) => q_labels b <> [])
                        (blocks isometry_example))
    by (repeat constructor; discriminate).
  destruct (left_canonicalize_orthonormal Z qr_of_isometry Z.add Z.mul 0%Z 1%Z eq
              isometry_example Hlab isometry_example_contract)
    as (t' & rmap & Hrun & _ & _ & Hgroups).
  assert (H5 : group_of 5%Z (blocks isometry_example) <> []) by discriminate.
  destruct (Hgroups 5%Z H5) as (mat & Qm & R & Hst & _ & Hnew & Hr & Ho & Hp).
  inversion Hst; subst mat.
  exists t', rmap, Qm, R. auto.
Defined.

(** * Further properties *)

(** ** More on [truncate_singular_values] *)

Lemma filter_length_perm {X : Type} (p : X -> bool) (l l' : list X) :
  Permutation l l' -> length (filter p l) = length (filter p l').
Proof.
  induction 1 as [|x l1 l2 _ IH|x y l|l1 l2 l3 _ IH1 _ IH2]; simpl.
  - reflexivity.
  - destruct (p x); simpl; congruence.
  - destruct (p x), (p y); reflexivity.
  - congruence.
Qed.

Lemma map_nth_seq {X : Type} (d : X) (l : list X) :
  map (fun i => nth i l d) (seq 0 (length l)) = l.
Proof.
  pose proof (enumerate_nth d l) as H. unfold enumerate in H.
  apply (f_equal (map snd)) in H.
  rewrite map_map in H. simpl in H. rewrite <- H.
  apply map_snd_combine. apply length_seq.
Qed.

Lemma all_triples_values (svd_s : list (list Q)) :
  map t_value (all_triples svd_s) = concat svd_s.
Proof.
  unfold all_triples, enumerate.
  assert (H : forall a,
    map t_value
      (flat_map (fun ip : nat * list Q =>
                   map (fun jv : nat * Q => (fst ip, fst jv, snd jv))
                       (combine (seq 0 (length (snd ip))) (snd ip)))
                (combine (seq a (length svd_s)) svd_s))
    = concat svd_s).
  { induction svd_s as [|ps svd_s IH]; intro a; simpl; [reflexivity|].
    rewrite map_app, IH. f_equal.
    rewrite map_map. unfold t_value. simpl.
    apply map_snd_combine. apply length_seq. }
  apply H.
Qed.

Lemma list_sum_map_plus {X : Type} (f g : X -> nat) (l : list X) :
  list_sum (map (fun x => f x + g x) l) = list_sum (map f l) + list_sum (map g l).
Proof. induction l as [|x l IH]; simpl; [reflexivity|]. rewrite IH. lia. Qed.

Lemma list_sum_indicator (k a n : nat) :
  list_sum (map (fun i => if k =? i then 1 else 0) (seq a n))
  = if (a <=? k) && (k <? a + n) then 1 else 0.
Proof.
  revert a. induction n as [|n IH]; intro a; simpl.
  - destruct (Nat.leb_spec a k), (Nat.ltb_spec k (a + 0)); simpl; try reflexivity; lia.
  - rewrite IH.
    destruct (Nat.eqb_spec k a), (Nat.leb_spec a k), (Nat.leb_spec (S a) k),
      (Nat.ltb_spec k (a + S n)), (Nat.ltb_spec k (S a + n)); simpl; try reflexivity; lia.
Qed.

Lemma count_by_key {X : Type} (key : X -> nat) (n : nat) (l : list X) :
  Forall (fun x => key x < n) l ->
  list_sum (map (fun i => length (filter (fun x => key x =? i) l)) (seq 0 n))
  = length l.
Proof.
  induction 1 as [|x l Hx _ IH]; simpl.
  - induction (seq 0 n); simpl; auto.
  - rewrite <- IH.
    rewrite (map_ext _ (fun i => (if key x =? i then 1 else 0)
                                 + length (filter (fun y => key y =? i) l))).
    + rewrite list_sum_map_plus, list_sum_indicator. simpl.
      destruct (Nat.ltb_spec (key x) n); [reflexivity|lia].
    + intro i. destruct (key x =? i); reflexivity.
Qed.

Lemma length_py_prefix {X : Type} (l : list X) (k : Z) :
  length (py_prefix l k)
  = if (0 <=? k)%Z then Nat.min (Z.to_nat k) (length l)
    else length l - Z.to_nat (- k).
Proof.
  unfold py_prefix. destruct (0 <=? k)%Z; rewrite length_firstn; lia.
Qed.

Lemma length_ss_trunc (svd_s : list (list Q)) (k : Z) (cutoff : Q) :
  length (ss_trunc svd_s k cutoff)
  = let n := count_above svd_s cutoff in
    if (k =? -1)%Z then n
    else if (0 <=? k)%Z then Nat.min (Z.to_nat k) n
    else n - Z.to_nat (- k).
Proof.
  assert (Hn : length (filter (fun x => Qle_bool cutoff (t_value x)) (sorted_triples svd_s))
               = count_above svd_s cutoff).
  { rewrite (filter_length_perm _ _ _ (sorted_triples_perm svd_s)).
    unfold count_above. rewrite <- all_triples_values, filter_map_swap, length_map.
    reflexivity. }
  unfold ss_trunc. cbv zeta.
  destruct (k =? -1)%Z; simpl; [exact Hn|].
  rewrite length_py_prefix, Hn. reflexivity.
Qed.

Lemma kept_count_length (svd_s : list (list Q)) (k : Z) (cutoff : Q) :
  kept_count (ts_gls (truncate_loops svd_s k cutoff))
  = length (ss_trunc svd_s k cutoff).
Proof.
  unfold kept_count.
  set (gls := ts_gls (truncate_loops svd_s k cutoff)).
  rewrite <- (map_nth_seq None gls) at 1.
  rewrite map_map.
  unfold gls at 2. rewrite (proj1 (truncate_loops_length svd_s k cutoff)).
  rewrite <- (Permutation_length (ss_trunc_sorted_perm svd_s k cutoff)).
  rewrite <- (count_by_key t_group (length svd_s) (ss_trunc_sorted svd_s k cutoff)).
  - f_equal. apply map_ext_in. intros i Hi. apply in_seq in Hi.
    unfold gls. rewrite (proj1 (truncate_loops_gls svd_s k cutoff i ltac:(lia))).
    rewrite groups_get.
    destruct (filter _ _); simpl; [reflexivity|]. rewrite length_map. reflexivity.
  - apply Forall_forall. intros e He. apply st2_incl, In_all_triples in He. tauto.
Qed.

(** X1. The number of values that [truncate_singular_values] keeps, over
    all groups: with [n] the number of singular values that are at least
    [cutoff], it keeps [n] of them for [k = -1], [min k n] for a bound [k]
    that is not negative, and [n - |k|], or none, for [k < -1]. *)
Theorem truncate_kept_count (svd_s : list (list Q)) (k : Z) (cutoff : Q) :
  kept_count (snd (fst (truncate_singular_values svd_s k cutoff)))
  = let n := count_above svd_s cutoff in
    if (k =? -1)%Z then n
    else if (0 <=? k)%Z then Nat.min (Z.to_nat k) n
    else n - Z.to_nat (- k).
Proof.
  unfold truncate_singular_values. cbv zeta. cbn [fst snd].
  rewrite kept_count_length. apply length_ss_trunc.
Qed.

(** ** Order of the kept indices *)

Lemma StronglySorted_filter {X : Type} (R : X -> X -> Prop) (p : X -> bool) (l : list X) :
  StronglySorted R l -> StronglySorted R (filter p l).
Proof.
  induction 1 as [|x l Hl IH Hx]; simpl; [constructor|].
  destruct (p x); [|exact IH].
  constructor; [exact IH|].
  apply Forall_forall. intros y Hy. apply filter_In in Hy.
  rewrite Forall_forall in Hx. apply Hx. tauto.
Qed.

Lemma StronglySorted_map_lt {X : Type} (R : X -> X -> Prop) (f : X -> nat) (l : list X) :
  StronglySorted R l -> NoDup l ->
  (forall x y, In x l -> In y l -> R x y -> x <> y -> f x < f y) ->
  StronglySorted lt (map f l).
Proof.
  induction 1 as [|x l Hl IH Hx]; intros Hnd Hf; simpl; [constructor|].
  inversion Hnd as [|? ? Hnin Hnd']; subst.
  constructor.
  - apply IH; [exact Hnd'|]. intros a b Ha Hb. apply Hf; right; assumption.
  - apply Forall_forall. intros j Hj. apply in_map_iff in Hj.
    destruct Hj as (y & <- & Hy). rewrite Forall_forall in Hx.
    apply Hf; [left; reflexivity|right; exact Hy|apply Hx; exact Hy|].
    intro E. subst y. contradiction.
Qed.

Lemma ss_trunc_NoDup (svd_s : list (list Q)) (k : Z) (cutoff : Q) :
  NoDup (ss_trunc svd_s k cutoff).
Proof.
  unfold ss_trunc. cbv zeta.
  assert (Ha : NoDup (filter (fun x => Qle_bool cutoff (t_value x)) (sorted_triples svd_s)))
    by (apply NoDup_filter, sorted_triples_NoDup).
  destruct (negb (k =? -1)%Z); [|exact Ha].
  unfold py_prefix. destruct (0 <=? k)%Z; apply NoDup_firstn; exact Ha.
Qed.

(** The survivors of one group, in the order of the second sort: their
    indices ascend strictly. *)
Lemma group_indices_sorted (svd_s : list (list Q)) (k : Z) (cutoff : Q) (i : nat) :
  StronglySorted lt
    (map t_index (filter (fun e => t_group e =? i) (ss_trunc_sorted svd_s k cutoff))).
Proof.
  set (st2 := ss_trunc_sorted svd_s k cutoff).
  assert (Hs : StronglySorted
                 (fun x y => pair_ltb (t_group y, t_index y) (t_group x, t_index x) = false)
                 st2).
  { unfold st2, ss_trunc_sorted.
    apply (sort_by_sorted _ _ (fun x : triple => (t_group x, t_index x)) pair_ltb
             pair_ltb_asym pair_ltb_trans). }
  assert (Hnd : NoDup st2).
  { apply (Permutation_NoDup (Permutation_sym (ss_trunc_sorted_perm svd_s k cutoff))).
    apply ss_trunc_NoDup. }
  apply StronglySorted_map_lt
    with (R := fun x y => pair_ltb (t_group y, t_index y) (t_group x, t_index x) = false).
  - apply StronglySorted_filter. exact Hs.
  - apply NoDup_filter. exact Hnd.
  - intros x y Hx Hy Hxy Hne.
    apply filter_In in Hx. apply filter_In in Hy.
    destruct Hx as [Hx Gx]. destruct Hy as [Hy Gy].
    apply Nat.eqb_eq in Gx. apply Nat.eqb_eq in Gy.
    apply pair_ltb_false in Hxy. simpl in Hxy.
    assert (Hle : t_index x <= t_index y) by lia.
    destruct (Nat.eq_dec (t_index x) (t_index y)) as [E|E]; [|lia].
    exfalso. apply Hne.
    apply (all_triples_position svd_s x y); try congruence;
      apply (st2_incl svd_s k cutoff); assumption.
Qed.

Lemma group_indices_bound (svd_s : list (list Q)) (k : Z) (cutoff : Q) (i : nat) :
  Forall (fun j => j < length (nth i svd_s []))
    (map t_index (filter (fun e => t_group e =? i) (ss_trunc_sorted svd_s k cutoff))).
Proof.
  apply Forall_forall. intros j Hj. apply in_map_iff in Hj.
  destruct Hj as (e & <- & He). apply filter_In in He. destruct He as [He Hg].
  apply Nat.eqb_eq in Hg. apply st2_incl, In_all_triples in He.
  rewrite Hg in He. tauto.
Qed.

Lemma gls_entry (svd_s : list (list Q)) (k : Z) (cutoff : Q) (i : nat) :
  nth i (ts_gls (truncate_loops svd_s k cutoff)) None
  = option_map (fun g => map t_index g)
      (group_entry (filter (fun e => t_group e =? i) (ss_trunc_sorted svd_s k cutoff))) /\
  nth i (ts_svd_r (truncate_loops svd_s k cutoff)) None
  = option_map (fun g => take (nth i svd_s []) (map t_index g))
      (group_entry (filter (fun e => t_group e =? i) (ss_trunc_sorted svd_s k cutoff))).
Proof.
  destruct (Nat.lt_ge_cases i (length svd_s)) as [Hi|Hi].
  - destruct (truncate_loops_gls svd_s k cutoff i Hi) as [H1 H2].
    rewrite H1, H2, groups_get. split; reflexivity.
  - destruct (truncate_loops_length svd_s k cutoff) as [L1 L2].
    rewrite !nth_overflow by lia.
    assert (Hnil : filter (fun e => t_group e =? i) (ss_trunc_sorted svd_s k cutoff) = []).
    { apply filter_none. intros e He. apply st2_incl, In_all_triples in He.
      apply Nat.eqb_neq. lia. }
    rewrite Hnil. split; reflexivity.
Qed.

(** X2. The kept indices of a group are not empty, ascend strictly and are
    indices of the group; [svd_r] holds the values in this order. *)
Theorem truncate_indices_ascending (svd_s : list (list Q)) (k : Z) (cutoff : Q)
    (i : nat) (gl : list nat) :
  nth i (snd (fst (truncate_singular_values svd_s k cutoff))) None = Some gl ->
  gl <> [] /\ StronglySorted lt gl /\
  Forall (fun j => j < length (nth i svd_s [])) gl /\
  nth i (fst (fst (truncate_singular_values svd_s k cutoff))) None
  = Some (take (nth i svd_s []) gl).
Proof.
  unfold truncate_singular_values. cbv zeta. cbn [fst snd].
  destruct (gls_entry svd_s k cutoff i) as [H1 H2]. rewrite H1, H2.
  pose proof (group_indices_sorted svd_s k cutoff i) as Hs.
  pose proof (group_indices_bound svd_s k cutoff i) as Hb.
  destruct (filter (fun e => t_group e =? i) (ss_trunc_sorted svd_s k cutoff))
    as [|e l]; simpl; [discriminate|].
  intro E. inversion E; subst gl; clear E.
  split; [discriminate|]. split; [exact Hs|]. split; [exact Hb|reflexivity].
Qed.

Lemma truncate_indices_ascending_witness :
  [0; 1] <> [] /\ StronglySorted lt [0; 1] /\
  Forall (fun j => j < 3) [0; 1] /\
  nth 0 (fst (fst (truncate_singular_values [[5; 3; 1]; [4; 2]]%Q 3 0%Q))) None
  = Some [5; 3]%Q.
Proof.
  exact (truncate_indices_ascending [[5; 3; 1]; [4; 2]]%Q 3 0%Q 0 [0; 1] eq_refl).
Defined.

(** ** Conservation of the squares *)

Lemma take_app (a : list Q) (l1 l2 : list nat) :
  take a (l1 ++ l2) = take a l1 ++ take a l2.
Proof. unfold take. apply map_app. Qed.

Lemma norm_sq_perm (a : list Q) (l1 l2 : list nat) :
  Permutation l1 l2 -> norm_sq (take a l1) = norm_sq (take a l2).
Proof.
  intro H. unfold norm_sq. rewrite !Q2R_sum_sq. apply Rsum_perm.
  unfold take. apply Permutation_map, Permutation_map. exact H.
Qed.

Lemma norm_sq_app (a b : list Q) : norm_sq (a ++ b) = (norm_sq a + norm_sq b)%R.
Proof. unfold norm_sq. rewrite !Q2R_sum_sq, map_app, Rsum_app. reflexivity. Qed.

(** The kept indices and the others split the array. *)
Lemma norm_sq_split (ps : list Q) (gl : list nat) :
  NoDup gl -> Forall (fun j => j < length ps) gl ->
  (norm_sq (take ps gl)
   + norm_sq (take ps (filter (fun j => negb (existsb (Nat.eqb j) gl))
                              (seq 0 (length ps)))))%R
  = norm_sq ps.
Proof.
  intros Hnd Hb.
  rewrite <- norm_sq_app, <- take_app.
  transitivity (norm_sq (take ps (seq 0 (length ps))));
    [|rewrite take_all; reflexivity].
  apply norm_sq_perm. apply NoDup_Permutation.
  - apply NoDup_app; [exact Hnd|apply NoDup_filter, seq_NoDup|].
    intros j Hj Hf. apply filter_In in Hf. destruct Hf as [_ Hf].
    apply negb_true_iff in Hf.
    assert (Ht : existsb (Nat.eqb j) gl = true)
      by (apply existsb_exists; exists j; split; [exact Hj|apply Nat.eqb_refl]).
    congruence.
  - apply seq_NoDup.
  - intro j. rewrite in_app_iff, filter_In, in_seq. split.
    + intros [Hj|[Hj _]]; [|lia].
      rewrite Forall_forall in Hb. specialize (Hb j Hj). lia.
    + intro Hj.
      destruct (existsb (Nat.eqb j) gl) eqn:Ej.
      * left. apply existsb_exists in Ej. destruct Ej as (j' & Hin & E).
        apply Nat.eqb_eq in E. subst. exact Hin.
      * right. split; [lia|reflexivity].
Qed.

Lemma total_sq_groups (svd_s : list (list Q)) :
  total_sq svd_s
  = Rsum (map (fun i => norm_sq (nth i svd_s [])) (seq 0 (length svd_s))).
Proof.
  unfold total_sq. rewrite <- (map_nth_seq [] svd_s) at 1.
  rewrite map_map. reflexivity.
Qed.

(** X3. The squares of the kept values and the square of the error add up
    to the squares of all the values. *)
Theorem truncate_conserves_squares (svd_s : list (list Q)) (k : Z) (cutoff : Q) :
  let res := truncate_singular_values svd_s k cutoff in
  (kept_sq (fst (fst res)) + snd res * snd res)%R = total_sq svd_s.
Proof.
  cbv zeta. rewrite truncate_error_eq.
  rewrite sqrt_sqrt by apply sum_squares_nonneg.
  unfold truncate_singular_values. cbv zeta. cbn [fst snd].
  unfold discarded. rewrite all_triples_groups, sum_squares_flat_map.
  rewrite total_sq_groups. unfold kept_sq.
  set (svd_r := ts_svd_r (truncate_loops svd_s k cutoff)).
  rewrite <- (map_nth_seq None svd_r) at 1. rewrite map_map.
  unfold svd_r at 2. rewrite (proj2 (truncate_loops_length svd_s k cutoff)).
  rewrite Rsum_map_plus. f_equal. apply map_ext. intro i.
  rewrite group_discarded.
  destruct (gls_entry svd_s k cutoff i) as [H1 H2]. unfold svd_r. rewrite H1, H2.
  pose proof (group_indices_sorted svd_s k cutoff i) as Hs.
  pose proof (group_indices_bound svd_s k cutoff i) as Hb.
  destruct (filter (fun e => t_group e =? i) (ss_trunc_sorted svd_s k cutoff))
    as [|e l]; cbn [group_entry option_map].
  - unfold norm_sq. lra.
  - apply norm_sq_split; [apply StronglySorted_lt_NoDup; exact Hs|exact Hb].
Qed.

(** ** The cutoff *)

Lemma filter_length_le {X : Type} (p1 p2 : X -> bool) (l : list X) :
  (forall x, p2 x = true -> p1 x = true) ->
  length (filter p2 l) <= length (filter p1 l).
Proof.
  intro H. induction l as [|x l IH]; simpl; [lia|].
  destruct (p2 x) eqn:E2.
  - rewrite (H x E2). simpl. lia.
  - destruct (p1 x); simpl; lia.
Qed.

(** The survivors, as a prefix of the sorted entries. *)
Lemma ss_trunc_prefix (svd_s : list (list Q)) (k : Z) (cutoff : Q) :
  ss_trunc svd_s k cutoff
  = firstn (length (ss_trunc svd_s k cutoff)) (sorted_triples svd_s).
Proof.
  pose proof (above_cutoff_prefix svd_s cutoff) as Hp. cbv zeta in Hp.
  unfold ss_trunc. cbv zeta.
  set (above := filter (fun x => Qle_bool cutoff (t_value x)) (sorted_triples svd_s)) in *.
  destruct (negb (k =? -1)%Z); [|exact Hp].
  unfold py_prefix.
  assert (H : forall m, firstn m above
                        = firstn (Nat.min m (length above)) (sorted_triples svd_s)).
  { intro m. rewrite <- firstn_firstn, <- Hp. reflexivity. }
  unfold py_prefix.
  destruct (0 <=? k)%Z; rewrite length_firstn; apply H.
Qed.

Lemma ss_trunc_cutoff_mono (svd_s : list (list Q)) (k : Z) (c1 c2 : Q) (e : triple) :
  (c1 <= c2)%Q ->
  In e (ss_trunc svd_s k c2) -> In e (ss_trunc svd_s k c1).
Proof.
  intro Hc.
  rewrite (ss_trunc_prefix svd_s k c1), (ss_trunc_prefix svd_s k c2).
  apply In_firstn_le.
  rewrite !length_ss_trunc. cbv zeta.
  assert (Hn : count_above svd_s c2 <= count_above svd_s c1).
  { unfold count_above. apply filter_length_le. intros v Hv.
    apply Qle_bool_iff. apply Qle_bool_iff in Hv.
    apply Qle_trans with (y := c2); assumption. }
  destruct (k =? -1)%Z; [exact Hn|].
  destruct (0 <=? k)%Z; lia.
Qed.

Lemma discarded_le (svd_s : list (list Q)) (ka kb : Z) (ca cb : Q) :
  (forall e, In e (ss_trunc svd_s ka ca) -> In e (ss_trunc svd_s kb cb)) ->
  (snd (truncate_singular_values svd_s kb cb)
   <= snd (truncate_singular_values svd_s ka ca))%R.
Proof.
  intros Hincl. rewrite !truncate_error_eq.
  apply sqrt_le_1_alt. unfold discarded.
  apply sum_squares_filter_le. intros e He Hn.
  apply negb_true_iff in Hn. apply negb_true_iff.
  destruct (is_kept (ts_gls (truncate_loops svd_s ka ca)) e) eqn:Ek;
    [|reflexivity].
  apply (is_kept_iff svd_s ka ca e He) in Ek.
  apply Hincl in Ek.
  apply (is_kept_iff svd_s kb cb e He) in Ek. congruence.
Qed.

(** X4. A larger cutoff never gives a smaller error and never keeps a value
    that the smaller cutoff drops, for every bound [k]. *)
Theorem truncation_error_cutoff_monotone (svd_s : list (list Q)) (k : Z) (c1 c2 : Q) :
  (c1 <= c2)%Q ->
  (snd (truncate_singular_values svd_s k c1)
   <= snd (truncate_singular_values svd_s k c2))%R /\
  (forall i j,
     kept_at (snd (fst (truncate_singular_values svd_s k c2))) i j = true ->
     kept_at (snd (fst (truncate_singular_values svd_s k c1))) i j = true).
Proof.
  intro Hc. split.
  - apply discarded_le. intro e. apply ss_trunc_cutoff_mono. exact Hc.
  - unfold truncate_singular_values. cbv zeta. cbn [fst snd].
    intros i j H.
    pose proof (kept_at_entry svd_s k c2 i j H) as He.
    change (is_kept (ts_gls (truncate_loops svd_s k c1)) (i, j, value_at svd_s i j) = true).
    apply (is_kept_iff svd_s k c1 _ He).
    apply (ss_trunc_cutoff_mono svd_s k c1 c2 _ Hc).
    apply (is_kept_iff svd_s k c2 _ He). exact H.
Qed.

Lemma truncation_error_cutoff_monotone_witness :
  (snd (truncate_singular_values [[5; 3; 1]; [4; 2]]%Q 3 0%Q)
   <= snd (truncate_singular_values [[5; 3; 1]; [4; 2]]%Q 3 4%Q))%R.
Proof.
  refine (proj1 (truncation_error_cutoff_monotone [[5; 3; 1]; [4; 2]]%Q 3 0%Q 4%Q _)).
  discriminate.
Defined.

(** ** Without truncation *)

Lemma sorted_same_elements {X : Type} (f : X -> nat) (l1 l2 : list X) :
  StronglySorted (fun x y => f x < f y) l1 ->
  StronglySorted (fun x y => f x < f y) l2 ->
  (forall x, In x l1 <-> In x l2) -> l1 = l2.
Proof.
  intro H1. revert l2.
  induction H1 as [|x1 l1 Hs1 IH Hx1]; intros l2 H2 Hiff.
  - destruct l2 as [|x2 l2]; [reflexivity|].
    exfalso. apply (Hiff x2). left. reflexivity.
  - destruct H2 as [|x2 l2 Hs2 Hx2].
    + exfalso. apply (Hiff x1). left. reflexivity.
    + rewrite Forall_forall in Hx1, Hx2.
      assert (E : x1 = x2).
      { destruct (proj1 (Hiff x1) (or_introl eq_refl)) as [E|Hin1]; [auto|].
        destruct (proj2 (Hiff x2) (or_introl eq_refl)) as [E|Hin2]; [auto|].
        specialize (Hx1 _ Hin2). specialize (Hx2 _ Hin1). lia. }
      subst x2. f_equal. apply IH; [exact Hs2|].
      intro x. split; intro Hin.
      * destruct (proj1 (Hiff x) (or_intror Hin)) as [E|H]; [|exact H].
        specialize (Hx1 _ Hin). subst x. lia.
      * destruct (proj2 (Hiff x) (or_intror Hin)) as [E|H]; [|exact H].
        specialize (Hx2 _ Hin). subst x. lia.
Qed.

Lemma StronglySorted_map_inv {X : Type} (f : X -> nat) (l : list X) :
  StronglySorted lt (map f l) -> StronglySorted (fun x y => f x < f y) l.
Proof.
  induction l as [|x l IH]; simpl; intro H; [constructor|].
  inversion H as [|? ? Hs Hx]; subst. constructor; [auto|].
  rewrite Forall_forall in *. intros y Hy. apply Hx. apply in_map. exact Hy.
Qed.

Lemma seq_sorted (a n : nat) : StronglySorted lt (seq a n).
Proof.
  revert a. induction n as [|n IH]; intro a; simpl; constructor; [apply IH|].
  apply Forall_forall. intros j Hj. apply in_seq in Hj. lia.
Qed.

Lemma group_triples_indices (svd_s : list (list Q)) (i : nat) :
  map t_index (group_triples svd_s i) = seq 0 (length (nth i svd_s [])).
Proof.
  unfold group_triples. rewrite map_map. unfold t_index. simpl. apply map_id.
Qed.

(** With no bound and a cutoff below every value, the survivors of a group
    are all its entries, in the order of the indices. *)
Lemma group_all_kept (svd_s : list (list Q)) (cutoff : Q) (i : nat) :
  Forall (Forall (fun v => (cutoff <= v)%Q)) svd_s ->
  filter (fun e => t_group e =? i) (ss_trunc_sorted svd_s (-1) cutoff)
  = group_triples svd_s i.
Proof.
  intro Hc.
  apply (sorted_same_elements t_index).
  - apply StronglySorted_map_inv, group_indices_sorted.
  - apply StronglySorted_map_inv. rewrite group_triples_indices. apply seq_sorted.
  - intro e. rewrite filter_In, Nat.eqb_eq, In_group_triples. split.
    + intros [He Hg]. apply st2_incl, In_all_triples in He.
      rewrite Hg in He. tauto.
    + intros (Hg & Hj & Hv). split; [|exact Hg].
      apply (Permutation_in _ (Permutation_sym (ss_trunc_sorted_perm svd_s (-1) cutoff))).
      assert (Hi : i < length svd_s).
      { destruct (Nat.lt_ge_cases i (length svd_s)) as [H|H]; [exact H|].
        rewrite (nth_overflow svd_s [] H) in Hj. simpl in Hj. lia. }
      apply ss_trunc_In; [lia|]. split.
      * unfold top_of. simpl.
        apply (Permutation_in _ (Permutation_sym (sorted_triples_perm svd_s))).
        apply In_all_triples. rewrite Hg. tauto.
      * rewrite Hv. unfold value_at.
        rewrite Forall_forall in Hc.
        assert (Hin : In (nth i svd_s []) svd_s) by (apply nth_In; exact Hi).
        specialize (Hc _ Hin). rewrite Forall_forall in Hc.
        apply Hc, nth_In. exact Hj.
Qed.

(** X5. With [k = -1] and a cutoff that no value is below, nothing is
    truncated: every group that is not empty comes back with all its
    values and all its indices, an empty group as [None], and the error is
    0. *)
Theorem truncate_nothing (svd_s : list (list Q)) (cutoff : Q) :
  Forall (Forall (fun v => (cutoff <= v)%Q)) svd_s ->
  truncate_singular_values svd_s (-1) cutoff
  = (map group_entry svd_s,
     map (fun ps => group_entry (seq 0 (length ps))) svd_s,
     0%R).
Proof.
  intro Hc.
  assert (Herr : snd (truncate_singular_values svd_s (-1) cutoff) = 0%R).
  { rewrite truncate_error_eq.
    assert (Hnil : discarded svd_s (ts_gls (truncate_loops svd_s (-1) cutoff)) = []).
    { unfold discarded. apply filter_none. intros e He.
      apply negb_false_iff. unfold is_kept, kept_at.
      rewrite (proj1 (gls_entry svd_s (-1) cutoff (t_group e))).
      rewrite (group_all_kept svd_s cutoff _ Hc).
      assert (Hin : In e (group_triples svd_s (t_group e))).
      { apply In_group_triples. apply In_all_triples in He. tauto. }
      destruct (group_triples svd_s (t_group e)) as [|e0 l] eqn:Eg; [contradiction|].
      cbn [group_entry option_map]. apply existsb_exists.
      exists (t_index e). split; [apply in_map; exact Hin|apply Nat.eqb_refl]. }
    rewrite Hnil. unfold sum_squares. simpl. apply sqrt_0. }
  unfold truncate_singular_values in *. cbv zeta in *. cbn [snd] in Herr.
  rewrite Herr. f_equal. f_equal.
  - apply nth_ext with (d := None) (d' := None).
    + rewrite length_map. apply truncate_loops_length.
    + intros i _.
      rewrite (proj2 (gls_entry svd_s (-1) cutoff i)), (group_all_kept svd_s cutoff i Hc).
      change (@None (list Q)) with (group_entry (@nil Q)). rewrite map_nth.
      cbn [group_entry].
      pose proof (group_triples_indices svd_s i) as Hidx.
      unfold group_triples in *.
      destruct (nth i svd_s []) as [|v ps] eqn:Ei; [reflexivity|].
      cbn [length seq map group_entry option_map] in *.
      f_equal. cbn [map] in Hidx. rewrite Hidx.
      change (0 :: seq 1 (length ps)) with (seq 0 (length (v :: ps))).
      apply take_all.
  - apply nth_ext with (d := None) (d' := None).
    + rewrite length_map. apply truncate_loops_length.
    + intros i _.
      rewrite (proj1 (gls_entry svd_s (-1) cutoff i)), (group_all_kept svd_s cutoff i Hc).
      change (@None (list nat)) with (group_entry (seq 0 (length (@nil Q)))).
      rewrite (map_nth (fun ps : list Q => group_entry (seq 0 (length ps)))).
      pose proof (group_triples_indices svd_s i) as Hidx.
      destruct (nth i svd_s []) as [|v ps] eqn:Ei.
      * unfold group_triples. rewrite Ei. reflexivity.
      * unfold group_triples in *. rewrite Ei in *.
        cbn [length seq map group_entry option_map] in *.
        f_equal. exact Hidx.
Qed.

Lemma truncate_nothing_witness :
  truncate_singular_values [[5; 3; 1]; []; [4; 2]]%Q (-1) 1%Q
  = ([Some [5; 3; 1]; None; Some [4; 2]]%Q,
     [Some [0; 1; 2]; None; Some [0; 1]], 0%R).
Proof.
  refine (truncate_nothing [[5; 3; 1]; []; [4; 2]]%Q 1%Q _).
  repeat constructor; discriminate.
Defined.

(** ** More on [contract] *)

Section ContractionResult.
Context {L S A : Type} `{QL : QuantumLabel L} `{DA : DenseArray S A}.

#[local] Abbreviation SubTensor := (SubTensor L A).
#[local] Abbreviation SparseTensor := (SparseTensor L A).

Lemma select_rule_op_mps :
  select_rule (L := L) FourIndexMPOTensor ThreeIndexMPSTensor [2%Z] [1%Z]
  = (fermion_op_mps, Some ThreeIndexMPSTensor).
Proof. reflexivity. Qed.

Lemma select_rule_default (fa fb : FusingTypes) (idxa idxb : list Z) :
  ~ (fa = FourIndexMPOTensor /\ fb = ThreeIndexMPSTensor /\
     idxa = [2%Z] /\ idxb = [1%Z]) ->
  select_rule (L := L) fa fb idxa idxb = (fermion_default, None).
Proof.
  intro Hn. unfold select_rule.
  destruct (ftype_eqb fa FourIndexMPOTensor) eqn:Fa; [|reflexivity].
  destruct (ftype_eqb fb ThreeIndexMPSTensor) eqn:Fb; [|reflexivity].
  simpl.
  destruct (list_eqb_spec Z.eqb Z.eqb_spec idxa [2%Z]) as [Ea|]; [|reflexivity].
  destruct (list_eqb_spec Z.eqb Z.eqb_spec idxb [1%Z]) as [Eb|]; [|reflexivity].
  exfalso. apply Hn. apply ftype_eqb_eq in Fa, Fb. auto.
Qed.

Lemma contract_blocks_no_match (fermion : list L -> list L -> result bool)
    (idxa idxb oa ob : list Z) (map_idx_b : dict (list L) (list SubTensor))
    (blocks_a blocks_b : list SubTensor) (m0 : dict (list L) SubTensor) :
  (forall g, dict_get labels_eqb map_idx_b g
             = group_entry (filter (has_sub_labels idxb g) blocks_b)) ->
  Forall (fun a => exists g, sub_labels a idxa = Ok g /\
                             Forall (fun b => sub_labels b idxb <> Ok g) blocks_b)
         blocks_a ->
  foldM (contract_block_a fermion idxa idxb oa ob map_idx_b) blocks_a m0 = Ok m0.
Proof.
  intros Hidx Ha. induction Ha as [|a As (g & Hg & Hno) _ IH]; simpl; [reflexivity|].
  unfold contract_block_a at 1. rewrite Hg. simpl. rewrite Hidx.
  rewrite filter_none; [simpl; exact IH|].
  intros b Hb. unfold has_sub_labels.
  rewrite Forall_forall in Hno. specialize (Hno b Hb).
  destruct (sub_labels b idxb) as [g'|e]; [|reflexivity].
  destruct (labels_eqb_spec g' g) as [E|E]; [|reflexivity].
  subst g'. contradiction.
Qed.

(** X6. A contraction that leaves legs and in which no block of the left
    operand matches a block of the right one: [contract] raises
    [RuntimeError], since the constructor finds no block to read the tag
    from; only in the operator-on-state case, where [contract] gives the
    tag, it returns a collection without blocks. *)
Theorem contract_no_match (spta sptb : SparseTensor) (idxa0 idxb0 : list Z) :
  let idxa := normalize_idx (rank spta) idxa0 in
  let idxb := normalize_idx (rank sptb) idxb0 in
  length idxa0 = length idxb0 ->
  Forall (fun b => exists g, sub_labels b idxb = Ok g) (blocks sptb) ->
  Forall (fun a => exists g, sub_labels a idxa = Ok g /\
                             Forall (fun b => sub_labels b idxb <> Ok g) (blocks sptb))
         (blocks spta) ->
  out_idx (rank spta) idxa ++ out_idx (rank sptb) idxb <> [] ->
  (ftype spta = FourIndexMPOTensor -> ftype sptb = ThreeIndexMPSTensor ->
   idxa = [2%Z] -> idxb = [1%Z] ->
   contract spta sptb idxa0 idxb0
   = Ok (CTensor (mkSparseTensor [] ThreeIndexMPSTensor None))) /\
  (~ (ftype spta = FourIndexMPOTensor /\ ftype sptb = ThreeIndexMPSTensor /\
      idxa = [2%Z] /\ idxb = [1%Z]) ->
   contract spta sptb idxa0 idxb0 = Raise RuntimeError).
Proof.
  intros idxa idxb Hlen HB HA Hout.
  destruct (index_blocks_total _ _ HB) as [d Hd].
  assert (Hmap : contract_map spta sptb idxa0 idxb0 = Ok []).
  { unfold contract_map, contract_blocks. fold idxa idxb. rewrite Hd. simpl.
    apply contract_blocks_no_match with (blocks_b := blocks sptb); [|exact HA].
    apply index_blocks_get. exact Hd. }
  assert (Hnz : (length (out_idx (rank spta) idxa) + length (out_idx (rank sptb) idxb) =? 0)
                = false).
  { apply Nat.eqb_neq. rewrite <- length_app. intro H0.
    apply length_zero_iff_nil in H0. contradiction. }
  unfold contract. rewrite Hlen, Nat.eqb_refl. simpl. rewrite Hmap. simpl.
  fold idxa idxb. rewrite Hnz.
  split.
  - intros Fa Fb Ea Eb. rewrite Fa, Fb, Ea, Eb. reflexivity.
  - intro Hn. rewrite (select_rule_default _ _ _ _ Hn). reflexivity.
Qed.

(** ** The blocks of the result *)

Lemma pair_entries_length (fermion : list L -> list L -> result bool)
    (idxa idxb oa ob : list Z) (a b : SubTensor) :
  length (pair_entries fermion idxa idxb oa ob a b) <= 1.
Proof.
  unfold pair_entries.
  destruct (pair_entry fermion idxa idxb oa ob a b) as [[e|]|]; simpl; lia.
Qed.

Lemma flat_map_length_le {X Y : Type} (f : X -> list Y) (c : nat) (l : list X) :
  (forall x, length (f x) <= c) -> length (flat_map f l) <= length l * c.
Proof.
  intro H. induction l as [|x l IH]; simpl; [lia|].
  rewrite length_app. specialize (H x). lia.
Qed.

Lemma all_entries_length (fermion : list L -> list L -> result bool)
    (idxa idxb oa ob : list Z) (blocks_a blocks_b : list SubTensor) :
  length (all_entries fermion idxa idxb oa ob blocks_a blocks_b)
  <= length blocks_a * length blocks_b.
Proof.
  unfold all_entries. apply flat_map_length_le. intro a.
  rewrite <- (Nat.mul_1_r (length blocks_b)).
  apply flat_map_length_le. intro b. apply pair_entries_length.
Qed.

Lemma entries_at_In (es : list (list L * A)) (k : list L) (c : A) :
  In c (entries_at es k) -> In k (map fst es).
Proof.
  unfold entries_at. intro H. apply in_map_iff in H.
  destruct H as (e & _ & He). apply filter_In in He. destruct He as [He Hk].
  destruct (labels_eqb_spec (fst e) k) as [E|]; [|discriminate].
  subst k. apply in_map. exact He.
Qed.

(** The entries of [map_idx_out]: each key is the label tuple of its
    block and has a contribution. *)
Lemma contract_map_items (spta sptb : SparseTensor) (idxa0 idxb0 : list Z)
    (t : SparseTensor) :
  contract spta sptb idxa0 idxb0 = Ok (CTensor t) ->
  exists m,
    blocks t = dict_values m /\ NoDup (dict_keys m) /\
    forall k v, In (k, v) m ->
      q_labels v = k /\
      exists c cs, contributions spta sptb idxa0 idxb0 k = c :: cs /\
                   reduced v = fold_left iadd cs c.
Proof.
  intro E. destruct (contract_map_get _ _ _ _ _ E) as (m & _ & Hb & Hnd & Hget).
  exists m. split; [exact Hb|]. split; [exact Hnd|].
  intros k v Hin.
  apply (dict_In_get _ _ _ labels_eqb_spec) in Hin; [|exact Hnd].
  rewrite Hget in Hin.
  destruct (contributions spta sptb idxa0 idxb0 k) as [|c cs]; [discriminate|].
  simpl in Hin. inversion Hin; subst v. simpl.
  split; [reflexivity|]. exists c, cs. split; reflexivity.
Qed.

(** X7. The collection that [contract] returns: label tuples pairwise
    distinct, every block the sum of the contributions of one or more
    matching pairs, and at most one block per pair of blocks. *)
Theorem contract_blocks_distinct (spta sptb : SparseTensor) (idxa0 idxb0 : list Z)
    (t : SparseTensor) :
  contract spta sptb idxa0 idxb0 = Ok (CTensor t) ->
  NoDup (map (@q_labels L A) (blocks t)) /\
  (forall blk, In blk (blocks t) ->
     exists c cs,
       contributions spta sptb idxa0 idxb0 (q_labels blk) = c :: cs /\
       reduced blk = fold_left iadd cs c) /\
  n_blocks t <= n_blocks spta * n_blocks sptb.
Proof.
  intro E. destruct (contract_map_items _ _ _ _ _ E) as (m & Hb & Hnd & Hitems).
  assert (Hlab : map (@q_labels L A) (blocks t) = dict_keys m).
  { rewrite Hb. unfold dict_values, dict_keys. rewrite map_map.
    apply map_ext_in. intros [k v] Hin. simpl. apply (Hitems k v Hin). }
  split; [rewrite Hlab; exact Hnd|]. split.
  - intros blk Hin. rewrite Hb in Hin. unfold dict_values in Hin.
    apply in_map_iff in Hin. destruct Hin as ([k v] & Hv & Hin). simpl in Hv. subst v.
    destruct (Hitems k blk Hin) as (Hk & c & cs & Hc & Hr).
    exists c, cs. rewrite Hk. split; assumption.
  - unfold n_blocks.
    apply Nat.le_trans with (m := length (contract_entries spta sptb idxa0 idxb0));
      [|apply all_entries_length].
    rewrite <- (length_map (@q_labels L A) (blocks t)), Hlab.
    rewrite <- (length_map fst (contract_entries spta sptb idxa0 idxb0)).
    apply NoDup_incl_length; [exact Hnd|].
    intros k Hk. unfold dict_keys in Hk. apply in_map_iff in Hk.
    destruct Hk as ([k' v] & Hk' & Hin). simpl in Hk'. subst k'.
    destruct (Hitems k v Hin) as (_ & c & cs & Hc & _).
    apply entries_at_In with (c := c). unfold contributions in Hc. rewrite Hc.
    left. reflexivity.
Qed.


(** ** Rank and tag of the result *)

Lemma zmem_In (x : Z) (l : list Z) : zmem x l = true <-> In x l.
Proof.
  unfold zmem. rewrite existsb_exists. split.
  - intros (y & Hy & E). apply Z.eqb_eq in E. subst y. exact Hy.
  - intro H. exists x. split; [exact H|apply Z.eqb_refl].
Qed.

Lemma filter_length_split {X : Type} (p : X -> bool) (l : list X) :
  length (filter p l) + length (filter (fun x => negb (p x)) l) = length l.
Proof.
  induction l as [|x l IH]; simpl; [reflexivity|].
  destruct (p x); simpl; lia.
Qed.

Lemma range_NoDup (n : nat) : NoDup (range n).
Proof.
  unfold range. apply Finite.Injective_map_NoDup; [|apply seq_NoDup].
  intros a b. apply Nat2Z.inj.
Qed.

Lemma In_range (n : nat) (x : Z) : In x (range n) <-> (0 <= x < Z.of_nat n)%Z.
Proof.
  unfold range. rewrite in_map_iff. split.
  - intros (i & <- & Hi). apply in_seq in Hi. lia.
  - intro H. exists (Z.to_nat x). split; [lia|]. apply in_seq. lia.
Qed.

(** The legs that remain: all the legs but the contracted ones. *)
Lemma out_idx_length (rk : nat) (idx : list Z) :
  NoDup idx -> Forall (fun x => (0 <= x < Z.of_nat rk)%Z) idx ->
  length (out_idx rk idx) = rk - length idx.
Proof.
  intros Hnd Hr. unfold out_idx.
  pose proof (filter_length_split (fun i => zmem i idx) (range rk)) as Hs.
  assert (Hm : length (filter (fun i => zmem i idx) (range rk)) = length idx).
  { apply Permutation_length, NoDup_Permutation.
    - apply NoDup_filter, range_NoDup.
    - exact Hnd.
    - intro x. rewrite filter_In, zmem_In, In_range. split; [tauto|].
      intro Hx. split; [|exact Hx]. rewrite Forall_forall in Hr. apply Hr. exact Hx. }
  unfold range in Hs at 3. rewrite length_map, length_seq in Hs. lia.
Qed.

Lemma sub_labels_length (b : SubTensor) (idx : list Z) (g : list L) :
  sub_labels b idx = Ok g -> length g = length idx.
Proof. apply mapM_length. Qed.

Lemma pair_entries_rank (fermion : list L -> list L -> result bool)
    (idxa idxb oa ob : list Z) (a b : SubTensor) (e : list L * A) :
  In e (pair_entries fermion idxa idxb oa ob a b) ->
  length (fst e) = length oa + length ob.
Proof.
  unfold pair_entries.
  destruct (pair_entry fermion idxa idxb oa ob a b) as [[e'|]|] eqn:E;
    simpl; try tauto.
  intros [<-|[]]. unfold pair_entry in E.
  bind_inv E. bind_inv E.
  destruct (labels_eqb x x0); [|discriminate].
  bind_inv E. bind_inv E. bind_inv E. inversion E; subst; clear E. simpl.
  rewrite length_app.
  rewrite (sub_labels_length _ _ _ Hx1), (sub_labels_length _ _ _ Hx2). reflexivity.
Qed.

Lemma all_entries_rank (fermion : list L -> list L -> result bool)
    (idxa idxb oa ob : list Z) (blocks_a blocks_b : list SubTensor) (k : list L) :
  In k (map fst (all_entries fermion idxa idxb oa ob blocks_a blocks_b)) ->
  length k = length oa + length ob.
Proof.
  intro H. apply in_map_iff in H. destruct H as (e & <- & He).
  unfold all_entries in He. apply in_flat_map in He. destruct He as (a & _ & He).
  apply in_flat_map in He. destruct He as (b & _ & He).
  apply (pair_entries_rank _ _ _ _ _ _ _ _ He).
Qed.

(** Every block of the result has one label for each leg that remains. *)
Lemma contract_block_ranks (spta sptb : SparseTensor) (idxa0 idxb0 : list Z)
    (t : SparseTensor) :
  contract spta sptb idxa0 idxb0 = Ok (CTensor t) ->
  Forall (fun blk =>
            st_rank blk
            = length (out_idx (rank spta) (normalize_idx (rank spta) idxa0))
              + length (out_idx (rank sptb) (normalize_idx (rank sptb) idxb0)))
         (blocks t).
Proof.
  intro E.
  destruct (contract_map_items _ _ _ _ _ E) as (m & Hb & Hnd & Hitems).
  apply Forall_forall. intros blk Hin. rewrite Hb in Hin. unfold dict_values in Hin.
  apply in_map_iff in Hin. destruct Hin as ([k v] & Hv & Hin). simpl in Hv. subst v.
  destruct (Hitems k blk Hin) as (Hk & c & cs & Hc & _).
  assert (Hke : In k (map fst (contract_entries spta sptb idxa0 idxb0))).
  { apply entries_at_In with (c := c). unfold contributions in Hc. rewrite Hc.
    left. reflexivity. }
  unfold contract_entries in Hke. apply all_entries_rank in Hke.
  unfold st_rank. rewrite Hk. exact Hke.
Qed.

Lemma contract_lengths (spta sptb : SparseTensor) (idxa0 idxb0 : list Z)
    (res : contracted L S A) :
  contract spta sptb idxa0 idxb0 = Ok res -> length idxa0 = length idxb0.
Proof.
  unfold contract.
  destruct (Nat.eqb_spec (length idxa0) (length idxb0)) as [H|H]; [auto|discriminate].
Qed.

(** The legs that remain, counted, for positions that are distinct
    positions of the operands. *)
Lemma out_legs_count (spta sptb : SparseTensor) (idxa0 idxb0 : list Z) :
  let idxa := normalize_idx (rank spta) idxa0 in
  let idxb := normalize_idx (rank sptb) idxb0 in
  length idxa0 = length idxb0 ->
  NoDup idxa -> Forall (fun x => (0 <= x < Z.of_nat (rank spta))%Z) idxa ->
  NoDup idxb -> Forall (fun x => (0 <= x < Z.of_nat (rank sptb))%Z) idxb ->
  length (out_idx (rank spta) idxa) + length (out_idx (rank sptb) idxb)
  = rank spta + rank sptb - 2 * length idxa0.
Proof.
  intros idxa idxb Hlen Na Ra Nb Rb.
  pose proof (out_idx_length _ _ Na Ra) as La.
  pose proof (out_idx_length _ _ Nb Rb) as Lb.
  assert (Ba : length idxa <= rank spta).
  { rewrite <- (length_seq (rank spta) 0), <- (length_map Z.of_nat).
    apply NoDup_incl_length; [exact Na|]. intros x Hx.
    apply In_range. rewrite Forall_forall in Ra. apply Ra. exact Hx. }
  assert (Bb : length idxb <= rank sptb).
  { rewrite <- (length_seq (rank sptb) 0), <- (length_map Z.of_nat).
    apply NoDup_incl_length; [exact Nb|]. intros x Hx.
    apply In_range. rewrite Forall_forall in Rb. apply Rb. exact Hx. }
  assert (Ea : length idxa = length idxa0) by apply length_map.
  assert (Eb : length idxb = length idxb0) by apply length_map.
  rewrite La, Lb. lia.
Qed.

(** The constructor call that ends a contraction with legs left. *)
Lemma contract_init (spta sptb : SparseTensor) (idxa0 idxb0 : list Z)
    (t : SparseTensor) :
  contract spta sptb idxa0 idxb0 = Ok (CTensor t) ->
  SparseTensor_init (Some (blocks t))
    (snd (select_rule (ftype spta) (ftype sptb)
            (normalize_idx (rank spta) idxa0) (normalize_idx (rank sptb) idxb0)))
    None = Ok t.
Proof.
  intro E. unfold contract in E.
  destruct (negb (length idxa0 =? length idxb0)); [discriminate|].
  bind_inv E.
  destruct (_ =? 0) in E.
  { destruct (length x =? 0); [discriminate|].
    destruct (dict_get labels_eqb x []); discriminate. }
  bind_inv E. inversion E; subst x0; clear E.
  assert (Hb : blocks t = dict_values x).
  { unfold SparseTensor_init in Hx0.
    destruct (snd _) in Hx0; [inversion Hx0; reflexivity|].
    destruct (_ =? 3) in Hx0; [inversion Hx0; reflexivity|].
    destruct (_ =? 4) in Hx0; [inversion Hx0; reflexivity|discriminate]. }
  rewrite Hb. exact Hx0.
Qed.

(** X8. The rank of the blocks of the result, when the contracted
    positions are distinct positions of the operands: the legs of both
    operands that are not contracted, [rank a + rank b - 2 * len idxa]. *)
Theorem contract_result_rank (spta sptb : SparseTensor) (idxa0 idxb0 : list Z)
    (t : SparseTensor) :
  let idxa := normalize_idx (rank spta) idxa0 in
  let idxb := normalize_idx (rank sptb) idxb0 in
  NoDup idxa -> Forall (fun x => (0 <= x < Z.of_nat (rank spta))%Z) idxa ->
  NoDup idxb -> Forall (fun x => (0 <= x < Z.of_nat (rank sptb))%Z) idxb ->
  contract spta sptb idxa0 idxb0 = Ok (CTensor t) ->
  Forall (fun blk => st_rank blk = rank spta + rank sptb - 2 * length idxa0)
         (blocks t).
Proof.
  intros idxa idxb Na Ra Nb Rb E.
  pose proof (contract_block_ranks _ _ _ _ _ E) as Hr.
  rewrite (out_legs_count spta sptb idxa0 idxb0 (contract_lengths _ _ _ _ _ E)
             Na Ra Nb Rb) in Hr.
  exact Hr.
Qed.

(** X9. The tag of a collection that [contract] returns:
    [ThreeIndexMPSTensor] in the operator-on-state case; in every other
    case the default tag of its rank, which is 3 or 4, whatever the tags of
    the operands; and no [delta_quantum]. *)
Theorem contract_result_tag (spta sptb : SparseTensor) (idxa0 idxb0 : list Z)
    (t : SparseTensor) :
  let idxa := normalize_idx (rank spta) idxa0 in
  let idxb := normalize_idx (rank sptb) idxb0 in
  contract spta sptb idxa0 idxb0 = Ok (CTensor t) ->
  (ftype spta = FourIndexMPOTensor -> ftype sptb = ThreeIndexMPSTensor ->
   idxa = [2%Z] -> idxb = [1%Z] -> ftype t = ThreeIndexMPSTensor) /\
  (~ (ftype spta = FourIndexMPOTensor /\ ftype sptb = ThreeIndexMPSTensor /\
      idxa = [2%Z] /\ idxb = [1%Z]) ->
   (rank t = 3 /\ ftype t = ThreeIndexMPSTensor) \/
   (rank t = 4 /\ ftype t = FourIndexMPOTensor)) /\
  delta_quantum t = None.
Proof.
  intros idxa idxb E. pose proof (contract_init _ _ _ _ _ E) as Hi.
  fold idxa idxb in Hi.
  split; [|split].
  - intros Fa Fb Ea Eb. rewrite Fa, Fb, Ea, Eb in Hi.
    simpl in Hi. inversion Hi as [Ht]. rewrite <- Ht at 1. reflexivity.
  - intro Hn. rewrite (select_rule_default _ _ _ _ Hn) in Hi.
    unfold SparseTensor_init in Hi. simpl in Hi. unfold rank.
    destruct (Nat.eqb_spec (blocks_rank (blocks t)) 3) as [E3|N3].
    + left. split; [exact E3|]. inversion Hi as [Ht]. rewrite <- Ht at 1. reflexivity.
    + destruct (Nat.eqb_spec (blocks_rank (blocks t)) 4) as [E4|N4];
        [|discriminate].
      right. split; [exact E4|]. inversion Hi as [Ht]. rewrite <- Ht at 1. reflexivity.
  - unfold SparseTensor_init in Hi.
    destruct (snd _) in Hi; [inversion Hi as [Ht]; rewrite <- Ht at 1; reflexivity|].
    destruct (_ =? 3) in Hi; [inversion Hi as [Ht]; rewrite <- Ht at 1; reflexivity|].
    destruct (_ =? 4) in Hi; [inversion Hi as [Ht]; rewrite <- Ht at 1; reflexivity
                             |discriminate].
Qed.

(** X10. Outside the operator-on-state case a contraction never returns a
    collection of a rank other than 3 or 4. *)
Theorem contract_rank_restriction (spta sptb : SparseTensor) (idxa0 idxb0 : list Z) :
  let idxa := normalize_idx (rank spta) idxa0 in
  let idxb := normalize_idx (rank sptb) idxb0 in
  let r := rank spta + rank sptb - 2 * length idxa0 in
  NoDup idxa -> Forall (fun x => (0 <= x < Z.of_nat (rank spta))%Z) idxa ->
  NoDup idxb -> Forall (fun x => (0 <= x < Z.of_nat (rank sptb))%Z) idxb ->
  ~ (ftype spta = FourIndexMPOTensor /\ ftype sptb = ThreeIndexMPSTensor /\
     idxa = [2%Z] /\ idxb = [1%Z]) ->
  r <> 0 -> r <> 3 -> r <> 4 ->
  forall res, contract spta sptb idxa0 idxb0 <> Ok res.
Proof.
  intros idxa idxb r Na Ra Nb Rb Hn H0 H3 H4 res E.
  pose proof (out_legs_count spta sptb idxa0 idxb0 (contract_lengths _ _ _ _ _ E)
                Na Ra Nb Rb) as Hc.
  fold idxa idxb r in Hc.
  destruct res as [s|t].
  - (* a scalar is returned only when no leg remains *)
    unfold contract in E.
    destruct (negb (length idxa0 =? length idxb0)); [discriminate|].
    bind_inv E. fold idxa idxb in E. rewrite Hc in E.
    destruct (Nat.eqb_spec r 0) as [Hz|Hz]; [contradiction|].
    bind_inv E. discriminate.
  - pose proof (contract_block_ranks _ _ _ _ _ E) as Hr.
    fold idxa idxb in Hr. rewrite Hc in Hr.
    pose proof (contract_init _ _ _ _ _ E) as Hi. fold idxa idxb in Hi.
    rewrite (select_rule_default _ _ _ _ Hn) in Hi.
    unfold SparseTensor_init in Hi. simpl in Hi.
    destruct (blocks t) as [|b bs]; [discriminate|].
    inversion Hr as [|? ? Hb _]; subst. simpl in Hi. rewrite Hb in Hi.
    destruct (Nat.eqb_spec r 3); [contradiction|].
    destruct (Nat.eqb_spec r 4); [contradiction|discriminate].
Qed.

End ContractionResult.

Section MoreExamples.
Open Scope Z_scope.

Let blk (ql : list Z) (v : Z) : SubTensor Z unit_array :=
  mkSubTensor ql (mkUnitArray (length ql) v).

(** Two state tensors without a common label on the contracted legs: the
    contraction raises; an operator and a state without a common label give
    the collection without blocks. *)
Lemma contract_no_match_witness :
  contract (mkSparseTensor [blk [0; 0; 0] 2] ThreeIndexMPSTensor None)
           (mkSparseTensor [blk [1; 0; 1] 3] ThreeIndexMPSTensor None) [2] [0]
  = Raise RuntimeError /\
  contract (mkSparseTensor [blk [0; 1; 0; 1] 2] FourIndexMPOTensor None)
           (mkSparseTensor [blk [0; 1; 1] 3] ThreeIndexMPSTensor None) [2] [1]
  = Ok (CTensor (mkSparseTensor [] ThreeIndexMPSTensor None)).
Proof.
  split.
  - refine (proj2 (contract_no_match
                     (mkSparseTensor [blk [0; 0; 0] 2] ThreeIndexMPSTensor None)
                     (mkSparseTensor [blk [1; 0; 1] 3] ThreeIndexMPSTensor None)
                     [2] [0] eq_refl _ _ _) _).
    + repeat constructor. exists [1]. reflexivity.
    + repeat constructor. exists [0]. split; [reflexivity|].
      repeat constructor. discriminate.
    + discriminate.
    + intros (H & _). discriminate H.
  - refine (proj1 (contract_no_match
                     (mkSparseTensor [blk [0; 1; 0; 1] 2] FourIndexMPOTensor None)
                     (mkSparseTensor [blk [0; 1; 1] 3] ThreeIndexMPSTensor None)
                     [2] [1] eq_refl _ _ _) eq_refl eq_refl eq_refl eq_refl).
    + repeat constructor. exists [1]. reflexivity.
    + repeat constructor. exists [0]. split; [reflexivity|].
      repeat constructor. discriminate.
    + discriminate.
Defined.

Let mps_a : SparseTensor Z unit_array :=
  mkSparseTensor [blk [0; 0; 0] 2; blk [0; 0; 1] 3] ThreeIndexMPSTensor None.
Let mps_b : SparseTensor Z unit_array :=
  mkSparseTensor [blk [0; 0; 1] 5; blk [1; 0; 1] 7] ThreeIndexMPSTensor None.
Let two_site : SparseTensor Z unit_array :=
  mkSparseTensor [blk [0; 0; 0; 1] 31] FourIndexMPOTensor None.

Lemma contract_mps_mps : contract mps_a mps_b [2] [0] = Ok (CTensor two_site).
Proof. reflexivity. Qed.

Lemma contract_blocks_distinct_witness :
  NoDup (map (@q_labels Z unit_array) (blocks two_site)) /\
  (n_blocks two_site <= n_blocks mps_a * n_blocks mps_b)%nat.
Proof.
  destruct (contract_blocks_distinct mps_a mps_b [2] [0] two_site contract_mps_mps)
    as (Hnd & _ & Hn).
  split; [exact Hnd|exact Hn].
Defined.

Lemma contract_result_rank_witness :
  Forall (fun b : SubTensor Z unit_array => st_rank b = 4)%nat (blocks two_site).
Proof.
  refine (contract_result_rank mps_a mps_b [2] [0] two_site _ _ _ _ contract_mps_mps).
  - repeat constructor; simpl; tauto.
  - repeat constructor; simpl; lia.
  - repeat constructor; simpl; tauto.
  - repeat constructor; simpl; lia.
Defined.

(** The product of two state tensors comes back tagged as an operator
    tensor. *)
Lemma contract_result_tag_witness :
  (rank two_site = 3%nat /\ ftype two_site = ThreeIndexMPSTensor) \/
  (rank two_site = 4%nat /\ ftype two_site = FourIndexMPOTensor).
Proof.
  refine (proj1 (proj2 (contract_result_tag mps_a mps_b [2] [0] two_site
                          contract_mps_mps)) _).
  intros (H & _). discriminate H.
Defined.

(** Two operator tensors, contracted over one leg, would give rank 6. *)
Lemma contract_rank_restriction_witness :
  ~ exists res,
      contract (mkSparseTensor [blk [0; 1; 0; 1] 2] FourIndexMPOTensor None)
               (mkSparseTensor [blk [1; 0; 1; 0] 3] FourIndexMPOTensor None) [3] [0]
      = Ok res.
Proof.
  intros [res E]. revert res E.
  refine (contract_rank_restriction
            (mkSparseTensor [blk [0; 1; 0; 1] 2] FourIndexMPOTensor None)
            (mkSparseTensor [blk [1; 0; 1; 0] 3] FourIndexMPOTensor None) [3] [0]
            _ _ _ _ _ _ _ _).
  - repeat constructor; simpl; tauto.
  - repeat constructor; simpl; lia.
  - repeat constructor; simpl; tauto.
  - repeat constructor; simpl; lia.
  - intros (_ & H & _). discriminate H.
  - discriminate.
  - discriminate.
  - discriminate.
Defined.

End MoreExamples.

(** ** [equal_shape] and [get_state_info] *)

Section LegShapeFacts.
Context {L : Type} `{QL : QuantumLabel L}.
Variable S : Type.

#[local] Abbreviation block := (SubTensor L (ndarray S)).

Lemma equal_shape_iff (a b : block) :
  equal_shape a b = true <->
  q_labels a = q_labels b /\ shape (reduced a) = shape (reduced b).
Proof.
  unfold equal_shape, labels_eqb. rewrite andb_true_iff.
  destruct (list_eqb_spec q_eqb q_eqb_spec (q_labels a) (q_labels b)) as [H1|H1];
    destruct (list_eqb_spec Nat.eqb Nat.eqb_spec (shape (reduced a)) (shape (reduced b)))
      as [H2|H2]; split; intros [G1 G2]; try discriminate; try contradiction; auto.
Qed.

(** X11. [equal_shape] is an equivalence of blocks: reflexive, symmetric
    and transitive. *)
Theorem equal_shape_equivalence :
  (forall a : block, equal_shape a a = true) /\
  (forall a b : block, equal_shape a b = equal_shape b a) /\
  (forall a b c : block,
     equal_shape a b = true -> equal_shape b c = true -> equal_shape a c = true).
Proof.
  split; [|split].
  - intro a. apply equal_shape_iff. split; reflexivity.
  - intros a b.
    destruct (equal_shape a b) eqn:E1, (equal_shape b a) eqn:E2; try reflexivity.
    + apply equal_shape_iff in E1. destruct E1 as [H1 H2].
      assert (H : equal_shape b a = true) by (apply equal_shape_iff; split; congruence).
      congruence.
    + apply equal_shape_iff in E2. destruct E2 as [H1 H2].
      assert (H : equal_shape a b = true) by (apply equal_shape_iff; split; congruence).
      congruence.
  - intros a b c H1 H2. apply equal_shape_iff in H1, H2. apply equal_shape_iff.
    destruct H1, H2. split; congruence.
Qed.

(** One step of the loop, on a block that has the leg. *)
Lemma state_info_step_leg (idx : Z) (quanta : dict L nat) (b : block) (q : L) (n : nat) :
  leg idx b = Ok (q, n) ->
  state_info_step idx quanta b
  = match dict_get q_eqb quanta q with
    | Some d => if n =? d then Ok quanta else Raise AssertionError
    | None => Ok (dict_set q_eqb quanta q n)
    end.
Proof.
  unfold leg, state_info_step. intro H.
  destruct (py_index (q_labels b) idx) as [q'|]; [|discriminate]. simpl in *.
  destruct (py_index (shape (reduced b)) idx) as [n'|]; [|discriminate]. simpl in *.
  inversion H; subst. destruct (dict_get q_eqb quanta q); reflexivity.
Qed.

Lemma state_info_step_inv (idx : Z) (quanta quanta' : dict L nat) (b : block) :
  state_info_step idx quanta b = Ok quanta' ->
  exists q n, leg idx b = Ok (q, n) /\
    dict_get q_eqb quanta' q = Some n /\
    (forall q', q' <> q -> dict_get q_eqb quanta' q' = dict_get q_eqb quanta q') /\
    (forall d, dict_get q_eqb quanta q = Some d -> d = n /\ quanta' = quanta) /\
    (dict_get q_eqb quanta q = None -> quanta' = dict_set q_eqb quanta q n).
Proof.
  unfold state_info_step, leg. intro H.
  destruct (py_index (q_labels b) idx) as [q|]; [|discriminate]. simpl in *.
  destruct (dict_get q_eqb quanta q) as [d|] eqn:Eq.
  - destruct (py_index (shape (reduced b)) idx) as [n|]; [|discriminate]. simpl in *.
    destruct (Nat.eqb_spec n d) as [E|E]; [|discriminate].
    inversion H; subst. exists q, d. split; [reflexivity|]. split; [exact Eq|].
    split; [reflexivity|]. split; [|intro Hd'; rewrite Eq in Hd'; discriminate Hd'].
    intros d' Hd'. rewrite Eq in Hd'. inversion Hd'; auto.
  - destruct (py_index (shape (reduced b)) idx) as [n|]; [|discriminate]. simpl in *.
    inversion H; subst. exists q, n. split; [reflexivity|].
    rewrite (dict_get_set _ _ _ q_eqb_spec).
    destruct (q_eqb_spec q q) as [_|Hn]; [|congruence].
    split; [reflexivity|]. split.
    + intros q' Hq'. rewrite (dict_get_set _ _ _ q_eqb_spec).
      destruct (q_eqb_spec q q'); [congruence|reflexivity].
    + split; [intros d Hd; rewrite Eq in Hd; discriminate Hd|reflexivity].
Qed.

(** The counter after the loop over [bs], started from [quanta0]. *)
Lemma state_info_loop (idx : Z) (bs : list block) (quanta0 quanta : dict L nat) :
  foldM (state_info_step idx) bs quanta0 = Ok quanta ->
  NoDup (dict_keys quanta0) ->
  NoDup (dict_keys quanta) /\
  (forall q d, dict_get q_eqb quanta0 q = Some d -> dict_get q_eqb quanta q = Some d) /\
  (forall b, In b bs ->
     exists q n, leg idx b = Ok (q, n) /\ dict_get q_eqb quanta q = Some n) /\
  (forall q, dict_get q_eqb quanta q <> None ->
     dict_get q_eqb quanta0 q <> None \/
     exists b n, In b bs /\ leg idx b = Ok (q, n)).
Proof.
  revert quanta0. induction bs as [|b bs IH]; intros quanta0 E Hnd; simpl in E.
  - inversion E; subst. split; [exact Hnd|]. split; [auto|]. split.
    + intros b [].
    + intros q Hq. left. exact Hq.
  - bind_inv E. rename x into quanta1.
    destruct (state_info_step_inv _ _ _ _ Hx) as (q & n & Hleg & Hget & Hother & Hsame & Hnew).
    assert (Hnd1 : NoDup (dict_keys quanta1)).
    { destruct (dict_get q_eqb quanta0 q) as [d|] eqn:Eq.
      - destruct (Hsame d eq_refl) as [_ ->]. exact Hnd.
      - rewrite (Hnew eq_refl). apply dict_set_NoDup; [apply q_eqb_spec|exact Hnd]. }
    destruct (IH quanta1 E Hnd1) as (Hnd' & Hkeep & Hall & Hfrom).
    split; [exact Hnd'|]. split; [|split].
    + intros q' d Hq'. apply Hkeep.
      destruct (q_eqb_spec q' q) as [->|Hne].
      * destruct (Hsame d Hq') as [-> _]. exact Hget.
      * rewrite (Hother q' Hne). exact Hq'.
    + intros b' [<-|Hin].
      * exists q, n. split; [exact Hleg|]. apply Hkeep. exact Hget.
      * apply Hall. exact Hin.
    + intros q' Hq'. destruct (Hfrom q' Hq') as [H1|(b' & n' & Hin & Hl)].
      * destruct (q_eqb_spec q' q) as [->|Hne].
        -- right. exists b, n. split; [left; reflexivity|exact Hleg].
        -- left. rewrite <- (Hother q' Hne). exact H1.
      * right. exists b', n'. split; [right; exact Hin|exact Hl].
Qed.

(** The loop either ends or fails on an extent, when every block has the
    leg. *)
Lemma state_info_loop_total (idx : Z) (bs : list block) (quanta0 : dict L nat) :
  Forall (fun b => exists qn, leg idx b = Ok qn) bs ->
  (exists quanta, foldM (state_info_step idx) bs quanta0 = Ok quanta) \/
  foldM (state_info_step idx) bs quanta0 = Raise AssertionError.
Proof.
  intro H. revert quanta0. induction H as [|b bs [[q n] Hleg] _ IH]; intro quanta0; simpl.
  - left. eauto.
  - rewrite (state_info_step_leg _ quanta0 _ _ _ Hleg).
    destruct (dict_get q_eqb quanta0 q) as [d|].
    + destruct (n =? d); simpl; [apply IH|right; reflexivity].
    + simpl. apply IH.
Qed.

Lemma dict_get_keys {V : Type} (d : dict L V) (q : L) :
  In q (dict_keys d) <-> dict_get q_eqb d q <> None.
Proof.
  induction d as [|[k v] d IH]; simpl.
  - split; [tauto|congruence].
  - destruct (q_eqb_spec k q) as [->|Hne].
    + split; [discriminate|auto].
    + rewrite <- IH. split; [intros [E|H]; [congruence|exact H]|auto].
Qed.

(** X12. What [get_state_info] returns: the extent of leg [idx] of every
    block under the label of the leg, one entry for each label. *)
Theorem get_state_info_lookup (self : SparseTensor L (ndarray S)) (idx : Z)
    (si : StateInfo L) :
  get_state_info self idx = Ok si ->
  (forall b, In b (blocks self) ->
     exists q n, py_index (q_labels b) idx = Ok q /\
                 py_index (shape (reduced b)) idx = Ok n /\
                 dict_get q_eqb (quanta si) q = Some n) /\
  NoDup (dict_keys (quanta si)) /\
  (forall q, In q (dict_keys (quanta si)) <->
             exists b, In b (blocks self) /\ py_index (q_labels b) idx = Ok q).
Proof.
  unfold get_state_info. intro E. bind_inv E. inversion E; subst si; clear E. simpl.
  destruct (state_info_loop _ _ _ _ Hx (NoDup_nil _)) as (Hnd & _ & Hall & Hfrom).
  assert (Hleg : forall (b : block) q n, leg idx b = Ok (q, n) ->
            py_index (q_labels b) idx = Ok q /\ py_index (shape (reduced b)) idx = Ok n).
  { intros b q n H. unfold leg in H.
    destruct (py_index (q_labels b) idx); [|discriminate]. simpl in H.
    destruct (py_index (shape (reduced b)) idx); [|discriminate]. simpl in H.
    inversion H; subst. split; reflexivity. }
  split; [|split; [exact Hnd|]].
  - intros b Hin. destruct (Hall b Hin) as (q & n & Hl & Hg).
    exists q, n. destruct (Hleg _ _ _ Hl). auto.
  - intro q. rewrite dict_get_keys. split.
    + intro Hq. destruct (Hfrom q Hq) as [H0|(b & n & Hin & Hl)].
      * simpl in H0. congruence.
      * exists b. split; [exact Hin|]. apply (Hleg _ _ _ Hl).
    + intros (b & Hin & Hq). destruct (Hall b Hin) as (q' & n & Hl & Hg).
      destruct (Hleg _ _ _ Hl) as [Hq' _]. rewrite Hq in Hq'. inversion Hq'; subst q'.
      congruence.
Qed.

Lemma state_info_loop_ok (idx : Z) (bs : list block) (quanta0 : dict L nat) :
  Forall (fun b => exists qn, leg idx b = Ok qn) bs ->
  (forall b q n d, In b bs -> leg idx b = Ok (q, n) ->
                   dict_get q_eqb quanta0 q = Some d -> d = n) ->
  (forall b1 b2 q n1 n2, In b1 bs -> In b2 bs ->
     leg idx b1 = Ok (q, n1) -> leg idx b2 = Ok (q, n2) -> n1 = n2) ->
  exists quanta, foldM (state_info_step idx) bs quanta0 = Ok quanta.
Proof.
  intro H. revert quanta0.
  induction H as [|b bs [[q n] Hleg] _ IH]; intros quanta0 H0 Hc; simpl; [eauto|].
  rewrite (state_info_step_leg _ quanta0 _ _ _ Hleg).
  destruct (dict_get q_eqb quanta0 q) as [d|] eqn:Eq.
  - rewrite (H0 b q n d (or_introl eq_refl) Hleg Eq), Nat.eqb_refl. simpl.
    apply IH.
    + intros b' q' n' d' Hin. apply H0. right. exact Hin.
    + intros b1 b2 q' n1 n2 H1 H2. apply Hc; right; assumption.
  - simpl. apply IH.
    + intros b' q' n' d' Hin Hl. rewrite (dict_get_set _ _ _ q_eqb_spec).
      destruct (q_eqb_spec q q') as [<-|Hne].
      * intro E. inversion E; subst d'.
        apply (Hc b b' q n n' (or_introl eq_refl) (or_intror Hin) Hleg Hl).
      * apply (H0 b' q' n' d' (or_intror Hin) Hl).
    + intros b1 b2 q' n1 n2 H1 H2. apply Hc; right; assumption.
Qed.

(** X13. When every block has the leg, [get_state_info] returns if the
    extents of the leg agree among the blocks of equal label, and raises
    [AssertionError] if two of them differ. *)
Theorem get_state_info_consistency (self : SparseTensor L (ndarray S)) (idx : Z) :
  Forall (fun b => exists qn, leg idx b = Ok qn) (blocks self) ->
  ((forall b1 b2 q n1 n2, In b1 (blocks self) -> In b2 (blocks self) ->
      leg idx b1 = Ok (q, n1) -> leg idx b2 = Ok (q, n2) -> n1 = n2) ->
   exists si, get_state_info self idx = Ok si) /\
  (forall b1 b2 q n1 n2, In b1 (blocks self) -> In b2 (blocks self) ->
     leg idx b1 = Ok (q, n1) -> leg idx b2 = Ok (q, n2) -> n1 <> n2 ->
     get_state_info self idx = Raise AssertionError).
Proof.
  intro Hlegs. unfold get_state_info. split.
  - intro Hc.
    destruct (state_info_loop_ok idx (blocks self) [] Hlegs) as [quanta E].
    + intros b q n d _ _ H. discriminate H.
    + exact Hc.
    + rewrite E. simpl. eauto.
  - intros b1 b2 q n1 n2 H1 H2 L1 L2 Hne.
    destruct (state_info_loop_total idx (blocks self) [] Hlegs) as [[quanta E]|E].
    + exfalso. apply Hne.
      destruct (state_info_loop _ _ _ _ E (NoDup_nil _)) as (_ & _ & Hall & _).
      destruct (Hall b1 H1) as (q1 & m1 & L1' & G1).
      destruct (Hall b2 H2) as (q2 & m2 & L2' & G2).
      rewrite L1 in L1'. rewrite L2 in L2'.
      inversion L1'; inversion L2'; subst. congruence.
    + rewrite E. reflexivity.
Qed.

End LegShapeFacts.

(** The last legs of the example of the canonicalization: label 5 with
    extent 2, label 7 with extent 1. *)
Lemma get_state_info_lookup_witness :
  dict_get q_eqb [(5%Z, 2); (7%Z, 1)] 5%Z = Some 2 /\
  NoDup (dict_keys [(5%Z, 2); (7%Z, 1)]).
Proof.
  assert (E : get_state_info isometry_example (-1)
              = Ok (mkStateInfo [(5%Z, 2); (7%Z, 1)]))
    by (vm_compute; reflexivity).
  destruct (get_state_info_lookup Z isometry_example (-1) _ E) as (_ & Hnd & _).
  split; [reflexivity|exact Hnd].
Defined.

Lemma get_state_info_consistency_witness :
  (exists si, get_state_info isometry_example (-1) = Ok si) /\
  get_state_info ragged_example (-1) = Raise AssertionError.
Proof.
  split.
  - refine (proj1 (get_state_info_consistency Z isometry_example (-1) _) _).
    + repeat constructor; eexists; reflexivity.
    + intros b1 b2 q n1 n2 H1 H2 L1 L2.
      simpl in H1, H2.
      destruct H1 as [<-|[<-|[<-|[]]]]; destruct H2 as [<-|[<-|[<-|[]]]];
        vm_compute in L1, L2; congruence.
  - refine (proj2 (get_state_info_consistency Z ragged_example (-1) _)
              (mkSubTensor [0; 0; 5]%Z (mkArray [1; 1; 2] [1; 0]%Z))
              (mkSubTensor [1; 0; 5]%Z (mkArray [1; 1; 3] [0; 1; 0]%Z))
              5%Z 2 3 _ _ eq_refl eq_refl _).
    + repeat constructor; eexists; reflexivity.
    + left. reflexivity.
    + right. left. reflexivity.
    + discriminate.
Defined.

(** ** More on [left_canonicalize] *)

Section CanonicalShapes.
Context {L : Type} `{QL : QuantumLabel L}.
Variable S : Type.
Variable qr : ndarray S -> ndarray S * ndarray S.
Variables (add mul : S -> S -> S) (zero one : S).
Variable close : S -> S -> Prop.

#[local] Abbreviation block := (SubTensor L (ndarray S)).

Lemma refs_from_complete (g : L) (a : nat) (bs : list block) (i : nat) (b : block) :
  a <= i -> nth_error bs (i - a) = Some b -> has_last_label g b = true ->
  In i (refs_from g a bs).
Proof.
  revert a. induction bs as [|b0 bs IH]; intros a Ha Hn Hg; simpl.
  - destruct (i - a); discriminate.
  - destruct (Nat.eq_dec i a) as [->|Hne].
    + rewrite Nat.sub_diag in Hn. simpl in Hn. inversion Hn; subst b0.
      rewrite Hg. left. reflexivity.
    + assert (Hin : In i (refs_from g (Datatypes.S a) bs)).
      { apply IH; [lia| |exact Hg].
        replace (i - a) with (Datatypes.S (i - Datatypes.S a)) in Hn by lia.
        exact Hn. }
      destruct (has_last_label g b0); [right|]; exact Hin.
Qed.

Lemma group_of_nil_refs (g : L) (a : nat) (bs : list block) :
  filter (has_last_label g) bs = [] <-> refs_from g a bs = [].
Proof.
  revert a. induction bs as [|b bs IH]; intro a; simpl; [tauto|].
  destruct (has_last_label g b); [split; discriminate|apply IH].
Qed.

(** Three lists read side by side. *)
Lemma zip_lookup {Y : Type} (f f' : nat -> option Y) (P : Y -> Y -> Prop)
    (refs : list nat) (bs nbs : list Y) :
  map f refs = map Some bs -> map f' refs = map Some nbs ->
  Forall2 P bs nbs ->
  forall r, In r refs -> exists b nb, f r = Some b /\ f' r = Some nb /\ P b nb.
Proof.
  intros H1 H2 HP. revert refs H1 H2.
  induction HP as [|b nb bs nbs Hb _ IH]; intros [|r0 refs] H1 H2 r Hr;
    simpl in *; try discriminate; try contradiction.
  inversion H1; inversion H2; subst.
  destruct Hr as [<-|Hr].
  - exists b, nb. auto.
  - apply (IH refs); assumption.
Qed.

Lemma canon_blocks_Forall2 (q : ndarray S) (c : nat) (bs : list block) :
  Forall2 (fun b nb : block =>
             q_labels nb = q_labels b /\
             shape (reduced nb) = removelast (shape (reduced b)) ++ [c])
          bs (canon_blocks q c bs).
Proof.
  unfold canon_blocks. generalize 0 as a.
  induction bs as [|b bs IH]; intro a; simpl; constructor.
  - split; reflexivity.
  - apply IH.
Qed.

(** What a run of [left_canonicalize] leaves in the list of blocks and in
    the carry map, group by group. *)
Lemma left_canonicalize_run (self : SparseTensor L (ndarray S)) :
  Forall (fun b : block => q_labels b <> []) (blocks self) ->
  (forall g, group_of g (blocks self) <> [] ->
     exists mat, stacked (group_of g (blocks self)) = Ok mat /\
                 qr_contract qr add mul zero one close mat) ->
  exists store' rmap',
    left_canonicalize qr self = Ok (with_blocks self store', rmap') /\
    length store' = length (blocks self) /\
    (forall g, group_of g (blocks self) = [] -> dict_get q_eqb rmap' g = None) /\
    (forall g, group_of g (blocks self) <> [] ->
       exists mat,
         stacked (group_of g (blocks self)) = Ok mat /\
         mapM (deref store') (refs_from g 0 (blocks self))
         = Ok (canon_blocks (fst (qr mat)) (hd 0 (shape (snd (qr mat))))
                 (group_of g (blocks self))) /\
         dict_get q_eqb rmap' g = Some (snd (qr mat))).
Proof.
  intros Hlab Hqr. set (orig := blocks self).
  assert (Hitems : Forall (fun ib : nat * block => q_labels (snd ib) <> [])
                          (enumerate orig)).
  { apply Forall_forall. intros [i b] Hin. simpl.
    apply in_combine_r in Hin. rewrite Forall_forall in Hlab. apply Hlab, Hin. }
  destruct (collect_total _ _ [] Hitems) as [d Hd].
  pose proof (collect_get _ _ _ Hd) as Hget.
  pose proof (collect_NoDup _ _ [] _ (NoDup_nil _) Hd) as Hnd.
  assert (Hrefs : forall g, dict_get q_eqb d g = group_entry (refs_from g 0 orig)).
  { intro g. rewrite Hget. unfold enumerate. rewrite refs_from_enumerate.
    reflexivity. }
  assert (Hgood : Forall (fun grp : L * list nat =>
             snd grp = refs_from (fst grp) 0 orig /\
             exists mat, stacked (group_of (fst grp) orig) = Ok mat /\
                         qr_contract qr add mul zero one close mat) d).
  { apply Forall_forall. intros [g refs] Hin.
    apply (dict_In_get _ _ _ q_eqb_spec _ _ _ Hnd) in Hin.
    rewrite Hrefs in Hin.
    destruct (refs_from g 0 orig) as [|k ks] eqn:Er; [discriminate|].
    inversion Hin; subst refs. split; [simpl; symmetry; exact Er|]. simpl.
    apply Hqr. intro Hnil. apply (group_of_nil_refs g 0 orig) in Hnil.
    fold orig in Hnil. congruence. }
  destruct (canonicalize_groups S qr add mul zero one close orig d orig [] Hnd Hgood
              eq_refl eq_refl (fun i _ => eq_refl))
    as (store' & rmap' & Hfold & Hlen' & _ & _ & Hrm & Hfin).
  exists store', rmap'. split.
  { unfold left_canonicalize, collect_rows.
    change (blocks self) with orig. rewrite Hd. cbn [bind].
    refine (eq_trans
              (f_equal (fun x => bind x (fun st => Ok (with_blocks self (fst st), snd st)))
                       Hfold) _).
    reflexivity. }
  split; [exact Hlen'|]. split.
  - intros g Hg. rewrite Hrm; [reflexivity|].
    intro Hin. unfold group_of in Hg. apply (group_of_nil_refs g 0 orig) in Hg.
    apply in_map_iff in Hin. destruct Hin as ([g' refs] & E & Hin). simpl in E. subst g'.
    apply (dict_In_get _ _ _ q_eqb_spec _ _ _ Hnd) in Hin.
    rewrite Hrefs, Hg in Hin. discriminate.
  - intros g Hg.
    assert (Hne : refs_from g 0 orig <> []).
    { intro Hnil. apply Hg. apply (group_of_nil_refs g 0 orig). exact Hnil. }
    assert (Hin : In (g, refs_from g 0 orig) d).
    { apply (dict_get_In _ _ _ q_eqb_spec). rewrite Hrefs.
      destruct (refs_from g 0 orig); [congruence|reflexivity]. }
    rewrite Forall_forall in Hfin.
    destruct (Hfin _ Hin) as (mat & Hst & Hd' & Hr'). simpl in Hst, Hd', Hr'.
    exists mat. auto.
Qed.

(** X14. [left_canonicalize] changes the last extent of the blocks and
    nothing else of their shapes: it keeps the number of the blocks, their
    order, their labels and their leading extents; the last extent of a
    block becomes the number of rows of the carry matrix of its last label;
    and the carry map has an entry exactly for the last labels of the
    blocks. *)
Theorem left_canonicalize_shapes (self : SparseTensor L (ndarray S)) :
  Forall (fun b : block => q_labels b <> []) (blocks self) ->
  (forall g, group_of g (blocks self) <> [] ->
     exists mat, stacked (group_of g (blocks self)) = Ok mat /\
                 qr_contract qr add mul zero one close mat) ->
  exists t' r_blocks_map,
    left_canonicalize qr self = Ok (t', r_blocks_map) /\
    n_blocks t' = n_blocks self /\
    (forall g, dict_get q_eqb r_blocks_map g <> None <->
               group_of g (blocks self) <> []) /\
    forall i b, nth_error (blocks self) i = Some b ->
      exists b' g R,
        nth_error (blocks t') i = Some b' /\
        q_labels b' = q_labels b /\
        py_index (q_labels b) (-1) = Ok g /\
        dict_get q_eqb r_blocks_map g = Some R /\
        shape (reduced b')
        = removelast (shape (reduced b)) ++ [hd 0 (shape R)].
Proof.
  intros Hlab Hqr.
  destruct (left_canonicalize_run self Hlab Hqr)
    as (store' & rmap' & Hrun & Hlen & Hnone & Hsome).
  exists (with_blocks self store'), rmap'.
  split; [exact Hrun|]. split; [exact Hlen|]. split.
  - intro g. split.
    + intros Hg Hnil. apply Hg. apply Hnone. exact Hnil.
    + intros Hg. destruct (Hsome g Hg) as (mat & _ & _ & Hr). congruence.
  - intros i b Hi.
    assert (Hb : In b (blocks self)) by (apply nth_error_In with (n := i); exact Hi).
    rewrite Forall_forall in Hlab.
    destruct (last_label_exists S b (Hlab b Hb)) as [g Hg].
    assert (Hgl : has_last_label g b = true).
    { unfold has_last_label. rewrite Hg. destruct (q_eqb_spec g g); congruence. }
    assert (Hgrp : group_of g (blocks self) <> []).
    { intro Hnil. assert (Hin : In b (group_of g (blocks self)))
        by (apply filter_In; split; assumption).
      rewrite Hnil in Hin. exact Hin. }
    destruct (Hsome g Hgrp) as (mat & Hst & Hd & Hr).
    assert (Hir : In i (refs_from g 0 (blocks self))).
    { apply (refs_from_complete g 0 (blocks self) i b); [lia| |exact Hgl].
      rewrite Nat.sub_0_r. exact Hi. }
    pose proof (deref_inv S _ _ _ (refs_from_deref S g [] (blocks self))) as H1.
    simpl in H1.
    pose proof (deref_inv S _ _ _ Hd) as H2.
    destruct (zip_lookup _ _ _ _ _ _ H1 H2
                (canon_blocks_Forall2 (fst (qr mat)) (hd 0 (shape (snd (qr mat)))) _)
                i Hir) as (b0 & nb & Hb0 & Hnb & Hl & Hs).
    rewrite Hi in Hb0. inversion Hb0; subst b0.
    exists nb, g, (snd (qr mat)). simpl. auto.
Qed.


(** ** Blocks with fewer than two array axes *)

Lemma collect_head (items : list (nat * block)) (g0 : L) (v0 : list nat)
    (d0 d : dict L (list nat)) :
  foldM collect_step items ((g0, v0) :: d0) = Ok d ->
  exists v d', d = (g0, v) :: d'.
Proof.
  revert v0 d0. induction items as [|ib items IH]; intros v0 d0 E; simpl in E.
  - inversion E. eauto.
  - bind_inv E. unfold collect_step in Hx. bind_inv Hx.
    inversion Hx; subst x; clear Hx. simpl in E.
    destruct (q_eqb g0 x0); apply IH in E; exact E.
Qed.

(** X15. [left_canonicalize] raises [TypeError] on a collection whose
    first block is an array with fewer than two axes: [np.prod] of the
    empty leading shape is the float [1.0], which [reshape] refuses. *)
Theorem left_canonicalize_flat_block (self : SparseTensor L (ndarray S))
    (b0 : block) (rest : list block) :
  blocks self = b0 :: rest ->
  Forall (fun b : block => q_labels b <> []) (blocks self) ->
  length (shape (reduced b0)) <= 1 ->
  left_canonicalize qr self = Raise TypeError.
Proof.
  intros Hb Hlab Hflat.
  assert (Hitems : Forall (fun ib : nat * block => q_labels (snd ib) <> [])
                          (enumerate (blocks self))).
  { apply Forall_forall. intros [i b] Hin. simpl.
    apply in_combine_r in Hin. rewrite Forall_forall in Hlab. apply Hlab, Hin. }
  destruct (collect_total _ _ [] Hitems) as [d Hd].
  pose proof (collect_get _ _ _ Hd) as Hget.
  assert (Hl0 : q_labels b0 <> []).
  { rewrite Forall_forall in Hlab. apply Hlab. rewrite Hb. left. reflexivity. }
  destruct (last_label_exists S b0 Hl0) as [g0 Hg0].
  assert (Hgl : has_last_label g0 b0 = true).
  { unfold has_last_label. rewrite Hg0. destruct (q_eqb_spec g0 g0); congruence. }
  assert (Hhead : exists v d', d = (g0, v) :: d').
  { assert (Hstep : collect_step [] (0, b0) = Ok [(g0, [0])]).
    { unfold collect_step. cbn [fst snd]. rewrite Hg0. reflexivity. }
    revert Hd. rewrite Hb. unfold enumerate. cbn [length seq combine foldM].
    rewrite Hstep. cbn [bind]. apply collect_head. }
  destruct Hhead as (v & d' & ->).
  assert (Hv : v = 0 :: refs_from g0 1 rest).
  { specialize (Hget g0). simpl in Hget.
    destruct (q_eqb_spec g0 g0) as [_|N]; [|congruence].
    unfold enumerate in Hget. rewrite refs_from_enumerate, Hb in Hget.
    simpl in Hget. rewrite Hgl in Hget. simpl in Hget. inversion Hget. reflexivity. }
  subst v.
  pose proof (refs_from_deref S g0 [] (blocks self)) as Hderef. simpl in Hderef.
  rewrite Hb in Hderef at 2 3. simpl in Hderef. rewrite Hgl in Hderef.
  unfold left_canonicalize, collect_rows. rewrite Hd. cbn [bind foldM].
  unfold canonicalize_group at 1. cbn [fst snd]. rewrite Hderef. cbn [bind].
  cbn [map combine mapM fst snd].
  assert (Hty : forall sh, reshape_leading (reduced b0) sh = Raise TypeError).
  { intro sh. unfold reshape_leading.
    destruct (shape (reduced b0)) as [|n [|m l]]; simpl in *; try reflexivity. lia. }
  rewrite Hty. reflexivity.
Qed.

End CanonicalShapes.

Lemma left_canonicalize_shapes_witness :
  exists t' r_blocks_map,
    left_canonicalize qr_of_isometry isometry_example = Ok (t', r_blocks_map) /\
    n_blocks t' = 3 /\
    (dict_get q_eqb r_blocks_map 5%Z <> None <->
     group_of 5%Z (blocks isometry_example) <> []).
Proof.
  assert (Hlab : Forall (fun b : SubTensor Z (ndarray Z) => q_labels b <> [])
                        (blocks isometry_example))
    by (repeat constructor; discriminate).
  destruct (left_canonicalize_shapes Z qr_of_isometry Z.add Z.mul 0%Z 1%Z eq
              isometry_example Hlab isometry_example_contract)
    as (t' & rmap & Hrun & Hn & Hkeys & _).
  exists t', rmap. split; [exact Hrun|]. split; [exact Hn|apply Hkeys].
Defined.

(** A collection of one block with one leg. *)
Lemma left_canonicalize_flat_block_witness :
  left_canonicalize qr_of_isometry
    (mkSparseTensor [mkSubTensor [5%Z] (mkArray [2] [1; 0]%Z)] LeftFusedMPSTensor None)
  = Raise TypeError.
Proof.
  refine (left_canonicalize_flat_block Z qr_of_isometry
            (mkSparseTensor [mkSubTensor [5%Z] (mkArray [2] [1; 0]%Z)]
               LeftFusedMPSTensor None)
            (mkSubTensor [5%Z] (mkArray [2] [1; 0]%Z)) [] eq_refl _ _).
  - repeat constructor; discriminate.
  - simpl. lia.
Defined.

(** ** [left_compress] *)

Section CompressLoops.
Context {L : Type} `{QL : QuantumLabel L}.
Variable svd : ndarray Q -> matrix * list Q * matrix.

#[local] Abbreviation block := (SubTensor L (ndarray Q)).

(** *** The first loop *)

Lemma group_of_snoc (g : L) (bs : list block) (b : block) :
  group_of g (bs ++ [b])
  = group_of g bs ++ (if has_last_label g b then [b] else []).
Proof. unfold group_of. rewrite filter_app. simpl. destruct (has_last_label g b); reflexivity. Qed.

Lemma collect_blocks_get (bs : list block) (d : dict L (list block)) :
  foldM collect_block bs [] = Ok d ->
  forall g, dict_get q_eqb d g = group_entry (group_of g bs).
Proof.
  revert d. induction bs as [|b bs IH] using rev_ind; intros d E g.
  - inversion E; reflexivity.
  - rewrite foldM_app in E. bind_inv E. simpl in E. bind_inv E.
    inversion E; subst; clear E. unfold collect_block in Hx0. bind_inv Hx0.
    inversion Hx0; subst; clear Hx0.
    rewrite (dict_get_set _ _ _ q_eqb_spec), group_of_snoc.
    unfold has_last_label. rewrite Hx1.
    rewrite (IH _ Hx x0), (IH _ Hx g).
    destruct (q_eqb_spec x0 g) as [->|Hne].
    + rewrite group_entry_app. reflexivity.
    + rewrite app_nil_r. reflexivity.
Qed.

Lemma collect_blocks_NoDup (bs : list block) (d0 d : dict L (list block)) :
  NoDup (dict_keys d0) -> foldM collect_block bs d0 = Ok d -> NoDup (dict_keys d).
Proof.
  revert d0. induction bs as [|b bs IH]; intros d0 H0 E; simpl in E.
  - inversion E; subst; exact H0.
  - bind_inv E. apply (IH x); [|exact E].
    unfold collect_block in Hx. bind_inv Hx. inversion Hx; subst.
    apply dict_set_NoDup; [apply q_eqb_spec|exact H0].
Qed.

Lemma collect_blocks_total (bs : list block) (d0 : dict L (list block)) :
  Forall (fun b : block => q_labels b <> []) bs ->
  exists d, foldM collect_block bs d0 = Ok d.
Proof.
  intro H. revert d0. induction H as [|b bs Hb _ IH]; intro d0; simpl; [eauto|].
  destruct (last_label_exists Q b Hb) as [q Hq].
  unfold collect_block at 1. rewrite Hq. simpl. apply IH.
Qed.

Lemma existsb_keys {V : Type} (d : dict L V) (q : L) :
  existsb (q_eqb q) (dict_keys d) = dict_mem q_eqb d q.
Proof.
  unfold dict_mem. induction d as [|[k v] d IH]; simpl; [reflexivity|].
  destruct (q_eqb_spec q k) as [->|Hne]; simpl.
  - destruct (q_eqb_spec k k); [reflexivity|congruence].
  - destruct (q_eqb_spec k q); [congruence|exact IH].
Qed.

Lemma collect_blocks_keys (bs : list block) (d0 d : dict L (list block)) :
  foldM collect_block bs d0 = Ok d ->
  dict_keys d
  = fold_left (fun acc (b : block) =>
                 match py_index (q_labels b) (-1) with
                 | Ok q => if existsb (q_eqb q) acc then acc else acc ++ [q]
                 | Raise _ => acc
                 end) bs (dict_keys d0).
Proof.
  revert d0. induction bs as [|b bs IH]; intros d0 E; simpl in E.
  - inversion E; reflexivity.
  - bind_inv E. rewrite (IH _ E). simpl.
    unfold collect_block in Hx. bind_inv Hx. inversion Hx; subst; clear Hx.
    rewrite Hx0, (dict_keys_set _ _ _ q_eqb_spec), existsb_keys. reflexivity.
Qed.

(** The dictionary of the first loop: the groups of the last labels, in
    the order of first appearance. *)
Lemma collect_blocks_groups (bs : list block) (d : dict L (list block)) :
  foldM collect_block bs [] = Ok d ->
  d = map (fun g => (g, group_of g bs)) (last_labels bs) /\
  NoDup (last_labels bs) /\
  forall g, In g (last_labels bs) <-> group_of g bs <> [].
Proof.
  intro E.
  pose proof (collect_blocks_get _ _ E) as Hget.
  pose proof (collect_blocks_NoDup _ [] _ (NoDup_nil _) E) as Hnd.
  pose proof (collect_blocks_keys _ _ _ E) as Hk. simpl in Hk.
  fold (last_labels bs) in Hk. rewrite <- Hk.
  split; [|split; [exact Hnd|]].
  - unfold dict_keys. rewrite map_map.
    rewrite <- (map_id d) at 1. apply map_ext_in. intros [g v] Hin. simpl.
    apply (dict_In_get _ _ _ q_eqb_spec _ _ _ Hnd) in Hin.
    rewrite Hget in Hin. destruct (group_of g bs); [discriminate|].
    inversion Hin. reflexivity.
  - intro g. split.
    + intros Hin Hnil. unfold dict_keys in Hin. apply in_map_iff in Hin.
      destruct Hin as ([g' v] & Eg & Hin). simpl in Eg. subst g'.
      apply (dict_In_get _ _ _ q_eqb_spec _ _ _ Hnd) in Hin.
      rewrite Hget, Hnil in Hin. discriminate.
    + intro Hne. specialize (Hget g).
      destruct (group_of g bs) as [|b l] eqn:Eg; [congruence|].
      apply (dict_get_In _ _ _ q_eqb_spec) in Hget.
      change g with (fst (g, b :: l)). apply in_map. exact Hget.
Qed.

(** *** The second loop *)

Lemma svd_group_stacked (st : list (list Q) * list matrix * list matrix)
    (g : L) (bs : list block) (mat : ndarray Q) :
  stacked bs = Ok mat ->
  svd_group svd st (g, bs)
  = Ok (fst (fst st) ++ [snd (fst (svd mat))],
        snd (fst st) ++ [fst (fst (svd mat))],
        snd st ++ [snd (svd mat)]).
Proof.
  intro Hst. unfold svd_group. cbn [fst snd].
  change (map (fun b : block => size_of (removelast (shape (reduced b)))) bs)
    with (map (@leading_size L Q) bs).
  rewrite (mapM_combine_map leading_size
             (fun (b : block) sh => reshape_leading (reduced b) sh)).
  change (mapM (fun x : block => reshape_leading (reduced x) (leading_size x)) bs)
    with (mapM flatten_leading bs).
  unfold stacked in Hst.
  destruct (mapM flatten_leading bs) as [ms|e]; [|discriminate].
  cbn [bind] in *. rewrite Hst. cbn [bind].
  destruct (svd mat) as [[u s] vh]. reflexivity.
Qed.

Lemma svd_groups (bs : list block) (gs : list L)
    (st : list (list Q) * list matrix * list matrix) :
  (forall g, In g gs -> stacked (group_of g bs) = Ok (group_mat bs g)) ->
  foldM (svd_group svd) (map (fun g => (g, group_of g bs)) gs) st
  = Ok (fst (fst st) ++ map (group_s svd bs) gs,
        snd (fst st) ++ map (group_u svd bs) gs,
        snd st ++ map (group_vh svd bs) gs).
Proof.
  revert st. induction gs as [|g gs IH]; intros st H; simpl.
  - rewrite !app_nil_r. destruct st as [[a b] c]. reflexivity.
  - rewrite (svd_group_stacked st g _ _ (H g (or_introl eq_refl))). cbn [bind].
    rewrite IH by (intros g' Hg'; apply H; right; exact Hg').
    cbn [fst snd]. rewrite <- !app_assoc. reflexivity.
Qed.

End CompressLoops.

Section CompressSelect.

(** *** The third loop *)

Lemma list_get_app {T : Type} (pre suf : list T) (x : T) :
  list_get (pre ++ x :: suf) (length pre) = Ok x.
Proof.
  unfold list_get. rewrite nth_error_app2, Nat.sub_diag by lia. reflexivity.
Qed.

Lemma list_set_app {T : Type} (pre suf : list T) (x y : T) :
  list_set (pre ++ x :: suf) (length pre) y = pre ++ y :: suf.
Proof. induction pre as [|z pre IH]; simpl; [reflexivity|]. rewrite IH. reflexivity. Qed.

Lemma forallb_lt (n : nat) (gl : list nat) :
  Forall (fun j => j < n) gl -> forallb (fun j => j <? n) gl = true.
Proof.
  intro H. apply forallb_forall. rewrite Forall_forall in H.
  intros j Hj. apply Nat.ltb_lt. auto.
Qed.

Lemma select_loop_from (svd_s : list (list Q)) (gsuf : list (option (list nat))) :
  forall (a : nat) (pre_l pre_r suf_l suf_r : list matrix),
    length pre_l = a -> length pre_r = a ->
    length suf_l = length gsuf -> length suf_r = length gsuf ->
    Forall selectable (combine gsuf (combine suf_l suf_r)) ->
    foldM (select_step svd_s) (combine (seq a (length gsuf)) gsuf)
          (pre_l ++ suf_l, pre_r ++ suf_r)
    = Ok (pre_l ++ map (fun x => kept_cols svd_s (fst x) (fst (snd x)) (snd (snd x)))
                       (combine (seq a (length gsuf)) (combine gsuf suf_l)),
          pre_r ++ map (fun x => kept_rows svd_s (fst x) (fst (snd x)) (snd (snd x)))
                       (combine (seq a (length gsuf)) (combine gsuf suf_r))).
Proof.
  induction gsuf as [|ogl gsuf IH]; intros a pre_l pre_r suf_l suf_r Hl Hr Sl Sr Hsel.
  - destruct suf_l, suf_r; try discriminate. reflexivity.
  - destruct suf_l as [|u suf_l], suf_r as [|v suf_r]; try discriminate.
    subst a.
    simpl in Sl, Sr, Hsel. inversion Hsel as [|? ? Hs Hsel']; subst.
    cbn [length seq combine foldM map fst snd].
    assert (Hstep : select_step svd_s (pre_l ++ u :: suf_l, pre_r ++ v :: suf_r)
                      (length pre_l, ogl)
                    = Ok (pre_l ++ kept_cols svd_s (length pre_l) ogl u :: suf_l,
                          pre_r ++ kept_rows svd_s (length pre_l) ogl v :: suf_r)).
    { unfold select_step, kept_cols, kept_rows. cbn [fst snd].
      destruct ogl as [gl|]; [|reflexivity].
      destruct (length gl =? length (nth (length pre_l) svd_s [])); [reflexivity|].
      cbn [negb]. unfold selectable in Hs. cbn [fst snd] in Hs. destruct Hs as [Hc Hrw].
      rewrite list_get_app. cbn [bind].
      unfold take_cols. rewrite (forallb_lt _ _ Hc). cbn [bind].
      replace (list_get (pre_r ++ v :: suf_r) (length pre_l)) with (Ok v)
        by (rewrite <- Hr; symmetry; apply list_get_app).
      cbn [bind].
      unfold take_rows. rewrite (forallb_lt _ _ Hrw). cbn [bind].
      rewrite list_set_app.
      replace (list_set (pre_r ++ v :: suf_r) (length pre_l) (rows v gl))
        with (pre_r ++ rows v gl :: suf_r)
        by (rewrite <- Hr; symmetry; apply list_set_app).
      reflexivity. }
    rewrite Hstep. cbn [bind].
    specialize (IH (Datatypes.S (length pre_l))
                   (pre_l ++ [kept_cols svd_s (length pre_l) ogl u])
                   (pre_r ++ [kept_rows svd_s (length pre_l) ogl v])
                   suf_l suf_r).
    rewrite <- !app_assoc in IH. simpl in IH.
    rewrite IH.
    + reflexivity.
    + rewrite length_app. simpl. lia.
    + rewrite length_app. simpl. lia.
    + lia.
    + lia.
    + exact Hsel'.
Qed.

Lemma select_loop (svd_s : list (list Q)) (gls : list (option (list nat)))
    (blocks_l blocks_r : list matrix) :
  length blocks_l = length gls -> length blocks_r = length gls ->
  Forall selectable (combine gls (combine blocks_l blocks_r)) ->
  foldM (select_step svd_s) (enumerate gls) (blocks_l, blocks_r)
  = Ok (map (fun x => kept_cols svd_s (fst x) (fst (snd x)) (snd (snd x)))
            (enumerate (combine gls blocks_l)),
        map (fun x => kept_rows svd_s (fst x) (fst (snd x)) (snd (snd x)))
            (enumerate (combine gls blocks_r))).
Proof.
  intros Hl Hr Hsel. unfold enumerate.
  rewrite !length_combine, Hl, Hr, Nat.min_id.
  exact (select_loop_from svd_s gls 0 [] [] blocks_l blocks_r eq_refl eq_refl Hl Hr Hsel).
Qed.

End CompressSelect.

Section CompressAssemble.
Context {L : Type} `{QL : QuantumLabel L}.

#[local] Abbreviation block := (SubTensor L (ndarray Q)).

(** *** The fourth loop *)

Lemma length_removelast_S {T : Type} (l : list T) :
  l <> [] -> length (removelast l) + 1 = length l.
Proof.
  intro H. destruct (exists_last H) as (l' & x & ->).
  rewrite removelast_last, length_app. reflexivity.
Qed.

Lemma compressed_blocks (q : ndarray Q) (n c : nat) :
  length (data q) = n * c ->
  forall (bs : list block) (a : nat) (acc : list block),
    Forall (fun b : block =>
              removelast (shape (reduced b)) <> [] /\
              length (shape (reduced b)) = length (q_labels b)) bs ->
    a + fold_right Nat.add 0 (map leading_size bs) <= n ->
    foldM (compressed_block c)
          (combine (pieces c (data q) a (map leading_size bs)) bs) acc
    = Ok (acc ++ map (with_slice c)
                     (combine (pieces c (data q) a (map leading_size bs)) bs)).
Proof.
  intro Hlen. induction bs as [|b bs IH]; intros a acc Hwf Hn; simpl.
  - rewrite app_nil_r. reflexivity.
  - inversion Hwf as [|? ? [Hr Hl] Hwf']; subst. simpl in Hn.
    unfold compressed_block at 1. cbn [fst snd]. unfold reshape. cbn [data].
    rewrite size_of_app. simpl size_of at 2. rewrite Nat.mul_1_r.
    fold (leading_size b).
    rewrite (piece_length _ q n c Hlen a (leading_size b)) by lia.
    rewrite Nat.eqb_refl. cbn [bind].
    unfold SubTensor_of. cbn [shape].
    assert (Hsh : shape (reduced b) <> []) by (intro E; rewrite E in Hr; apply Hr; reflexivity).
    rewrite length_app. change (length [c]) with 1.
    rewrite (length_removelast_S _ Hsh), Hl, Nat.eqb_refl, andb_false_r. cbn [bind].
    rewrite IH by (assumption || lia).
    rewrite <- app_assoc. reflexivity.
Qed.

Lemma scale_rows_square (s : list Q) (m : matrix) :
  nrows m = length s -> scale_rows s m = Ok (scaled_rows s m).
Proof. intro H. unfold scale_rows. rewrite H, Nat.eqb_refl. reflexivity. Qed.

Lemma assemble_group_kept (svd_r : list (option (list Q))) (bl br : list matrix)
    (acc : list block) (rmap : dict L (ndarray Q))
    (ik : nat) (g : L) (bs : list block) (sk : list Q) (mat : ndarray Q) :
  nth_error svd_r ik = Some (Some sk) ->
  ik < length bl -> ik < length br ->
  stacked bs = Ok mat ->
  Forall (fun b : block => length (shape (reduced b)) = length (q_labels b)) bs ->
  nrows (nth ik bl (mkMatrix 0 0 [])) = fold_right Nat.add 0 (map leading_size bs) ->
  length (entries (nth ik bl (mkMatrix 0 0 [])))
  = nrows (nth ik bl (mkMatrix 0 0 [])) * ncols (nth ik bl (mkMatrix 0 0 [])) ->
  nrows (nth ik br (mkMatrix 0 0 [])) = length sk ->
  assemble_group svd_r bl br (acc, rmap) (ik, (g, bs))
  = Ok (acc ++ group_blocks svd_r bl (ik, (g, bs)),
        group_carry svd_r br rmap (ik, (g, bs))).
Proof.
  intros Hsr Hbl Hbr Hst Hwf Hrows Hent Hv.
  destruct (stacked_shape _ _ _ Hst) as (Hne & Hls & cm & Hmat).
  unfold assemble_group, group_blocks, group_carry. cbn [fst snd].
  unfold list_get. rewrite Hsr. cbn [bind].
  rewrite (nth_error_nth svd_r ik None Hsr).
  rewrite (nth_error_nth' bl (mkMatrix 0 0 []) Hbl). cbn [bind].
  rewrite (nth_error_nth' br (mkMatrix 0 0 []) Hbr).
  set (u := nth ik bl (mkMatrix 0 0 [])) in *.
  set (v := nth ik br (mkMatrix 0 0 [])) in *.
  change (map (fun b : block => size_of (removelast (shape (reduced b)))) bs)
    with (map (@leading_size L Q) bs).
  assert (Hne' : map (@leading_size L Q) bs <> [])
    by (destruct bs; [congruence|discriminate]).
  unfold split_rows. cbn [as_array shape]. unfold accumulate.
  rewrite (split_from_pieces _ (as_array u) (nrows u) (ncols u) 0 _ eq_refl Hne'
             (eq_sym Hrows)).
  cbn [bind].
  rewrite (compressed_blocks (as_array u) (nrows u) (ncols u) Hent bs 0 acc).
  - cbn [bind]. rewrite (scale_rows_square sk v Hv). cbn [bind].
    unfold canon_blocks. reflexivity.
  - apply Forall_forall. intros b Hb. rewrite Forall_forall in Hls, Hwf.
    split; [apply (Hls b Hb)|apply (Hwf b Hb)].
  - simpl. lia.
Qed.

Lemma assemble_group_dropped (svd_r : list (option (list Q))) (bl br : list matrix)
    (acc : list block) (rmap : dict L (ndarray Q))
    (ik : nat) (g : L) (bs : list block) :
  nth_error svd_r ik = Some None ->
  assemble_group svd_r bl br (acc, rmap) (ik, (g, bs))
  = Ok (acc ++ group_blocks svd_r bl (ik, (g, bs)),
        group_carry svd_r br rmap (ik, (g, bs))).
Proof.
  intro Hsr. unfold assemble_group, group_blocks, group_carry. cbn [fst snd].
  unfold list_get. rewrite Hsr. cbn [bind].
  rewrite (nth_error_nth svd_r ik None Hsr). rewrite app_nil_r. reflexivity.
Qed.

Lemma assemble_loop (svd_r : list (option (list Q))) (bl br : list matrix)
    (items : list (nat * (L * list block))) :
  forall (acc : list block) (rmap : dict L (ndarray Q)),
    Forall (fun ig =>
              fst ig < length svd_r /\
              forall sk, nth (fst ig) svd_r None = Some sk ->
                fst ig < length bl /\ fst ig < length br /\
                (exists mat, stacked (snd (snd ig)) = Ok mat) /\
                Forall (fun b : block =>
                          length (shape (reduced b)) = length (q_labels b))
                       (snd (snd ig)) /\
                nrows (nth (fst ig) bl (mkMatrix 0 0 []))
                = fold_right Nat.add 0 (map leading_size (snd (snd ig))) /\
                length (entries (nth (fst ig) bl (mkMatrix 0 0 [])))
                = nrows (nth (fst ig) bl (mkMatrix 0 0 []))
                  * ncols (nth (fst ig) bl (mkMatrix 0 0 [])) /\
                nrows (nth (fst ig) br (mkMatrix 0 0 [])) = length sk)
           items ->
    foldM (assemble_group svd_r bl br) items (acc, rmap)
    = Ok (acc ++ flat_map (group_blocks svd_r bl) items,
          fold_left (group_carry svd_r br) items rmap).
Proof.
  induction items as [|[ik [g bs]] items IH]; intros acc rmap H; simpl.
  - rewrite app_nil_r. reflexivity.
  - inversion H as [|? ? [Hik Hk] H']; subst. cbn [fst snd] in *.
    assert (Hstep : assemble_group svd_r bl br (acc, rmap) (ik, (g, bs))
                    = Ok (acc ++ group_blocks svd_r bl (ik, (g, bs)),
                          group_carry svd_r br rmap (ik, (g, bs)))).
    { destruct (nth_error svd_r ik) as [[sk|]|] eqn:Esr.
      - destruct (Hk sk (nth_error_nth svd_r ik None Esr))
          as (Hbl & Hbr & (mat & Hst) & Hwf & Hrows & Hent & Hv).
        apply (assemble_group_kept svd_r bl br acc rmap ik g bs sk mat); assumption.
      - apply assemble_group_dropped. exact Esr.
      - apply nth_error_None in Esr. lia. }
    rewrite Hstep. cbn [bind]. rewrite IH by exact H'.
    rewrite <- app_assoc. reflexivity.
Qed.

End CompressAssemble.

Section CompressRun.
Context {L : Type} `{QL : QuantumLabel L}.
Variable svd : ndarray Q -> matrix * list Q * matrix.

#[local] Abbreviation block := (SubTensor L (ndarray Q)).

(** *** Lists read by position *)

Lemma In_enumerate_from {T : Type} (l : list T) (a i : nat) (x : T) :
  In (i, x) (combine (seq a (length l)) l) <-> a <= i /\ nth_error l (i - a) = Some x.
Proof.
  revert a. induction l as [|y l IH]; intro a; simpl.
  - split; [tauto|]. intros [_ H]. destruct (i - a); discriminate.
  - rewrite IH. split.
    + intros [E|[Hi Hn]].
      * inversion E; subst. rewrite Nat.sub_diag. auto.
      * split; [lia|]. replace (i - a) with (Datatypes.S (i - Datatypes.S a)) by lia.
        exact Hn.
    + intros [Hi Hn]. destruct (Nat.eq_dec i a) as [->|Hne].
      * rewrite Nat.sub_diag in Hn. simpl in Hn. inversion Hn. auto.
      * right. split; [lia|].
        replace (i - a) with (Datatypes.S (i - Datatypes.S a)) in Hn by lia.
        exact Hn.
Qed.

Lemma In_enumerate {T : Type} (l : list T) (i : nat) (x : T) :
  In (i, x) (enumerate l) <-> nth_error l i = Some x.
Proof.
  unfold enumerate. rewrite In_enumerate_from, Nat.sub_0_r.
  split; [tauto|]. intro H. split; [lia|exact H].
Qed.

Lemma nth_map_enumerate {T U : Type} (f : nat * T -> U) (l : list T) (i : nat)
    (x : T) (d : U) :
  nth_error l i = Some x -> nth i (map f (enumerate l)) d = f (i, x).
Proof.
  intro H. apply nth_error_nth.
  apply map_nth_error. unfold enumerate.
  assert (Hi : i < length l) by (apply nth_error_Some; congruence).
  rewrite (nth_error_nth' _ (0, x)) by (rewrite length_combine, length_seq; lia).
  rewrite combine_nth by apply length_seq.
  rewrite seq_nth by exact Hi.
  rewrite (nth_error_nth l i x H). reflexivity.
Qed.

Lemma nth_error_combine {T U : Type} (l1 : list T) (l2 : list U) (i : nat)
    (x : T) (y : U) :
  nth_error l1 i = Some x -> nth_error l2 i = Some y ->
  nth_error (combine l1 l2) i = Some (x, y).
Proof.
  revert l2 i. induction l1 as [|a l1 IH]; intros [|b l2] [|i] H1 H2;
    simpl in *; try discriminate.
  - inversion H1; inversion H2; reflexivity.
  - apply IH; assumption.
Qed.

Lemma Forall_combine3 {T U V : Type} (P : T * (U * V) -> Prop)
    (l1 : list T) (l2 : list U) (l3 : list V) :
  (forall i x y z, nth_error l1 i = Some x -> nth_error l2 i = Some y ->
                   nth_error l3 i = Some z -> P (x, (y, z))) ->
  Forall P (combine l1 (combine l2 l3)).
Proof.
  revert l2 l3. induction l1 as [|x l1 IH]; intros [|y l2] [|z l3] H; simpl;
    try constructor.
  - apply (H 0); reflexivity.
  - apply IH. intros i. apply (H (Datatypes.S i)).
Qed.

Lemma length_flat_map_const {T U : Type} (f : T -> list U) (c : nat) (l : list T) :
  (forall x, length (f x) = c) -> length (flat_map f l) = length l * c.
Proof.
  intro H. induction l as [|x l IH]; simpl; [reflexivity|].
  rewrite length_app, H, IH. reflexivity.
Qed.

(** *** The truncation, group by group *)

Lemma kept_values (svd_s : list (list Q)) (k : Z) (cutoff : Q) (ik : nat) :
  nth ik (ts_svd_r (truncate_loops svd_s k cutoff)) None
  = option_map (take (nth ik svd_s []))
      (nth ik (ts_gls (truncate_loops svd_s k cutoff)) None) /\
  forall gl, nth ik (ts_gls (truncate_loops svd_s k cutoff)) None = Some gl ->
    gl <> [] /\ StronglySorted lt gl /\
    Forall (fun j => j < length (nth ik svd_s [])) gl.
Proof.
  destruct (gls_entry svd_s k cutoff ik) as [H1 H2]. rewrite H1, H2.
  pose proof (group_indices_sorted svd_s k cutoff ik) as Hs.
  pose proof (group_indices_bound svd_s k cutoff ik) as Hb.
  destruct (filter (fun e => t_group e =? ik) (ss_trunc_sorted svd_s k cutoff))
    as [|e l]; cbn [group_entry option_map].
  - split; [reflexivity|]. intros gl H. discriminate H.
  - split; [reflexivity|]. intros gl H. inversion H; subst gl.
    split; [discriminate|]. split; assumption.
Qed.

(** *** The run *)

Lemma group_of_wf (g : L) (bs : list block) (P : block -> Prop) :
  Forall P bs -> Forall P (group_of g bs).
Proof.
  intro H. apply Forall_forall. intros b Hb. apply filter_In in Hb.
  rewrite Forall_forall in H. apply H. tauto.
Qed.

Lemma left_compress_run (self : SparseTensor L (ndarray Q)) (k : Z) (cutoff : Q) :
  let bs := blocks self in
  let gs := last_labels bs in
  let svd_s := map (group_s svd bs) gs in
  let res := truncate_loops svd_s k cutoff in
  let bl := map (fun x => kept_cols svd_s (fst x) (fst (snd x)) (snd (snd x)))
                (enumerate (combine (ts_gls res) (map (group_u svd bs) gs))) in
  let br := map (fun x => kept_rows svd_s (fst x) (fst (snd x)) (snd (snd x)))
                (enumerate (combine (ts_gls res) (map (group_vh svd bs) gs))) in
  let items := enumerate (map (fun g => (g, group_of g bs)) gs) in
  Forall (fun b : block =>
            q_labels b <> [] /\ length (shape (reduced b)) = length (q_labels b)) bs ->
  (forall g, In g gs ->
     stacked (group_of g bs) = Ok (group_mat bs g) /\
     svd_shapes svd (group_mat bs g)) ->
  left_compress svd self k cutoff
  = Ok (mkSparseTensor (flat_map (group_blocks (ts_svd_r res) bl) items)
          (ftype self) None,
        fold_left (group_carry (ts_svd_r res) br) items [],
        snd (truncate_singular_values svd_s k cutoff)).
Proof.
  intros bs gs svd_s res bl br items Hwf Hsvd.
  assert (Hlab : Forall (fun b : block => q_labels b <> []) bs).
  { apply Forall_impl with (2 := Hwf). tauto. }
  destruct (collect_blocks_total bs [] Hlab) as [d Hd].
  destruct (collect_blocks_groups bs d Hd) as (Ed & Hnd & Hin).
  fold gs in Ed, Hnd, Hin.
  pose proof (svd_groups svd bs gs ([], [], [])
                (fun g Hg => proj1 (Hsvd g Hg))) as H2.
  cbn [fst snd app] in H2. fold svd_s in H2.
  destruct (truncate_loops_length svd_s k cutoff) as [Lg Lr].
  fold res in Lg, Lr.
  assert (Ln : length svd_s = length gs) by (unfold svd_s; apply length_map).
  (* the columns and rows that are kept exist *)
  assert (Hsel : Forall selectable
                   (combine (ts_gls res)
                      (combine (map (group_u svd bs) gs) (map (group_vh svd bs) gs)))).
  { apply Forall_combine3. intros i ogl u v Hg Hu Hv.
    unfold selectable. cbn [fst snd]. destruct ogl as [gl|]; [|exact I].
    rewrite nth_error_map in Hu. rewrite nth_error_map in Hv.
    destruct (nth_error gs i) as [g|] eqn:Eg; simpl in Hu, Hv; [|discriminate].
    inversion Hu; subst u. inversion Hv; subst v.
    destruct (kept_values svd_s k cutoff i) as [_ Hk].
    destruct (Hk gl (nth_error_nth _ _ _ Hg)) as (_ & _ & Hb).
    assert (Es : nth i svd_s [] = group_s svd bs g).
    { apply nth_error_nth. unfold svd_s. apply map_nth_error. exact Eg. }
    rewrite Es in Hb.
    destruct (Hsvd g (nth_error_In _ _ Eg)) as [_ Hsh].
    unfold svd_shapes, group_u, group_vh, group_s in *.
    destruct (svd (group_mat bs g)) as [[u s] vh]. cbn [fst snd] in *.
    destruct Hsh as (n & p & _ & _ & Hc & _ & Hr & _).
    rewrite Hc, Hr. split; exact Hb. }
  pose proof (select_loop svd_s (ts_gls res) _ _
                (eq_trans (length_map _ _) (eq_trans (eq_sym Ln) (eq_sym Lg)))
                (eq_trans (length_map _ _) (eq_trans (eq_sym Ln) (eq_sym Lg)))
                Hsel) as H3.
  fold bl br in H3.
  (* the blocks of the kept groups *)
  assert (Hlen_bl : length bl = length gs).
  { unfold bl, enumerate. rewrite length_map, length_combine, length_seq.
    rewrite length_combine, length_map. lia. }
  assert (Hlen_br : length br = length gs).
  { unfold br, enumerate. rewrite length_map, length_combine, length_seq.
    rewrite length_combine, length_map. lia. }
  assert (H4 : foldM (assemble_group (ts_svd_r res) bl br) items ([], [])
               = Ok ([] ++ flat_map (group_blocks (ts_svd_r res) bl) items,
                     fold_left (group_carry (ts_svd_r res) br) items [])).
  { apply assemble_loop. apply Forall_forall. intros [ik [g bsg]] Hitem.
    unfold items in Hitem. apply In_enumerate in Hitem.
    rewrite nth_error_map in Hitem.
    destruct (nth_error gs ik) as [g'|] eqn:Eg; simpl in Hitem; [|discriminate].
    inversion Hitem; subst g' bsg; clear Hitem. cbn [fst snd].
    assert (Hik : ik < length gs) by (apply nth_error_Some; congruence).
    split; [lia|]. intros sk Hsk.
    destruct (kept_values svd_s k cutoff ik) as [Hv Hk]. fold res in Hv, Hk.
    rewrite Hv in Hsk.
    destruct (nth ik (ts_gls res) None) as [gl|] eqn:Egl; [|discriminate].
    simpl in Hsk. inversion Hsk; subst sk; clear Hsk.
    destruct (Hk gl eq_refl) as (_ & _ & Hb).
    assert (Es : nth ik svd_s [] = group_s svd bs g).
    { apply nth_error_nth. unfold svd_s. apply map_nth_error. exact Eg. }
    assert (Egl' : nth_error (ts_gls res) ik = Some (Some gl)).
    { rewrite (nth_error_nth' _ None) by lia. rewrite Egl. reflexivity. }
    assert (Ebl : nth ik bl (mkMatrix 0 0 [])
                  = kept_cols svd_s ik (Some gl) (group_u svd bs g)).
    { unfold bl.
      rewrite (nth_map_enumerate _ _ ik (Some gl, group_u svd bs g)); [reflexivity|].
      apply nth_error_combine; [exact Egl'|apply map_nth_error; exact Eg]. }
    assert (Ebr : nth ik br (mkMatrix 0 0 [])
                  = kept_rows svd_s ik (Some gl) (group_vh svd bs g)).
    { unfold br.
      rewrite (nth_map_enumerate _ _ ik (Some gl, group_vh svd bs g)); [reflexivity|].
      apply nth_error_combine; [exact Egl'|apply map_nth_error; exact Eg]. }
    rewrite Ebl, Ebr.
    destruct (Hsvd g (nth_error_In _ _ Eg)) as [Hst Hsh].
    destruct (stacked_shape _ _ _ Hst) as (_ & _ & cm & Hmat).
    unfold svd_shapes in Hsh. unfold group_u, group_vh.
    unfold kept_cols, kept_rows, take. rewrite Es, length_map.
    unfold group_s in *.
    destruct (svd (group_mat bs g)) as [[u s] vh]. cbn [fst snd] in *.
    destruct Hsh as (n & p & Hshape & Hnu & Hcu & Heu & Hnv & Hcv & Hev).
    rewrite Hmat in Hshape. injection Hshape as En Ep.
    rewrite <- En in Hnu, Heu. clear En Ep.
    split; [lia|]. split; [lia|]. split; [eauto|].
    split; [apply group_of_wf; apply Forall_impl with (2 := Hwf); tauto|].
    destruct (Nat.eqb_spec (length gl) (length s)) as [El|Nl].
    - split; [exact Hnu|]. split; [rewrite Hnu, Hcu; exact Heu|].
      rewrite Hnv. symmetry. exact El.
    - unfold cols, rows. cbn [nrows ncols entries].
      split; [exact Hnu|]. split; [|reflexivity].
      rewrite (length_flat_map_const _ (length gl)) by (intro; apply length_map).
      rewrite length_seq. reflexivity. }
  unfold left_compress. fold bs. rewrite Hd. cbn [bind].
  rewrite Ed, H2. cbn [bind fst snd]. fold svd_s.
  unfold truncate_singular_values. cbv zeta. cbn [fst snd]. fold res.
  rewrite H3. cbn [bind fst snd].
  fold items. rewrite H4. cbn [bind fst snd app].
  reflexivity.
Qed.

End CompressRun.

(** *** Matrices *)

Lemma nth_flat_map_chunks {U : Type} (F : nat -> list U) (c : nat) (d : U) :
  (forall k, length (F k) = c) ->
  forall n a k i, k < n -> i < c ->
    nth (k * c + i) (flat_map F (seq a n)) d = nth i (F (a + k)) d.
Proof.
  intro HF. induction n as [|n IH]; intros a k i Hk Hi; [lia|].
  simpl. destruct k as [|k].
  - rewrite Nat.add_0_r. simpl. apply app_nth1. rewrite HF. exact Hi.
  - rewrite app_nth2 by (rewrite HF; simpl; lia).
    rewrite HF. replace (Datatypes.S k * c + i - c) with (k * c + i) by (simpl; lia).
    rewrite IH by lia. f_equal. f_equal. lia.
Qed.

Lemma entry_as_array (m : matrix) (i j : nat) :
  entry 0%Q (as_array m) i j = nth (i * ncols m + j) (entries m) 0%Q.
Proof. reflexivity. Qed.

Lemma entry_cols (u : matrix) (gl : list nat) (k i : nat) :
  k < nrows u -> i < length gl ->
  entry 0%Q (as_array (cols u gl)) k i
  = entry 0%Q (as_array u) k (nth i gl 0).
Proof.
  intros Hk Hi. rewrite !entry_as_array. unfold cols. cbn [ncols entries].
  rewrite (nth_flat_map_chunks
             (fun i0 => map (fun j => nth (i0 * ncols u + j) (entries u) 0%Q) gl)
             (length gl) 0%Q (fun _ => length_map _ _) (nrows u) 0 k i Hk Hi).
  simpl.
  rewrite (nth_indep _ 0%Q (nth (k * ncols u + 0) (entries u) 0%Q))
    by (rewrite length_map; exact Hi).
  rewrite (map_nth (fun j => nth (k * ncols u + j) (entries u) 0%Q)). reflexivity.
Qed.

Lemma skipn_cons_nth {T : Type} (e : list T) (d : T) (a : nat) :
  a < length e -> skipn a e = nth a e d :: skipn (Datatypes.S a) e.
Proof.
  revert a. induction e as [|x e IH]; intros [|a] H; simpl in *; try lia.
  - reflexivity.
  - apply IH. lia.
Qed.

Lemma map_nth_skip {T : Type} (e : list T) (d : T) (c : nat) :
  forall a, a + c <= length e ->
    map (fun j => nth (a + j) e d) (seq 0 c) = firstn c (skipn a e).
Proof.
  induction c as [|c IH]; intros a H; [reflexivity|].
  rewrite (skipn_cons_nth e d a) by lia.
  cbn [seq map firstn]. rewrite Nat.add_0_r. f_equal.
  rewrite <- seq_shift, map_map. rewrite <- IH by lia.
  apply map_ext. intro j. f_equal. lia.
Qed.

Lemma chunks_concat (e : list Q) (c : nat) :
  forall n a, length e = (a + n) * c ->
    flat_map (fun i => map (fun j => nth (i * c + j) e 0%Q) (seq 0 c)) (seq a n)
    = skipn (a * c) e.
Proof.
  induction n as [|n IH]; intros a H; simpl.
  - rewrite Nat.add_0_r in H. symmetry. apply skipn_all2. lia.
  - rewrite map_nth_skip by nia.
    rewrite IH by (rewrite H; simpl; lia).
    rewrite <- (firstn_skipn c (skipn (a * c) e)) at 2.
    f_equal. rewrite skipn_skipn. reflexivity.
Qed.

Lemma cols_all (u : matrix) :
  length (entries u) = nrows u * ncols u -> cols u (seq 0 (ncols u)) = u.
Proof.
  intro H. unfold cols. rewrite length_seq.
  rewrite (chunks_concat (entries u) (ncols u) (nrows u) 0 H). simpl.
  destruct u; reflexivity.
Qed.

Lemma rows_all (v : matrix) :
  length (entries v) = nrows v * ncols v -> rows v (seq 0 (nrows v)) = v.
Proof.
  intro H. unfold rows, mrow. rewrite length_seq.
  rewrite (chunks_concat (entries v) (ncols v) (nrows v) 0 H). simpl.
  destruct v; reflexivity.
Qed.

Lemma sorted_full (gl : list nat) (m : nat) :
  StronglySorted lt gl -> Forall (fun j => j < m) gl -> length gl = m ->
  gl = seq 0 m.
Proof.
  intros Hs Hb Hl.
  apply (sorted_same_elements (fun x => x)); [exact Hs|apply seq_sorted|].
  assert (Hincl : incl gl (seq 0 m)).
  { intros x Hx. apply in_seq. rewrite Forall_forall in Hb. specialize (Hb x Hx). lia. }
  intro x. split; [apply Hincl|].
  apply NoDup_length_incl; [apply StronglySorted_lt_NoDup; exact Hs| |exact Hincl].
  rewrite length_seq. lia.
Qed.

(** The factors after the third loop are the kept columns and rows in
    every case. *)
Lemma kept_cols_cols (svd_s : list (list Q)) (ik : nat) (gl : list nat) (u : matrix) :
  length (entries u) = nrows u * ncols u ->
  ncols u = length (nth ik svd_s []) ->
  StronglySorted lt gl -> Forall (fun j => j < length (nth ik svd_s [])) gl ->
  kept_cols svd_s ik (Some gl) u = cols u gl.
Proof.
  intros Hwf Hc Hs Hb. unfold kept_cols.
  destruct (Nat.eqb_spec (length gl) (length (nth ik svd_s []))) as [E|]; [|reflexivity].
  rewrite (sorted_full gl _ Hs Hb E), <- Hc. symmetry. apply cols_all. exact Hwf.
Qed.

Lemma kept_rows_rows (svd_s : list (list Q)) (ik : nat) (gl : list nat) (v : matrix) :
  length (entries v) = nrows v * ncols v ->
  nrows v = length (nth ik svd_s []) ->
  StronglySorted lt gl -> Forall (fun j => j < length (nth ik svd_s [])) gl ->
  kept_rows svd_s ik (Some gl) v = rows v gl.
Proof.
  intros Hwf Hc Hs Hb. unfold kept_rows.
  destruct (Nat.eqb_spec (length gl) (length (nth ik svd_s []))) as [E|]; [|reflexivity].
  rewrite (sorted_full gl _ Hs Hb E), <- Hc. symmetry. apply rows_all. exact Hwf.
Qed.

Section Orthonormal.
Variable close : Q -> Q -> Prop.

Lemma sum_over_ext (n : nat) (f g : nat -> Q) :
  (forall k, k < n -> f k = g k) ->
  sum_over Qplus 0%Q n f = sum_over Qplus 0%Q n g.
Proof.
  intro H. unfold sum_over.
  assert (Hl : forall l, (forall k, In k l -> k < n) ->
             fold_right (fun k acc => Qplus (f k) acc) 0%Q l
             = fold_right (fun k acc => Qplus (g k) acc) 0%Q l).
  { induction l as [|k l IH]; intro Hin; simpl; [reflexivity|].
    rewrite H by (apply Hin; left; reflexivity).
    rewrite IH by (intros k' Hk'; apply Hin; right; exact Hk'). reflexivity. }
  apply Hl. intros k Hk. apply in_seq in Hk. lia.
Qed.

(** Distinct columns of a column-orthonormal matrix are column-orthonormal. *)
Lemma col_orthonormal_cols (u : matrix) (gl : list nat) :
  col_orthonormal Qplus Qmult 0%Q 1%Q close (as_array u) ->
  NoDup gl -> Forall (fun j => j < ncols u) gl ->
  col_orthonormal Qplus Qmult 0%Q 1%Q close (as_array (cols u gl)).
Proof.
  intros (n & c & Hshape & Horth) Hnd Hb.
  simpl in Hshape. inversion Hshape; subst n c; clear Hshape.
  exists (nrows u), (length gl). split; [reflexivity|].
  intros i j Hi Hj.
  rewrite (sum_over_ext (nrows u) _
             (fun k => Qmult (entry 0%Q (as_array u) k (nth i gl 0))
                             (entry 0%Q (as_array u) k (nth j gl 0)))).
  - rewrite Forall_forall in Hb.
    assert (Hij : (nth i gl 0 =? nth j gl 0) = (i =? j)).
    { destruct (Nat.eqb_spec i j) as [->|Hne]; [apply Nat.eqb_refl|].
      apply Nat.eqb_neq. intro E. apply Hne.
      apply (proj1 (NoDup_nth gl 0) Hnd i j Hi Hj E). }
    rewrite <- Hij. apply Horth; apply Hb, nth_In; assumption.
  - intros k Hk. rewrite !entry_cols by assumption. reflexivity.
Qed.

End Orthonormal.

(** *** The groups of the result *)

Section CompressGroups.
Context {L : Type} `{QL : QuantumLabel L}.
Variable svd : ndarray Q -> matrix * list Q * matrix.

#[local] Abbreviation block := (SubTensor L (ndarray Q)).

Lemma filter_all {X : Type} (f : X -> bool) (l : list X) :
  (forall x, In x l -> f x = true) -> filter f l = l.
Proof.
  induction l as [|x l IH]; intro H; simpl; [reflexivity|].
  rewrite (H x (or_introl eq_refl)), IH; [reflexivity|].
  intros y Hy. apply H. right. exact Hy.
Qed.

Lemma has_last_label_labels (g : L) (b nb : block) :
  q_labels nb = q_labels b -> has_last_label g nb = has_last_label g b.
Proof. intro E. unfold has_last_label. rewrite E. reflexivity. Qed.

Lemma canon_blocks_last_label (g : L) (q : ndarray Q) (c : nat) (bs : list block) :
  Forall (fun b => has_last_label g b = true) bs ->
  Forall (fun b => has_last_label g b = true) (canon_blocks q c bs).
Proof.
  intro H. pose proof (canon_blocks_Forall2 Q q c bs) as H2.
  induction H2 as [|b nb bs nbs [Hl _] _ IH]; [constructor|].
  inversion H as [|? ? Hb H']; subst. constructor; [|apply IH; exact H'].
  rewrite (has_last_label_labels g b nb Hl). exact Hb.
Qed.

Lemma group_of_other (g g' : L) (bs : list block) :
  g' <> g -> Forall (fun b => has_last_label g' b = true) bs -> group_of g bs = [].
Proof.
  intros Hne H. unfold group_of. apply filter_none. intros b Hb.
  rewrite Forall_forall in H. specialize (H b Hb).
  destruct (has_last_label g b) eqn:E; [|reflexivity].
  exfalso. apply Hne. exact (has_last_label_unique Q g' g b H E).
Qed.

Lemma group_of_same (g : L) (bs : list block) :
  Forall (fun b => has_last_label g b = true) bs -> group_of g bs = bs.
Proof.
  intro H. unfold group_of. apply filter_all. apply Forall_forall. exact H.
Qed.

Lemma group_of_app (g : L) (l1 l2 : list block) :
  group_of g (l1 ++ l2) = group_of g l1 ++ group_of g l2.
Proof. apply filter_app. Qed.

Lemma group_of_labelled (g : L) (bs : list block) :
  Forall (fun b => has_last_label g b = true) (group_of g bs).
Proof.
  apply Forall_forall. intros b Hb. apply filter_In in Hb. tauto.
Qed.

Lemma group_blocks_last_label (svd_r : list (option (list Q))) (bl : list matrix)
    (ik : nat) (g : L) (bs : list block) :
  Forall (fun b => has_last_label g b = true)
         (group_blocks svd_r bl (ik, (g, group_of g bs))).
Proof.
  unfold group_blocks. cbn [fst snd].
  destruct (nth ik svd_r None); [|constructor].
  apply canon_blocks_last_label, group_of_labelled.
Qed.

Section Items.
Variables (svd_r : list (option (list Q))) (bl br : list matrix).
Variable bs : list block.

Let items (a : nat) (gs : list L) : list (nat * (L * list block)) :=
  combine (seq a (length gs)) (map (fun g => (g, group_of g bs)) gs).

Lemma blocks_of_absent (g : L) (gs : list L) (a : nat) :
  ~ In g gs -> group_of g (flat_map (group_blocks svd_r bl) (items a gs)) = [].
Proof.
  revert a. induction gs as [|g' gs IH]; intros a Hn; [reflexivity|].
  unfold items. cbn [length seq map combine flat_map].
  rewrite group_of_app.
  rewrite (group_of_other g g') by
    (try apply group_blocks_last_label; intro E; apply Hn; left; exact E).
  apply IH. intro H. apply Hn. right. exact H.
Qed.

Lemma blocks_of_group (g : L) (gs : list L) (a ik : nat) :
  NoDup gs -> nth_error gs ik = Some g ->
  group_of g (flat_map (group_blocks svd_r bl) (items a gs))
  = group_blocks svd_r bl (a + ik, (g, group_of g bs)).
Proof.
  revert a ik. induction gs as [|g' gs IH]; intros a ik Hnd Hg;
    [destruct ik; discriminate|].
  inversion Hnd as [|? ? Hn Hnd']; subst.
  unfold items. cbn [length seq map combine flat_map].
  rewrite group_of_app. fold (items (Datatypes.S a) gs).
  destruct ik as [|ik]; simpl in Hg.
  - inversion Hg; subst g'. rewrite Nat.add_0_r.
    rewrite group_of_same by apply group_blocks_last_label.
    rewrite blocks_of_absent by exact Hn. apply app_nil_r.
  - rewrite (group_of_other g g').
    + rewrite (IH _ ik Hnd' Hg). simpl. f_equal. f_equal. lia.
    + intro E. subst g'. apply Hn. exact (nth_error_In _ _ Hg).
    + apply group_blocks_last_label.
Qed.

Lemma carry_of_absent (g : L) (gs : list L) (a : nat) (rmap : dict L (ndarray Q)) :
  ~ In g gs ->
  dict_get q_eqb (fold_left (group_carry svd_r br) (items a gs) rmap) g
  = dict_get q_eqb rmap g.
Proof.
  revert a rmap. induction gs as [|g' gs IH]; intros a rmap Hn; [reflexivity|].
  unfold items. cbn [length seq map combine fold_left].
  fold (items (Datatypes.S a) gs). rewrite IH by (intro H; apply Hn; right; exact H).
  unfold group_carry. cbn [fst snd].
  destruct (nth a svd_r None); [|reflexivity].
  rewrite (dict_get_set _ _ _ q_eqb_spec).
  destruct (q_eqb_spec g' g) as [E|_]; [|reflexivity].
  exfalso. apply Hn. left. exact E.
Qed.

Lemma carry_of_group (g : L) (gs : list L) (a ik : nat) (rmap : dict L (ndarray Q)) :
  NoDup gs -> nth_error gs ik = Some g ->
  dict_get q_eqb (fold_left (group_carry svd_r br) (items a gs) rmap) g
  = match nth (a + ik) svd_r None with
    | Some sk =>
        Some (as_array (scaled_rows sk (nth (a + ik) br (mkMatrix 0 0 []))))
    | None => dict_get q_eqb rmap g
    end.
Proof.
  revert a ik rmap. induction gs as [|g' gs IH]; intros a ik rmap Hnd Hg;
    [destruct ik; discriminate|].
  inversion Hnd as [|? ? Hn Hnd']; subst.
  unfold items. cbn [length seq map combine fold_left].
  fold (items (Datatypes.S a) gs).
  destruct ik as [|ik]; simpl in Hg.
  - inversion Hg; subst g'. rewrite Nat.add_0_r.
    rewrite carry_of_absent by exact Hn.
    unfold group_carry. cbn [fst snd].
    destruct (nth a svd_r None); [|reflexivity].
    rewrite (dict_get_set _ _ _ q_eqb_spec).
    destruct (q_eqb_spec g g); [reflexivity|congruence].
  - rewrite (IH _ ik _ Hnd' Hg).
    replace (Datatypes.S a + ik) with (a + Datatypes.S ik) by lia.
    destruct (nth (a + Datatypes.S ik) svd_r None); [reflexivity|].
    unfold group_carry. cbn [fst snd].
    destruct (nth a svd_r None); [|reflexivity].
    rewrite (dict_get_set _ _ _ q_eqb_spec).
    destruct (q_eqb_spec g' g) as [E|_]; [|reflexivity].
    exfalso. subst g'. apply Hn. exact (nth_error_In _ _ Hg).
Qed.

Lemma dict_set_absent {V : Type} (d : dict L V) (k : L) (v : V) :
  dict_get q_eqb d k = None -> dict_set q_eqb d k v = d ++ [(k, v)].
Proof.
  induction d as [|[k0 v0] d IH]; simpl; [reflexivity|].
  destruct (q_eqb_spec k0 k) as [->|Hne]; [discriminate|].
  intro H. rewrite (IH H). reflexivity.
Qed.

(** The matrices of the map, in the order of the groups. *)
Lemma carry_values (gs : list L) (a : nat) (rmap : dict L (ndarray Q)) :
  NoDup gs -> (forall g, In g gs -> dict_get q_eqb rmap g = None) ->
  dict_values (fold_left (group_carry svd_r br) (items a gs) rmap)
  = dict_values rmap
    ++ flat_map (fun i => match nth i svd_r None with
                          | Some sk =>
                              [as_array (scaled_rows sk (nth i br (mkMatrix 0 0 [])))]
                          | None => []
                          end) (seq a (length gs)).
Proof.
  revert a rmap. induction gs as [|g' gs IH]; intros a rmap Hnd Hfresh.
  - simpl. rewrite app_nil_r. reflexivity.
  - inversion Hnd as [|? ? Hn Hnd']; subst.
    unfold items. cbn [length seq map combine fold_left flat_map].
    fold (items (Datatypes.S a) gs).
    unfold group_carry at 2. cbn [fst snd].
    destruct (nth a svd_r None) as [sk|].
    + rewrite IH.
      * rewrite dict_set_absent by (apply Hfresh; left; reflexivity).
        unfold dict_values. rewrite map_app, <- app_assoc. reflexivity.
      * exact Hnd'.
      * intros g Hg. rewrite (dict_get_set _ _ _ q_eqb_spec).
        destruct (q_eqb_spec g' g) as [E|_]; [subst; contradiction|].
        apply Hfresh. right. exact Hg.
    + rewrite IH; [reflexivity|exact Hnd'|].
      intros g Hg. apply Hfresh. right. exact Hg.
Qed.

End Items.

(** The blocks with the slices of a matrix, stacked, are the matrix. *)
Lemma stacked_slices (u : matrix) (bs : list block) (mat : ndarray Q) :
  stacked bs = Ok mat ->
  nrows u = hd 0 (shape mat) ->
  length (entries u) = nrows u * ncols u ->
  stacked (canon_blocks (as_array u) (ncols u) bs) = Ok (as_array u).
Proof.
  intros Hst Hn Hlen.
  destruct (stacked_shape _ _ _ Hst) as (Hne & Hls & cm & Hmat).
  rewrite Hmat in Hn. simpl in Hn.
  unfold stacked, canon_blocks.
  rewrite (flatten_slices Q (as_array u) (nrows u) (ncols u) Hlen 0 bs Hls)
    by (simpl; lia).
  cbn [bind].
  apply (concatenate_pieces _ (as_array u) (nrows u) (ncols u)).
  - reflexivity.
  - exact Hlen.
  - destruct bs; [congruence|discriminate].
  - symmetry. exact Hn.
Qed.

End CompressGroups.

(** *** Truncation that keeps everything *)

Lemma all_kept_gls (svd_s : list (list Q)) (cutoff : Q) (i : nat) :
  Forall (Forall (fun v => (cutoff <= v)%Q)) svd_s ->
  nth i (ts_gls (truncate_loops svd_s (-1) cutoff)) None
  = group_entry (seq 0 (length (nth i svd_s []))).
Proof.
  intro Hc.
  rewrite (proj1 (gls_entry svd_s (-1) cutoff i)), (group_all_kept svd_s cutoff i Hc).
  pose proof (group_triples_indices svd_s i) as Hidx.
  destruct (group_triples svd_s i) as [|e l] eqn:Eg.
  - simpl in Hidx. rewrite <- Hidx. reflexivity.
  - cbn [group_entry option_map]. rewrite Hidx.
    destruct (length (nth i svd_s [])); [discriminate|reflexivity].
Qed.

Lemma all_kept_error (svd_s : list (list Q)) (cutoff : Q) :
  Forall (Forall (fun v => (cutoff <= v)%Q)) svd_s ->
  snd (truncate_singular_values svd_s (-1) cutoff) = 0%R.
Proof.
  intro Hc. rewrite truncate_error_eq.
  assert (Hnil : discarded svd_s (ts_gls (truncate_loops svd_s (-1) cutoff)) = []).
  { unfold discarded. apply filter_none. intros e He.
    apply negb_false_iff. unfold is_kept, kept_at.
    rewrite (proj1 (gls_entry svd_s (-1) cutoff (t_group e))).
    rewrite (group_all_kept svd_s cutoff _ Hc).
    assert (Hin : In e (group_triples svd_s (t_group e))).
    { apply In_group_triples. apply In_all_triples in He. tauto. }
    destruct (group_triples svd_s (t_group e)) as [|e0 l] eqn:Eg; [contradiction|].
    cbn [group_entry option_map]. apply existsb_exists.
    exists (t_index e). split; [apply in_map; exact Hin|apply Nat.eqb_refl]. }
  rewrite Hnil. unfold sum_squares. simpl. apply sqrt_0.
Qed.

(** *** The result of [left_compress], group by group *)

Section CompressResult.
Context {L : Type} `{QL : QuantumLabel L}.
Variable svd : ndarray Q -> matrix * list Q * matrix.

#[local] Abbreviation block := (SubTensor L (ndarray Q)).

Lemma group_mat_stacked (bs : list block) (g : L) (mat : ndarray Q) :
  stacked (group_of g bs) = Ok mat -> group_mat bs g = mat.
Proof. intro H. unfold group_mat. rewrite H. reflexivity. Qed.

Lemma last_labels_complete (bs : list block) (g : L) :
  Forall (fun b : block => q_labels b <> []) bs ->
  (In g (last_labels bs) <-> group_of g bs <> []) /\ NoDup (last_labels bs).
Proof.
  intro Hlab. destruct (collect_blocks_total bs [] Hlab) as [d Hd].
  destruct (collect_blocks_groups bs d Hd) as (_ & Hnd & Hin).
  split; [apply Hin|exact Hnd].
Qed.

Lemma In_canon_blocks (q : ndarray Q) (c : nat) (bs : list block) (nb : block) :
  In nb (canon_blocks q c bs) ->
  exists b, In b bs /\ q_labels nb = q_labels b /\
            shape (reduced nb) = removelast (shape (reduced b)) ++ [c].
Proof.
  pose proof (canon_blocks_Forall2 Q q c bs) as H2.
  induction H2 as [|b nb' bs nbs Hb _ IH]; intros Hin; [contradiction|].
  destruct Hin as [<-|Hin].
  - exists b. split; [left; reflexivity|exact Hb].
  - destruct (IH Hin) as (b' & Hb' & H'). exists b'. split; [right; exact Hb'|exact H'].
Qed.

Lemma take_length (a : list Q) (gl : list nat) : length (take a gl) = length gl.
Proof. unfold take. apply length_map. Qed.

(** What a run of [left_compress] returns: for the group of every last
    label, the blocks with the slices of the kept columns of the left
    factor, and in the map the kept rows of the right factor scaled by the
    kept singular values; nothing for a group that keeps no value. *)
Lemma left_compress_groups (self : SparseTensor L (ndarray Q)) (k : Z) (cutoff : Q) :
  let bs := blocks self in
  let gs := last_labels bs in
  let svd_s := map (group_s svd bs) gs in
  let res := truncate_singular_values svd_s k cutoff in
  Forall (fun b : block =>
            q_labels b <> [] /\ length (shape (reduced b)) = length (q_labels b)) bs ->
  (forall g, group_of g bs <> [] ->
     exists mat, stacked (group_of g bs) = Ok mat /\ svd_shapes svd mat) ->
  exists t rmap,
    left_compress svd self k cutoff = Ok (t, rmap, snd res) /\
    (ftype t = ftype self /\ delta_quantum t = None) /\
    (forall g, group_of g bs = [] ->
       group_of g (blocks t) = [] /\ dict_get q_eqb rmap g = None) /\
    (forall ik g, nth_error gs ik = Some g ->
       match nth ik (snd (fst res)) None with
       | Some gl =>
           gl <> [] /\ StronglySorted lt gl /\
           Forall (fun j => j < length (group_s svd bs g)) gl /\
           group_of g (blocks t)
           = canon_blocks (as_array (cols (group_u svd bs g) gl)) (length gl)
               (group_of g bs) /\
           dict_get q_eqb rmap g
           = Some (as_array (scaled_rows (take (group_s svd bs g) gl)
                                         (rows (group_vh svd bs g) gl)))
       | None => group_of g (blocks t) = [] /\ dict_get q_eqb rmap g = None
       end) /\
    Forall (fun b => exists g, has_last_label g b = true) (blocks t).
Proof.
  intros bs gs svd_s res Hwf Hsvd0.
  assert (Hlab : Forall (fun b : block => q_labels b <> []) bs).
  { apply Forall_impl with (2 := Hwf). tauto. }
  destruct (collect_blocks_total bs [] Hlab) as [d Hd].
  destruct (collect_blocks_groups bs d Hd) as (_ & Hnd & Hin).
  fold gs in Hnd, Hin.
  assert (Hsvd : forall g, In g gs ->
                   stacked (group_of g bs) = Ok (group_mat bs g) /\
                   svd_shapes svd (group_mat bs g)).
  { intros g Hg. destruct (Hsvd0 g (proj1 (Hin g) Hg)) as (mat & Hst & Hsh).
    rewrite (group_mat_stacked _ _ _ Hst). split; assumption. }
  pose proof (left_compress_run svd self k cutoff Hwf Hsvd) as Hrun.
  cbv zeta in Hrun. fold bs gs svd_s in Hrun.
  set (tl := truncate_loops svd_s k cutoff) in *.
  set (bl := map (fun x => kept_cols svd_s (fst x) (fst (snd x)) (snd (snd x)))
                 (enumerate (combine (ts_gls tl) (map (group_u svd bs) gs)))) in *.
  set (br := map (fun x => kept_rows svd_s (fst x) (fst (snd x)) (snd (snd x)))
                 (enumerate (combine (ts_gls tl) (map (group_vh svd bs) gs)))) in *.
  assert (Eitems : enumerate (map (fun g => (g, group_of g bs)) gs)
                   = combine (seq 0 (length gs)) (map (fun g => (g, group_of g bs)) gs)).
  { unfold enumerate. rewrite length_map. reflexivity. }
  rewrite Eitems in Hrun.
  assert (Egls : snd (fst res) = ts_gls tl) by reflexivity.
  eexists. eexists. split; [exact Hrun|]. split; [split; reflexivity|].
  cbn [blocks]. split; [|split].
  - intros g Hg.
    assert (Hn : ~ In g gs) by (intro H; apply (proj1 (Hin g) H); exact Hg).
    split; [apply blocks_of_absent; exact Hn|].
    rewrite carry_of_absent by exact Hn. reflexivity.
  - intros ik g Eg.
    rewrite (blocks_of_group (ts_svd_r tl) bl bs g gs 0 ik Hnd Eg).
    rewrite (carry_of_group (ts_svd_r tl) br bs g gs 0 ik [] Hnd Eg).
    rewrite Egls. cbn [Nat.add].
    unfold group_blocks. cbn [fst snd].
    destruct (kept_values svd_s k cutoff ik) as [Hv Hk]. fold tl in Hv, Hk.
    rewrite Hv.
    destruct (nth ik (ts_gls tl) None) as [gl|] eqn:Egl; cbn [option_map];
      [|split; reflexivity].
    destruct (Hk gl eq_refl) as (Hne & Hsorted & Hb).
    assert (Es : nth ik svd_s [] = group_s svd bs g).
    { apply nth_error_nth. unfold svd_s. apply map_nth_error. exact Eg. }
    destruct (truncate_loops_length svd_s k cutoff) as [Lg Lr].
    fold tl in Lg, Lr.
    assert (Hik : ik < length gs) by (apply nth_error_Some; congruence).
    assert (Ln : length svd_s = length gs) by (unfold svd_s; apply length_map).
    assert (Egl' : nth_error (ts_gls tl) ik = Some (Some gl)).
    { rewrite (nth_error_nth' _ None) by lia. rewrite Egl. reflexivity. }
    assert (Ebl : nth ik bl (mkMatrix 0 0 [])
                  = kept_cols svd_s ik (Some gl) (group_u svd bs g)).
    { unfold bl.
      rewrite (nth_map_enumerate _ _ ik (Some gl, group_u svd bs g)); [reflexivity|].
      apply nth_error_combine; [exact Egl'|apply map_nth_error; exact Eg]. }
    assert (Ebr : nth ik br (mkMatrix 0 0 [])
                  = kept_rows svd_s ik (Some gl) (group_vh svd bs g)).
    { unfold br.
      rewrite (nth_map_enumerate _ _ ik (Some gl, group_vh svd bs g)); [reflexivity|].
      apply nth_error_combine; [exact Egl'|apply map_nth_error; exact Eg]. }
    destruct (Hsvd g (nth_error_In _ _ Eg)) as [Hst Hsh].
    assert (Hfac : length (entries (group_u svd bs g))
                   = nrows (group_u svd bs g) * ncols (group_u svd bs g) /\
                   ncols (group_u svd bs g) = length (group_s svd bs g) /\
                   length (entries (group_vh svd bs g))
                   = nrows (group_vh svd bs g) * ncols (group_vh svd bs g) /\
                   nrows (group_vh svd bs g) = length (group_s svd bs g)).
    { unfold svd_shapes in Hsh. unfold group_u, group_vh, group_s.
      destruct (svd (group_mat bs g)) as [[u s] vh]. cbn [fst snd].
      destruct Hsh as (n & p & _ & Hnu & Hcu & Heu & Hnv & Hcv & Hev).
      rewrite Hnu, Hcu, Hnv, Hcv. auto. }
    destruct Hfac as (Heu & Hcu & Hev & Hnv).
    rewrite Es in Hb.
    rewrite Ebl, Ebr.
    rewrite kept_cols_cols by (rewrite ?Es; assumption).
    rewrite kept_rows_rows by (rewrite ?Es; assumption).
    rewrite Es. repeat split; try assumption.
  - apply Forall_forall. intros b Hb. apply in_flat_map in Hb.
    destruct Hb as ([ik [g bsg]] & Hitem & Hb).
    apply in_combine_r, in_map_iff in Hitem. destruct Hitem as (g' & E & _).
    inversion E; subst g' bsg. exists g.
    pose proof (group_blocks_last_label (ts_svd_r tl) bl ik g bs) as H.
    rewrite Forall_forall in H. apply H. exact Hb.
Qed.

(** The rows of the matrices of the map are as many as the kept indices. *)
Lemma left_compress_rows (self : SparseTensor L (ndarray Q)) (k : Z) (cutoff : Q) :
  let bs := blocks self in
  let svd_s := map (group_s svd bs) (last_labels bs) in
  Forall (fun b : block =>
            q_labels b <> [] /\ length (shape (reduced b)) = length (q_labels b)) bs ->
  (forall g, group_of g bs <> [] ->
     exists mat, stacked (group_of g bs) = Ok mat /\ svd_shapes svd mat) ->
  exists t rmap error,
    left_compress svd self k cutoff = Ok (t, rmap, error) /\
    list_sum (map (fun r => hd 0 (shape r)) (dict_values rmap))
    = kept_count (ts_gls (truncate_loops svd_s k cutoff)).
Proof.
  intros bs svd_s Hwf Hsvd0.
  assert (Hlab : Forall (fun b : block => q_labels b <> []) bs).
  { apply Forall_impl with (2 := Hwf). tauto. }
  set (gs := last_labels bs) in *.
  assert (Hnd : NoDup gs) by (apply (last_labels_complete bs q_zero Hlab)).
  assert (Hsvd : forall g, In g gs ->
                   stacked (group_of g bs) = Ok (group_mat bs g) /\
                   svd_shapes svd (group_mat bs g)).
  { intros g Hg.
    destruct (Hsvd0 g (proj1 (proj1 (last_labels_complete bs g Hlab)) Hg))
      as (mat & Hst & Hsh).
    rewrite (group_mat_stacked _ _ _ Hst). split; assumption. }
  pose proof (left_compress_run svd self k cutoff Hwf Hsvd) as Hrun.
  cbv zeta in Hrun. fold bs gs svd_s in Hrun.
  set (tl := truncate_loops svd_s k cutoff) in *.
  set (br := map (fun x => kept_rows svd_s (fst x) (fst (snd x)) (snd (snd x)))
                 (enumerate (combine (ts_gls tl) (map (group_vh svd bs) gs)))) in *.
  assert (Eitems : enumerate (map (fun g => (g, group_of g bs)) gs)
                   = combine (seq 0 (length gs)) (map (fun g => (g, group_of g bs)) gs)).
  { unfold enumerate. rewrite length_map. reflexivity. }
  rewrite Eitems in Hrun.
  eexists. eexists. eexists. split; [exact Hrun|].
  rewrite (carry_values (ts_svd_r tl) br bs gs 0 [] Hnd (fun _ _ => eq_refl)).
  cbn [dict_values map app].
  destruct (truncate_loops_length svd_s k cutoff) as [Lg _]. fold tl in Lg.
  assert (Ln : length svd_s = length gs) by (unfold svd_s; apply length_map).
  unfold kept_count. rewrite <- (map_nth_seq None (ts_gls tl)) at 1.
  rewrite Lg, Ln, map_map.
  clear Hrun Eitems Lg Ln. generalize (seq 0 (length gs)) as l.
  induction l as [|i l IH]; [reflexivity|].
  cbn [flat_map map list_sum]. rewrite map_app, list_sum_app, IH.
  destruct (kept_values svd_s k cutoff i) as [Hv _]. fold tl in Hv. rewrite Hv.
  destruct (nth i (ts_gls tl) None) as [gl|]; [|reflexivity].
  cbn [option_map map list_sum as_array shape hd scaled_rows nrows].
  rewrite take_length. unfold list_sum. cbn [fold_right map]. lia.
Qed.

End CompressResult.

(** *** What [left_compress] returns *)

Section CompressTheorems.
Context {L : Type} `{QL : QuantumLabel L}.
Variable svd : ndarray Q -> matrix * list Q * matrix.

#[local] Abbreviation block := (SubTensor L (ndarray Q)).

Lemma cols_well_formed (u : matrix) (gl : list nat) :
  length (entries (cols u gl)) = nrows (cols u gl) * ncols (cols u gl).
Proof.
  unfold cols. cbn [nrows ncols entries].
  rewrite (length_flat_map_const _ (length gl)) by (intro; apply length_map).
  rewrite length_seq. reflexivity.
Qed.

Lemma svd_shapes_group (bs : list block) (g : L) (mat : ndarray Q) :
  stacked (group_of g bs) = Ok mat -> svd_shapes svd mat ->
  nrows (group_u svd bs g) = hd 0 (shape mat) /\
  ncols (group_u svd bs g) = length (group_s svd bs g) /\
  length (entries (group_u svd bs g))
  = nrows (group_u svd bs g) * ncols (group_u svd bs g) /\
  nrows (group_vh svd bs g) = length (group_s svd bs g) /\
  ncols (group_vh svd bs g) = hd 0 (tl (shape mat)) /\
  length (entries (group_vh svd bs g))
  = nrows (group_vh svd bs g) * ncols (group_vh svd bs g).
Proof.
  intros Hst Hsh. unfold group_u, group_s, group_vh.
  rewrite (group_mat_stacked _ _ _ Hst). unfold svd_shapes in Hsh.
  destruct (svd mat) as [[u s] vh]. cbn [fst snd].
  destruct Hsh as (n & p & Hshape & Hnu & Hcu & Heu & Hnv & Hcv & Hev).
  rewrite Hshape. cbn [hd tl]. repeat split; congruence.
Qed.

(** X16. What [left_compress] returns on a collection whose blocks have
    labels and one extent for each label, when the blocks of every last
    label stack to a matrix and [np.linalg.svd] gives factors of the
    shapes it promises: the error of [truncate_singular_values] on the
    singular values of the groups, in the order in which the last labels
    first appear; a collection with the tag of the operand and no
    [delta_quantum]; for a group that keeps the indices [gl], blocks that
    stack to the columns [gl] of the left factor and, under its label, the
    rows [gl] of the right factor, each times its singular value; for a
    group that keeps nothing, no block and no entry. *)
Theorem left_compress_factors (self : SparseTensor L (ndarray Q)) (k : Z) (cutoff : Q) :
  let bs := blocks self in
  let svd_s := map (group_s svd bs) (last_labels bs) in
  let res := truncate_singular_values svd_s k cutoff in
  Forall (fun b : block =>
            q_labels b <> [] /\ length (shape (reduced b)) = length (q_labels b)) bs ->
  (forall g, group_of g bs <> [] ->
     exists mat, stacked (group_of g bs) = Ok mat /\ svd_shapes svd mat) ->
  exists t rmap,
    left_compress svd self k cutoff = Ok (t, rmap, snd res) /\
    ftype t = ftype self /\ delta_quantum t = None /\
    forall ik g, nth_error (last_labels bs) ik = Some g ->
      match nth ik (snd (fst res)) None with
      | Some gl =>
          stacked (group_of g (blocks t))
          = Ok (as_array (cols (group_u svd bs g) gl)) /\
          dict_get q_eqb rmap g
          = Some (as_array (scaled_rows (take (group_s svd bs g) gl)
                                        (rows (group_vh svd bs g) gl)))
      | None => group_of g (blocks t) = [] /\ dict_get q_eqb rmap g = None
      end.
Proof.
  intros bs svd_s res Hwf Hsvd.
  destruct (left_compress_groups svd self k cutoff Hwf Hsvd)
    as (t & rmap & Hrun & Htag & _ & Hgroups & _).
  fold bs svd_s res in Hrun, Hgroups.
  exists t, rmap. split; [exact Hrun|].
  split; [exact (proj1 Htag)|]. split; [exact (proj2 Htag)|].
  intros ik g Eg. specialize (Hgroups ik g Eg).
  destruct (nth ik (snd (fst res)) None) as [gl|]; [|exact Hgroups].
  destruct Hgroups as (_ & _ & _ & Hb & Hr). split; [|exact Hr].
  rewrite Hb.
  assert (Hlab : Forall (fun b : block => q_labels b <> []) bs).
  { apply Forall_impl with (2 := Hwf). tauto. }
  destruct (Hsvd g (proj1 (proj1 (last_labels_complete bs g Hlab))
                      (nth_error_In _ _ Eg))) as (mat & Hst & Hsh).
  destruct (svd_shapes_group bs g mat Hst Hsh) as (Hn & _).
  apply (stacked_slices (cols (group_u svd bs g) gl) (group_of g bs) mat Hst).
  - exact Hn.
  - apply cols_well_formed.
Qed.

(** X17. The new bond: every block that [left_compress] returns has a last
    label that is a key of the returned map, its last extent is positive
    and is the number of rows of the matrix under that label; and every key
    of the map is the last label of a returned block. *)
Theorem left_compress_bond (self : SparseTensor L (ndarray Q)) (k : Z) (cutoff : Q) :
  let bs := blocks self in
  Forall (fun b : block =>
            q_labels b <> [] /\ length (shape (reduced b)) = length (q_labels b)) bs ->
  (forall g, group_of g bs <> [] ->
     exists mat, stacked (group_of g bs) = Ok mat /\ svd_shapes svd mat) ->
  exists t rmap error,
    left_compress svd self k cutoff = Ok (t, rmap, error) /\
    (forall b, In b (blocks t) ->
       exists g r p,
         py_index (q_labels b) (-1) = Ok g /\
         dict_get q_eqb rmap g = Some r /\
         shape r = [last (shape (reduced b)) 0; p] /\
         0 < last (shape (reduced b)) 0) /\
    (forall g, dict_get q_eqb rmap g <> None -> group_of g (blocks t) <> []).
Proof.
  intros bs Hwf Hsvd.
  destruct (left_compress_groups svd self k cutoff Hwf Hsvd)
    as (t & rmap & Hrun & _ & Habsent & Hgroups & Hlast).
  fold bs in Hrun, Hgroups, Habsent.
  assert (Hlab : Forall (fun b : block => q_labels b <> []) bs).
  { apply Forall_impl with (2 := Hwf). tauto. }
  exists t, rmap. eexists. split; [exact Hrun|]. split.
  - intros b Hb. rewrite Forall_forall in Hlast.
    destruct (Hlast b Hb) as [g Hg].
    assert (Hbg : In b (group_of g (blocks t))).
    { apply filter_In. split; assumption. }
    assert (Hgb : group_of g bs <> []).
    { intro E. rewrite (proj1 (Habsent g E)) in Hbg. exact Hbg. }
    apply (last_labels_complete bs g Hlab) in Hgb as Hin.
    destruct (In_nth_error _ _ Hin) as [ik Eg].
    specialize (Hgroups ik g Eg).
    destruct (nth ik _ None) as [gl|];
      [|rewrite (proj1 Hgroups) in Hbg; contradiction].
    destruct Hgroups as (Hne & _ & _ & Hblocks & Hr).
    rewrite Hblocks in Hbg. apply In_canon_blocks in Hbg.
    destruct Hbg as (b0 & _ & _ & Hshape).
    exists g. eexists. exists (ncols (group_vh svd bs g)).
    split; [|split; [exact Hr|split]].
    + unfold has_last_label in Hg.
      destruct (py_index (q_labels b) (-1)) as [q|]; [|discriminate].
      destruct (q_eqb_spec q g); [congruence|discriminate].
    + rewrite Hshape, last_last. cbn [as_array scaled_rows shape nrows ncols rows].
      rewrite take_length. reflexivity.
    + rewrite Hshape, last_last. destruct gl; [congruence|simpl; lia].
  - intros g Hg.
    assert (Hgb : group_of g bs <> []).
    { intro E. apply Hg. apply (Habsent g E). }
    apply (last_labels_complete bs g Hlab) in Hgb as Hin.
    destruct (In_nth_error _ _ Hin) as [ik Eg].
    specialize (Hgroups ik g Eg).
    destruct (nth ik _ None) as [gl|]; [|exfalso; apply Hg; apply Hgroups].
    destruct Hgroups as (_ & _ & _ & Hblocks & _).
    rewrite Hblocks. intro E. apply Hgb.
    apply length_zero_iff_nil.
    rewrite <- (canon_blocks_length Q (as_array (cols (group_u svd bs g) gl))
                  (length gl) (group_of g bs)).
    rewrite E. reflexivity.
Qed.

(** X18. The total bond dimension after [left_compress]: the rows of the
    matrices of the returned map are as many as the singular values that
    [truncate_singular_values] keeps, hence at most [k] for a bound that is
    not negative. *)
Theorem left_compress_bond_dimension (self : SparseTensor L (ndarray Q)) (k : Z)
    (cutoff : Q) :
  let bs := blocks self in
  let svd_s := map (group_s svd bs) (last_labels bs) in
  Forall (fun b : block =>
            q_labels b <> [] /\ length (shape (reduced b)) = length (q_labels b)) bs ->
  (forall g, group_of g bs <> [] ->
     exists mat, stacked (group_of g bs) = Ok mat /\ svd_shapes svd mat) ->
  exists t rmap error,
    left_compress svd self k cutoff = Ok (t, rmap, error) /\
    list_sum (map (fun r => hd 0 (shape r)) (dict_values rmap))
    = let n := count_above svd_s cutoff in
      if (k =? -1)%Z then n
      else if (0 <=? k)%Z then Nat.min (Z.to_nat k) n
      else n - Z.to_nat (- k).
Proof.
  intros bs svd_s Hwf Hsvd.
  destruct (left_compress_rows svd self k cutoff Hwf Hsvd)
    as (t & rmap & error & Hrun & Hrows).
  exists t, rmap, error. split; [exact Hrun|].
  rewrite Hrows. fold bs svd_s. rewrite kept_count_length. apply length_ss_trunc.
Qed.

(** X19. The bond after [left_compress]: [get_state_info] of the last leg of
    the returned collection returns, and it gives every last label the
    number of rows of the matrix of the label in the returned map; the map
    has no entry for the other labels. *)
Theorem left_compress_state_info (self : SparseTensor L (ndarray Q)) (k : Z)
    (cutoff : Q) :
  let bs := blocks self in
  Forall (fun b : block =>
            q_labels b <> [] /\ length (shape (reduced b)) = length (q_labels b)) bs ->
  (forall g, group_of g bs <> [] ->
     exists mat, stacked (group_of g bs) = Ok mat /\ svd_shapes svd mat) ->
  exists t rmap error si,
    left_compress svd self k cutoff = Ok (t, rmap, error) /\
    get_state_info t (-1) = Ok si /\
    forall g, match dict_get q_eqb (quanta si) g with
              | Some n => exists r p, dict_get q_eqb rmap g = Some r /\ shape r = [n; p]
              | None => dict_get q_eqb rmap g = None
              end.
Proof.
  intros bs Hwf Hsvd.
  destruct (left_compress_groups svd self k cutoff Hwf Hsvd)
    as (t & rmap & Hrun & _ & Habsent & Hgroups & Hlast).
  fold bs in Hrun, Hgroups, Habsent.
  assert (Hlab : Forall (fun b : block => q_labels b <> []) bs).
  { apply Forall_impl with (2 := Hwf). tauto. }
  set (gs := last_labels bs) in *.
  set (gls := snd (fst (truncate_singular_values (map (group_s svd bs) gs) k cutoff)))
    in *.
  assert (Hnd : NoDup gs) by (apply (last_labels_complete bs q_zero Hlab)).
  (* the last leg of a returned block *)
  assert (Hleg : forall b g, In b (blocks t) -> has_last_label g b = true ->
            exists ik gl r p,
              nth_error gs ik = Some g /\ nth ik gls None = Some gl /\
              leg (-1) b = Ok (g, length gl) /\
              dict_get q_eqb rmap g = Some r /\ shape r = [length gl; p]).
  { intros b g Hb Hg.
    assert (Hbg : In b (group_of g (blocks t))).
    { apply filter_In. split; assumption. }
    assert (Hgb : group_of g bs <> []).
    { intro E. rewrite (proj1 (Habsent g E)) in Hbg. exact Hbg. }
    apply (last_labels_complete bs g Hlab) in Hgb as Hin.
    destruct (In_nth_error _ _ Hin) as [ik Eg].
    pose proof (Hgroups ik g Eg) as Hik. fold gls in Hik.
    destruct (nth ik gls None) as [gl|] eqn:Egl;
      [|rewrite (proj1 Hik) in Hbg; contradiction].
    destruct Hik as (_ & _ & _ & Hblocks & Hr).
    rewrite Hblocks in Hbg. apply In_canon_blocks in Hbg.
    destruct Hbg as (b0 & _ & _ & Hshape).
    exists ik, gl. eexists. exists (ncols (group_vh svd bs g)).
    split; [exact Eg|]. split; [exact Egl|]. split; [|split; [exact Hr|]].
    - unfold leg. rewrite Hshape, py_index_last.
      unfold has_last_label in Hg.
      destruct (py_index (q_labels b) (-1)) as [q|]; [|discriminate].
      destruct (q_eqb_spec q g); [subst q; reflexivity|discriminate].
    - cbn [as_array scaled_rows shape nrows ncols rows].
      rewrite take_length. reflexivity. }
  assert (Hunique : forall b g g' n, In b (blocks t) -> has_last_label g b = true ->
            leg (-1) b = Ok (g', n) -> g' = g).
  { intros b g g' n Hb Hg Hl.
    destruct (Hleg b g Hb Hg) as (_ & gl & _ & _ & _ & _ & Hl' & _).
    rewrite Hl' in Hl. inversion Hl. reflexivity. }
  assert (Hall : Forall (fun b => exists qn, leg (-1) b = Ok qn) (blocks t)).
  { apply Forall_forall. intros b Hb. rewrite Forall_forall in Hlast.
    destruct (Hlast b Hb) as [g Hg].
    destruct (Hleg b g Hb Hg) as (_ & gl & _ & _ & _ & _ & Hl & _). eauto. }
  assert (Hsame : forall b1 b2 q n1 n2, In b1 (blocks t) -> In b2 (blocks t) ->
            leg (-1) b1 = Ok (q, n1) -> leg (-1) b2 = Ok (q, n2) -> n1 = n2).
  { intros b1 b2 q n1 n2 H1 H2 L1 L2. rewrite Forall_forall in Hlast.
    destruct (Hlast b1 H1) as [g1 Hg1]. destruct (Hlast b2 H2) as [g2 Hg2].
    pose proof (Hunique b1 g1 q n1 H1 Hg1 L1) as E1.
    pose proof (Hunique b2 g2 q n2 H2 Hg2 L2) as E2. subst g1 g2.
    destruct (Hleg b1 q H1 Hg1) as (ik1 & gl1 & _ & _ & Ek1 & Eg1 & Hl1 & _).
    destruct (Hleg b2 q H2 Hg2) as (ik2 & gl2 & _ & _ & Ek2 & Eg2 & Hl2 & _).
    assert (Eik : ik1 = ik2).
    { apply (proj1 (NoDup_nth_error gs) Hnd).
      - apply nth_error_Some. congruence.
      - congruence. }
    subst ik2. rewrite Eg1 in Eg2. inversion Eg2; subst gl2.
    rewrite Hl1 in L1. rewrite Hl2 in L2. congruence. }
  destruct (state_info_loop_ok Q (-1) (blocks t) [] Hall) as [qmap Hq].
  { intros b q n d _ _ Hd. discriminate Hd. }
  { exact Hsame. }
  destruct (state_info_loop Q (-1) (blocks t) [] qmap Hq (NoDup_nil _))
    as (_ & _ & Hin & Hfrom).
  exists t, rmap. eexists. exists (mkStateInfo qmap).
  split; [exact Hrun|]. split.
  { unfold get_state_info. rewrite Hq. reflexivity. }
  intro g. cbn [quanta].
  destruct (dict_get q_eqb qmap g) as [n|] eqn:En.
  - destruct (Hfrom g) as [H0|(b & n' & Hb & Hl)]; [congruence|contradiction H0; reflexivity|].
    destruct (Hin b Hb) as (q & n'' & Hl' & Hg').
    rewrite Hl in Hl'. inversion Hl'; subst q n''. rewrite En in Hg'.
    inversion Hg'; subst n'.
    rewrite Forall_forall in Hlast. destruct (Hlast b Hb) as [g' Hgl].
    pose proof (Hunique b g' g n Hb Hgl Hl) as E. subst g'.
    destruct (Hleg b g Hb Hgl) as (_ & gl & r & p & _ & _ & Hl2 & Hr & Hs).
    rewrite Hl in Hl2. inversion Hl2; subst n. eauto.
  - destruct (dict_get q_eqb rmap g) as [r|] eqn:Er; [exfalso|reflexivity].
    assert (Hgb : group_of g bs <> []).
    { intro E. rewrite (proj2 (Habsent g E)) in Er. discriminate. }
    apply (last_labels_complete bs g Hlab) in Hgb as Hing.
    destruct (In_nth_error _ _ Hing) as [ik Eg].
    pose proof (Hgroups ik g Eg) as Hik. fold gls in Hik.
    destruct (nth ik gls None) as [gl|];
      [|rewrite (proj2 Hik) in Er; discriminate].
    destruct Hik as (_ & _ & _ & Hblocks & _).
    destruct (group_of g (blocks t)) as [|b l] eqn:Egt.
    + apply Hgb. apply length_zero_iff_nil.
      rewrite <- (canon_blocks_length Q (as_array (cols (group_u svd bs g) gl))
                    (length gl) (group_of g bs)).
      rewrite <- Hblocks. reflexivity.
    + assert (Hb : In b (group_of g (blocks t))) by (rewrite Egt; left; reflexivity).
      apply filter_In in Hb. destruct Hb as [Hb Hgl].
      destruct (Hin b Hb) as (q & n & Hl & Hg').
      pose proof (Hunique b g q n Hb Hgl Hl) as E. subst q. congruence.
Qed.

Section Tolerance.
Variable close : Q -> Q -> Prop.

(** X20. When the left factors of [np.linalg.svd] are column-orthonormal,
    the blocks of every last label of the collection that [left_compress]
    returns stack to a column-orthonormal matrix, for every [k] and
    [cutoff]. *)
Theorem left_compress_orthonormal (self : SparseTensor L (ndarray Q)) (k : Z)
    (cutoff : Q) :
  let bs := blocks self in
  Forall (fun b : block =>
            q_labels b <> [] /\ length (shape (reduced b)) = length (q_labels b)) bs ->
  (forall g, group_of g bs <> [] ->
     exists mat, stacked (group_of g bs) = Ok mat /\ svd_shapes svd mat /\
       col_orthonormal Qplus Qmult 0%Q 1%Q close (as_array (fst (fst (svd mat))))) ->
  exists t rmap error,
    left_compress svd self k cutoff = Ok (t, rmap, error) /\
    forall g, group_of g (blocks t) <> [] ->
      exists m, stacked (group_of g (blocks t)) = Ok m /\
                col_orthonormal Qplus Qmult 0%Q 1%Q close m.
Proof.
  intros bs Hwf Hsvd.
  assert (Hsvd' : forall g, group_of g bs <> [] ->
            exists mat, stacked (group_of g bs) = Ok mat /\ svd_shapes svd mat).
  { intros g Hg. destruct (Hsvd g Hg) as (mat & H1 & H2 & _). eauto. }
  destruct (left_compress_groups svd self k cutoff Hwf Hsvd')
    as (t & rmap & Hrun & _ & Habsent & Hgroups & _).
  fold bs in Hrun, Hgroups, Habsent.
  exists t, rmap. eexists. split; [exact Hrun|].
  intros g Hg.
  assert (Hlab : Forall (fun b : block => q_labels b <> []) bs).
  { apply Forall_impl with (2 := Hwf). tauto. }
  assert (Hgb : group_of g bs <> []).
  { intro E. apply Hg. apply (Habsent g E). }
  apply (last_labels_complete bs g Hlab) in Hgb as Hin.
  destruct (In_nth_error _ _ Hin) as [ik Eg].
  specialize (Hgroups ik g Eg).
  destruct (nth ik _ None) as [gl|]; [|exfalso; apply Hg; apply Hgroups].
  destruct Hgroups as (_ & Hsorted & Hbound & Hb & _).
  destruct (Hsvd g Hgb) as (mat & Hst & Hsh & Ho).
  destruct (svd_shapes_group bs g mat Hst Hsh) as (Hn & Hc & _).
  exists (as_array (cols (group_u svd bs g) gl)). split.
  - rewrite Hb.
    apply (stacked_slices (cols (group_u svd bs g) gl) (group_of g bs) mat Hst).
    + exact Hn.
    + apply cols_well_formed.
  - apply col_orthonormal_cols.
    + unfold group_u. rewrite (group_mat_stacked _ _ _ Hst). exact Ho.
    + apply StronglySorted_lt_NoDup. exact Hsorted.
    + rewrite Hc. exact Hbound.
Qed.

(** X21. With [k = -1] and a cutoff that no singular value is below, when
    every group has a singular value and the product of the factors of
    [np.linalg.svd] is the matrix of the group: [left_compress] returns the
    error 0 and, for every group, blocks that stack to a matrix [m] and an
    entry [r] of the map whose product is the matrix of the group. *)
Theorem left_compress_exact (self : SparseTensor L (ndarray Q)) (cutoff : Q) :
  let bs := blocks self in
  Forall (fun b : block =>
            q_labels b <> [] /\ length (shape (reduced b)) = length (q_labels b)) bs ->
  (forall g, group_of g bs <> [] ->
     exists mat, stacked (group_of g bs) = Ok mat /\ svd_shapes svd mat /\
       let '(u, s, vh) := svd mat in
       s <> [] /\ Forall (fun v => (cutoff <= v)%Q) s /\
       product_is Qplus Qmult 0%Q close
         (as_array u) (as_array (scaled_rows s vh)) mat) ->
  exists t rmap,
    left_compress svd self (-1) cutoff = Ok (t, rmap, 0%R) /\
    forall g mat, stacked (group_of g bs) = Ok mat ->
      exists m r,
        stacked (group_of g (blocks t)) = Ok m /\
        dict_get q_eqb rmap g = Some r /\
        product_is Qplus Qmult 0%Q close m r mat.
Proof.
  intros bs Hwf Hsvd.
  assert (Hlab : Forall (fun b : block => q_labels b <> []) bs).
  { apply Forall_impl with (2 := Hwf). tauto. }
  assert (Hsvd' : forall g, group_of g bs <> [] ->
            exists mat, stacked (group_of g bs) = Ok mat /\ svd_shapes svd mat).
  { intros g Hg. destruct (Hsvd g Hg) as (mat & H1 & H2 & _). eauto. }
  set (svd_s := map (group_s svd bs) (last_labels bs)).
  assert (Hc : Forall (Forall (fun v => (cutoff <= v)%Q)) svd_s).
  { apply Forall_forall. intros s Hs. unfold svd_s in Hs. apply in_map_iff in Hs.
    destruct Hs as (g & <- & Hg).
    destruct (Hsvd g (proj1 (proj1 (last_labels_complete bs g Hlab)) Hg))
      as (mat & Hst & _ & Hfac).
    unfold group_s. rewrite (group_mat_stacked _ _ _ Hst).
    destruct (svd mat) as [[u s] vh]. apply Hfac. }
  destruct (left_compress_groups svd self (-1) cutoff Hwf Hsvd')
    as (t & rmap & Hrun & _ & _ & Hgroups & _).
  fold bs svd_s in Hrun, Hgroups.
  rewrite (all_kept_error svd_s cutoff Hc) in Hrun.
  exists t, rmap. split; [exact Hrun|].
  intros g mat Hst.
  assert (Hgb : group_of g bs <> []) by (apply (stacked_shape _ _ _ Hst)).
  apply (last_labels_complete bs g Hlab) in Hgb as Hin.
  destruct (In_nth_error _ _ Hin) as [ik Eg].
  specialize (Hgroups ik g Eg).
  unfold truncate_singular_values in Hgroups. cbv zeta in Hgroups.
  cbn [fst snd] in Hgroups.
  rewrite (all_kept_gls svd_s cutoff ik Hc) in Hgroups.
  assert (Es : nth ik svd_s [] = group_s svd bs g).
  { apply nth_error_nth. unfold svd_s. apply map_nth_error. exact Eg. }
  rewrite Es in Hgroups.
  destruct (Hsvd g Hgb) as (mat' & Hst' & Hsh & Hfac).
  rewrite Hst in Hst'. inversion Hst'; subst mat'; clear Hst'.
  destruct (svd_shapes_group bs g mat Hst Hsh) as (Hn & Hcu & Heu & Hnv & Hcv & Hev).
  unfold group_u, group_s, group_vh in *.
  rewrite (group_mat_stacked _ _ _ Hst) in *.
  destruct (svd mat) as [[u s] vh]. cbn [fst snd] in *.
  destruct Hfac as (Hne & _ & Hprod).
  destruct s as [|v s']; [congruence|].
  set (s := v :: s') in *.
  change (group_entry (seq 0 (length s))) with (Some (seq 0 (length s))) in Hgroups.
  destruct Hgroups as (_ & _ & _ & Hblocks & Hr).
  rewrite take_all in Hr.
  rewrite <- Hnv in Hr. rewrite (rows_all vh Hev) in Hr.
  rewrite <- Hcu in Hblocks. rewrite (cols_all u Heu), length_seq in Hblocks.
  exists (as_array u), (as_array (scaled_rows s vh)).
  split; [|split; [exact Hr|exact Hprod]].
  rewrite Hblocks. apply (stacked_slices u (group_of g bs) mat Hst Hn Heu).
Qed.

End Tolerance.

End CompressTheorems.

(** *** The example *)

Lemma compress_example_labelled :
  Forall (fun b : SubTensor Z (ndarray Q) =>
            q_labels b <> [] /\ length (shape (reduced b)) = length (q_labels b))
         (blocks compress_example).
Proof. repeat constructor; discriminate. Qed.

Lemma compress_example_factors (g : Z) :
  group_of g (blocks compress_example) <> [] ->
  exists mat,
    stacked (group_of g (blocks compress_example)) = Ok mat /\
    svd_shapes svd_of_diagonal mat /\
    col_orthonormal Qplus Qmult 0%Q 1%Q Qeq
      (as_array (fst (fst (svd_of_diagonal mat)))) /\
    let '(u, s, vh) := svd_of_diagonal mat in
    s <> [] /\ Forall (fun v => (0 <= v)%Q) s /\
    product_is Qplus Qmult 0%Q Qeq (as_array u) (as_array (scaled_rows s vh)) mat.
Proof.
  intro Hne.
  destruct (Z.eq_dec g 5) as [E5|N5]; [|destruct (Z.eq_dec g 7) as [E7|N7]].
  - subst g. exists (mkArray [2; 2] [3; 0; 0; 1 # 2]%Q). split; [reflexivity|].
    split; [exists 2, 2; repeat split|]. split.
    + exists 2, 2. split; [reflexivity|].
      intros [|[|i]] [|[|j]] Hi Hj; try lia; reflexivity.
    + split; [discriminate|]. split; [repeat constructor; discriminate|].
      exists 2, 2, 2. repeat split.
      intros [|[|i]] [|[|j]] Hi Hj; try lia; reflexivity.
  - subst g. exists (mkArray [1; 1] [2]%Q). split; [reflexivity|].
    split; [exists 1, 1; repeat split|]. split.
    + exists 1, 1. split; [reflexivity|].
      intros [|i] [|j] Hi Hj; try lia; reflexivity.
    + split; [discriminate|]. split; [repeat constructor; discriminate|].
      exists 1, 1, 1. repeat split.
      intros [|i] [|j] Hi Hj; try lia; reflexivity.
  - exfalso. apply Hne. unfold group_of. apply filter_none.
    intros b [<-|[<-|[<-|[]]]].
    + change ((5 =? g)%Z = false). apply Z.eqb_neq. congruence.
    + change ((7 =? g)%Z = false). apply Z.eqb_neq. congruence.
    + change ((5 =? g)%Z = false). apply Z.eqb_neq. congruence.
Qed.

Lemma compress_example_shapes (g : Z) :
  group_of g (blocks compress_example) <> [] ->
  exists mat,
    stacked (group_of g (blocks compress_example)) = Ok mat /\
    svd_shapes svd_of_diagonal mat.
Proof.
  intro H. destruct (compress_example_factors g H) as (mat & H1 & H2 & _). eauto.
Qed.

Lemma left_compress_factors_witness :
  exists t rmap error,
    left_compress svd_of_diagonal compress_example (-1) 1%Q = Ok (t, rmap, error) /\
    ftype t = ThreeIndexMPSTensor /\ delta_quantum t = None /\
    stacked (group_of 5%Z (blocks t)) = Ok (mkArray [2; 1] [1; 0]%Q) /\
    dict_get q_eqb rmap 5%Z = Some (mkArray [1; 2] [3; 0]%Q).
Proof.
  destruct (left_compress_factors svd_of_diagonal compress_example (-1)%Z 1%Q
              compress_example_labelled compress_example_shapes)
    as (t & rmap & Hrun & Htag & Hdq & Hgroups).
  exists t, rmap. eexists. split; [exact Hrun|].
  split; [exact Htag|]. split; [exact Hdq|].
  exact (Hgroups 0 5%Z eq_refl).
Defined.

Lemma left_compress_orthonormal_witness :
  exists t rmap error,
    left_compress svd_of_diagonal compress_example 2 0%Q = Ok (t, rmap, error) /\
    forall g, group_of g (blocks t) <> [] ->
      exists m, stacked (group_of g (blocks t)) = Ok m /\
                col_orthonormal Qplus Qmult 0%Q 1%Q Qeq m.
Proof.
  refine (left_compress_orthonormal svd_of_diagonal Qeq compress_example 2%Z 0%Q
            compress_example_labelled _).
  intros g H. destruct (compress_example_factors g H) as (mat & H1 & H2 & H3 & _).
  exists mat. auto.
Defined.

Lemma left_compress_bond_witness :
  exists t rmap error,
    left_compress svd_of_diagonal compress_example 2 0%Q = Ok (t, rmap, error) /\
    (forall b, In b (blocks t) ->
       exists g r p,
         py_index (q_labels b) (-1) = Ok g /\
         dict_get q_eqb rmap g = Some r /\
         shape r = [last (shape (reduced b)) 0; p] /\
         0 < last (shape (reduced b)) 0) /\
    (forall g, dict_get q_eqb rmap g <> None -> group_of g (blocks t) <> []).
Proof.
  exact (left_compress_bond svd_of_diagonal compress_example 2%Z 0%Q
           compress_example_labelled compress_example_shapes).
Defined.

(** Three singular values, of which the bound 2 keeps two. *)
Lemma left_compress_bond_dimension_witness :
  exists t rmap error,
    left_compress svd_of_diagonal compress_example 2 0%Q = Ok (t, rmap, error) /\
    list_sum (map (fun r => hd 0 (shape r)) (dict_values rmap)) = 2.
Proof.
  exact (left_compress_bond_dimension svd_of_diagonal compress_example 2%Z 0%Q
           compress_example_labelled compress_example_shapes).
Defined.

Lemma left_compress_state_info_witness :
  exists t rmap error si,
    left_compress svd_of_diagonal compress_example 2 0%Q = Ok (t, rmap, error) /\
    get_state_info t (-1) = Ok si /\
    forall g, match dict_get q_eqb (quanta si) g with
              | Some n => exists r p, dict_get q_eqb rmap g = Some r /\ shape r = [n; p]
              | None => dict_get q_eqb rmap g = None
              end.
Proof.
  exact (left_compress_state_info svd_of_diagonal compress_example 2%Z 0%Q
           compress_example_labelled compress_example_shapes).
Defined.

Lemma left_compress_exact_witness :
  exists t rmap,
    left_compress svd_of_diagonal compress_example (-1) 0%Q = Ok (t, rmap, 0%R) /\
    forall g mat, stacked (group_of g (blocks compress_example)) = Ok mat ->
      exists m r,
        stacked (group_of g (blocks t)) = Ok m /\
        dict_get q_eqb rmap g = Some r /\
        product_is Qplus Qmult 0%Q Qeq m r mat.
Proof.
  refine (left_compress_exact svd_of_diagonal Qeq compress_example 0%Q
            compress_example_labelled _).
  intros g H. destruct (compress_example_factors g H) as (mat & H1 & H2 & _ & H4).
  exists mat. auto.
Defined.

(** ** [right_canonicalize] *)

(** *** Transposes *)

Section TransposeFacts.
Variable S : Type.

Let pick (l : list S) (k : nat) : list S :=
  match nth_error l k with
  | Some x => [x]
  | None => []
  end.

Lemma flat_map_ext_In {X Y : Type} (f g : X -> list Y) (l : list X) :
  (forall x, In x l -> f x = g x) -> flat_map f l = flat_map g l.
Proof.
  induction l as [|x l IH]; intro H; simpl; [reflexivity|].
  rewrite (H x (or_introl eq_refl)), IH; [reflexivity|].
  intros y Hy. apply H. right. exact Hy.
Qed.

Lemma pick_length (l : list S) (k : nat) : k < length l -> length (pick l k) = 1.
Proof.
  intro H. unfold pick. destruct (nth_error l k) eqn:E; [reflexivity|].
  apply nth_error_None in E. lia.
Qed.

Lemma picks_from (l : list S) :
  forall a pre, length pre = a ->
    flat_map (pick (pre ++ l)) (seq a (length l)) = l.
Proof.
  induction l as [|x l IH]; intros a pre Ha; [reflexivity|].
  cbn [length seq flat_map]. unfold pick at 1.
  rewrite nth_error_app2, Ha, Nat.sub_diag by lia. cbn [nth_error app].
  f_equal. specialize (IH (Datatypes.S a) (pre ++ [x])).
  rewrite <- app_assoc in IH. apply IH. rewrite length_app, Ha. simpl. lia.
Qed.

Lemma picks_all (l : list S) : flat_map (pick l) (seq 0 (length l)) = l.
Proof. exact (picks_from l 0 [] eq_refl). Qed.

Lemma nth_error_chunk (d : list S) (a c j : nat) :
  j < c -> nth_error (firstn c (skipn a d)) j = nth_error d (a + j).
Proof.
  intro H. rewrite nth_error_firstn.
  destruct (Nat.ltb_spec j c) as [_|]; [|lia]. apply nth_error_skipn.
Qed.

(** An array with one axis is its own transpose. *)
Lemma transpose_data_vector (row : list S) :
  transpose_data [length row] row = row.
Proof.
  cbn [transpose_data size_of fold_right seq flat_map].
  rewrite app_nil_r, flat_map_map.
  transitivity (flat_map (pick row) (seq 0 (length row))); [|apply picks_all].
  apply flat_map_ext. intro i.
  unfold pick. rewrite Nat.mul_1_r.
  rewrite (nth_error_chunk row i 1 0) by lia. rewrite Nat.add_0_r. reflexivity.
Qed.

(** The transpose of a matrix, entry by entry. *)
Lemma transpose_data_matrix (r c : nat) (d : list S) :
  length d = r * c ->
  transpose_data [r; c] d
  = flat_map (fun j => flat_map (fun i => pick d (i * c + j)) (seq 0 r)) (seq 0 c).
Proof.
  intro Hlen.
  change (transpose_data [r; c] d)
    with (flat_map (fun j =>
                      flat_map (fun sub => pick sub j)
                        (map (fun i => transpose_data [c]
                                         (firstn (size_of [c]) (skipn (i * size_of [c]) d)))
                             (seq 0 r)))
                   (seq 0 (size_of [c]))).
  assert (Ec : size_of [c] = c) by (simpl; lia). rewrite Ec.
  apply flat_map_ext_In. intros j Hj. apply in_seq in Hj.
  rewrite flat_map_map. apply flat_map_ext_In. intros i Hi. apply in_seq in Hi.
  assert (Hrow : length (firstn c (skipn (i * c) d)) = c).
  { rewrite length_firstn, length_skipn, Hlen. apply Nat.min_l. nia. }
  rewrite <- Hrow at 1. rewrite transpose_data_vector.
  unfold pick. rewrite nth_error_chunk by lia. reflexivity.
Qed.

Lemma nth_error_flat_map_chunks {U : Type} (F : nat -> list U) (c : nat) :
  forall n a k i,
    (forall k', k' < n -> length (F (a + k')) = c) ->
    k < n -> i < c ->
    nth_error (flat_map F (seq a n)) (k * c + i) = nth_error (F (a + k)) i.
Proof.
  induction n as [|n IH]; intros a k i HF Hk Hi; [lia|].
  cbn [seq flat_map]. destruct k as [|k].
  - rewrite Nat.add_0_r. simpl. apply nth_error_app1.
    rewrite <- (Nat.add_0_r a), HF by lia. exact Hi.
  - pose proof (HF 0 ltac:(lia)) as H0. rewrite Nat.add_0_r in H0.
    rewrite nth_error_app2 by (rewrite H0; simpl; lia).
    rewrite H0. replace (Datatypes.S k * c + i - c) with (k * c + i) by (simpl; lia).
    rewrite IH; [f_equal; f_equal; lia| |lia|exact Hi].
    intros k' Hk'. replace (Datatypes.S a + k') with (a + Datatypes.S k') by lia.
    apply HF. lia.
Qed.

Lemma length_flat_map_in {X Y : Type} (f : X -> list Y) (c : nat) (l : list X) :
  (forall x, In x l -> length (f x) = c) -> length (flat_map f l) = length l * c.
Proof.
  induction l as [|x l IH]; intro H; simpl; [reflexivity|].
  rewrite length_app, (H x (or_introl eq_refl)), IH; [reflexivity|].
  intros y Hy. apply H. right. exact Hy.
Qed.

Lemma nth_error_pick (l : list S) (k : nat) : nth_error (pick l k) 0 = nth_error l k.
Proof.
  unfold pick. destruct (nth_error l k) eqn:E; [reflexivity|]. reflexivity.
Qed.

Lemma nth_error_transposed (r c : nat) (d : list S) (i j : nat) :
  length d = r * c -> i < r -> j < c ->
  nth_error (transpose_data [r; c] d) (j * r + i) = nth_error d (i * c + j).
Proof.
  intros Hlen Hi Hj.
  rewrite (transpose_data_matrix r c d Hlen).
  assert (Hp : forall i' j', i' < r -> j' < c -> length (pick d (i' * c + j')) = 1).
  { intros i' j' Hi' Hj'. apply pick_length. rewrite Hlen. nia. }
  rewrite (nth_error_flat_map_chunks
             (fun j0 => flat_map (fun i0 => pick d (i0 * c + j0)) (seq 0 r)) r c 0 j i).
  - cbn [Nat.add].
    replace i with (i * 1 + 0) at 1 by lia.
    rewrite (nth_error_flat_map_chunks (fun i0 => pick d (i0 * c + j)) 1 r 0 i 0).
    + cbn [Nat.add]. apply nth_error_pick.
    + intros k' Hk'. apply Hp; assumption.
    + exact Hi.
    + lia.
  - intros k' Hk'. cbn [Nat.add].
    rewrite (length_flat_map_in _ 1), length_seq; [lia|].
    intros x Hx. apply in_seq in Hx. apply Hp; lia.
  - exact Hj.
  - exact Hi.
Qed.

Lemma transposed_length (r c : nat) (d : list S) :
  length d = r * c -> length (transpose_data [r; c] d) = c * r.
Proof.
  intro Hlen. rewrite (transpose_data_matrix r c d Hlen).
  rewrite (length_flat_map_in _ r), length_seq; [reflexivity|].
  intros j Hj. apply in_seq in Hj.
  rewrite (length_flat_map_in _ 1), length_seq; [lia|].
  intros i Hi. apply in_seq in Hi. apply pick_length. rewrite Hlen. nia.
Qed.

(** The rows of a matrix, one after the other, are its entries. *)
Lemma picks_rows (c : nat) :
  forall r (d : list S), length d = r * c ->
    flat_map (fun i => flat_map (fun j => pick d (i * c + j)) (seq 0 c)) (seq 0 r) = d.
Proof.
  induction r as [|r IH]; intros d Hlen.
  - destruct d; [reflexivity|discriminate].
  - cbn [seq flat_map]. rewrite <- seq_shift, flat_map_map.
    transitivity (firstn c d ++ skipn c d); [|apply firstn_skipn]. f_equal.
    + transitivity (flat_map (pick (firstn c d)) (seq 0 (length (firstn c d)))).
      * rewrite length_firstn, Nat.min_l by (rewrite Hlen; simpl; lia).
        apply flat_map_ext_In. intros j Hj. apply in_seq in Hj.
        unfold pick. cbn [Nat.mul Nat.add]. rewrite nth_error_firstn.
        destruct (Nat.ltb_spec j c) as [_|]; [reflexivity|lia].
      * apply picks_all.
    + transitivity (flat_map (fun i => flat_map (fun j => pick (skipn c d) (i * c + j))
                                                (seq 0 c)) (seq 0 r));
        [|apply IH; rewrite length_skipn, Hlen; simpl; lia].
      apply flat_map_ext. intro i. apply flat_map_ext. intro j.
      unfold pick. rewrite nth_error_skipn.
      replace (Datatypes.S i * c + j) with (c + (i * c + j)) by (simpl; lia).
      reflexivity.
Qed.

(** Transposing a matrix twice gives the matrix. *)
Lemma transpose_involutive (m : ndarray S) (r c : nat) :
  shape m = [r; c] -> length (data m) = r * c -> transpose (transpose m) = m.
Proof.
  intros Hs Hlen. unfold transpose. cbn [shape data]. rewrite Hs.
  cbn [rev app].
  rewrite (transpose_data_matrix c r) by (apply transposed_length; exact Hlen).
  destruct m as [sh d]. cbn [shape data] in *. subst sh. f_equal.
  transitivity (flat_map (fun i => flat_map (fun j => pick d (i * c + j)) (seq 0 c))
                         (seq 0 r)); [|apply picks_rows; exact Hlen].
  apply flat_map_ext_In. intros i Hi. apply in_seq in Hi.
  apply flat_map_ext_In. intros j Hj. apply in_seq in Hj.
  unfold pick. rewrite (nth_error_transposed r c d i j Hlen); [reflexivity|lia|lia].
Qed.

Lemma transpose_shape (m : ndarray S) (r c : nat) :
  shape m = [r; c] -> shape (transpose m) = [c; r].
Proof. intro H. unfold transpose. cbn [shape]. rewrite H. reflexivity. Qed.

Lemma transpose_length (m : ndarray S) (r c : nat) :
  shape m = [r; c] -> length (data m) = r * c ->
  length (data (transpose m)) = c * r.
Proof.
  intros Hs Hlen. unfold transpose. cbn [data]. rewrite Hs.
  apply transposed_length. exact Hlen.
Qed.

End TransposeFacts.

(** *** One group of [right_canonicalize] *)

Section RightGroupStep.
Context {L : Type} `{QL : QuantumLabel L}.
Variable S : Type.
Variable qr : ndarray S -> ndarray S * ndarray S.
Variables (add mul : S -> S -> S) (zero one : S).
Variable close : S -> S -> Prop.

#[local] Abbreviation block := (SubTensor L (ndarray S)).

Lemma flatten_trailing_inv (b : block) (m : ndarray S) :
  flatten_trailing b = Ok m ->
  (trailing_size b <> 0 /\ tl (shape (reduced b)) <> []) /\
  hd 0 (shape m) = trailing_size b.
Proof.
  unfold flatten_trailing, reshape_trailing, reshape_cols. fold (trailing_size b).
  destruct (tl (shape (reduced b))); [discriminate|].
  destruct (Nat.eqb_spec (trailing_size b) 0) as [E|E]; simpl; [discriminate|].
  destruct (negb (length (data (reduced b)) mod trailing_size b =? 0));
    [discriminate|].
  intro H. inversion H; subst; simpl. repeat split; auto. discriminate.
Qed.

Lemma mapM_flatten_trailing (bs : list block) (ms : list (ndarray S)) :
  mapM flatten_trailing bs = Ok ms ->
  Forall (fun b => trailing_size b <> 0 /\ tl (shape (reduced b)) <> []) bs /\
  map (fun m => hd 0 (shape m)) ms = map trailing_size bs.
Proof.
  revert ms. induction bs as [|b bs IH]; intros ms E; simpl in E.
  - inversion E; subst. split; [constructor|reflexivity].
  - bind_inv E. bind_inv E. inversion E; subst; clear E.
    destruct (flatten_trailing_inv _ _ Hx) as [Hne Hr].
    destruct (IH _ Hx0) as [Hf Hm].
    split; [constructor; assumption|]. simpl. rewrite Hr, Hm. reflexivity.
Qed.

(** The stacked matrix has one row for each unit of trailing size. *)
Lemma stacked_trailing_shape (bs : list block) (mat : ndarray S) :
  stacked_trailing bs = Ok mat ->
  bs <> [] /\
  Forall (fun b => trailing_size b <> 0 /\ tl (shape (reduced b)) <> []) bs /\
  exists c, shape mat = [fold_right Nat.add 0 (map trailing_size bs); c].
Proof.
  unfold stacked_trailing. intro E. bind_inv E.
  destruct (mapM_flatten_trailing _ _ Hx) as [Hne Hrows].
  destruct bs as [|b bs]; [inversion Hx; subst; discriminate|].
  split; [discriminate|]. split; [exact Hne|].
  destruct x as [|m ms]; [discriminate|]. simpl in E.
  destruct (shape m) as [|r0 [|c0 [|? ?]]] eqn:Hm; try discriminate.
  exists c0. rewrite (append_rows_shape _ _ _ _ r0 c0 Hm E).
  rewrite <- Hrows. simpl. rewrite Hm. reflexivity.
Qed.

Section SlicesT.
Variables (q r : ndarray S) (n c : nat).
Hypothesis Hlen : length (data q) = n * c.
Hypothesis Hr : hd_error (shape r) = Some c.

Lemma piece_transposed (a ls : nat) :
  a + ls <= n ->
  length (data (transpose (mkArray [ls; c] (firstn (ls * c) (skipn (a * c) (data q))))))
  = c * ls.
Proof.
  intro H.
  apply (transpose_length S (mkArray [ls; c] (firstn (ls * c) (skipn (a * c) (data q))))
           ls c eq_refl). cbn [data].
  apply (piece_length S q n c Hlen a ls H).
Qed.

(** The loop that assigns the slices writes [with_slice_T] at the
    positions of the group. *)
Lemma store_slices_T (a : nat) (refs : list nat) (bs : list block) (store : list block) :
  a + fold_right Nat.add 0 (map trailing_size bs) <= n ->
  foldM (store_qT r)
        (combine (pieces c (data q) a (map trailing_size bs)) (combine refs bs)) store
  = Ok (fold_left (fun st rb => list_set st (fst rb) (snd rb))
          (combine refs
             (map (with_slice_T c)
                  (combine (pieces c (data q) a (map trailing_size bs)) bs)))
          store).
Proof.
  revert a refs store. induction bs as [|b bs IH]; intros a refs store Ha.
  - simpl. destruct refs; reflexivity.
  - destruct refs as [|ref refs]; [reflexivity|].
    cbn [map pieces combine foldM fold_left fold_right] in *.
    unfold store_qT at 1. cbn [fst snd].
    rewrite py_index_0. destruct (shape r) as [|c0 shr]; [discriminate|].
    simpl in Hr. inversion Hr; subst c0. cbn [bind].
    unfold reshape. cbn [size_of fold_right]. fold (size_of (tl (shape (reduced b)))).
    fold (trailing_size b).
    rewrite (piece_transposed a (trailing_size b)) by lia.
    rewrite Nat.eqb_refl. cbn [bind].
    rewrite IH by lia. reflexivity.
Qed.

(** The blocks with their slices, flattened and transposed again, are the
    slices. *)
Lemma flatten_slices_T (a : nat) (bs : list block) :
  Forall (fun b => trailing_size b <> 0 /\ tl (shape (reduced b)) <> []) bs ->
  a + fold_right Nat.add 0 (map trailing_size bs) <= n ->
  mapM flatten_trailing
       (map (with_slice_T c) (combine (pieces c (data q) a (map trailing_size bs)) bs))
  = Ok (pieces c (data q) a (map trailing_size bs)).
Proof.
  revert a. induction bs as [|b bs IH]; intros a Hne Ha; [reflexivity|].
  inversion Hne as [|? ? [Hb Htl] Hne']; subst.
  cbn [map pieces combine mapM fold_right] in *.
  rewrite IH by (assumption || lia). 
  set (piece := mkArray [trailing_size b; c]
                  (firstn (trailing_size b * c) (skipn (a * c) (data q)))).
  assert (Hflat : flatten_trailing (with_slice_T c (piece, b)) = Ok piece).
  { unfold flatten_trailing, with_slice_T, reshape_trailing. cbn [fst snd reduced shape tl data].
    destruct (tl (shape (reduced b))) as [|x0 l0] eqn:Et; [congruence|].
    unfold reshape_cols. cbn [data].
    assert (Els : size_of (x0 :: l0) = trailing_size b)
      by (unfold trailing_size; rewrite Et; reflexivity).
    rewrite Els.
    unfold piece. rewrite (piece_transposed a (trailing_size b)) by lia.
    destruct (Nat.eqb_spec (trailing_size b) 0) as [E|_]; [contradiction|].
    rewrite Nat.Div0.mod_mul, Nat.div_mul by exact Hb. cbn [orb negb Nat.eqb bind].
    f_equal.
    apply (transpose_involutive S (mkArray [trailing_size b; c] _) (trailing_size b) c
             eq_refl).
    cbn [data]. apply (piece_length S q n c Hlen a (trailing_size b)). lia. }
  rewrite Hflat. reflexivity.
Qed.

End SlicesT.

(** The body of the loop over the groups: for a group whose stacked
    matrix is [mat], it stores the transposed slices of the first factor of
    [qr mat] in the blocks of the group and the transpose of the second
    factor in the map; and the blocks, flattened, transposed and stacked
    again, are the first factor. *)
Lemma right_canonicalize_group_ok (store : list block) (lmap : dict L (ndarray S))
    (g : L) (refs : list nat) (bs : list block) (mat : ndarray S) :
  mapM (deref store) refs = Ok bs ->
  stacked_trailing bs = Ok mat ->
  qr_contract qr add mul zero one close mat ->
  let q := fst (qr mat) in
  let r := snd (qr mat) in
  let c := hd 0 (shape r) in
  right_canonicalize_group qr (store, lmap) (g, refs)
  = Ok (fold_left (fun st rb => list_set st (fst rb) (snd rb))
          (combine refs (right_canon_blocks q c bs)) store,
        dict_set q_eqb lmap g (transpose r)) /\
  stacked_trailing (right_canon_blocks q c bs) = Ok q.
Proof.
  intros Hd Hst Hqr q r c. subst q r c.
  destruct (stacked_trailing_shape _ _ Hst) as (Hne & Hls & cm & Hmat).
  unfold qr_contract in Hqr. destruct (qr mat) as [q r] eqn:Eqr.
  destruct Hqr as (Hwf & _ & (n & c & p & Hq & Hr & Hm & _)).
  simpl.
  rewrite Hmat in Hm. inversion Hm; subst n p; clear Hm.
  unfold wf_array in Hwf. rewrite Hq in Hwf. simpl in Hwf.
  rewrite Nat.mul_1_r in Hwf.
  assert (Hrc : hd_error (shape r) = Some c) by (rewrite Hr; reflexivity).
  assert (Hne' : map trailing_size bs <> [])
    by (destruct bs; [congruence|discriminate]).
  rewrite Hr. simpl. split.
  - unfold right_canonicalize_group. cbn [fst snd]. rewrite Hd. cbn [bind].
    change (map (fun b : block => size_of (tl (shape (reduced b)))) bs)
      with (map (@trailing_size L S) bs).
    rewrite (mapM_combine_map trailing_size
               (fun (b : block) sh => m <- reshape_trailing (reduced b) sh ;;
                                      Ok (transpose m))).
    change (mapM (fun x : block => m <- reshape_trailing (reduced x) (trailing_size x) ;;
                                   Ok (transpose m)) bs)
      with (mapM flatten_trailing bs).
    unfold stacked_trailing in Hst.
    destruct (mapM flatten_trailing bs) as [ms|e]; [|discriminate].
    cbn [bind] in *. rewrite Hst. cbn [bind]. rewrite Eqr.
    unfold split_rows. rewrite Hq. unfold accumulate.
    rewrite (split_from_pieces _ q _ c 0 _ Hq Hne' eq_refl). cbn [bind].
    rewrite pieces_length, length_map, Nat.eqb_refl. cbn [negb].
    rewrite (store_slices_T q r _ c Hwf Hrc 0 refs bs store (Nat.le_refl _)).
    reflexivity.
  - unfold stacked_trailing, right_canon_blocks.
    rewrite (flatten_slices_T q _ c Hwf 0 bs Hls (Nat.le_refl _)). simpl.
    apply (concatenate_pieces _ q _ c _ Hq Hwf Hne' eq_refl).
Qed.

End RightGroupStep.

(** *** The loops of [right_canonicalize] *)

Section RightCanonicalization.
Context {L : Type} `{QL : QuantumLabel L}.
Variable S : Type.
Variable qr : ndarray S -> ndarray S * ndarray S.
Variables (add mul : S -> S -> S) (zero one : S).
Variable close : S -> S -> Prop.

#[local] Abbreviation block := (SubTensor L (ndarray S)).

Lemma first_label_exists (b : block) :
  q_labels b <> [] -> exists q, py_index (q_labels b) 0 = Ok q.
Proof.
  intro Hne. rewrite py_index_0. destruct (q_labels b) as [|q l]; [congruence|eauto].
Qed.

Lemma has_first_label_unique (g g' : L) (b : block) :
  has_first_label g b = true -> has_first_label g' b = true -> g = g'.
Proof.
  unfold has_first_label.
  destruct (py_index (q_labels b) 0) as [q|]; [|discriminate].
  destruct (q_eqb_spec q g), (q_eqb_spec q g'); congruence.
Qed.

Lemma collect_col_total (items : list (nat * block)) (d0 : dict L (list nat)) :
  Forall (fun ib => q_labels (snd ib) <> []) items ->
  exists d, foldM collect_col_step items d0 = Ok d.
Proof.
  revert d0. induction items as [|ib items IH]; intros d0 H; simpl; [eauto|].
  inversion H as [|? ? Hb H']; subst.
  destruct (first_label_exists _ Hb) as [q Hq].
  unfold collect_col_step at 1. rewrite Hq. simpl. apply IH. exact H'.
Qed.

Lemma collect_col_get (items : list (nat * block)) (d : dict L (list nat)) :
  foldM collect_col_step items [] = Ok d ->
  forall g, dict_get q_eqb d g
            = group_entry (map fst (filter (fun ib => has_first_label g (snd ib)) items)).
Proof.
  revert d. induction items as [|[i b] items IH] using rev_ind; intros d E g.
  - inversion E; reflexivity.
  - rewrite foldM_app in E. bind_inv E. simpl in E. bind_inv E.
    inversion E; subst; clear E. unfold collect_col_step in Hx0. bind_inv Hx0.
    inversion Hx0; subst; clear Hx0. simpl in *.
    rewrite (dict_get_set _ _ _ q_eqb_spec).
    rewrite filter_app, map_app. simpl. unfold has_first_label at 2. simpl.
    rewrite Hx1. rewrite (IH _ Hx x0), (IH _ Hx g).
    destruct (q_eqb_spec x0 g) as [->|Hne]; simpl.
    + rewrite group_entry_app. reflexivity.
    + rewrite app_nil_r. reflexivity.
Qed.

Lemma collect_col_NoDup (items : list (nat * block)) (d0 d : dict L (list nat)) :
  NoDup (dict_keys d0) ->
  foldM collect_col_step items d0 = Ok d -> NoDup (dict_keys d).
Proof.
  revert d0. induction items as [|ib items IH]; intros d0 H0 E; simpl in E.
  - inversion E; subst; exact H0.
  - bind_inv E. apply (IH x); [|exact E].
    unfold collect_col_step in Hx. bind_inv Hx. inversion Hx; subst.
    apply dict_set_NoDup; [apply q_eqb_spec|exact H0].
Qed.

Lemma first_refs_enumerate (g : L) (a : nat) (bs : list block) :
  map fst (filter (fun ib : nat * block => has_first_label g (snd ib))
                  (combine (seq a (length bs)) bs))
  = first_refs_from g a bs.
Proof.
  revert a. induction bs as [|b bs IH]; intro a; simpl; [reflexivity|].
  destruct (has_first_label g b); simpl; rewrite IH; reflexivity.
Qed.

Lemma first_refs_In (g : L) (a : nat) (bs : list block) (i : nat) :
  In i (first_refs_from g a bs) ->
  a <= i /\ i < a + length bs /\
  exists b, nth_error bs (i - a) = Some b /\ has_first_label g b = true.
Proof.
  revert a. induction bs as [|b bs IH]; intros a Hin; simpl in *; [tauto|].
  assert (Hrec : In i (first_refs_from g (Datatypes.S a) bs) ->
                 a <= i /\ i < a + Datatypes.S (length bs) /\
                 exists b0, nth_error (b :: bs) (i - a) = Some b0 /\
                            has_first_label g b0 = true).
  { intro H. destruct (IH _ H) as (H1 & H2 & b0 & H3 & H4).
    split; [lia|]. split; [lia|]. exists b0. split; [|exact H4].
    replace (i - a) with (Datatypes.S (i - Datatypes.S a)) by lia. exact H3. }
  destruct (has_first_label g b) eqn:E; [|auto].
  destruct Hin as [<-|Hin]; [|auto].
  split; [lia|]. split; [lia|]. exists b. rewrite Nat.sub_diag. auto.
Qed.

Lemma first_refs_NoDup (g : L) (a : nat) (bs : list block) :
  NoDup (first_refs_from g a bs).
Proof.
  revert a. induction bs as [|b bs IH]; intro a; simpl; [constructor|].
  destruct (has_first_label g b); [|apply IH].
  constructor; [|apply IH].
  intro Hin. apply first_refs_In in Hin. lia.
Qed.

Lemma first_refs_deref (g : L) (pre bs : list block) :
  mapM (deref (pre ++ bs)) (first_refs_from g (length pre) bs)
  = Ok (filter (has_first_label g) bs).
Proof.
  revert pre. induction bs as [|b bs IH]; intro pre; simpl; [reflexivity|].
  assert (Hrec : mapM (deref (pre ++ b :: bs))
                      (first_refs_from g (Datatypes.S (length pre)) bs)
                 = Ok (filter (has_first_label g) bs)).
  { specialize (IH (pre ++ [b])). rewrite <- app_assoc, length_app in IH.
    simpl in IH. rewrite Nat.add_1_r in IH. exact IH. }
  destruct (has_first_label g b); [|exact Hrec].
  simpl. unfold deref at 1.
  rewrite nth_error_app2, Nat.sub_diag by lia. simpl.
  rewrite Hrec. reflexivity.
Qed.

Lemma first_refs_labels (g : L) (a : nat) (bs bs' : list block) :
  map (@q_labels L (ndarray S)) bs' = map (@q_labels L (ndarray S)) bs ->
  first_refs_from g a bs' = first_refs_from g a bs.
Proof.
  revert a bs'. induction bs as [|b bs IH]; intros a [|b' bs'] E; simpl in *;
    try discriminate; [reflexivity|].
  inversion E as [[Eb Ebs]].
  unfold has_first_label. rewrite Eb.
  rewrite (IH (Datatypes.S a) bs' Ebs). reflexivity.
Qed.

Lemma right_canon_blocks_labels (q : ndarray S) (c : nat) (bs : list block) :
  map (@q_labels L (ndarray S)) (right_canon_blocks q c bs)
  = map (@q_labels L (ndarray S)) bs.
Proof.
  unfold right_canon_blocks. rewrite map_map. simpl.
  rewrite <- (map_map snd (@q_labels L (ndarray S))).
  rewrite map_snd_combine; [reflexivity|].
  rewrite pieces_length, length_map. reflexivity.
Qed.

Lemma right_canon_blocks_length (q : ndarray S) (c : nat) (bs : list block) :
  length (right_canon_blocks q c bs) = length bs.
Proof.
  rewrite <- (length_map (@q_labels L (ndarray S))), right_canon_blocks_labels.
  apply length_map.
Qed.

(** What the loop finds of a group in the original blocks, and what it
    leaves of it. *)
Let good (orig : list block) (grp : L * list nat) : Prop :=
  snd grp = first_refs_from (fst grp) 0 orig /\
  exists mat, stacked_trailing (first_group_of (fst grp) orig) = Ok mat /\
              qr_contract qr add mul zero one close mat.

Let finished (orig store' : list block) (lmap' : dict L (ndarray S))
    (grp : L * list nat) : Prop :=
  exists mat,
    stacked_trailing (first_group_of (fst grp) orig) = Ok mat /\
    mapM (deref store') (snd grp)
    = Ok (right_canon_blocks (fst (qr mat)) (hd 0 (shape (snd (qr mat))))
            (first_group_of (fst grp) orig)) /\
    dict_get q_eqb lmap' (fst grp) = Some (transpose (snd (qr mat))).

Lemma first_groups_disjoint (orig : list block) (g g' : L) (i : nat) :
  g <> g' -> In i (first_refs_from g 0 orig) -> ~ In i (first_refs_from g' 0 orig).
Proof.
  intros Hne Hi Hi'.
  apply first_refs_In in Hi, Hi'.
  destruct Hi as (_ & _ & b & Hb & Hg), Hi' as (_ & _ & b' & Hb' & Hg').
  rewrite Hb in Hb'. inversion Hb'; subst b'.
  apply Hne. eapply has_first_label_unique; eassumption.
Qed.

Lemma right_canonicalize_groups (orig : list block) (Gs : list (L * list nat))
    (store : list block) (lmap : dict L (ndarray S)) :
  NoDup (map fst Gs) ->
  Forall (good orig) Gs ->
  length store = length orig ->
  map (@q_labels L (ndarray S)) store = map (@q_labels L (ndarray S)) orig ->
  (forall i, In i (concat (map snd Gs)) -> nth_error store i = nth_error orig i) ->
  exists store' lmap',
    foldM (right_canonicalize_group qr) Gs (store, lmap) = Ok (store', lmap') /\
    length store' = length orig /\
    map (@q_labels L (ndarray S)) store' = map (@q_labels L (ndarray S)) orig /\
    (forall i, ~ In i (concat (map snd Gs)) -> nth_error store' i = nth_error store i) /\
    (forall g', ~ In g' (map fst Gs) ->
                dict_get q_eqb lmap' g' = dict_get q_eqb lmap g') /\
    Forall (finished orig store' lmap') Gs.
Proof.
  revert store lmap.
  induction Gs as [|[g refs] Gs IH]; intros store lmap Hnd Hgood Hlen Hlab Hun.
  - exists store, lmap. simpl. repeat split; auto.
  - inversion Hnd as [|? ? Hg Hnd']; subst.
    inversion Hgood as [|? ? [Hrefs (mat & Hst & Hqr)] Hgood']; subst.
    simpl in Hrefs, Hst. subst refs.
    set (refs := first_refs_from g 0 orig) in *.
    set (bs := first_group_of g orig) in *.
    assert (Hd : mapM (deref store) refs = Ok bs).
    { rewrite (deref_ext S orig store refs).
      - exact (first_refs_deref g [] orig).
      - intros i Hi. apply Hun. simpl. apply in_or_app. left. exact Hi. }
    destruct (right_canonicalize_group_ok S qr add mul zero one close
                store lmap g refs bs mat Hd Hst Hqr) as [Hstep _].
    set (q := fst (qr mat)) in *. set (r := snd (qr mat)) in *.
    set (nbs := right_canon_blocks q (hd 0 (shape r)) bs) in *.
    assert (Hrl : length refs = length bs)
      by (symmetry; apply (mapM_length _ _ _ Hd)).
    assert (Hnl : length refs = length nbs)
      by (unfold nbs; rewrite right_canon_blocks_length; exact Hrl).
    assert (Hb : Forall (fun k => k < length store) refs).
    { apply Forall_forall. intros k Hk. apply first_refs_In in Hk.
      rewrite Hlen. lia. }
    pose proof (first_refs_NoDup g 0 orig) as Hrnd. fold refs in Hrnd.
    assert (Hother : forall i, ~ In i refs ->
              nth_error (set_all store (combine refs nbs)) i = nth_error store i).
    { intros i Hi. apply set_all_other. intro Hin. apply Hi.
      apply in_map_iff in Hin. destruct Hin as ([k v] & E & Hin).
      simpl in E. subst k. apply in_combine_l in Hin. exact Hin. }
    assert (Htail : forall i, In i (concat (map snd Gs)) -> ~ In i refs).
    { intros i Hi Hir. apply in_concat in Hi. destruct Hi as (refs' & Hr' & Hi).
      apply in_map_iff in Hr'. destruct Hr' as ([g' refs''] & E & Hin).
      simpl in E. subst refs''.
      rewrite Forall_forall in Hgood'. destruct (Hgood' _ Hin) as [E' _].
      simpl in E'. subst refs'.
      apply (first_groups_disjoint orig g g' i); [|exact Hir|exact Hi].
      intro E. subst g'. apply Hg.
      change g with (fst (g, first_refs_from g 0 orig)). apply in_map. exact Hin. }
    destruct (IH (set_all store (combine refs nbs)) (dict_set q_eqb lmap g (transpose r)))
      as (store' & lmap' & Hfold & Hlen' & Hlab' & Hframe & Hrm & Hfin).
    + exact Hnd'.
    + exact Hgood'.
    + rewrite set_all_length. exact Hlen.
    + rewrite (labels_set_all S store refs bs nbs Hrnd (deref_inv S _ _ _ Hd)).
      * exact Hlab.
      * apply right_canon_blocks_labels.
    + intros i Hi. rewrite (Hother i (Htail i Hi)).
      apply Hun. simpl. apply in_or_app. right. exact Hi.
    + exists store', lmap'. simpl. rewrite Hstep. simpl.
      split; [exact Hfold|]. split; [exact Hlen'|]. split; [exact Hlab'|].
      split; [|split].
      * intros i Hi. rewrite Hframe.
        -- apply Hother. intro H. apply Hi, in_or_app. left. exact H.
        -- intro H. apply Hi, in_or_app. right. exact H.
      * intros g' Hg'. rewrite Hrm by tauto.
        rewrite (dict_get_set _ _ _ q_eqb_spec).
        destruct (q_eqb_spec g g'); [tauto|reflexivity].
      * constructor; [|exact Hfin].
        exists mat. simpl. split; [exact Hst|]. split.
        -- rewrite (deref_ext S (set_all store (combine refs nbs)) store' refs).
           ++ apply deref_Some. apply set_all_same; assumption.
           ++ intros i Hi. apply Hframe. intro H. exact (Htail i H Hi).
        -- rewrite Hrm by exact Hg.
           rewrite (dict_get_set _ _ _ q_eqb_spec).
           destruct (q_eqb_spec g g); [reflexivity|congruence].
Qed.

(** X22. On a collection whose blocks have at least one leg and whose
    groups by first label, each block flattened over its trailing legs and
    transposed, stack to matrices on which [np.linalg.qr] keeps its
    promise, [right_canonicalize] returns; the labels and the tag are
    unchanged; and for every first label [g], with [mat] the stacked matrix
    of the group before the call: the updated blocks of the group,
    flattened, transposed and stacked in the same way, are exactly the
    first factor of [qr mat], which is column-orthonormal up to the
    tolerance, and the carry matrix of [g] is the transpose of the second
    factor, whose product with the first is [mat] up to the tolerance. *)
Theorem right_canonicalize_orthonormal (self : SparseTensor L (ndarray S)) :
  Forall (fun b : block => q_labels b <> []) (blocks self) ->
  (forall g, first_group_of g (blocks self) <> [] ->
     exists mat, stacked_trailing (first_group_of g (blocks self)) = Ok mat /\
                 qr_contract qr add mul zero one close mat) ->
  exists t' l_blocks_map,
    right_canonicalize qr self = Ok (t', l_blocks_map) /\
    map (@q_labels L (ndarray S)) (blocks t')
    = map (@q_labels L (ndarray S)) (blocks self) /\
    ftype t' = ftype self /\
    forall g, first_group_of g (blocks self) <> [] ->
      exists mat Qm R,
        stacked_trailing (first_group_of g (blocks self)) = Ok mat /\
        qr mat = (Qm, R) /\
        stacked_trailing (first_group_of g (blocks t')) = Ok Qm /\
        dict_get q_eqb l_blocks_map g = Some (transpose R) /\
        col_orthonormal add mul zero one close Qm /\
        product_is add mul zero close Qm R mat.
Proof.
  intros Hlab Hqr. set (orig := blocks self).
  assert (Hitems : Forall (fun ib : nat * block => q_labels (snd ib) <> [])
                          (enumerate orig)).
  { apply Forall_forall. intros [i b] Hin. simpl.
    apply in_combine_r in Hin. rewrite Forall_forall in Hlab. apply Hlab, Hin. }
  destruct (collect_col_total _ [] Hitems) as [d Hd].
  pose proof (collect_col_get _ _ Hd) as Hget.
  pose proof (collect_col_NoDup _ [] _ (NoDup_nil _) Hd) as Hnd.
  assert (Hrefs : forall g, dict_get q_eqb d g = group_entry (first_refs_from g 0 orig)).
  { intro g. rewrite Hget. unfold enumerate. rewrite first_refs_enumerate.
    reflexivity. }
  assert (Hderef : forall g, mapM (deref orig) (first_refs_from g 0 orig)
                             = Ok (first_group_of g orig))
    by (intro g; exact (first_refs_deref g [] orig)).
  assert (Hgood : Forall (good orig) d).
  { apply Forall_forall. intros [g refs] Hin.
    apply (dict_In_get _ _ _ q_eqb_spec _ _ _ Hnd) in Hin.
    rewrite Hrefs in Hin.
    destruct (first_refs_from g 0 orig) as [|k ks] eqn:Er; [discriminate|].
    inversion Hin; subst refs. split; [simpl; symmetry; exact Er|]. simpl.
    apply Hqr. intro Hnil. specialize (Hderef g).
    fold orig in Hnil. rewrite Er, Hnil in Hderef.
    apply mapM_length in Hderef. discriminate. }
  destruct (right_canonicalize_groups orig d orig [] Hnd Hgood eq_refl eq_refl
              (fun i _ => eq_refl))
    as (store' & lmap' & Hfold & Hlen' & Hlab' & _ & _ & Hfin).
  exists (with_blocks self store'), lmap'.
  split.
  { unfold right_canonicalize, collect_cols.
    change (blocks self) with orig. rewrite Hd. cbn [bind].
    refine (eq_trans
              (f_equal (fun x => bind x (fun st => Ok (with_blocks self (fst st), snd st)))
                       Hfold) _).
    reflexivity. }
  split; [exact Hlab'|]. split; [reflexivity|].
  intros g Hg. destruct (Hqr g Hg) as (mat & Hst & Hc).
  fold orig in Hst, Hg.
  assert (Hne : first_refs_from g 0 orig <> []).
  { intro Hnil. specialize (Hderef g). rewrite Hnil in Hderef.
    simpl in Hderef. inversion Hderef as [E]. symmetry in E. contradiction. }
  assert (Hin : In (g, first_refs_from g 0 orig) d).
  { apply (dict_get_In _ _ _ q_eqb_spec). rewrite Hrefs.
    destruct (first_refs_from g 0 orig); [congruence|reflexivity]. }
  rewrite Forall_forall in Hfin.
  destruct (Hfin _ Hin) as (mat' & Hst' & Hd' & Hr'). simpl in Hst', Hd', Hr'.
  rewrite Hst in Hst'. inversion Hst'; subst mat'; clear Hst'.
  destruct (right_canonicalize_group_ok S qr add mul zero one close
              orig [] g _ _ mat (Hderef g) Hst Hc) as [_ Hstack].
  exists mat, (fst (qr mat)), (snd (qr mat)).
  split; [exact Hst|]. split; [apply surjective_pairing|].
  split; [|split; [exact Hr'|]].
  - simpl.
    pose proof (first_refs_deref g [] store') as Hs. simpl in Hs.
    rewrite (first_refs_labels g 0 orig store' Hlab') in Hs.
    rewrite Hd' in Hs. inversion Hs as [E]. unfold first_group_of at 1.
    rewrite <- E. exact Hstack.
  - unfold qr_contract in Hc. destruct (qr mat) as [q r]. simpl. tauto.
Qed.

End RightCanonicalization.

(** *** Shapes after [right_canonicalize] *)

Section RightCanonicalShapes.
Context {L : Type} `{QL : QuantumLabel L}.
Variable S : Type.
Variable qr : ndarray S -> ndarray S * ndarray S.
Variables (add mul : S -> S -> S) (zero one : S).
Variable close : S -> S -> Prop.

#[local] Abbreviation block := (SubTensor L (ndarray S)).

Lemma last_rev_hd {T : Type} (l : list T) (d : T) : last (rev l) d = hd d l.
Proof.
  destruct l as [|x l]; [reflexivity|]. simpl. apply last_last.
Qed.

Lemma first_refs_complete (g : L) (a : nat) (bs : list block) (i : nat) (b : block) :
  a <= i -> nth_error bs (i - a) = Some b -> has_first_label g b = true ->
  In i (first_refs_from g a bs).
Proof.
  revert a. induction bs as [|b0 bs IH]; intros a Ha Hn Hg; simpl.
  - destruct (i - a); discriminate.
  - destruct (Nat.eq_dec i a) as [->|Hne].
    + rewrite Nat.sub_diag in Hn. simpl in Hn. inversion Hn; subst b0.
      rewrite Hg. left. reflexivity.
    + assert (Hin : In i (first_refs_from g (Datatypes.S a) bs)).
      { apply IH; [lia| |exact Hg].
        replace (i - a) with (Datatypes.S (i - Datatypes.S a)) in Hn by lia.
        exact Hn. }
      destruct (has_first_label g b0); [right|]; exact Hin.
Qed.

Lemma first_group_nil_refs (g : L) (a : nat) (bs : list block) :
  filter (has_first_label g) bs = [] <-> first_refs_from g a bs = [].
Proof.
  revert a. induction bs as [|b bs IH]; intro a; simpl; [tauto|].
  destruct (has_first_label g b); [split; discriminate|apply IH].
Qed.

Lemma right_canon_blocks_Forall2 (q : ndarray S) (c : nat) (bs : list block) :
  Forall2 (fun b nb : block =>
             q_labels nb = q_labels b /\
             shape (reduced nb) = c :: tl (shape (reduced b)))
          bs (right_canon_blocks q c bs).
Proof.
  unfold right_canon_blocks. generalize 0 as a.
  induction bs as [|b bs IH]; intro a; simpl; constructor.
  - split; reflexivity.
  - apply IH.
Qed.

(** What a run of [right_canonicalize] leaves in the list of blocks and in
    the carry map, group by group. *)
Lemma right_canonicalize_run (self : SparseTensor L (ndarray S)) :
  Forall (fun b : block => q_labels b <> []) (blocks self) ->
  (forall g, first_group_of g (blocks self) <> [] ->
     exists mat, stacked_trailing (first_group_of g (blocks self)) = Ok mat /\
                 qr_contract qr add mul zero one close mat) ->
  exists store' lmap',
    right_canonicalize qr self = Ok (with_blocks self store', lmap') /\
    length store' = length (blocks self) /\
    (forall g, first_group_of g (blocks self) = [] -> dict_get q_eqb lmap' g = None) /\
    (forall g, first_group_of g (blocks self) <> [] ->
       exists mat,
         stacked_trailing (first_group_of g (blocks self)) = Ok mat /\
         mapM (deref store') (first_refs_from g 0 (blocks self))
         = Ok (right_canon_blocks (fst (qr mat)) (hd 0 (shape (snd (qr mat))))
                 (first_group_of g (blocks self))) /\
         dict_get q_eqb lmap' g = Some (transpose (snd (qr mat)))).
Proof.
  intros Hlab Hqr. set (orig := blocks self).
  assert (Hitems : Forall (fun ib : nat * block => q_labels (snd ib) <> [])
                          (enumerate orig)).
  { apply Forall_forall. intros [i b] Hin. simpl.
    apply in_combine_r in Hin. rewrite Forall_forall in Hlab. apply Hlab, Hin. }
  destruct (collect_col_total _ _ [] Hitems) as [d Hd].
  pose proof (collect_col_get _ _ _ Hd) as Hget.
  pose proof (collect_col_NoDup _ _ [] _ (NoDup_nil _) Hd) as Hnd.
  assert (Hrefs : forall g, dict_get q_eqb d g = group_entry (first_refs_from g 0 orig)).
  { intro g. rewrite Hget. unfold enumerate. rewrite first_refs_enumerate.
    reflexivity. }
  assert (Hgood : Forall (fun grp : L * list nat =>
             snd grp = first_refs_from (fst grp) 0 orig /\
             exists mat, stacked_trailing (first_group_of (fst grp) orig) = Ok mat /\
                         qr_contract qr add mul zero one close mat) d).
  { apply Forall_forall. intros [g refs] Hin.
    apply (dict_In_get _ _ _ q_eqb_spec _ _ _ Hnd) in Hin.
    rewrite Hrefs in Hin.
    destruct (first_refs_from g 0 orig) as [|k ks] eqn:Er; [discriminate|].
    inversion Hin; subst refs. split; [simpl; symmetry; exact Er|]. simpl.
    apply Hqr. intro Hnil. apply (first_group_nil_refs g 0 orig) in Hnil.
    fold orig in Hnil. congruence. }
  destruct (right_canonicalize_groups S qr add mul zero one close orig d orig [] Hnd Hgood
              eq_refl eq_refl (fun i _ => eq_refl))
    as (store' & lmap' & Hfold & Hlen' & _ & _ & Hrm & Hfin).
  exists store', lmap'. split.
  { unfold right_canonicalize, collect_cols.
    change (blocks self) with orig. rewrite Hd. cbn [bind].
    refine (eq_trans
              (f_equal (fun x => bind x (fun st => Ok (with_blocks self (fst st), snd st)))
                       Hfold) _).
    reflexivity. }
  split; [exact Hlen'|]. split.
  - intros g Hg. rewrite Hrm; [reflexivity|].
    intro Hin. unfold first_group_of in Hg. apply (first_group_nil_refs g 0 orig) in Hg.
    apply in_map_iff in Hin. destruct Hin as ([g' refs] & E & Hin). simpl in E. subst g'.
    apply (dict_In_get _ _ _ q_eqb_spec _ _ _ Hnd) in Hin.
    rewrite Hrefs, Hg in Hin. discriminate.
  - intros g Hg.
    assert (Hne : first_refs_from g 0 orig <> []).
    { intro Hnil. apply Hg. apply (first_group_nil_refs g 0 orig). exact Hnil. }
    assert (Hin : In (g, first_refs_from g 0 orig) d).
    { apply (dict_get_In _ _ _ q_eqb_spec). rewrite Hrefs.
      destruct (first_refs_from g 0 orig); [congruence|reflexivity]. }
    rewrite Forall_forall in Hfin.
    destruct (Hfin _ Hin) as (mat & Hst & Hd' & Hr'). simpl in Hst, Hd', Hr'.
    exists mat. auto.
Qed.

(** X23. [right_canonicalize] changes the first extent of the blocks and
    nothing else of their shapes: it keeps the number of the blocks, their
    order, their labels and their trailing extents; the first extent of a
    block becomes the number of columns of the carry matrix of its first
    label; and the carry map has an entry exactly for the first labels of
    the blocks. *)
Theorem right_canonicalize_shapes (self : SparseTensor L (ndarray S)) :
  Forall (fun b : block => q_labels b <> []) (blocks self) ->
  (forall g, first_group_of g (blocks self) <> [] ->
     exists mat, stacked_trailing (first_group_of g (blocks self)) = Ok mat /\
                 qr_contract qr add mul zero one close mat) ->
  exists t' l_blocks_map,
    right_canonicalize qr self = Ok (t', l_blocks_map) /\
    n_blocks t' = n_blocks self /\
    (forall g, dict_get q_eqb l_blocks_map g <> None <->
               first_group_of g (blocks self) <> []) /\
    forall i b, nth_error (blocks self) i = Some b ->
      exists b' g R,
        nth_error (blocks t') i = Some b' /\
        q_labels b' = q_labels b /\
        py_index (q_labels b) 0 = Ok g /\
        dict_get q_eqb l_blocks_map g = Some R /\
        shape (reduced b')
        = last (shape R) 0 :: tl (shape (reduced b)).
Proof.
  intros Hlab Hqr.
  destruct (right_canonicalize_run self Hlab Hqr)
    as (store' & lmap' & Hrun & Hlen & Hnone & Hsome).
  exists (with_blocks self store'), lmap'.
  split; [exact Hrun|]. split; [exact Hlen|]. split.
  - intro g. split.
    + intros Hg Hnil. apply Hg. apply Hnone. exact Hnil.
    + intros Hg. destruct (Hsome g Hg) as (mat & _ & _ & Hr). congruence.
  - intros i b Hi.
    assert (Hb : In b (blocks self)) by (apply nth_error_In with (n := i); exact Hi).
    rewrite Forall_forall in Hlab.
    destruct (first_label_exists S b (Hlab b Hb)) as [g Hg].
    assert (Hgl : has_first_label g b = true).
    { unfold has_first_label. rewrite Hg. destruct (q_eqb_spec g g); congruence. }
    assert (Hgrp : first_group_of g (blocks self) <> []).
    { intro Hnil. assert (Hin : In b (first_group_of g (blocks self)))
        by (apply filter_In; split; assumption).
      rewrite Hnil in Hin. exact Hin. }
    destruct (Hsome g Hgrp) as (mat & Hst & Hd & Hr).
    assert (Hir : In i (first_refs_from g 0 (blocks self))).
    { apply (first_refs_complete g 0 (blocks self) i b); [lia| |exact Hgl].
      rewrite Nat.sub_0_r. exact Hi. }
    pose proof (deref_inv S _ _ _ (first_refs_deref S g [] (blocks self))) as H1.
    simpl in H1.
    pose proof (deref_inv S _ _ _ Hd) as H2.
    destruct (zip_lookup _ _ _ _ _ _ H1 H2
                (right_canon_blocks_Forall2 (fst (qr mat)) (hd 0 (shape (snd (qr mat)))) _)
                i Hir) as (b0 & nb & Hb0 & Hnb & Hl & Hs).
    rewrite Hi in Hb0. inversion Hb0; subst b0.
    exists nb, g, (transpose (snd (qr mat))).
    unfold transpose at 2. cbn [shape]. rewrite last_rev_hd. simpl. auto.
Qed.

(** *** Blocks with fewer than two array axes *)

Lemma collect_col_head (items : list (nat * block)) (g0 : L) (v0 : list nat)
    (d0 d : dict L (list nat)) :
  foldM collect_col_step items ((g0, v0) :: d0) = Ok d ->
  exists v d', d = (g0, v) :: d'.
Proof.
  revert v0 d0. induction items as [|ib items IH]; intros v0 d0 E; simpl in E.
  - inversion E. eauto.
  - bind_inv E. unfold collect_col_step in Hx. bind_inv Hx.
    inversion Hx; subst x; clear Hx. simpl in E.
    destruct (q_eqb g0 x0); apply IH in E; exact E.
Qed.

(** X24. [right_canonicalize] raises [TypeError] on a collection whose first
    block is an array with fewer than two axes: [np.prod] of the empty
    trailing shape is the float [1.0], which [reshape] refuses. *)
Theorem right_canonicalize_flat_block (self : SparseTensor L (ndarray S))
    (b0 : block) (rest : list block) :
  blocks self = b0 :: rest ->
  Forall (fun b : block => q_labels b <> []) (blocks self) ->
  length (shape (reduced b0)) <= 1 ->
  right_canonicalize qr self = Raise TypeError.
Proof.
  intros Hb Hlab Hflat.
  assert (Hitems : Forall (fun ib : nat * block => q_labels (snd ib) <> [])
                          (enumerate (blocks self))).
  { apply Forall_forall. intros [i b] Hin. simpl.
    apply in_combine_r in Hin. rewrite Forall_forall in Hlab. apply Hlab, Hin. }
  destruct (collect_col_total _ _ [] Hitems) as [d Hd].
  pose proof (collect_col_get _ _ _ Hd) as Hget.
  assert (Hl0 : q_labels b0 <> []).
  { rewrite Forall_forall in Hlab. apply Hlab. rewrite Hb. left. reflexivity. }
  destruct (first_label_exists S b0 Hl0) as [g0 Hg0].
  assert (Hgl : has_first_label g0 b0 = true).
  { unfold has_first_label. rewrite Hg0. destruct (q_eqb_spec g0 g0); congruence. }
  assert (Hhead : exists v d', d = (g0, v) :: d').
  { assert (Hstep : collect_col_step [] (0, b0) = Ok [(g0, [0])]).
    { unfold collect_col_step. cbn [fst snd]. rewrite Hg0. reflexivity. }
    revert Hd. rewrite Hb. unfold enumerate. cbn [length seq combine foldM].
    rewrite Hstep. cbn [bind]. apply collect_col_head. }
  destruct Hhead as (v & d' & ->).
  assert (Hv : v = 0 :: first_refs_from g0 1 rest).
  { specialize (Hget g0). simpl in Hget.
    destruct (q_eqb_spec g0 g0) as [_|N]; [|congruence].
    unfold enumerate in Hget. rewrite first_refs_enumerate, Hb in Hget.
    simpl in Hget. rewrite Hgl in Hget. simpl in Hget. inversion Hget. reflexivity. }
  subst v.
  pose proof (first_refs_deref S g0 [] (blocks self)) as Hderef. simpl in Hderef.
  rewrite Hb in Hderef at 2 3. simpl in Hderef. rewrite Hgl in Hderef.
  unfold right_canonicalize, collect_cols. rewrite Hd. cbn [bind foldM].
  unfold right_canonicalize_group at 1. cbn [fst snd]. rewrite Hderef. cbn [bind].
  cbn [map combine mapM fst snd].
  assert (Hty : forall sh, reshape_trailing (reduced b0) sh = Raise TypeError).
  { intro sh. unfold reshape_trailing.
    destruct (shape (reduced b0)) as [|n [|m l]]; simpl in *; try reflexivity. lia. }
  rewrite Hty. reflexivity.
Qed.

End RightCanonicalShapes.

(** *** The example *)

Lemma right_isometry_example_contract (g : Z) :
  first_group_of g (blocks right_isometry_example) <> [] ->
  exists mat,
    stacked_trailing (first_group_of g (blocks right_isometry_example)) = Ok mat /\
    qr_contract qr_of_isometry Z.add Z.mul 0%Z 1%Z eq mat.
Proof.
  intro Hne.
  assert (Hmat : qr_contract qr_of_isometry Z.add Z.mul 0%Z 1%Z eq
                   (mkArray [2; 1] [1; 0]%Z)).
  { unfold qr_contract. simpl. split; [reflexivity|]. split.
    - exists 2, 1. split; [reflexivity|].
      intros [|i] [|j] Hi Hj; try lia; reflexivity.
    - exists 2, 1, 1. repeat split.
      intros [|[|i]] [|j] Hi Hj; try lia; reflexivity. }
  destruct (Z.eq_dec g 5) as [E5|N5]; [|destruct (Z.eq_dec g 7) as [E7|N7]].
  - subst g. exists (mkArray [2; 1] [1; 0]%Z). split; [reflexivity|exact Hmat].
  - subst g. exists (mkArray [2; 1] [1; 0]%Z). split; [reflexivity|exact Hmat].
  - exfalso. apply Hne. unfold first_group_of. apply filter_none.
    intros b [<-|[<-|[<-|[]]]].
    + change ((5 =? g)%Z = false). apply Z.eqb_neq. congruence.
    + change ((7 =? g)%Z = false). apply Z.eqb_neq. congruence.
    + change ((7 =? g)%Z = false). apply Z.eqb_neq. congruence.
Qed.

Lemma right_isometry_example_labelled :
  Forall (fun b : SubTensor Z (ndarray Z) => q_labels b <> [])
         (blocks right_isometry_example).
Proof. repeat constructor; discriminate. Qed.

Lemma right_canonicalize_orthonormal_witness :
  exists t' l_blocks_map Qm R,
    right_canonicalize qr_of_isometry right_isometry_example = Ok (t', l_blocks_map) /\
    stacked_trailing (first_group_of 7%Z (blocks t')) = Ok Qm /\
    dict_get q_eqb l_blocks_map 7%Z = Some (transpose R) /\
    col_orthonormal Z.add Z.mul 0%Z 1%Z eq Qm /\
    product_is Z.add Z.mul 0%Z eq Qm R (mkArray [2; 1] [1; 0]%Z).
Proof.
  destruct (right_canonicalize_orthonormal Z qr_of_isometry Z.add Z.mul 0%Z 1%Z eq
              right_isometry_example right_isometry_example_labelled
              right_isometry_example_contract)
    as (t' & lmap & Hrun & _ & _ & Hgroups).
  assert (H7 : first_group_of 7%Z (blocks right_isometry_example) <> [])
    by discriminate.
  destruct (Hgroups 7%Z H7) as (mat & Qm & R & Hst & _ & Hnew & Hr & Ho & Hp).
  inversion Hst; subst mat.
  exists t', lmap, Qm, R. auto.
Defined.

Lemma right_canonicalize_shapes_witness :
  exists t' l_blocks_map,
    right_canonicalize qr_of_isometry right_isometry_example = Ok (t', l_blocks_map) /\
    n_blocks t' = 3 /\
    (dict_get q_eqb l_blocks_map 5%Z <> None <->
     first_group_of 5%Z (blocks right_isometry_example) <> []).
Proof.
  destruct (right_canonicalize_shapes Z qr_of_isometry Z.add Z.mul 0%Z 1%Z eq
              right_isometry_example right_isometry_example_labelled
              right_isometry_example_contract)
    as (t' & lmap & Hrun & Hn & Hkeys & _).
  exists t', lmap. split; [exact Hrun|]. split; [exact Hn|apply Hkeys].
Defined.

(** A collection of one block with one leg. *)
Lemma right_canonicalize_flat_block_witness :
  right_canonicalize qr_of_isometry
    (mkSparseTensor [mkSubTensor [5%Z] (mkArray [2] [1; 0]%Z)] LeftFusedMPSTensor None)
  = Raise TypeError.
Proof.
  refine (right_canonicalize_flat_block Z qr_of_isometry
            (mkSparseTensor [mkSubTensor [5%Z] (mkArray [2] [1; 0]%Z)]
               LeftFusedMPSTensor None)
            (mkSubTensor [5%Z] (mkArray [2] [1; 0]%Z)) [] eq_refl _ _).
  - repeat constructor; discriminate.
  - simpl. lia.
Defined.

(** ** [right_compress] *)

(** *** Slices of columns *)

Section ColumnFacts.

Lemma chunk_of_flat_map {U : Type} (F : nat -> list U) (c : nat) :
  forall n a i,
    (forall k, k < n -> length (F (a + k)) = c) ->
    i < n ->
    firstn c (skipn (i * c) (flat_map F (seq a n))) = F (a + i).
Proof.
  induction n as [|n IH]; intros a i HF Hi; [lia|].
  cbn [seq flat_map].
  pose proof (HF 0 ltac:(lia)) as H0. rewrite Nat.add_0_r in H0.
  destruct i as [|i].
  - rewrite Nat.add_0_r. cbn [Nat.mul skipn].
    rewrite firstn_app, H0, Nat.sub_diag, firstn_O, app_nil_r.
    apply firstn_all2. lia.
  - rewrite skipn_app, H0.
    rewrite (skipn_all2 (F a)) by (rewrite H0; simpl; lia).
    replace (Datatypes.S i * c - c) with (i * c) by (simpl; lia).
    cbn [app]. rewrite IH; [f_equal; lia| |lia].
    intros k Hk. replace (Datatypes.S a + k) with (a + Datatypes.S k) by lia.
    apply HF. lia.
Qed.

Lemma chunks_all {U : Type} (c : nat) :
  forall n (e : list U), length e = n * c ->
    flat_map (fun i => firstn c (skipn (i * c) e)) (seq 0 n) = e.
Proof.
  induction n as [|n IH]; intros e Hlen.
  - destruct e; [reflexivity|discriminate].
  - cbn [seq flat_map]. rewrite <- seq_shift, flat_map_map.
    cbn [Nat.mul skipn].
    transitivity (firstn c e ++ skipn c e); [|apply firstn_skipn]. f_equal.
    transitivity (flat_map (fun i => firstn c (skipn (i * c) (skipn c e))) (seq 0 n));
      [|apply IH; rewrite length_skipn, Hlen; simpl; lia].
    apply flat_map_ext. intro i. rewrite skipn_skipn. f_equal. f_equal. simpl. lia.
Qed.

Lemma chunk_length {U : Type} (e : list U) (a w : nat) :
  a + w <= length e -> length (firstn w (skipn a e)) = w.
Proof. intro H. rewrite length_firstn, length_skipn. lia. Qed.

Variable m : matrix.
Hypothesis Hwf : length (entries m) = nrows m * ncols m.

Lemma col_chunk_length (i a w : nat) :
  i < nrows m -> a + w <= ncols m ->
  length (firstn w (skipn (i * ncols m + a) (entries m))) = w.
Proof. intros Hi Ha. apply chunk_length. rewrite Hwf. nia. Qed.

Lemma col_block_length (a w : nat) :
  a + w <= ncols m -> length (entries (col_block m a w)) = nrows m * w.
Proof.
  intro Ha. unfold col_block. cbn [entries].
  rewrite (length_flat_map_in _ w), length_seq; [reflexivity|].
  intros i Hi. apply in_seq in Hi. apply col_chunk_length; [lia|exact Ha].
Qed.

Lemma col_block_chunk (a w i : nat) :
  a + w <= ncols m -> i < nrows m ->
  firstn w (skipn (i * w) (entries (col_block m a w)))
  = firstn w (skipn (i * ncols m + a) (entries m)).
Proof.
  intros Ha Hi. unfold col_block. cbn [entries].
  rewrite (chunk_of_flat_map
             (fun i0 => firstn w (skipn (i0 * ncols m + a) (entries m))) w
             (nrows m) 0 i); [reflexivity| |exact Hi].
  intros k Hk. cbn [Nat.add]. apply col_chunk_length; [exact Hk|exact Ha].
Qed.

(** A slice of columns put beside the columns before it. *)
Lemma append_col_blocks (a w : nat) :
  a + w <= ncols m ->
  append_cols (as_array (col_block m 0 a)) (as_array (col_block m a w))
  = Ok (as_array (col_block m 0 (a + w))).
Proof.
  intro Ha. unfold append_cols, as_array. cbn [shape data nrows ncols col_block].
  rewrite Nat.eqb_refl. f_equal. f_equal.
  apply flat_map_ext_In. intros i Hi. apply in_seq in Hi.
  fold (col_block m 0 a). fold (col_block m a w).
  change (flat_map (fun i0 => firstn a (skipn (i0 * ncols m + 0) (entries m)))
                   (seq 0 (nrows m)))
    with (entries (col_block m 0 a)).
  change (flat_map (fun i0 => firstn w (skipn (i0 * ncols m + a) (entries m)))
                   (seq 0 (nrows m)))
    with (entries (col_block m a w)).
  rewrite (col_block_chunk 0 a i) by lia.
  rewrite (col_block_chunk a w i) by lia.
  rewrite Nat.add_0_r, firstn_plus, skipn_skipn_add. reflexivity.
Qed.

Lemma col_block_all : col_block m 0 (ncols m) = m.
Proof.
  unfold col_block.
  transitivity (mkMatrix (nrows m) (ncols m) (entries m)); [|destruct m; reflexivity].
  f_equal.
  transitivity (flat_map (fun i => firstn (ncols m) (skipn (i * ncols m) (entries m)))
                         (seq 0 (nrows m))); [|apply chunks_all; exact Hwf].
  apply flat_map_ext. intro i. rewrite Nat.add_0_r. reflexivity.
Qed.

Lemma col_pieces_length (a : nat) (ws : list nat) :
  length (col_pieces m a ws) = length ws.
Proof.
  revert a. induction ws as [|w ws IH]; intro a; simpl; [reflexivity|].
  rewrite IH. reflexivity.
Qed.

Lemma append_col_pieces (ws : list nat) :
  forall a, a + fold_right Nat.add 0 ws <= ncols m ->
    foldM append_cols (map as_array (col_pieces m a ws)) (as_array (col_block m 0 a))
    = Ok (as_array (col_block m 0 (a + fold_right Nat.add 0 ws))).
Proof.
  induction ws as [|w ws IH]; intros a Ha; cbn [col_pieces map foldM fold_right] in *.
  - rewrite Nat.add_0_r. reflexivity.
  - rewrite append_col_blocks by lia. cbn [bind].
    rewrite IH by lia. rewrite Nat.add_assoc. reflexivity.
Qed.

(** The slices put side by side are the matrix they were cut from. *)
Lemma concatenate_col_pieces (ws : list nat) :
  ws <> [] -> fold_right Nat.add 0 ws = ncols m ->
  concatenate_cols (map as_array (col_pieces m 0 ws)) = Ok (as_array m).
Proof.
  intros Hne Hsum. destruct ws as [|w ws]; [congruence|].
  cbn [col_pieces map fold_right Nat.add] in *. unfold concatenate_cols.
  change (shape (as_array (col_block m 0 w))) with [nrows m; w]. cbv beta iota.
  rewrite (append_col_pieces ws w) by lia.
  rewrite Hsum, col_block_all. reflexivity.
Qed.

(** [np.split] at the running sums of the widths cuts the slices of these
    widths. *)
Lemma split_cols_pieces (ws : list nat) :
  forall a, ws <> [] -> a + fold_right Nat.add 0 ws = ncols m ->
    split_cols_from m a (accumulate_from a (removelast ws)) = col_pieces m a ws.
Proof.
  induction ws as [|w ws IH]; intros a Hne Hsum; [congruence|].
  destruct ws as [|w2 ws].
  - simpl in *. unfold col_slice.
    replace (Nat.min a (ncols m)) with a by lia.
    replace (ncols m - a) with w by lia. reflexivity.
  - change (removelast (w :: w2 :: ws)) with (w :: removelast (w2 :: ws)).
    cbn [accumulate_from split_cols_from col_pieces].
    rewrite IH; [|discriminate|simpl in *; lia].
    f_equal. unfold col_slice. simpl in Hsum.
    replace (Nat.min a (ncols m)) with a by lia.
    replace (Nat.min (a + w) (ncols m) - a) with w by lia. reflexivity.
Qed.

End ColumnFacts.

Section RightCompressLoops.
Context {L : Type} `{QL : QuantumLabel L}.
Variable svd : ndarray Q -> matrix * list Q * matrix.

#[local] Abbreviation block := (SubTensor L (ndarray Q)).

(** *** The first loop *)

Lemma first_group_snoc (g : L) (bs : list block) (b : block) :
  first_group_of g (bs ++ [b])
  = first_group_of g bs ++ (if has_first_label g b then [b] else []).
Proof. unfold first_group_of. rewrite filter_app. simpl. destruct (has_first_label g b); reflexivity. Qed.

Lemma collect_col_blocks_get (bs : list block) (d : dict L (list block)) :
  foldM collect_col_block bs [] = Ok d ->
  forall g, dict_get q_eqb d g = group_entry (first_group_of g bs).
Proof.
  revert d. induction bs as [|b bs IH] using rev_ind; intros d E g.
  - inversion E; reflexivity.
  - rewrite foldM_app in E. bind_inv E. simpl in E. bind_inv E.
    inversion E; subst; clear E. unfold collect_col_block in Hx0. bind_inv Hx0.
    inversion Hx0; subst; clear Hx0.
    rewrite (dict_get_set _ _ _ q_eqb_spec), first_group_snoc.
    unfold has_first_label. rewrite Hx1.
    rewrite (IH _ Hx x0), (IH _ Hx g).
    destruct (q_eqb_spec x0 g) as [->|Hne].
    + rewrite group_entry_app. reflexivity.
    + rewrite app_nil_r. reflexivity.
Qed.

Lemma collect_col_blocks_NoDup (bs : list block) (d0 d : dict L (list block)) :
  NoDup (dict_keys d0) -> foldM collect_col_block bs d0 = Ok d -> NoDup (dict_keys d).
Proof.
  revert d0. induction bs as [|b bs IH]; intros d0 H0 E; simpl in E.
  - inversion E; subst; exact H0.
  - bind_inv E. apply (IH x); [|exact E].
    unfold collect_col_block in Hx. bind_inv Hx. inversion Hx; subst.
    apply dict_set_NoDup; [apply q_eqb_spec|exact H0].
Qed.

Lemma collect_col_blocks_total (bs : list block) (d0 : dict L (list block)) :
  Forall (fun b : block => q_labels b <> []) bs ->
  exists d, foldM collect_col_block bs d0 = Ok d.
Proof.
  intro H. revert d0. induction H as [|b bs Hb _ IH]; intro d0; simpl; [eauto|].
  destruct (first_label_exists Q b Hb) as [q Hq].
  unfold collect_col_block at 1. rewrite Hq. simpl. apply IH.
Qed.

Lemma collect_col_blocks_keys (bs : list block) (d0 d : dict L (list block)) :
  foldM collect_col_block bs d0 = Ok d ->
  dict_keys d
  = fold_left (fun acc (b : block) =>
                 match py_index (q_labels b) 0 with
                 | Ok q => if existsb (q_eqb q) acc then acc else acc ++ [q]
                 | Raise _ => acc
                 end) bs (dict_keys d0).
Proof.
  revert d0. induction bs as [|b bs IH]; intros d0 E; simpl in E.
  - inversion E; reflexivity.
  - bind_inv E. rewrite (IH _ E). simpl.
    unfold collect_col_block in Hx. bind_inv Hx. inversion Hx; subst; clear Hx.
    rewrite Hx0, (dict_keys_set _ _ _ q_eqb_spec), existsb_keys. reflexivity.
Qed.

(** The dictionary of the first loop: the groups of the first labels, in
    the order of first appearance. *)
Lemma collect_col_blocks_groups (bs : list block) (d : dict L (list block)) :
  foldM collect_col_block bs [] = Ok d ->
  d = map (fun g => (g, first_group_of g bs)) (first_labels bs) /\
  NoDup (first_labels bs) /\
  forall g, In g (first_labels bs) <-> first_group_of g bs <> [].
Proof.
  intro E.
  pose proof (collect_col_blocks_get _ _ E) as Hget.
  pose proof (collect_col_blocks_NoDup _ [] _ (NoDup_nil _) E) as Hnd.
  pose proof (collect_col_blocks_keys _ _ _ E) as Hk. simpl in Hk.
  fold (first_labels bs) in Hk. rewrite <- Hk.
  split; [|split; [exact Hnd|]].
  - unfold dict_keys. rewrite map_map.
    rewrite <- (map_id d) at 1. apply map_ext_in. intros [g v] Hin. simpl.
    apply (dict_In_get _ _ _ q_eqb_spec _ _ _ Hnd) in Hin.
    rewrite Hget in Hin. destruct (first_group_of g bs); [discriminate|].
    inversion Hin. reflexivity.
  - intro g. split.
    + intros Hin Hnil. unfold dict_keys in Hin. apply in_map_iff in Hin.
      destruct Hin as ([g' v] & Eg & Hin). simpl in Eg. subst g'.
      apply (dict_In_get _ _ _ q_eqb_spec _ _ _ Hnd) in Hin.
      rewrite Hget, Hnil in Hin. discriminate.
    + intro Hne. specialize (Hget g).
      destruct (first_group_of g bs) as [|b l] eqn:Eg; [congruence|].
      apply (dict_get_In _ _ _ q_eqb_spec) in Hget.
      change g with (fst (g, b :: l)). apply in_map. exact Hget.
Qed.

(** *** The second loop *)

Lemma svd_col_group_hstacked (st : list (list Q) * list matrix * list matrix)
    (g : L) (bs : list block) (mat : ndarray Q) :
  hstacked bs = Ok mat ->
  svd_col_group svd st (g, bs)
  = Ok (fst (fst st) ++ [snd (fst (svd mat))],
        snd (fst st) ++ [fst (fst (svd mat))],
        snd st ++ [snd (svd mat)]).
Proof.
  intro Hst. unfold svd_col_group. cbn [fst snd].
  change (map (fun b : block => size_of (tl (shape (reduced b)))) bs)
    with (map (@trailing_size L Q) bs).
  rewrite (mapM_combine_map trailing_size
             (fun (b : block) sh => reshape_trailing (reduced b) sh)).
  change (mapM (fun x : block => reshape_trailing (reduced x) (trailing_size x)) bs)
    with (mapM flatten_cols bs).
  unfold hstacked in Hst.
  destruct (mapM flatten_cols bs) as [ms|e]; [|discriminate].
  cbn [bind] in *. rewrite Hst. cbn [bind].
  destruct (svd mat) as [[u s] vh]. reflexivity.
Qed.

Lemma svd_col_groups (bs : list block) (gs : list L)
    (st : list (list Q) * list matrix * list matrix) :
  (forall g, In g gs -> hstacked (first_group_of g bs) = Ok (col_group_mat bs g)) ->
  foldM (svd_col_group svd) (map (fun g => (g, first_group_of g bs)) gs) st
  = Ok (fst (fst st) ++ map (col_group_s svd bs) gs,
        snd (fst st) ++ map (col_group_u svd bs) gs,
        snd st ++ map (col_group_vh svd bs) gs).
Proof.
  revert st. induction gs as [|g gs IH]; intros st H; simpl.
  - rewrite !app_nil_r. destruct st as [[a b] c]. reflexivity.
  - rewrite (svd_col_group_hstacked st g _ _ (H g (or_introl eq_refl))). cbn [bind].
    rewrite IH by (intros g' Hg'; apply H; right; exact Hg').
    cbn [fst snd]. rewrite <- !app_assoc. reflexivity.
Qed.

End RightCompressLoops.

Section RightCompressAssemble.
Context {L : Type} `{QL : QuantumLabel L}.

#[local] Abbreviation block := (SubTensor L (ndarray Q)).

(** *** Groups side by side *)

Lemma flatten_cols_inv (b : block) (m : ndarray Q) :
  flatten_cols b = Ok m ->
  (trailing_size b <> 0 /\ tl (shape (reduced b)) <> []) /\
  shape m = [length (data (reduced b)) / trailing_size b; trailing_size b].
Proof.
  unfold flatten_cols, reshape_trailing, reshape_cols. fold (trailing_size b).
  destruct (tl (shape (reduced b))); [discriminate|].
  destruct (Nat.eqb_spec (trailing_size b) 0) as [E|E]; simpl; [discriminate|].
  destruct (negb (length (data (reduced b)) mod trailing_size b =? 0));
    [discriminate|].
  intro H. inversion H; subst; simpl. repeat split; auto. discriminate.
Qed.

Lemma mapM_flatten_cols (bs : list block) (ms : list (ndarray Q)) :
  mapM flatten_cols bs = Ok ms ->
  Forall (fun b => trailing_size b <> 0 /\ tl (shape (reduced b)) <> []) bs /\
  Forall (fun m => exists r, shape m = [r; hd 0 (tl (shape m))]) ms /\
  map (fun m => hd 0 (tl (shape m))) ms = map trailing_size bs.
Proof.
  revert ms. induction bs as [|b bs IH]; intros ms E; simpl in E.
  - inversion E; subst. split; [constructor|]. split; [constructor|reflexivity].
  - bind_inv E. bind_inv E. inversion E; subst; clear E.
    destruct (flatten_cols_inv _ _ Hx) as [Hne Hs].
    destruct (IH _ Hx0) as (Hf & H2 & Hm).
    split; [constructor; assumption|]. split.
    + constructor; [|exact H2]. rewrite Hs. simpl. eauto.
    + simpl. rewrite Hs, Hm. reflexivity.
Qed.

Lemma append_cols_shape (ms : list (ndarray Q)) (acc res : ndarray Q) (r c0 : nat) :
  shape acc = [r; c0] ->
  foldM append_cols ms acc = Ok res ->
  shape res = [r; c0 + fold_right Nat.add 0 (map (fun m => hd 0 (tl (shape m))) ms)].
Proof.
  revert acc c0. induction ms as [|m ms IH]; intros acc c0 Hacc E; simpl in E.
  - inversion E; subst. simpl. rewrite Nat.add_0_r. exact Hacc.
  - bind_inv E. unfold append_cols in Hx. rewrite Hacc in Hx.
    destruct (shape m) as [|r' [|c' [|? ?]]] eqn:Hm; try discriminate.
    destruct (r' =? r); [|discriminate].
    inversion Hx; subst; clear Hx.
    match type of E with foldM _ _ ?a = _ =>
      rewrite (IH a (c0 + c') eq_refl E) end.
    simpl. rewrite Hm, Nat.add_assoc. reflexivity.
Qed.

(** The matrix of a group has one column for each unit of trailing size. *)
Lemma hstacked_shape (bs : list block) (mat : ndarray Q) :
  hstacked bs = Ok mat ->
  bs <> [] /\
  Forall (fun b => trailing_size b <> 0 /\ tl (shape (reduced b)) <> []) bs /\
  exists r, shape mat = [r; fold_right Nat.add 0 (map trailing_size bs)].
Proof.
  unfold hstacked. intro E. bind_inv E.
  destruct (mapM_flatten_cols _ _ Hx) as (Hne & _ & Hcols).
  destruct bs as [|b bs]; [inversion Hx; subst; discriminate|].
  split; [discriminate|]. split; [exact Hne|].
  destruct x as [|m ms]; [discriminate|]. simpl in E.
  destruct (shape m) as [|r0 [|c0 [|? ?]]] eqn:Hm; try discriminate.
  exists r0. rewrite (append_cols_shape _ _ _ r0 c0 Hm E).
  rewrite <- Hcols. simpl. rewrite Hm. reflexivity.
Qed.

(** *** The fourth loop *)

Lemma length_tl_S {T : Type} (l : list T) :
  l <> [] -> Datatypes.S (length (tl l)) = length l.
Proof. destruct l; [congruence|reflexivity]. Qed.

Lemma compressed_col_blocks (m : matrix) :
  length (entries m) = nrows m * ncols m ->
  forall (bs : list block) (a : nat) (acc : list block),
    Forall (fun b : block =>
              tl (shape (reduced b)) <> [] /\
              length (shape (reduced b)) = length (q_labels b)) bs ->
    a + fold_right Nat.add 0 (map trailing_size bs) <= ncols m ->
    foldM (compressed_col_block (nrows m))
          (combine (col_pieces m a (map trailing_size bs)) bs) acc
    = Ok (acc ++ map (with_col_slice (nrows m))
                     (combine (col_pieces m a (map trailing_size bs)) bs)).
Proof.
  intro Hlen. induction bs as [|b bs IH]; intros a acc Hwf Hn.
  - simpl. rewrite app_nil_r. reflexivity.
  - inversion Hwf as [|? ? [Hr Hl] Hwf']; subst.
    cbn [map col_pieces combine foldM fold_right] in *.
    unfold compressed_col_block at 1. cbn [fst snd]. unfold reshape.
    cbn [size_of fold_right as_array data].
    fold (size_of (tl (shape (reduced b)))). fold (trailing_size b).
    rewrite (col_block_length m Hlen a (trailing_size b)) by lia.
    rewrite Nat.eqb_refl. cbn [bind].
    unfold SubTensor_of. cbn [shape length].
    assert (Hsh : shape (reduced b) <> [])
      by (intro E; rewrite E in Hr; apply Hr; reflexivity).
    rewrite (length_tl_S _ Hsh), Hl, Nat.eqb_refl, andb_false_r. cbn [bind].
    rewrite IH by (assumption || lia).
    rewrite <- app_assoc. reflexivity.
Qed.

Lemma scale_cols_square (s : list Q) (m : matrix) :
  ncols m = length s -> scale_cols s m = Ok (scaled_cols s m).
Proof.
  intro H. unfold scale_cols.
  destruct (Nat.eqb_spec (ncols m) (length s)); [reflexivity|contradiction].
Qed.

Lemma assemble_col_group_kept (svd_r : list (option (list Q))) (bl br : list matrix)
    (acc : list block) (lmap : dict L (ndarray Q))
    (ik : nat) (g : L) (bs : list block) (sk : list Q) (mat : ndarray Q) :
  nth_error svd_r ik = Some (Some sk) ->
  ik < length bl -> ik < length br ->
  hstacked bs = Ok mat ->
  Forall (fun b : block => length (shape (reduced b)) = length (q_labels b)) bs ->
  ncols (nth ik br (mkMatrix 0 0 [])) = fold_right Nat.add 0 (map trailing_size bs) ->
  length (entries (nth ik br (mkMatrix 0 0 [])))
  = nrows (nth ik br (mkMatrix 0 0 [])) * ncols (nth ik br (mkMatrix 0 0 [])) ->
  ncols (nth ik bl (mkMatrix 0 0 [])) = length sk ->
  assemble_col_group svd_r bl br (acc, lmap) (ik, (g, bs))
  = Ok (acc ++ col_group_blocks svd_r br (ik, (g, bs)),
        col_group_carry svd_r bl lmap (ik, (g, bs))).
Proof.
  intros Hsr Hbl Hbr Hst Hwf Hcols Hent Hv.
  destruct (hstacked_shape _ _ Hst) as (Hne & Hls & rm & Hmat).
  unfold assemble_col_group, col_group_blocks, col_group_carry. cbn [fst snd].
  unfold list_get. rewrite Hsr. cbn [bind].
  rewrite (nth_error_nth svd_r ik None Hsr).
  rewrite (nth_error_nth' br (mkMatrix 0 0 []) Hbr). cbn [bind].
  rewrite (nth_error_nth' bl (mkMatrix 0 0 []) Hbl).
  set (u := nth ik bl (mkMatrix 0 0 [])) in *.
  set (v := nth ik br (mkMatrix 0 0 [])) in *.
  change (map (fun b : block => size_of (tl (shape (reduced b)))) bs)
    with (map (@trailing_size L Q) bs).
  assert (Hne' : map (@trailing_size L Q) bs <> [])
    by (destruct bs; [congruence|discriminate]).
  unfold split_cols, accumulate.
  rewrite (split_cols_pieces v Hent _ 0 Hne' (eq_sym Hcols)).
  rewrite col_pieces_length, length_map, Nat.eqb_refl. cbn [negb].
  rewrite (compressed_col_blocks v Hent bs 0 acc).
  - cbn [bind]. rewrite (scale_cols_square sk u Hv). cbn [bind].
    unfold compress_col_blocks. reflexivity.
  - apply Forall_forall. intros b Hb. rewrite Forall_forall in Hls, Hwf.
    split; [apply (Hls b Hb)|apply (Hwf b Hb)].
  - simpl. lia.
Qed.

Lemma assemble_col_group_dropped (svd_r : list (option (list Q))) (bl br : list matrix)
    (acc : list block) (lmap : dict L (ndarray Q))
    (ik : nat) (g : L) (bs : list block) :
  nth_error svd_r ik = Some None ->
  assemble_col_group svd_r bl br (acc, lmap) (ik, (g, bs))
  = Ok (acc ++ col_group_blocks svd_r br (ik, (g, bs)),
        col_group_carry svd_r bl lmap (ik, (g, bs))).
Proof.
  intro Hsr. unfold assemble_col_group, col_group_blocks, col_group_carry.
  cbn [fst snd].
  unfold list_get. rewrite Hsr. cbn [bind].
  rewrite (nth_error_nth svd_r ik None Hsr). rewrite app_nil_r. reflexivity.
Qed.

Lemma assemble_col_loop (svd_r : list (option (list Q))) (bl br : list matrix)
    (items : list (nat * (L * list block))) :
  forall (acc : list block) (lmap : dict L (ndarray Q)),
    Forall (fun ig =>
              fst ig < length svd_r /\
              forall sk, nth (fst ig) svd_r None = Some sk ->
                fst ig < length bl /\ fst ig < length br /\
                (exists mat, hstacked (snd (snd ig)) = Ok mat) /\
                Forall (fun b : block =>
                          length (shape (reduced b)) = length (q_labels b))
                       (snd (snd ig)) /\
                ncols (nth (fst ig) br (mkMatrix 0 0 []))
                = fold_right Nat.add 0 (map trailing_size (snd (snd ig))) /\
                length (entries (nth (fst ig) br (mkMatrix 0 0 [])))
                = nrows (nth (fst ig) br (mkMatrix 0 0 []))
                  * ncols (nth (fst ig) br (mkMatrix 0 0 [])) /\
                ncols (nth (fst ig) bl (mkMatrix 0 0 [])) = length sk)
           items ->
    foldM (assemble_col_group svd_r bl br) items (acc, lmap)
    = Ok (acc ++ flat_map (col_group_blocks svd_r br) items,
          fold_left (col_group_carry svd_r bl) items lmap).
Proof.
  induction items as [|[ik [g bs]] items IH]; intros acc lmap H; simpl.
  - rewrite app_nil_r. reflexivity.
  - inversion H as [|? ? [Hik Hk] H']; subst. cbn [fst snd] in *.
    assert (Hstep : assemble_col_group svd_r bl br (acc, lmap) (ik, (g, bs))
                    = Ok (acc ++ col_group_blocks svd_r br (ik, (g, bs)),
                          col_group_carry svd_r bl lmap (ik, (g, bs)))).
    { destruct (nth_error svd_r ik) as [[sk|]|] eqn:Esr.
      - destruct (Hk sk (nth_error_nth svd_r ik None Esr))
          as (Hbl & Hbr & (mat & Hst) & Hwf & Hcols & Hent & Hv).
        apply (assemble_col_group_kept svd_r bl br acc lmap ik g bs sk mat); assumption.
      - apply assemble_col_group_dropped. exact Esr.
      - apply nth_error_None in Esr. lia. }
    rewrite Hstep. cbn [bind]. rewrite IH by exact H'.
    rewrite <- app_assoc. reflexivity.
Qed.

End RightCompressAssemble.

Section RightCompressRun.
Context {L : Type} `{QL : QuantumLabel L}.
Variable svd : ndarray Q -> matrix * list Q * matrix.

#[local] Abbreviation block := (SubTensor L (ndarray Q)).

(** *** The run *)

Lemma first_group_wf (g : L) (bs : list block) (P : block -> Prop) :
  Forall P bs -> Forall P (first_group_of g bs).
Proof.
  intro H. apply Forall_forall. intros b Hb. apply filter_In in Hb.
  rewrite Forall_forall in H. apply H. tauto.
Qed.

Lemma right_compress_run (self : SparseTensor L (ndarray Q)) (k : Z) (cutoff : Q) :
  let bs := blocks self in
  let gs := first_labels bs in
  let svd_s := map (col_group_s svd bs) gs in
  let res := truncate_loops svd_s k cutoff in
  let bl := map (fun x => kept_cols svd_s (fst x) (fst (snd x)) (snd (snd x)))
                (enumerate (combine (ts_gls res) (map (col_group_u svd bs) gs))) in
  let br := map (fun x => kept_rows svd_s (fst x) (fst (snd x)) (snd (snd x)))
                (enumerate (combine (ts_gls res) (map (col_group_vh svd bs) gs))) in
  let items := enumerate (map (fun g => (g, first_group_of g bs)) gs) in
  Forall (fun b : block =>
            q_labels b <> [] /\ length (shape (reduced b)) = length (q_labels b)) bs ->
  (forall g, In g gs ->
     hstacked (first_group_of g bs) = Ok (col_group_mat bs g) /\
     svd_shapes svd (col_group_mat bs g)) ->
  right_compress svd self k cutoff
  = Ok (mkSparseTensor (flat_map (col_group_blocks (ts_svd_r res) br) items)
          (ftype self) None,
        fold_left (col_group_carry (ts_svd_r res) bl) items [],
        snd (truncate_singular_values svd_s k cutoff)).
Proof.
  intros bs gs svd_s res bl br items Hwf Hsvd.
  assert (Hlab : Forall (fun b : block => q_labels b <> []) bs).
  { apply Forall_impl with (2 := Hwf). tauto. }
  destruct (collect_col_blocks_total bs [] Hlab) as [d Hd].
  destruct (collect_col_blocks_groups bs d Hd) as (Ed & Hnd & Hin).
  fold gs in Ed, Hnd, Hin.
  pose proof (svd_col_groups svd bs gs ([], [], [])
                (fun g Hg => proj1 (Hsvd g Hg))) as H2.
  cbn [fst snd app] in H2. fold svd_s in H2.
  destruct (truncate_loops_length svd_s k cutoff) as [Lg Lr].
  fold res in Lg, Lr.
  assert (Ln : length svd_s = length gs) by (unfold svd_s; apply length_map).
  (* the columns and rows that are kept exist *)
  assert (Hsel : Forall selectable
                   (combine (ts_gls res)
                      (combine (map (col_group_u svd bs) gs) (map (col_group_vh svd bs) gs)))).
  { apply Forall_combine3. intros i ogl u v Hg Hu Hv.
    unfold selectable. cbn [fst snd]. destruct ogl as [gl|]; [|exact I].
    rewrite nth_error_map in Hu. rewrite nth_error_map in Hv.
    destruct (nth_error gs i) as [g|] eqn:Eg; simpl in Hu, Hv; [|discriminate].
    inversion Hu; subst u. inversion Hv; subst v.
    destruct (kept_values svd_s k cutoff i) as [_ Hk].
    destruct (Hk gl (nth_error_nth _ _ _ Hg)) as (_ & _ & Hb).
    assert (Es : nth i svd_s [] = col_group_s svd bs g).
    { apply nth_error_nth. unfold svd_s. apply map_nth_error. exact Eg. }
    rewrite Es in Hb.
    destruct (Hsvd g (nth_error_In _ _ Eg)) as [_ Hsh].
    unfold svd_shapes, col_group_u, col_group_vh, col_group_s in *.
    destruct (svd (col_group_mat bs g)) as [[u s] vh]. cbn [fst snd] in *.
    destruct Hsh as (n & p & _ & _ & Hc & _ & Hr & _).
    rewrite Hc, Hr. split; exact Hb. }
  pose proof (select_loop svd_s (ts_gls res) _ _
                (eq_trans (length_map _ _) (eq_trans (eq_sym Ln) (eq_sym Lg)))
                (eq_trans (length_map _ _) (eq_trans (eq_sym Ln) (eq_sym Lg)))
                Hsel) as H3.
  fold bl br in H3.
  (* the blocks of the kept groups *)
  assert (Hlen_bl : length bl = length gs).
  { unfold bl, enumerate. rewrite length_map, length_combine, length_seq.
    rewrite length_combine, length_map. lia. }
  assert (Hlen_br : length br = length gs).
  { unfold br, enumerate. rewrite length_map, length_combine, length_seq.
    rewrite length_combine, length_map. lia. }
  assert (H4 : foldM (assemble_col_group (ts_svd_r res) bl br) items ([], [])
               = Ok ([] ++ flat_map (col_group_blocks (ts_svd_r res) br) items,
                     fold_left (col_group_carry (ts_svd_r res) bl) items [])).
  { apply assemble_col_loop. apply Forall_forall. intros [ik [g bsg]] Hitem.
    unfold items in Hitem. apply In_enumerate in Hitem.
    rewrite nth_error_map in Hitem.
    destruct (nth_error gs ik) as [g'|] eqn:Eg; simpl in Hitem; [|discriminate].
    inversion Hitem; subst g' bsg; clear Hitem. cbn [fst snd].
    assert (Hik : ik < length gs) by (apply nth_error_Some; congruence).
    split; [lia|]. intros sk Hsk.
    destruct (kept_values svd_s k cutoff ik) as [Hv Hk]. fold res in Hv, Hk.
    rewrite Hv in Hsk.
    destruct (nth ik (ts_gls res) None) as [gl|] eqn:Egl; [|discriminate].
    simpl in Hsk. inversion Hsk; subst sk; clear Hsk.
    destruct (Hk gl eq_refl) as (_ & _ & Hb).
    assert (Es : nth ik svd_s [] = col_group_s svd bs g).
    { apply nth_error_nth. unfold svd_s. apply map_nth_error. exact Eg. }
    assert (Egl' : nth_error (ts_gls res) ik = Some (Some gl)).
    { rewrite (nth_error_nth' _ None) by lia. rewrite Egl. reflexivity. }
    assert (Ebl : nth ik bl (mkMatrix 0 0 [])
                  = kept_cols svd_s ik (Some gl) (col_group_u svd bs g)).
    { unfold bl.
      rewrite (nth_map_enumerate _ _ ik (Some gl, col_group_u svd bs g)); [reflexivity|].
      apply nth_error_combine; [exact Egl'|apply map_nth_error; exact Eg]. }
    assert (Ebr : nth ik br (mkMatrix 0 0 [])
                  = kept_rows svd_s ik (Some gl) (col_group_vh svd bs g)).
    { unfold br.
      rewrite (nth_map_enumerate _ _ ik (Some gl, col_group_vh svd bs g)); [reflexivity|].
      apply nth_error_combine; [exact Egl'|apply map_nth_error; exact Eg]. }
    rewrite Ebl, Ebr.
    destruct (Hsvd g (nth_error_In _ _ Eg)) as [Hst Hsh].
    destruct (hstacked_shape _ _ Hst) as (_ & _ & cm & Hmat).
    unfold svd_shapes in Hsh. unfold col_group_u, col_group_vh.
    unfold kept_cols, kept_rows, take. rewrite Es, length_map.
    unfold col_group_s in *.
    destruct (svd (col_group_mat bs g)) as [[u s] vh]. cbn [fst snd] in *.
    destruct Hsh as (n & p & Hshape & Hnu & Hcu & Heu & Hnv & Hcv & Hev).
    rewrite Hmat in Hshape. injection Hshape as En Ep.
    rewrite <- Ep in Hcv, Hev. clear En Ep.
    split; [lia|]. split; [lia|]. split; [eauto|].
    split; [apply first_group_wf; apply Forall_impl with (2 := Hwf); tauto|].
    destruct (Nat.eqb_spec (length gl) (length s)) as [El|Nl].
    - split; [exact Hcv|]. split; [rewrite Hnv, Hcv; exact Hev|].
      rewrite Hcu. symmetry. exact El.
    - unfold cols, rows. cbn [nrows ncols entries].
      split; [exact Hcv|]. split; [|reflexivity].
      apply length_flat_map_const. intro i. unfold mrow.
      rewrite length_map, length_seq. reflexivity. }
  unfold right_compress. fold bs. rewrite Hd. cbn [bind].
  rewrite Ed, H2. cbn [bind fst snd]. fold svd_s.
  unfold truncate_singular_values. cbv zeta. cbn [fst snd]. fold res.
  rewrite H3. cbn [bind fst snd].
  fold items. rewrite H4. cbn [bind fst snd app].
  reflexivity.
Qed.

End RightCompressRun.

(** *** Rows of a row-orthonormal matrix *)

Section RowsOrthonormal.
Variable close : Q -> Q -> Prop.

Lemma nth_flat_map_list {T U : Type} (F : T -> list U) (c : nat) (d : U) (d0 : T) :
  (forall x, length (F x) = c) ->
  forall l i k, i < length l -> k < c ->
    nth (i * c + k) (flat_map F l) d = nth k (F (nth i l d0)) d.
Proof.
  intro HF. induction l as [|x l IH]; intros i k Hi Hk; [simpl in Hi; lia|].
  simpl. destruct i as [|i].
  - simpl. apply app_nth1. rewrite HF. exact Hk.
  - rewrite app_nth2 by (rewrite HF; simpl; lia).
    rewrite HF. replace (Datatypes.S i * c + k - c) with (i * c + k) by (simpl; lia).
    apply IH; [simpl in Hi; lia|exact Hk].
Qed.

Lemma mrow_length (v : matrix) (i : nat) : length (mrow v i) = ncols v.
Proof. unfold mrow. rewrite length_map, length_seq. reflexivity. Qed.

Lemma entry_rows (v : matrix) (gl : list nat) (i k : nat) :
  i < length gl -> k < ncols v ->
  entry 0%Q (as_array (rows v gl)) i k
  = entry 0%Q (as_array v) (nth i gl 0) k.
Proof.
  intros Hi Hk. rewrite !entry_as_array. unfold rows. cbn [ncols entries].
  rewrite (nth_flat_map_list (mrow v) (ncols v) 0%Q 0 (mrow_length v) gl i k Hi Hk).
  unfold mrow.
  rewrite (nth_indep _ 0%Q (nth (nth i gl 0 * ncols v + 0) (entries v) 0%Q))
    by (rewrite length_map, length_seq; exact Hk).
  rewrite (map_nth (fun j => nth (nth i gl 0 * ncols v + j) (entries v) 0%Q)).
  rewrite seq_nth by exact Hk. reflexivity.
Qed.

(** Distinct rows of a row-orthonormal matrix are row-orthonormal. *)
Lemma row_orthonormal_rows (v : matrix) (gl : list nat) :
  row_orthonormal Qplus Qmult 0%Q 1%Q close (as_array v) ->
  NoDup gl -> Forall (fun j => j < nrows v) gl ->
  row_orthonormal Qplus Qmult 0%Q 1%Q close (as_array (rows v gl)).
Proof.
  intros (c & n & Hshape & Horth) Hnd Hb.
  simpl in Hshape. inversion Hshape; subst c n; clear Hshape.
  exists (length gl), (ncols v). split; [reflexivity|].
  intros i j Hi Hj.
  rewrite (sum_over_ext (ncols v) _
             (fun k => Qmult (entry 0%Q (as_array v) (nth i gl 0) k)
                             (entry 0%Q (as_array v) (nth j gl 0) k))).
  - rewrite Forall_forall in Hb.
    assert (Hij : (nth i gl 0 =? nth j gl 0) = (i =? j)).
    { destruct (Nat.eqb_spec i j) as [->|Hne]; [apply Nat.eqb_refl|].
      apply Nat.eqb_neq. intro E. apply Hne.
      apply (proj1 (NoDup_nth gl 0) Hnd i j Hi Hj E). }
    rewrite <- Hij. apply Horth; apply Hb, nth_In; assumption.
  - intros k Hk. rewrite !entry_rows by assumption. reflexivity.
Qed.

End RowsOrthonormal.

(** *** The groups of the result *)

Section RightCompressGroups.
Context {L : Type} `{QL : QuantumLabel L}.
Variable svd : ndarray Q -> matrix * list Q * matrix.

#[local] Abbreviation block := (SubTensor L (ndarray Q)).

Lemma compress_col_blocks_Forall2 (vh : matrix) (bs : list block) :
  Forall2 (fun b nb : block =>
             q_labels nb = q_labels b /\
             shape (reduced nb) = nrows vh :: tl (shape (reduced b)))
          bs (compress_col_blocks vh bs).
Proof.
  unfold compress_col_blocks. generalize 0 as a.
  induction bs as [|b bs IH]; intro a; simpl; constructor.
  - split; reflexivity.
  - apply IH.
Qed.

Lemma has_first_label_labels (g : L) (b nb : block) :
  q_labels nb = q_labels b -> has_first_label g nb = has_first_label g b.
Proof. intro E. unfold has_first_label. rewrite E. reflexivity. Qed.

Lemma compress_col_blocks_first_label (g : L) (vh : matrix) (bs : list block) :
  Forall (fun b => has_first_label g b = true) bs ->
  Forall (fun b => has_first_label g b = true) (compress_col_blocks vh bs).
Proof.
  intro H. pose proof (compress_col_blocks_Forall2 vh bs) as H2.
  induction H2 as [|b nb bs nbs [Hl _] _ IH]; [constructor|].
  inversion H as [|? ? Hb H']; subst. constructor; [|apply IH; exact H'].
  rewrite (has_first_label_labels g b nb Hl). exact Hb.
Qed.

Lemma first_group_other (g g' : L) (bs : list block) :
  g' <> g -> Forall (fun b => has_first_label g' b = true) bs -> first_group_of g bs = [].
Proof.
  intros Hne H. unfold first_group_of. apply filter_none. intros b Hb.
  rewrite Forall_forall in H. specialize (H b Hb).
  destruct (has_first_label g b) eqn:E; [|reflexivity].
  exfalso. apply Hne. exact (has_first_label_unique Q g' g b H E).
Qed.

Lemma first_group_same (g : L) (bs : list block) :
  Forall (fun b => has_first_label g b = true) bs -> first_group_of g bs = bs.
Proof.
  intro H. unfold first_group_of. apply filter_all. apply Forall_forall. exact H.
Qed.

Lemma first_group_app (g : L) (l1 l2 : list block) :
  first_group_of g (l1 ++ l2) = first_group_of g l1 ++ first_group_of g l2.
Proof. apply filter_app. Qed.

Lemma first_group_labelled (g : L) (bs : list block) :
  Forall (fun b => has_first_label g b = true) (first_group_of g bs).
Proof.
  apply Forall_forall. intros b Hb. apply filter_In in Hb. tauto.
Qed.

Lemma col_group_blocks_first_label (svd_r : list (option (list Q))) (br : list matrix)
    (ik : nat) (g : L) (bs : list block) :
  Forall (fun b => has_first_label g b = true)
         (col_group_blocks svd_r br (ik, (g, first_group_of g bs))).
Proof.
  unfold col_group_blocks. cbn [fst snd].
  destruct (nth ik svd_r None); [|constructor].
  apply compress_col_blocks_first_label, first_group_labelled.
Qed.

Section Items.
Variables (svd_r : list (option (list Q))) (bl br : list matrix).
Variable bs : list block.

Let items (a : nat) (gs : list L) : list (nat * (L * list block)) :=
  combine (seq a (length gs)) (map (fun g => (g, first_group_of g bs)) gs).

Lemma col_blocks_of_absent (g : L) (gs : list L) (a : nat) :
  ~ In g gs -> first_group_of g (flat_map (col_group_blocks svd_r br) (items a gs)) = [].
Proof.
  revert a. induction gs as [|g' gs IH]; intros a Hn; [reflexivity|].
  unfold items. cbn [length seq map combine flat_map].
  rewrite first_group_app.
  rewrite (first_group_other g g') by
    (try apply col_group_blocks_first_label; intro E; apply Hn; left; exact E).
  apply IH. intro H. apply Hn. right. exact H.
Qed.

Lemma col_blocks_of_group (g : L) (gs : list L) (a ik : nat) :
  NoDup gs -> nth_error gs ik = Some g ->
  first_group_of g (flat_map (col_group_blocks svd_r br) (items a gs))
  = col_group_blocks svd_r br (a + ik, (g, first_group_of g bs)).
Proof.
  revert a ik. induction gs as [|g' gs IH]; intros a ik Hnd Hg;
    [destruct ik; discriminate|].
  inversion Hnd as [|? ? Hn Hnd']; subst.
  unfold items. cbn [length seq map combine flat_map].
  rewrite first_group_app. fold (items (Datatypes.S a) gs).
  destruct ik as [|ik]; simpl in Hg.
  - inversion Hg; subst g'. rewrite Nat.add_0_r.
    rewrite first_group_same by apply col_group_blocks_first_label.
    rewrite col_blocks_of_absent by exact Hn. apply app_nil_r.
  - rewrite (first_group_other g g').
    + rewrite (IH _ ik Hnd' Hg). simpl. f_equal. f_equal. lia.
    + intro E. subst g'. apply Hn. exact (nth_error_In _ _ Hg).
    + apply col_group_blocks_first_label.
Qed.

Lemma col_carry_of_absent (g : L) (gs : list L) (a : nat) (lmap : dict L (ndarray Q)) :
  ~ In g gs ->
  dict_get q_eqb (fold_left (col_group_carry svd_r bl) (items a gs) lmap) g
  = dict_get q_eqb lmap g.
Proof.
  revert a lmap. induction gs as [|g' gs IH]; intros a lmap Hn; [reflexivity|].
  unfold items. cbn [length seq map combine fold_left].
  fold (items (Datatypes.S a) gs). rewrite IH by (intro H; apply Hn; right; exact H).
  unfold col_group_carry. cbn [fst snd].
  destruct (nth a svd_r None); [|reflexivity].
  rewrite (dict_get_set _ _ _ q_eqb_spec).
  destruct (q_eqb_spec g' g) as [E|_]; [|reflexivity].
  exfalso. apply Hn. left. exact E.
Qed.

Lemma col_carry_of_group (g : L) (gs : list L) (a ik : nat) (lmap : dict L (ndarray Q)) :
  NoDup gs -> nth_error gs ik = Some g ->
  dict_get q_eqb (fold_left (col_group_carry svd_r bl) (items a gs) lmap) g
  = match nth (a + ik) svd_r None with
    | Some sk =>
        Some (as_array (scaled_cols sk (nth (a + ik) bl (mkMatrix 0 0 []))))
    | None => dict_get q_eqb lmap g
    end.
Proof.
  revert a ik lmap. induction gs as [|g' gs IH]; intros a ik lmap Hnd Hg;
    [destruct ik; discriminate|].
  inversion Hnd as [|? ? Hn Hnd']; subst.
  unfold items. cbn [length seq map combine fold_left].
  fold (items (Datatypes.S a) gs).
  destruct ik as [|ik]; simpl in Hg.
  - inversion Hg; subst g'. rewrite Nat.add_0_r.
    rewrite col_carry_of_absent by exact Hn.
    unfold col_group_carry. cbn [fst snd].
    destruct (nth a svd_r None); [|reflexivity].
    rewrite (dict_get_set _ _ _ q_eqb_spec).
    destruct (q_eqb_spec g g); [reflexivity|congruence].
  - rewrite (IH _ ik _ Hnd' Hg).
    replace (Datatypes.S a + ik) with (a + Datatypes.S ik) by lia.
    destruct (nth (a + Datatypes.S ik) svd_r None); [reflexivity|].
    unfold col_group_carry. cbn [fst snd].
    destruct (nth a svd_r None); [|reflexivity].
    rewrite (dict_get_set _ _ _ q_eqb_spec).
    destruct (q_eqb_spec g' g) as [E|_]; [|reflexivity].
    exfalso. subst g'. apply Hn. exact (nth_error_In _ _ Hg).
Qed.

(** The matrices of the map, in the order of the groups. *)
Lemma col_carry_values (gs : list L) (a : nat) (lmap : dict L (ndarray Q)) :
  NoDup gs -> (forall g, In g gs -> dict_get q_eqb lmap g = None) ->
  dict_values (fold_left (col_group_carry svd_r bl) (items a gs) lmap)
  = dict_values lmap
    ++ flat_map (fun i => match nth i svd_r None with
                          | Some sk =>
                              [as_array (scaled_cols sk (nth i bl (mkMatrix 0 0 [])))]
                          | None => []
                          end) (seq a (length gs)).
Proof.
  revert a lmap. induction gs as [|g' gs IH]; intros a lmap Hnd Hfresh.
  - simpl. rewrite app_nil_r. reflexivity.
  - inversion Hnd as [|? ? Hn Hnd']; subst.
    unfold items. cbn [length seq map combine fold_left flat_map].
    fold (items (Datatypes.S a) gs).
    unfold col_group_carry at 2. cbn [fst snd].
    destruct (nth a svd_r None) as [sk|].
    + rewrite IH.
      * rewrite dict_set_absent by (apply Hfresh; left; reflexivity).
        unfold dict_values. rewrite map_app, <- app_assoc. reflexivity.
      * exact Hnd'.
      * intros g Hg. rewrite (dict_get_set _ _ _ q_eqb_spec).
        destruct (q_eqb_spec g' g) as [E|_]; [subst; contradiction|].
        apply Hfresh. right. exact Hg.
    + rewrite IH; [reflexivity|exact Hnd'|].
      intros g Hg. apply Hfresh. right. exact Hg.
Qed.

End Items.

(** The blocks with their slices, flattened again, are the slices. *)
Lemma flatten_col_slices (vh : matrix) :
  length (entries vh) = nrows vh * ncols vh ->
  forall (bs : list block) (a : nat),
    Forall (fun b => trailing_size b <> 0 /\ tl (shape (reduced b)) <> []) bs ->
    a + fold_right Nat.add 0 (map trailing_size bs) <= ncols vh ->
    mapM flatten_cols
         (map (with_col_slice (nrows vh))
              (combine (col_pieces vh a (map trailing_size bs)) bs))
    = Ok (map as_array (col_pieces vh a (map trailing_size bs))).
Proof.
  intro Hlen. induction bs as [|b bs IH]; intros a Hne Ha; [reflexivity|].
  inversion Hne as [|? ? [Hb Htl] Hne']; subst.
  cbn [map col_pieces combine mapM fold_right] in *.
  rewrite IH by (assumption || lia).
  assert (Hflat : flatten_cols (with_col_slice (nrows vh)
                                  (col_block vh a (trailing_size b), b))
                  = Ok (as_array (col_block vh a (trailing_size b)))).
  { unfold flatten_cols, with_col_slice, reshape_trailing.
    cbn [fst snd reduced shape tl data].
    destruct (tl (shape (reduced b))) as [|x0 l0] eqn:Et; [congruence|].
    unfold reshape_cols. cbn [data].
    assert (Els : size_of (x0 :: l0) = trailing_size b)
      by (unfold trailing_size; rewrite Et; reflexivity).
    rewrite Els.
    rewrite (col_block_length vh Hlen a (trailing_size b)) by lia.
    destruct (Nat.eqb_spec (trailing_size b) 0) as [E|_]; [contradiction|].
    rewrite Nat.Div0.mod_mul, Nat.div_mul by exact Hb. reflexivity. }
  rewrite Hflat. reflexivity.
Qed.

(** The blocks with the slices of a matrix, side by side, are the
    matrix. *)
Lemma hstacked_slices (vh : matrix) (bs : list block) (mat : ndarray Q) :
  hstacked bs = Ok mat ->
  ncols vh = hd 0 (tl (shape mat)) ->
  length (entries vh) = nrows vh * ncols vh ->
  hstacked (compress_col_blocks vh bs) = Ok (as_array vh).
Proof.
  intros Hst Hn Hlen.
  destruct (hstacked_shape _ _ Hst) as (Hne & Hls & rm & Hmat).
  rewrite Hmat in Hn. simpl in Hn.
  unfold hstacked, compress_col_blocks.
  rewrite (flatten_col_slices vh Hlen bs 0 Hls) by (simpl; lia).
  cbn [bind].
  apply (concatenate_col_pieces vh Hlen).
  - destruct bs; [congruence|discriminate].
  - symmetry. exact Hn.
Qed.

End RightCompressGroups.

(** *** The result of [right_compress], group by group *)

Section RightCompressResult.
Context {L : Type} `{QL : QuantumLabel L}.
Variable svd : ndarray Q -> matrix * list Q * matrix.

#[local] Abbreviation block := (SubTensor L (ndarray Q)).

Lemma col_group_mat_hstacked (bs : list block) (g : L) (mat : ndarray Q) :
  hstacked (first_group_of g bs) = Ok mat -> col_group_mat bs g = mat.
Proof. intro H. unfold col_group_mat. rewrite H. reflexivity. Qed.

Lemma first_labels_complete (bs : list block) (g : L) :
  Forall (fun b : block => q_labels b <> []) bs ->
  (In g (first_labels bs) <-> first_group_of g bs <> []) /\ NoDup (first_labels bs).
Proof.
  intro Hlab. destruct (collect_col_blocks_total bs [] Hlab) as [d Hd].
  destruct (collect_col_blocks_groups bs d Hd) as (_ & Hnd & Hin).
  split; [apply Hin|exact Hnd].
Qed.

Lemma In_compress_col_blocks (vh : matrix) (bs : list block) (nb : block) :
  In nb (compress_col_blocks vh bs) ->
  exists b, In b bs /\ q_labels nb = q_labels b /\
            shape (reduced nb) = nrows vh :: tl (shape (reduced b)).
Proof.
  pose proof (compress_col_blocks_Forall2 vh bs) as H2.
  induction H2 as [|b nb' bs nbs Hb _ IH]; intros Hin; [contradiction|].
  destruct Hin as [<-|Hin].
  - exists b. split; [left; reflexivity|exact Hb].
  - destruct (IH Hin) as (b' & Hb' & H'). exists b'. split; [right; exact Hb'|exact H'].
Qed.

(** What a run of [right_compress] returns: for the group of every first
    label, the blocks with the slices of the kept rows of the right
    factor, and in the map the kept columns of the left factor scaled by
    the kept singular values; nothing for a group that keeps no value. *)
Lemma right_compress_groups (self : SparseTensor L (ndarray Q)) (k : Z) (cutoff : Q) :
  let bs := blocks self in
  let gs := first_labels bs in
  let svd_s := map (col_group_s svd bs) gs in
  let res := truncate_singular_values svd_s k cutoff in
  Forall (fun b : block =>
            q_labels b <> [] /\ length (shape (reduced b)) = length (q_labels b)) bs ->
  (forall g, first_group_of g bs <> [] ->
     exists mat, hstacked (first_group_of g bs) = Ok mat /\ svd_shapes svd mat) ->
  exists t lmap,
    right_compress svd self k cutoff = Ok (t, lmap, snd res) /\
    (ftype t = ftype self /\ delta_quantum t = None) /\
    (forall g, first_group_of g bs = [] ->
       first_group_of g (blocks t) = [] /\ dict_get q_eqb lmap g = None) /\
    (forall ik g, nth_error gs ik = Some g ->
       match nth ik (snd (fst res)) None with
       | Some gl =>
           gl <> [] /\ StronglySorted lt gl /\
           Forall (fun j => j < length (col_group_s svd bs g)) gl /\
           first_group_of g (blocks t)
           = compress_col_blocks (rows (col_group_vh svd bs g) gl)
               (first_group_of g bs) /\
           dict_get q_eqb lmap g
           = Some (as_array (scaled_cols (take (col_group_s svd bs g) gl)
                                         (cols (col_group_u svd bs g) gl)))
       | None => first_group_of g (blocks t) = [] /\ dict_get q_eqb lmap g = None
       end) /\
    Forall (fun b => exists g, has_first_label g b = true) (blocks t).
Proof.
  intros bs gs svd_s res Hwf Hsvd0.
  assert (Hlab : Forall (fun b : block => q_labels b <> []) bs).
  { apply Forall_impl with (2 := Hwf). tauto. }
  destruct (collect_col_blocks_total bs [] Hlab) as [d Hd].
  destruct (collect_col_blocks_groups bs d Hd) as (_ & Hnd & Hin).
  fold gs in Hnd, Hin.
  assert (Hsvd : forall g, In g gs ->
                   hstacked (first_group_of g bs) = Ok (col_group_mat bs g) /\
                   svd_shapes svd (col_group_mat bs g)).
  { intros g Hg. destruct (Hsvd0 g (proj1 (Hin g) Hg)) as (mat & Hst & Hsh).
    rewrite (col_group_mat_hstacked _ _ _ Hst). split; assumption. }
  pose proof (right_compress_run svd self k cutoff Hwf Hsvd) as Hrun.
  cbv zeta in Hrun. fold bs gs svd_s in Hrun.
  set (trl := truncate_loops svd_s k cutoff) in *.
  set (bl := map (fun x => kept_cols svd_s (fst x) (fst (snd x)) (snd (snd x)))
                 (enumerate (combine (ts_gls trl) (map (col_group_u svd bs) gs)))) in *.
  set (br := map (fun x => kept_rows svd_s (fst x) (fst (snd x)) (snd (snd x)))
                 (enumerate (combine (ts_gls trl) (map (col_group_vh svd bs) gs)))) in *.
  assert (Eitems : enumerate (map (fun g => (g, first_group_of g bs)) gs)
                   = combine (seq 0 (length gs)) (map (fun g => (g, first_group_of g bs)) gs)).
  { unfold enumerate. rewrite length_map. reflexivity. }
  rewrite Eitems in Hrun.
  assert (Egls : snd (fst res) = ts_gls trl) by reflexivity.
  eexists. eexists. split; [exact Hrun|]. split; [split; reflexivity|].
  cbn [blocks]. split; [|split].
  - intros g Hg.
    assert (Hn : ~ In g gs) by (intro H; apply (proj1 (Hin g) H); exact Hg).
    split; [apply col_blocks_of_absent; exact Hn|].
    rewrite col_carry_of_absent by exact Hn. reflexivity.
  - intros ik g Eg.
    rewrite (col_blocks_of_group (ts_svd_r trl) br bs g gs 0 ik Hnd Eg).
    rewrite (col_carry_of_group (ts_svd_r trl) bl bs g gs 0 ik [] Hnd Eg).
    rewrite Egls. cbn [Nat.add].
    unfold col_group_blocks. cbn [fst snd].
    destruct (kept_values svd_s k cutoff ik) as [Hv Hk]. fold trl in Hv, Hk.
    rewrite Hv.
    destruct (nth ik (ts_gls trl) None) as [gl|] eqn:Egl; cbn [option_map];
      [|split; reflexivity].
    destruct (Hk gl eq_refl) as (Hne & Hsorted & Hb).
    assert (Es : nth ik svd_s [] = col_group_s svd bs g).
    { apply nth_error_nth. unfold svd_s. apply map_nth_error. exact Eg. }
    destruct (truncate_loops_length svd_s k cutoff) as [Lg Lr].
    fold trl in Lg, Lr.
    assert (Hik : ik < length gs) by (apply nth_error_Some; congruence).
    assert (Ln : length svd_s = length gs) by (unfold svd_s; apply length_map).
    assert (Egl' : nth_error (ts_gls trl) ik = Some (Some gl)).
    { rewrite (nth_error_nth' _ None) by lia. rewrite Egl. reflexivity. }
    assert (Ebl : nth ik bl (mkMatrix 0 0 [])
                  = kept_cols svd_s ik (Some gl) (col_group_u svd bs g)).
    { unfold bl.
      rewrite (nth_map_enumerate _ _ ik (Some gl, col_group_u svd bs g)); [reflexivity|].
      apply nth_error_combine; [exact Egl'|apply map_nth_error; exact Eg]. }
    assert (Ebr : nth ik br (mkMatrix 0 0 [])
                  = kept_rows svd_s ik (Some gl) (col_group_vh svd bs g)).
    { unfold br.
      rewrite (nth_map_enumerate _ _ ik (Some gl, col_group_vh svd bs g)); [reflexivity|].
      apply nth_error_combine; [exact Egl'|apply map_nth_error; exact Eg]. }
    destruct (Hsvd g (nth_error_In _ _ Eg)) as [Hst Hsh].
    assert (Hfac : length (entries (col_group_u svd bs g))
                   = nrows (col_group_u svd bs g) * ncols (col_group_u svd bs g) /\
                   ncols (col_group_u svd bs g) = length (col_group_s svd bs g) /\
                   length (entries (col_group_vh svd bs g))
                   = nrows (col_group_vh svd bs g) * ncols (col_group_vh svd bs g) /\
                   nrows (col_group_vh svd bs g) = length (col_group_s svd bs g)).
    { unfold svd_shapes in Hsh. unfold col_group_u, col_group_vh, col_group_s.
      destruct (svd (col_group_mat bs g)) as [[u s] vh]. cbn [fst snd].
      destruct Hsh as (n & p & _ & Hnu & Hcu & Heu & Hnv & Hcv & Hev).
      rewrite Hnu, Hcu, Hnv, Hcv. auto. }
    destruct Hfac as (Heu & Hcu & Hev & Hnv).
    rewrite Es in Hb.
    rewrite Ebl, Ebr.
    rewrite kept_cols_cols by (rewrite ?Es; assumption).
    rewrite kept_rows_rows by (rewrite ?Es; assumption).
    rewrite Es. repeat split; try assumption.
  - apply Forall_forall. intros b Hb. apply in_flat_map in Hb.
    destruct Hb as ([ik [g bsg]] & Hitem & Hb).
    apply in_combine_r, in_map_iff in Hitem. destruct Hitem as (g' & E & _).
    inversion E; subst g' bsg. exists g.
    pose proof (col_group_blocks_first_label (ts_svd_r trl) br ik g bs) as H.
    rewrite Forall_forall in H. apply H. exact Hb.
Qed.

(** The columns of the matrices of the map are as many as the kept
    indices. *)
Lemma right_compress_cols (self : SparseTensor L (ndarray Q)) (k : Z) (cutoff : Q) :
  let bs := blocks self in
  let svd_s := map (col_group_s svd bs) (first_labels bs) in
  Forall (fun b : block =>
            q_labels b <> [] /\ length (shape (reduced b)) = length (q_labels b)) bs ->
  (forall g, first_group_of g bs <> [] ->
     exists mat, hstacked (first_group_of g bs) = Ok mat /\ svd_shapes svd mat) ->
  exists t lmap error,
    right_compress svd self k cutoff = Ok (t, lmap, error) /\
    list_sum (map (fun l => hd 0 (tl (shape l))) (dict_values lmap))
    = kept_count (ts_gls (truncate_loops svd_s k cutoff)).
Proof.
  intros bs svd_s Hwf Hsvd0.
  assert (Hlab : Forall (fun b : block => q_labels b <> []) bs).
  { apply Forall_impl with (2 := Hwf). tauto. }
  set (gs := first_labels bs) in *.
  assert (Hnd : NoDup gs) by (apply (first_labels_complete bs q_zero Hlab)).
  assert (Hsvd : forall g, In g gs ->
                   hstacked (first_group_of g bs) = Ok (col_group_mat bs g) /\
                   svd_shapes svd (col_group_mat bs g)).
  { intros g Hg.
    destruct (Hsvd0 g (proj1 (proj1 (first_labels_complete bs g Hlab)) Hg))
      as (mat & Hst & Hsh).
    rewrite (col_group_mat_hstacked _ _ _ Hst). split; assumption. }
  pose proof (right_compress_run svd self k cutoff Hwf Hsvd) as Hrun.
  cbv zeta in Hrun. fold bs gs svd_s in Hrun.
  set (trl := truncate_loops svd_s k cutoff) in *.
  set (bl := map (fun x => kept_cols svd_s (fst x) (fst (snd x)) (snd (snd x)))
                 (enumerate (combine (ts_gls trl) (map (col_group_u svd bs) gs)))) in *.
  assert (Eitems : enumerate (map (fun g => (g, first_group_of g bs)) gs)
                   = combine (seq 0 (length gs)) (map (fun g => (g, first_group_of g bs)) gs)).
  { unfold enumerate. rewrite length_map. reflexivity. }
  rewrite Eitems in Hrun.
  eexists. eexists. eexists. split; [exact Hrun|].
  rewrite (col_carry_values (ts_svd_r trl) bl bs gs 0 [] Hnd (fun _ _ => eq_refl)).
  cbn [dict_values map app].
  destruct (truncate_loops_length svd_s k cutoff) as [Lg _]. fold trl in Lg.
  assert (Ln : length svd_s = length gs) by (unfold svd_s; apply length_map).
  unfold kept_count. rewrite <- (map_nth_seq None (ts_gls trl)) at 1.
  rewrite Lg, Ln, map_map.
  clear Hrun Eitems Lg Ln. generalize (seq 0 (length gs)) as l.
  induction l as [|i l IH]; [reflexivity|].
  cbn [flat_map map list_sum]. rewrite map_app, list_sum_app, IH.
  destruct (kept_values svd_s k cutoff i) as [Hv _]. fold trl in Hv. rewrite Hv.
  destruct (nth i (ts_gls trl) None) as [gl|]; [|reflexivity].
  cbn [option_map map list_sum as_array shape hd tl scaled_cols ncols].
  rewrite take_length. unfold list_sum. cbn [fold_right map]. lia.
Qed.

End RightCompressResult.

(** *** What [right_compress] returns *)

Section RightCompressTheorems.
Context {L : Type} `{QL : QuantumLabel L}.
Variable svd : ndarray Q -> matrix * list Q * matrix.

#[local] Abbreviation block := (SubTensor L (ndarray Q)).

Lemma rows_well_formed (v : matrix) (gl : list nat) :
  length (entries (rows v gl)) = nrows (rows v gl) * ncols (rows v gl).
Proof.
  unfold rows. cbn [nrows ncols entries].
  apply length_flat_map_const. intro i. apply mrow_length.
Qed.

Lemma svd_shapes_col_group (bs : list block) (g : L) (mat : ndarray Q) :
  hstacked (first_group_of g bs) = Ok mat -> svd_shapes svd mat ->
  nrows (col_group_u svd bs g) = hd 0 (shape mat) /\
  ncols (col_group_u svd bs g) = length (col_group_s svd bs g) /\
  length (entries (col_group_u svd bs g))
  = nrows (col_group_u svd bs g) * ncols (col_group_u svd bs g) /\
  nrows (col_group_vh svd bs g) = length (col_group_s svd bs g) /\
  ncols (col_group_vh svd bs g) = hd 0 (tl (shape mat)) /\
  length (entries (col_group_vh svd bs g))
  = nrows (col_group_vh svd bs g) * ncols (col_group_vh svd bs g).
Proof.
  intros Hst Hsh. unfold col_group_u, col_group_s, col_group_vh.
  rewrite (col_group_mat_hstacked _ _ _ Hst). unfold svd_shapes in Hsh.
  destruct (svd mat) as [[u s] vh]. cbn [fst snd].
  destruct Hsh as (n & p & Hshape & Hnu & Hcu & Heu & Hnv & Hcv & Hev).
  rewrite Hshape. cbn [hd tl]. repeat split; congruence.
Qed.

(** X25. What [right_compress] returns on a collection whose blocks have
    labels and one extent for each label, when the blocks of every first
    label, flattened over their trailing legs and put side by side, are a
    matrix and [np.linalg.svd] gives factors of the shapes it promises:
    the error of [truncate_singular_values] on the singular values of the
    groups, in the order in which the first labels first appear; a
    collection with the tag of the operand and no [delta_quantum]; for a
    group that keeps the indices [gl], blocks that side by side are the
    rows [gl] of the right factor and, under its label, the columns [gl] of
    the left factor, each times its singular value; for a group that keeps
    nothing, no block and no entry. *)
Theorem right_compress_factors (self : SparseTensor L (ndarray Q)) (k : Z) (cutoff : Q) :
  let bs := blocks self in
  let svd_s := map (col_group_s svd bs) (first_labels bs) in
  let res := truncate_singular_values svd_s k cutoff in
  Forall (fun b : block =>
            q_labels b <> [] /\ length (shape (reduced b)) = length (q_labels b)) bs ->
  (forall g, first_group_of g bs <> [] ->
     exists mat, hstacked (first_group_of g bs) = Ok mat /\ svd_shapes svd mat) ->
  exists t lmap,
    right_compress svd self k cutoff = Ok (t, lmap, snd res) /\
    ftype t = ftype self /\ delta_quantum t = None /\
    forall ik g, nth_error (first_labels bs) ik = Some g ->
      match nth ik (snd (fst res)) None with
      | Some gl =>
          hstacked (first_group_of g (blocks t))
          = Ok (as_array (rows (col_group_vh svd bs g) gl)) /\
          dict_get q_eqb lmap g
          = Some (as_array (scaled_cols (take (col_group_s svd bs g) gl)
                                        (cols (col_group_u svd bs g) gl)))
      | None => first_group_of g (blocks t) = [] /\ dict_get q_eqb lmap g = None
      end.
Proof.
  intros bs svd_s res Hwf Hsvd.
  destruct (right_compress_groups svd self k cutoff Hwf Hsvd)
    as (t & lmap & Hrun & Htag & _ & Hgroups & _).
  fold bs svd_s res in Hrun, Hgroups.
  exists t, lmap. split; [exact Hrun|].
  split; [exact (proj1 Htag)|]. split; [exact (proj2 Htag)|].
  intros ik g Eg. specialize (Hgroups ik g Eg).
  destruct (nth ik (snd (fst res)) None) as [gl|]; [|exact Hgroups].
  destruct Hgroups as (_ & _ & _ & Hb & Hr). split; [|exact Hr].
  rewrite Hb.
  assert (Hlab : Forall (fun b : block => q_labels b <> []) bs).
  { apply Forall_impl with (2 := Hwf). tauto. }
  destruct (Hsvd g (proj1 (proj1 (first_labels_complete bs g Hlab))
                      (nth_error_In _ _ Eg))) as (mat & Hst & Hsh).
  destruct (svd_shapes_col_group bs g mat Hst Hsh) as (_ & _ & _ & _ & Hc & _).
  apply (hstacked_slices (rows (col_group_vh svd bs g) gl) (first_group_of g bs) mat Hst).
  - exact Hc.
  - apply rows_well_formed.
Qed.

(** X26. The new bond: every block that [right_compress] returns has a first
    label that is a key of the returned map, its first extent is positive
    and is the number of columns of the matrix under that label; and every
    key of the map is the first label of a returned block. *)
Theorem right_compress_bond (self : SparseTensor L (ndarray Q)) (k : Z) (cutoff : Q) :
  let bs := blocks self in
  Forall (fun b : block =>
            q_labels b <> [] /\ length (shape (reduced b)) = length (q_labels b)) bs ->
  (forall g, first_group_of g bs <> [] ->
     exists mat, hstacked (first_group_of g bs) = Ok mat /\ svd_shapes svd mat) ->
  exists t lmap error,
    right_compress svd self k cutoff = Ok (t, lmap, error) /\
    (forall b, In b (blocks t) ->
       exists g l n,
         py_index (q_labels b) 0 = Ok g /\
         dict_get q_eqb lmap g = Some l /\
         shape l = [n; hd 0 (shape (reduced b))] /\
         0 < hd 0 (shape (reduced b))) /\
    (forall g, dict_get q_eqb lmap g <> None -> first_group_of g (blocks t) <> []).
Proof.
  intros bs Hwf Hsvd.
  destruct (right_compress_groups svd self k cutoff Hwf Hsvd)
    as (t & lmap & Hrun & _ & Habsent & Hgroups & Hfirst).
  fold bs in Hrun, Hgroups, Habsent.
  assert (Hlab : Forall (fun b : block => q_labels b <> []) bs).
  { apply Forall_impl with (2 := Hwf). tauto. }
  exists t, lmap. eexists. split; [exact Hrun|]. split.
  - intros b Hb. rewrite Forall_forall in Hfirst.
    destruct (Hfirst b Hb) as [g Hg].
    assert (Hbg : In b (first_group_of g (blocks t))).
    { apply filter_In. split; assumption. }
    assert (Hgb : first_group_of g bs <> []).
    { intro E. rewrite (proj1 (Habsent g E)) in Hbg. exact Hbg. }
    apply (first_labels_complete bs g Hlab) in Hgb as Hin.
    destruct (In_nth_error _ _ Hin) as [ik Eg].
    specialize (Hgroups ik g Eg).
    destruct (nth ik _ None) as [gl|];
      [|rewrite (proj1 Hgroups) in Hbg; contradiction].
    destruct Hgroups as (Hne & _ & _ & Hblocks & Hr).
    rewrite Hblocks in Hbg. apply In_compress_col_blocks in Hbg.
    destruct Hbg as (b0 & _ & _ & Hshape).
    exists g. eexists. exists (nrows (col_group_u svd bs g)).
    split; [|split; [exact Hr|split]].
    + unfold has_first_label in Hg.
      destruct (py_index (q_labels b) 0) as [q|]; [|discriminate].
      destruct (q_eqb_spec q g); [congruence|discriminate].
    + rewrite Hshape. cbn [as_array scaled_cols shape nrows ncols rows cols hd].
      rewrite take_length. reflexivity.
    + rewrite Hshape. cbn [rows nrows hd]. destruct gl; [congruence|simpl; lia].
  - intros g Hg.
    assert (Hgb : first_group_of g bs <> []).
    { intro E. apply Hg. apply (Habsent g E). }
    apply (first_labels_complete bs g Hlab) in Hgb as Hin.
    destruct (In_nth_error _ _ Hin) as [ik Eg].
    specialize (Hgroups ik g Eg).
    destruct (nth ik _ None) as [gl|]; [|exfalso; apply Hg; apply Hgroups].
    destruct Hgroups as (_ & _ & _ & Hblocks & _).
    rewrite Hblocks. intro E. apply Hgb.
    apply length_zero_iff_nil.
    pose proof (compress_col_blocks_Forall2 (rows (col_group_vh svd bs g) gl)
                  (first_group_of g bs)) as H2.
    apply Forall2_length in H2. rewrite H2, E. reflexivity.
Qed.

(** X27. The total bond dimension after [right_compress]: the columns of the
    matrices of the returned map are as many as the singular values that
    [truncate_singular_values] keeps, hence at most [k] for a bound that is
    not negative. *)
Theorem right_compress_bond_dimension (self : SparseTensor L (ndarray Q)) (k : Z)
    (cutoff : Q) :
  let bs := blocks self in
  let svd_s := map (col_group_s svd bs) (first_labels bs) in
  Forall (fun b : block =>
            q_labels b <> [] /\ length (shape (reduced b)) = length (q_labels b)) bs ->
  (forall g, first_group_of g bs <> [] ->
     exists mat, hstacked (first_group_of g bs) = Ok mat /\ svd_shapes svd mat) ->
  exists t lmap error,
    right_compress svd self k cutoff = Ok (t, lmap, error) /\
    list_sum (map (fun l => hd 0 (tl (shape l))) (dict_values lmap))
    = let n := count_above svd_s cutoff in
      if (k =? -1)%Z then n
      else if (0 <=? k)%Z then Nat.min (Z.to_nat k) n
      else n - Z.to_nat (- k).
Proof.
  intros bs svd_s Hwf Hsvd.
  destruct (right_compress_cols svd self k cutoff Hwf Hsvd)
    as (t & lmap & error & Hrun & Hcols).
  exists t, lmap, error. split; [exact Hrun|].
  rewrite Hcols. fold bs svd_s. rewrite kept_count_length. apply length_ss_trunc.
Qed.

(** X28. The bond after [right_compress]: [get_state_info] of the first leg of
    the returned collection returns, and it gives every first label the
    number of columns of the matrix of the label in the returned map; the map
    has no entry for the other labels. *)
Theorem right_compress_state_info (self : SparseTensor L (ndarray Q)) (k : Z)
    (cutoff : Q) :
  let bs := blocks self in
  Forall (fun b : block =>
            q_labels b <> [] /\ length (shape (reduced b)) = length (q_labels b)) bs ->
  (forall g, first_group_of g bs <> [] ->
     exists mat, hstacked (first_group_of g bs) = Ok mat /\ svd_shapes svd mat) ->
  exists t lmap error si,
    right_compress svd self k cutoff = Ok (t, lmap, error) /\
    get_state_info t 0 = Ok si /\
    forall g, match dict_get q_eqb (quanta si) g with
              | Some n => exists r p, dict_get q_eqb lmap g = Some r /\ shape r = [p; n]
              | None => dict_get q_eqb lmap g = None
              end.
Proof.
  intros bs Hwf Hsvd.
  destruct (right_compress_groups svd self k cutoff Hwf Hsvd)
    as (t & lmap & Hrun & _ & Habsent & Hgroups & Hfirst).
  fold bs in Hrun, Hgroups, Habsent.
  assert (Hlab : Forall (fun b : block => q_labels b <> []) bs).
  { apply Forall_impl with (2 := Hwf). tauto. }
  set (gs := first_labels bs) in *.
  set (gls := snd (fst (truncate_singular_values (map (col_group_s svd bs) gs) k cutoff)))
    in *.
  assert (Hnd : NoDup gs) by (apply (first_labels_complete bs q_zero Hlab)).
  (* the first leg of a returned block *)
  assert (Hleg : forall b g, In b (blocks t) -> has_first_label g b = true ->
            exists ik gl r p,
              nth_error gs ik = Some g /\ nth ik gls None = Some gl /\
              leg 0 b = Ok (g, length gl) /\
              dict_get q_eqb lmap g = Some r /\ shape r = [p; length gl]).
  { intros b g Hb Hg.
    assert (Hbg : In b (first_group_of g (blocks t))).
    { apply filter_In. split; assumption. }
    assert (Hgb : first_group_of g bs <> []).
    { intro E. rewrite (proj1 (Habsent g E)) in Hbg. exact Hbg. }
    apply (first_labels_complete bs g Hlab) in Hgb as Hin.
    destruct (In_nth_error _ _ Hin) as [ik Eg].
    pose proof (Hgroups ik g Eg) as Hik. fold gls in Hik.
    destruct (nth ik gls None) as [gl|] eqn:Egl;
      [|rewrite (proj1 Hik) in Hbg; contradiction].
    destruct Hik as (_ & _ & _ & Hblocks & Hr).
    rewrite Hblocks in Hbg. apply In_compress_col_blocks in Hbg.
    destruct Hbg as (b0 & _ & _ & Hshape).
    exists ik, gl. eexists. exists (nrows (col_group_u svd bs g)).
    split; [exact Eg|]. split; [exact Egl|]. split; [|split; [exact Hr|]].
    - unfold leg. rewrite Hshape.
      unfold has_first_label in Hg.
      destruct (py_index (q_labels b) 0) as [q|]; [|discriminate].
      destruct (q_eqb_spec q g); [subst q; reflexivity|discriminate].
    - cbn [as_array scaled_cols shape nrows ncols rows cols].
      rewrite take_length. reflexivity. }
  assert (Hunique : forall b g g' n, In b (blocks t) -> has_first_label g b = true ->
            leg 0 b = Ok (g', n) -> g' = g).
  { intros b g g' n Hb Hg Hl.
    destruct (Hleg b g Hb Hg) as (_ & gl & _ & _ & _ & _ & Hl' & _).
    rewrite Hl' in Hl. inversion Hl. reflexivity. }
  assert (Hall : Forall (fun b => exists qn, leg 0 b = Ok qn) (blocks t)).
  { apply Forall_forall. intros b Hb. rewrite Forall_forall in Hfirst.
    destruct (Hfirst b Hb) as [g Hg].
    destruct (Hleg b g Hb Hg) as (_ & gl & _ & _ & _ & _ & Hl & _). eauto. }
  assert (Hsame : forall b1 b2 q n1 n2, In b1 (blocks t) -> In b2 (blocks t) ->
            leg 0 b1 = Ok (q, n1) -> leg 0 b2 = Ok (q, n2) -> n1 = n2).
  { intros b1 b2 q n1 n2 H1 H2 L1 L2. rewrite Forall_forall in Hfirst.
    destruct (Hfirst b1 H1) as [g1 Hg1]. destruct (Hfirst b2 H2) as [g2 Hg2].
    pose proof (Hunique b1 g1 q n1 H1 Hg1 L1) as E1.
    pose proof (Hunique b2 g2 q n2 H2 Hg2 L2) as E2. subst g1 g2.
    destruct (Hleg b1 q H1 Hg1) as (ik1 & gl1 & _ & _ & Ek1 & Eg1 & Hl1 & _).
    destruct (Hleg b2 q H2 Hg2) as (ik2 & gl2 & _ & _ & Ek2 & Eg2 & Hl2 & _).
    assert (Eik : ik1 = ik2).
    { apply (proj1 (NoDup_nth_error gs) Hnd).
      - apply nth_error_Some. congruence.
      - congruence. }
    subst ik2. rewrite Eg1 in Eg2. inversion Eg2; subst gl2.
    rewrite Hl1 in L1. rewrite Hl2 in L2. congruence. }
  destruct (state_info_loop_ok Q 0 (blocks t) [] Hall) as [qmap Hq].
  { intros b q n d _ _ Hd. discriminate Hd. }
  { exact Hsame. }
  destruct (state_info_loop Q 0 (blocks t) [] qmap Hq (NoDup_nil _))
    as (_ & _ & Hin & Hfrom).
  exists t, lmap. eexists. exists (mkStateInfo qmap).
  split; [exact Hrun|]. split.
  { unfold get_state_info. rewrite Hq. reflexivity. }
  intro g. cbn [quanta].
  destruct (dict_get q_eqb qmap g) as [n|] eqn:En.
  - destruct (Hfrom g) as [H0|(b & n' & Hb & Hl)]; [congruence|contradiction H0; reflexivity|].
    destruct (Hin b Hb) as (q & n'' & Hl' & Hg').
    rewrite Hl in Hl'. inversion Hl'; subst q n''. rewrite En in Hg'.
    inversion Hg'; subst n'.
    rewrite Forall_forall in Hfirst. destruct (Hfirst b Hb) as [g' Hgl].
    pose proof (Hunique b g' g n Hb Hgl Hl) as E. subst g'.
    destruct (Hleg b g Hb Hgl) as (_ & gl & r & p & _ & _ & Hl2 & Hr & Hs).
    rewrite Hl in Hl2. inversion Hl2; subst n. eauto.
  - destruct (dict_get q_eqb lmap g) as [r|] eqn:Er; [exfalso|reflexivity].
    assert (Hgb : first_group_of g bs <> []).
    { intro E. rewrite (proj2 (Habsent g E)) in Er. discriminate. }
    apply (first_labels_complete bs g Hlab) in Hgb as Hing.
    destruct (In_nth_error _ _ Hing) as [ik Eg].
    pose proof (Hgroups ik g Eg) as Hik. fold gls in Hik.
    destruct (nth ik gls None) as [gl|];
      [|rewrite (proj2 Hik) in Er; discriminate].
    destruct Hik as (_ & _ & _ & Hblocks & _).
    destruct (first_group_of g (blocks t)) as [|b l] eqn:Egt.
    + apply Hgb. apply length_zero_iff_nil.
      pose proof (compress_col_blocks_Forall2 (rows (col_group_vh svd bs g) gl)
                    (first_group_of g bs)) as H2.
      apply Forall2_length in H2. rewrite H2, <- Hblocks. reflexivity.
    + assert (Hb : In b (first_group_of g (blocks t))) by (rewrite Egt; left; reflexivity).
      apply filter_In in Hb. destruct Hb as [Hb Hgl].
      destruct (Hin b Hb) as (q & n & Hl & Hg').
      pose proof (Hunique b g q n Hb Hgl Hl) as E. subst q. congruence.
Qed.

Section RightTolerance.
Variable close : Q -> Q -> Prop.

(** X29. When the right factors of [np.linalg.svd] are row-orthonormal, the
    blocks of every first label of the collection that [right_compress]
    returns, flattened over their trailing legs and put side by side, are
    a row-orthonormal matrix, for every [k] and [cutoff]. *)
Theorem right_compress_orthonormal (self : SparseTensor L (ndarray Q)) (k : Z)
    (cutoff : Q) :
  let bs := blocks self in
  Forall (fun b : block =>
            q_labels b <> [] /\ length (shape (reduced b)) = length (q_labels b)) bs ->
  (forall g, first_group_of g bs <> [] ->
     exists mat, hstacked (first_group_of g bs) = Ok mat /\ svd_shapes svd mat /\
       row_orthonormal Qplus Qmult 0%Q 1%Q close (as_array (snd (svd mat)))) ->
  exists t lmap error,
    right_compress svd self k cutoff = Ok (t, lmap, error) /\
    forall g, first_group_of g (blocks t) <> [] ->
      exists m, hstacked (first_group_of g (blocks t)) = Ok m /\
                row_orthonormal Qplus Qmult 0%Q 1%Q close m.
Proof.
  intros bs Hwf Hsvd.
  assert (Hsvd' : forall g, first_group_of g bs <> [] ->
            exists mat, hstacked (first_group_of g bs) = Ok mat /\ svd_shapes svd mat).
  { intros g Hg. destruct (Hsvd g Hg) as (mat & H1 & H2 & _). eauto. }
  destruct (right_compress_groups svd self k cutoff Hwf Hsvd')
    as (t & lmap & Hrun & _ & Habsent & Hgroups & _).
  fold bs in Hrun, Hgroups, Habsent.
  exists t, lmap. eexists. split; [exact Hrun|].
  intros g Hg.
  assert (Hlab : Forall (fun b : block => q_labels b <> []) bs).
  { apply Forall_impl with (2 := Hwf). tauto. }
  assert (Hgb : first_group_of g bs <> []).
  { intro E. apply Hg. apply (Habsent g E). }
  apply (first_labels_complete bs g Hlab) in Hgb as Hin.
  destruct (In_nth_error _ _ Hin) as [ik Eg].
  specialize (Hgroups ik g Eg).
  destruct (nth ik _ None) as [gl|]; [|exfalso; apply Hg; apply Hgroups].
  destruct Hgroups as (_ & Hsorted & Hbound & Hb & _).
  destruct (Hsvd g Hgb) as (mat & Hst & Hsh & Ho).
  destruct (svd_shapes_col_group bs g mat Hst Hsh) as (_ & _ & _ & Hnv & Hc & _).
  exists (as_array (rows (col_group_vh svd bs g) gl)). split.
  - rewrite Hb.
    apply (hstacked_slices (rows (col_group_vh svd bs g) gl) (first_group_of g bs) mat Hst).
    + exact Hc.
    + apply rows_well_formed.
  - apply row_orthonormal_rows.
    + unfold col_group_vh. rewrite (col_group_mat_hstacked _ _ _ Hst). exact Ho.
    + apply StronglySorted_lt_NoDup. exact Hsorted.
    + rewrite Hnv. exact Hbound.
Qed.

(** X30. With [k = -1] and a cutoff that no singular value is below, when
    every group has a singular value and the product of the factors of
    [np.linalg.svd] is the matrix of the group: [right_compress] returns
    the error 0 and, for every group, an entry [l] of the map and blocks
    that side by side are a matrix [m], such that the product of [l] and
    [m] is the matrix of the group. *)
Theorem right_compress_exact (self : SparseTensor L (ndarray Q)) (cutoff : Q) :
  let bs := blocks self in
  Forall (fun b : block =>
            q_labels b <> [] /\ length (shape (reduced b)) = length (q_labels b)) bs ->
  (forall g, first_group_of g bs <> [] ->
     exists mat, hstacked (first_group_of g bs) = Ok mat /\ svd_shapes svd mat /\
       let '(u, s, vh) := svd mat in
       s <> [] /\ Forall (fun v => (cutoff <= v)%Q) s /\
       product_is Qplus Qmult 0%Q close
         (as_array (scaled_cols s u)) (as_array vh) mat) ->
  exists t lmap,
    right_compress svd self (-1) cutoff = Ok (t, lmap, 0%R) /\
    forall g mat, hstacked (first_group_of g bs) = Ok mat ->
      exists l m,
        dict_get q_eqb lmap g = Some l /\
        hstacked (first_group_of g (blocks t)) = Ok m /\
        product_is Qplus Qmult 0%Q close l m mat.
Proof.
  intros bs Hwf Hsvd.
  assert (Hlab : Forall (fun b : block => q_labels b <> []) bs).
  { apply Forall_impl with (2 := Hwf). tauto. }
  assert (Hsvd' : forall g, first_group_of g bs <> [] ->
            exists mat, hstacked (first_group_of g bs) = Ok mat /\ svd_shapes svd mat).
  { intros g Hg. destruct (Hsvd g Hg) as (mat & H1 & H2 & _). eauto. }
  set (svd_s := map (col_group_s svd bs) (first_labels bs)).
  assert (Hc : Forall (Forall (fun v => (cutoff <= v)%Q)) svd_s).
  { apply Forall_forall. intros s Hs. unfold svd_s in Hs. apply in_map_iff in Hs.
    destruct Hs as (g & <- & Hg).
    destruct (Hsvd g (proj1 (proj1 (first_labels_complete bs g Hlab)) Hg))
      as (mat & Hst & _ & Hfac).
    unfold col_group_s. rewrite (col_group_mat_hstacked _ _ _ Hst).
    destruct (svd mat) as [[u s] vh]. apply Hfac. }
  destruct (right_compress_groups svd self (-1) cutoff Hwf Hsvd')
    as (t & lmap & Hrun & _ & _ & Hgroups & _).
  fold bs svd_s in Hrun, Hgroups.
  rewrite (all_kept_error svd_s cutoff Hc) in Hrun.
  exists t, lmap. split; [exact Hrun|].
  intros g mat Hst.
  assert (Hgb : first_group_of g bs <> []) by (apply (hstacked_shape _ _ Hst)).
  apply (first_labels_complete bs g Hlab) in Hgb as Hin.
  destruct (In_nth_error _ _ Hin) as [ik Eg].
  specialize (Hgroups ik g Eg).
  unfold truncate_singular_values in Hgroups. cbv zeta in Hgroups.
  cbn [fst snd] in Hgroups.
  rewrite (all_kept_gls svd_s cutoff ik Hc) in Hgroups.
  assert (Es : nth ik svd_s [] = col_group_s svd bs g).
  { apply nth_error_nth. unfold svd_s. apply map_nth_error. exact Eg. }
  rewrite Es in Hgroups.
  destruct (Hsvd g Hgb) as (mat' & Hst' & Hsh & Hfac).
  rewrite Hst in Hst'. inversion Hst'; subst mat'; clear Hst'.
  destruct (svd_shapes_col_group bs g mat Hst Hsh) as (Hn & Hcu & Heu & Hnv & Hcv & Hev).
  unfold col_group_u, col_group_s, col_group_vh in *.
  rewrite (col_group_mat_hstacked _ _ _ Hst) in *.
  destruct (svd mat) as [[u s] vh]. cbn [fst snd] in *.
  destruct Hfac as (Hne & _ & Hprod).
  destruct s as [|v s']; [congruence|].
  set (s := v :: s') in *.
  change (group_entry (seq 0 (length s))) with (Some (seq 0 (length s))) in Hgroups.
  destruct Hgroups as (_ & _ & _ & Hblocks & Hr).
  rewrite take_all in Hr.
  rewrite <- Hcu in Hr. rewrite (cols_all u Heu) in Hr.
  rewrite <- Hnv in Hblocks. rewrite (rows_all vh Hev) in Hblocks.
  exists (as_array (scaled_cols s u)), (as_array vh).
  split; [exact Hr|]. split; [|exact Hprod].
  rewrite Hblocks. apply (hstacked_slices vh (first_group_of g bs) mat Hst Hcv Hev).
Qed.

End RightTolerance.

End RightCompressTheorems.

(** *** The example *)

Lemma right_compress_example_labelled :
  Forall (fun b : SubTensor Z (ndarray Q) =>
            q_labels b <> [] /\ length (shape (reduced b)) = length (q_labels b))
         (blocks right_compress_example).
Proof. repeat constructor; discriminate. Qed.

Lemma right_compress_example_factors (g : Z) :
  first_group_of g (blocks right_compress_example) <> [] ->
  exists mat,
    hstacked (first_group_of g (blocks right_compress_example)) = Ok mat /\
    svd_shapes svd_of_diagonal mat /\
    row_orthonormal Qplus Qmult 0%Q 1%Q Qeq (as_array (snd (svd_of_diagonal mat))) /\
    let '(u, s, vh) := svd_of_diagonal mat in
    s <> [] /\ Forall (fun v => (0 <= v)%Q) s /\
    product_is Qplus Qmult 0%Q Qeq (as_array (scaled_cols s u)) (as_array vh) mat.
Proof.
  intro Hne.
  destruct (Z.eq_dec g 5) as [E5|N5]; [|destruct (Z.eq_dec g 7) as [E7|N7]].
  - subst g. exists (mkArray [2; 2] [3; 0; 0; 1 # 2]%Q). split; [reflexivity|].
    split; [exists 2, 2; repeat split|]. split.
    + exists 2, 2. split; [reflexivity|].
      intros [|[|i]] [|[|j]] Hi Hj; try lia; reflexivity.
    + split; [discriminate|]. split; [repeat constructor; discriminate|].
      exists 2, 2, 2. repeat split.
      intros [|[|i]] [|[|j]] Hi Hj; try lia; reflexivity.
  - subst g. exists (mkArray [1; 1] [2]%Q). split; [reflexivity|].
    split; [exists 1, 1; repeat split|]. split.
    + exists 1, 1. split; [reflexivity|].
      intros [|i] [|j] Hi Hj; try lia; reflexivity.
    + split; [discriminate|]. split; [repeat constructor; discriminate|].
      exists 1, 1, 1. repeat split.
      intros [|i] [|j] Hi Hj; try lia; reflexivity.
  - exfalso. apply Hne. unfold first_group_of. apply filter_none.
    intros b [<-|[<-|[<-|[]]]].
    + change ((5 =? g)%Z = false). apply Z.eqb_neq. congruence.
    + change ((7 =? g)%Z = false). apply Z.eqb_neq. congruence.
    + change ((5 =? g)%Z = false). apply Z.eqb_neq. congruence.
Qed.

Lemma right_compress_example_shapes (g : Z) :
  first_group_of g (blocks right_compress_example) <> [] ->
  exists mat,
    hstacked (first_group_of g (blocks right_compress_example)) = Ok mat /\
    svd_shapes svd_of_diagonal mat.
Proof.
  intro H. destruct (right_compress_example_factors g H) as (mat & H1 & H2 & _). eauto.
Qed.

Lemma right_compress_factors_witness :
  exists t lmap error,
    right_compress svd_of_diagonal right_compress_example (-1) 1%Q
    = Ok (t, lmap, error) /\
    ftype t = ThreeIndexMPSTensor /\ delta_quantum t = None /\
    hstacked (first_group_of 5%Z (blocks t)) = Ok (mkArray [1; 2] [1; 0]%Q) /\
    dict_get q_eqb lmap 5%Z = Some (mkArray [2; 1] [3; 0]%Q).
Proof.
  destruct (right_compress_factors svd_of_diagonal right_compress_example (-1)%Z 1%Q
              right_compress_example_labelled right_compress_example_shapes)
    as (t & lmap & Hrun & Htag & Hdq & Hgroups).
  exists t, lmap. eexists. split; [exact Hrun|].
  split; [exact Htag|]. split; [exact Hdq|].
  exact (Hgroups 0 5%Z eq_refl).
Defined.

Lemma right_compress_bond_witness :
  exists t lmap error,
    right_compress svd_of_diagonal right_compress_example 2 0%Q = Ok (t, lmap, error) /\
    (forall b, In b (blocks t) ->
       exists g l n,
         py_index (q_labels b) 0 = Ok g /\
         dict_get q_eqb lmap g = Some l /\
         shape l = [n; hd 0 (shape (reduced b))] /\
         0 < hd 0 (shape (reduced b))) /\
    (forall g, dict_get q_eqb lmap g <> None -> first_group_of g (blocks t) <> []).
Proof.
  exact (right_compress_bond svd_of_diagonal right_compress_example 2%Z 0%Q
           right_compress_example_labelled right_compress_example_shapes).
Defined.

(** Three singular values, of which the bound 2 keeps two. *)
Lemma right_compress_bond_dimension_witness :
  exists t lmap error,
    right_compress svd_of_diagonal right_compress_example 2 0%Q = Ok (t, lmap, error) /\
    list_sum (map (fun l => hd 0 (tl (shape l))) (dict_values lmap)) = 2.
Proof.
  exact (right_compress_bond_dimension svd_of_diagonal right_compress_example 2%Z 0%Q
           right_compress_example_labelled right_compress_example_shapes).
Defined.

Lemma right_compress_orthonormal_witness :
  exists t lmap error,
    right_compress svd_of_diagonal right_compress_example 2 0%Q = Ok (t, lmap, error) /\
    forall g, first_group_of g (blocks t) <> [] ->
      exists m, hstacked (first_group_of g (blocks t)) = Ok m /\
                row_orthonormal Qplus Qmult 0%Q 1%Q Qeq m.
Proof.
  refine (right_compress_orthonormal svd_of_diagonal Qeq right_compress_example 2%Z 0%Q
            right_compress_example_labelled _).
  intros g H. destruct (right_compress_example_factors g H) as (mat & H1 & H2 & H3 & _).
  exists mat. auto.
Defined.

Lemma right_compress_state_info_witness :
  exists t lmap error si,
    right_compress svd_of_diagonal right_compress_example 2 0%Q = Ok (t, lmap, error) /\
    get_state_info t 0 = Ok si /\
    forall g, match dict_get q_eqb (quanta si) g with
              | Some n => exists r p, dict_get q_eqb lmap g = Some r /\ shape r = [p; n]
              | None => dict_get q_eqb lmap g = None
              end.
Proof.
  exact (right_compress_state_info svd_of_diagonal right_compress_example 2%Z 0%Q
           right_compress_example_labelled right_compress_example_shapes).
Defined.

Lemma right_compress_exact_witness :
  exists t lmap,
    right_compress svd_of_diagonal right_compress_example (-1) 0%Q
    = Ok (t, lmap, 0%R) /\
    forall g mat, hstacked (first_group_of g (blocks right_compress_example)) = Ok mat ->
      exists l m,
        dict_get q_eqb lmap g = Some l /\
        hstacked (first_group_of g (blocks t)) = Ok m /\
        product_is Qplus Qmult 0%Q Qeq l m mat.
Proof.
  refine (right_compress_exact svd_of_diagonal Qeq right_compress_example 0%Q
            right_compress_example_labelled _).
  intros g H. destruct (right_compress_example_factors g H) as (mat & H1 & H2 & _ & H4).
  exists mat. auto.
Defined.
